(** * sqlglot expression trees: a shallow embedding of [sqlglot/expressions.py]

    The Python module defines the AST node class [Expression], its
    traversals ([walk], [bfs], [dfs], [find_all]), the rewriting pass
    [transform], structural equality and hashing (with the overrides of
    [Column] and [Literal]) and the positional argument binder
    [Func.from_arg_list].

    Python objects have identity and are mutated in place, so nodes live in
    a store indexed by locations; a node refers to its children by location
    and to its parent by a weak reference, which is a location that may no
    longer be allocated.  Recursion that follows the store (it may be cyclic)
    is driven by a fuel argument; the theorems about trees show that enough
    fuel always exists. *)

From Stdlib Require Import ZArith Ascii String Lia.
From stdpp Require Import base gmap strings option sorting pretty.
From stdpp Require Import list.

Open Scope string_scope.
Open Scope list_scope.
Open Scope nat_scope.

(** ** Values *)

(** Object identity of an [Expression] instance. *)
Abbreviation loc := nat (only parsing).

(** Modelled from the spec: the token class lives in [sqlglot/tokens.py],
    which is not part of this module.  A token is a leaf value that carries
    the kind of lexeme it came from and its text; it is compared by
    content. *)
Record Token := mkToken { token_type : string; text : string }.

#[global] Instance Token_eq_dec : EqDecision Token.
Proof. solve_decision. Defined.

(** What an argument slot, a positional argument or a callback result can
    hold: [None], an immutable builtin, a token, or a reference to a node. *)
Inductive value :=
| VNone
| VStr (s : string)
| VBool (b : bool)
| VInt (z : Z)
| VToken (t : Token)
| VNode (l : loc).

#[global] Instance value_eq_dec : EqDecision value.
Proof. solve_decision. Defined.

(** The value stored under one key of [args]: a single value or a list. *)
Inductive slot :=
| Single (v : value)
| Many (vs : list value).

#[global] Instance slot_eq_dec : EqDecision slot.
Proof. solve_decision. Defined.

(** [isinstance(v, list)] *)
Definition is_list_arg (v : slot) : bool :=
  match v with Many _ => true | Single _ => false end.

(** [x is None] *)
Definition is_None (v : value) : bool :=
  match v with VNone => true | _ => false end.

(** [isinstance(x, Expression)] *)
Definition isinstance_Expression (v : value) : bool :=
  match v with VNode _ => true | _ => false end.

(** ** Insertion-ordered dictionaries

    [args] is a Python [dict]: keys are unique and keep their insertion
    order, which the traversals, [transform] and [__hash__] observe. *)
Abbreviation dict A := (list (string * A)).

Fixpoint dict_get {A} (k : string) (d : dict A) : option A :=
  match d with
  | [] => None
  | (k', v) :: d' => if decide (k = k') then Some v else dict_get k d'
  end.

(** [d[k] = v]: overwrite in place when the key exists, append otherwise. *)
Fixpoint dict_set {A} (k : string) (v : A) (d : dict A) : dict A :=
  match d with
  | [] => [(k, v)]
  | (k', v') :: d' =>
      if decide (k = k') then (k, v) :: d' else (k', v') :: dict_set k v d'
  end.

Definition dict_keys {A} (d : dict A) : list string := d.*1.

(** ** Exceptions and results *)

Inductive exn :=
| ValueError        (* raised by [transform] itself *)
| AttributeError
| TypeError
| IndexError
| RuntimeError.     (* dictionary changed during iteration *)

#[global] Instance exn_eq_dec : EqDecision exn.
Proof. solve_decision. Defined.

(** Outcome of a computation: a value, a Python exception, a reference to a
    location that is not allocated (cannot happen in Python, where a strong
    reference keeps its referent alive), or exhausted fuel. *)
Inductive res (A : Type) :=
| Val (a : A)
| Exn (e : exn)
| Dangling
| OutOfFuel.
Arguments Val {A} a.
Arguments Exn {A} e.
Arguments Dangling {A}.
Arguments OutOfFuel {A}.

Definition res_bind {A B} (r : res A) (f : A → res B) : res B :=
  match r with
  | Val a => f a
  | Exn e => Exn e
  | Dangling => Dangling
  | OutOfFuel => OutOfFuel
  end.

(** ** Function variants and the argument binder *)

(** A class of the [Func] family: its name, its schema [arg_types] (in
    declaration order, with the required flag) and [is_var_len_args]. *)
Record variant := mkVariant {
  name : string;
  arg_types : dict bool;
  is_var_len_args : bool
}.

Definition Expression_arg_types : dict bool := [("this", true)].

Definition fn_ (n : string) : variant := mkVariant n Expression_arg_types false.

Definition Anonymous : variant :=
  mkVariant "Anonymous" [("this", true); ("expressions", false)] true.
Definition Array : variant :=
  mkVariant "Array" [("expressions", false)] true.
Definition Coalesce : variant :=
  mkVariant "Coalesce" [("this", true); ("expressions", false)] true.
Definition Greatest : variant :=
  mkVariant "Greatest" [("this", true); ("expressions", true)] true.
Definition Least : variant :=
  mkVariant "Least" [("this", true); ("expressions", true)] true.
Definition UnixToStr : variant :=
  mkVariant "UnixToStr" [("this", true); ("format", true)] false.

(** Every class below [Func] declared in the module, [Anonymous] included
    (the abstract [Func] and [AggFunc] carry the default schema). *)
Definition Func_variants : list variant :=
  [ fn_ "Func"; fn_ "AggFunc"; fn_ "Abs"; Anonymous;
    mkVariant "ApproxDistinct" [("this", true); ("accuracy", false)] false;
    Array; fn_ "ArrayAgg";
    mkVariant "ArrayContains" [("this", true); ("expression", true)] false;
    fn_ "ArraySize"; fn_ "Avg"; fn_ "Ceil"; Coalesce;
    mkVariant "Count" [("this", false); ("distinct", false)] false;
    mkVariant "DateAdd" [("this", true); ("expression", true); ("unit", false)] false;
    mkVariant "DateDiff" [("this", true); ("expression", true); ("unit", false)] false;
    fn_ "DateStrToDate"; fn_ "Day"; fn_ "Exp"; fn_ "Floor"; Greatest;
    mkVariant "If" [("this", true); ("true", true); ("false", false)] false;
    fn_ "Initcap";
    mkVariant "JSONPath" [("this", true); ("path", true)] false;
    Least; fn_ "Ln"; fn_ "Log10";
    mkVariant "Map" [("keys", true); ("values", true)] false;
    fn_ "Max"; fn_ "Min"; fn_ "Month";
    mkVariant "Pow" [("this", true); ("power", true)] false;
    mkVariant "Quantile" [("this", true); ("quantile", true)] false;
    mkVariant "RegexLike" [("this", true); ("expression", true)] false;
    mkVariant "Round" [("this", true); ("decimals", false)] false;
    mkVariant "StrPosition" [("this", true); ("substr", true); ("position", false)] false;
    mkVariant "StrToTime" [("this", true); ("format", true)] false;
    mkVariant "StrToUnix" [("this", true); ("format", true)] false;
    mkVariant "StructExtract" [("this", true); ("expression", true)] false;
    fn_ "Sum"; fn_ "Sqrt"; fn_ "Stddev"; fn_ "StddevPop"; fn_ "StddevSamp";
    mkVariant "TimeToStr" [("this", true); ("format", true)] false;
    fn_ "TimeToTimeStr"; fn_ "TimeToUnix"; fn_ "TimeStrToDate";
    fn_ "TimeStrToTime"; fn_ "TimeStrToUnix"; fn_ "TsOrDsToDateStr";
    fn_ "TsOrDsToDate"; UnixToStr; fn_ "UnixToTime"; fn_ "UnixToTimeStr";
    fn_ "Variance"; fn_ "VariancePop"; fn_ "VarianceSamp" ].

(** ** The classes and their schemas

    Every class of the module with its [arg_types], inherited ones
    included, in the order of the declarations. *)
Definition class_arg_types : list (string * list (string * bool)) :=
  [
    ("Expression", [("this", true)]);
    ("Create", [("this", true); ("kind", true); ("expression", false);
       ("exists", false); ("file_format", false); ("temporary", false);
       ("replace", false); ("engine", false); ("auto_increment", false);
       ("character_set", false); ("collate", false); ("comment", false)]);
    ("CharacterSet", [("this", true); ("default", false)]);
    ("CTE", [("this", true); ("expressions", true); ("recursive", false)]);
    ("Column", [("this", false); ("table", false); ("db", false);
       ("fields", false)]);
    ("ColumnDef", [("this", true); ("kind", true); ("auto_increment", false);
       ("comment", false); ("collate", false); ("default", false);
       ("not_null", false); ("primary", false)]);
    ("Drop", [("this", false); ("kind", false); ("exists", false)]);
    ("FileFormat", [("this", true)]);
    ("From", [("expressions", true)]);
    ("Having", [("this", true)]);
    ("Hint", [("this", true)]);
    ("Insert", [("this", true); ("expression", true); ("overwrite", false);
       ("exists", false)]);
    ("Group", [("expressions", true)]);
    ("Limit", [("this", true)]);
    ("Literal", [("this", true)]);
    ("Join", [("this", true); ("on", false); ("side", false); ("kind", false)]);
    ("Lateral", [("this", true); ("outer", false); ("table", false);
       ("columns", false)]);
    ("Order", [("expressions", true)]);
    ("Ordered", [("this", true); ("desc", false)]);
    ("Table", [("this", true); ("db", false)]);
    ("Tuple", [("expressions", true)]);
    ("Union", [("this", true); ("expression", true); ("distinct", true)]);
    ("Unnest", [("expressions", true); ("ordinality", false);
       ("table", false); ("columns", false)]);
    ("Update", [("this", true); ("expressions", true); ("where", false)]);
    ("Values", [("expressions", true)]);
    ("Schema", [("this", true); ("expressions", true)]);
    ("Select", [("expressions", true); ("hint", false); ("distinct", false);
       ("from", false); ("laterals", false); ("joins", false);
       ("where", false); ("group", false); ("having", false);
       ("order", false); ("limit", false)]);
    ("Window", [("this", true); ("partition", false); ("order", false);
       ("spec", false)]);
    ("WindowSpec", [("kind", false); ("start", false); ("start_side", false);
       ("end", false); ("end_side", false)]);
    ("Where", [("this", true)]);
    ("Star", []);
    ("Null", []);
    ("Binary", [("this", true); ("expression", true)]);
    ("And", [("this", true); ("expression", true)]);
    ("BitwiseAnd", [("this", true); ("expression", true)]);
    ("BitwiseLeftShift", [("this", true); ("expression", true)]);
    ("BitwiseOr", [("this", true); ("expression", true)]);
    ("BitwiseRightShift", [("this", true); ("expression", true)]);
    ("BitwiseXor", [("this", true); ("expression", true)]);
    ("Minus", [("this", true); ("expression", true)]);
    ("IntDiv", [("this", true); ("expression", true)]);
    ("Dot", [("this", true); ("expression", true)]);
    ("DPipe", [("this", true); ("expression", true)]);
    ("EQ", [("this", true); ("expression", true)]);
    ("GT", [("this", true); ("expression", true)]);
    ("GTE", [("this", true); ("expression", true)]);
    ("Is", [("this", true); ("expression", true)]);
    ("Like", [("this", true); ("expression", true)]);
    ("LT", [("this", true); ("expression", true)]);
    ("LTE", [("this", true); ("expression", true)]);
    ("Mod", [("this", true); ("expression", true)]);
    ("NEQ", [("this", true); ("expression", true)]);
    ("Or", [("this", true); ("expression", true)]);
    ("Plus", [("this", true); ("expression", true)]);
    ("Mul", [("this", true); ("expression", true)]);
    ("Div", [("this", true); ("expression", true)]);
    ("Unary", [("this", true)]);
    ("BitwiseNot", [("this", true)]);
    ("Not", [("this", true)]);
    ("Paren", [("this", true)]);
    ("Neg", [("this", true)]);
    ("Alias", [("this", true); ("alias", false)]);
    ("Between", [("this", true); ("low", true); ("high", true)]);
    ("Bracket", [("this", true); ("expressions", true)]);
    ("Case", [("this", false); ("ifs", true); ("default", false)]);
    ("Cast", [("this", true); ("to", true)]);
    ("Decimal", [("precision", false); ("scale", false)]);
    ("Extract", [("this", true); ("expression", true)]);
    ("In", [("this", true); ("expressions", false); ("query", false)]);
    ("Interval", [("this", true); ("unit", true)]);
    ("Func", [("this", true)]);
    ("AggFunc", [("this", true)]);
    ("Abs", [("this", true)]);
    ("Anonymous", [("this", true); ("expressions", false)]);
    ("ApproxDistinct", [("this", true); ("accuracy", false)]);
    ("Array", [("expressions", false)]);
    ("ArrayAgg", [("this", true)]);
    ("ArrayContains", [("this", true); ("expression", true)]);
    ("ArraySize", [("this", true)]);
    ("Avg", [("this", true)]);
    ("Ceil", [("this", true)]);
    ("Coalesce", [("this", true); ("expressions", false)]);
    ("Count", [("this", false); ("distinct", false)]);
    ("DateAdd", [("this", true); ("expression", true); ("unit", false)]);
    ("DateDiff", [("this", true); ("expression", true); ("unit", false)]);
    ("DateStrToDate", [("this", true)]);
    ("Day", [("this", true)]);
    ("Exp", [("this", true)]);
    ("Floor", [("this", true)]);
    ("Greatest", [("this", true); ("expressions", true)]);
    ("If", [("this", true); ("true", true); ("false", false)]);
    ("Initcap", [("this", true)]);
    ("JSONPath", [("this", true); ("path", true)]);
    ("Least", [("this", true); ("expressions", true)]);
    ("Ln", [("this", true)]);
    ("Log10", [("this", true)]);
    ("Map", [("keys", true); ("values", true)]);
    ("Max", [("this", true)]);
    ("Min", [("this", true)]);
    ("Month", [("this", true)]);
    ("Pow", [("this", true); ("power", true)]);
    ("Quantile", [("this", true); ("quantile", true)]);
    ("RegexLike", [("this", true); ("expression", true)]);
    ("Round", [("this", true); ("decimals", false)]);
    ("StrPosition", [("this", true); ("substr", true); ("position", false)]);
    ("StrToTime", [("this", true); ("format", true)]);
    ("StrToUnix", [("this", true); ("format", true)]);
    ("StructExtract", [("this", true); ("expression", true)]);
    ("Sum", [("this", true)]);
    ("Sqrt", [("this", true)]);
    ("Stddev", [("this", true)]);
    ("StddevPop", [("this", true)]);
    ("StddevSamp", [("this", true)]);
    ("TimeToStr", [("this", true); ("format", true)]);
    ("TimeToTimeStr", [("this", true)]);
    ("TimeToUnix", [("this", true)]);
    ("TimeStrToDate", [("this", true)]);
    ("TimeStrToTime", [("this", true)]);
    ("TimeStrToUnix", [("this", true)]);
    ("TsOrDsToDateStr", [("this", true)]);
    ("TsOrDsToDate", [("this", true)]);
    ("UnixToStr", [("this", true); ("format", true)]);
    ("UnixToTime", [("this", true)]);
    ("UnixToTimeStr", [("this", true)]);
    ("Variance", [("this", true)]);
    ("VariancePop", [("this", true)]);
    ("VarianceSamp", [("this", true)])
  ].

(** [type(e).arg_types] for the class named [c]. *)
Definition arg_types_of (c : string) : list (string * bool) :=
  default Expression_arg_types (dict_get c class_arg_types).

(** The binding a caller of the binder expects: keys paired with positional
    values in order, a [None] value leaving its key unbound.  Used to state
    what [from_arg_list] computes. *)
Definition bind_positional (keys : list string) (args : list value) : dict slot :=
  omap (λ '(k, a), if is_None a then None else Some (k, Single a)) (zip keys args).

(** The [for arg_key in non_var_len_arg_keys] loop of [from_arg_list],
    threading [args_dict] and [arg_idx]. *)
Fixpoint from_arg_list_loop (non_var_len_arg_keys : list string)
    (args : list value) (args_dict : dict slot) (arg_idx : nat)
  : dict slot * nat :=
  match non_var_len_arg_keys with
  | [] => (args_dict, arg_idx)
  | arg_key :: keys =>
      match args !! arg_idx with
      | None => (args_dict, arg_idx)                (* arg_idx >= args_num: break *)
      | Some a =>
          from_arg_list_loop keys args
            (if is_None a then args_dict else dict_set arg_key (Single a) args_dict)
            (S arg_idx)
      end
  end.

(** [Func.from_arg_list] up to the construction of the node: the keyword
    arguments [args_dict] handed to the class. *)
Definition from_arg_list_dict (cls : variant) (args : list value)
  : res (dict slot) :=
  let args_num := length args in
  let all_arg_keys := dict_keys (arg_types cls) in
  let non_var_len_arg_keys :=
    if is_var_len_args cls then removelast all_arg_keys else all_arg_keys in
  let '(args_dict, arg_idx) :=
    from_arg_list_loop non_var_len_arg_keys args [] 0 in
  if bool_decide (arg_idx < args_num) && is_var_len_args cls then
    match list.last all_arg_keys with
    | None => Exn IndexError
    | Some k => Val (dict_set k (Many (drop arg_idx args)) args_dict)
    end
  else Val args_dict.

(** ** Strings: [str.upper] and [str.lower]

    Python strings are modelled by their ASCII characters; the case mappings
    of non-ASCII letters are outside the model. *)
Definition upper_ascii (c : ascii) : ascii :=
  let n := nat_of_ascii c in
  if (97 <=? n)%nat && (n <=? 122)%nat then ascii_of_nat (n - 32) else c.

Definition lower_ascii (c : ascii) : ascii :=
  let n := nat_of_ascii c in
  if (65 <=? n)%nat && (n <=? 90)%nat then ascii_of_nat (n + 32) else c.

Fixpoint upper (s : string) : string :=
  match s with
  | EmptyString => EmptyString
  | String c s' => String (upper_ascii c) (upper s')
  end.

Fixpoint lower (s : string) : string :=
  match s with
  | EmptyString => EmptyString
  | String c s' => String (lower_ascii c) (lower s')
  end.

(** Position in the alphabet of a letter, whatever its case. *)
Definition letter_index (c : ascii) : option nat :=
  let n := nat_of_ascii c in
  if (65 <=? n)%nat && (n <=? 90)%nat then Some (n - 65)
  else if (97 <=? n)%nat && (n <=? 122)%nat then Some (n - 97)
  else None.

(** Two characters that are equal or are the two cases of one letter. *)
Definition same_letter (c1 c2 : ascii) : Prop :=
  c1 = c2 ∨ ∃ i, letter_index c1 = Some i ∧ letter_index c2 = Some i.

(** Two texts that differ only in letter case. *)
Inductive differ_in_case : string → string → Prop :=
| differ_in_case_nil : differ_in_case "" ""
| differ_in_case_cons c1 c2 s1 s2 :
    same_letter c1 c2 → differ_in_case s1 s2 →
    differ_in_case (String c1 s1) (String c2 s2).

(** ** Nodes and the store *)

(** An instance of [Expression] or of one of its subclasses: the name of
    its class and the attributes set by [__init__]. *)
Record Expression := mkExpression {
  cls : string;                 (* self.__class__.__name__ *)
  args : dict slot;
  _parent : option loc;         (* None, or weakref.ref(parent) *)
  arg_key : option string
}.

(** [self.key], set by [__init__] to the lowercased class name. *)
Definition key (e : Expression) : string := lower (cls e).

(** The class attribute [Expression.token_type]. *)
Definition Expression_token_type : option string := None.

(** The store maps a location to the object living there, or to nothing
    once the object has been destroyed.  Locations are never reused, so a
    weak reference to a destroyed object stays dead. *)
Abbreviation store := (list (option Expression)).

Definition deref (h : store) (l : loc) : option Expression :=
  match h !! l with Some (Some e) => Some e | _ => None end.

Definition alloc (e : Expression) (h : store) : loc * store :=
  (length h, h ++ [Some e]).

(** The object at [l] loses its last strong reference. *)
Definition destroy (l : loc) (h : store) : store := <[l := None]> h.

(** [Expression.__init__] with keyword arguments [kwargs] for the class named [c]. *)
Definition Expression_init (c : string) (kwargs : dict slot) (h : store)
  : loc * store :=
  alloc (mkExpression c kwargs None None) h.

(** [Func.from_arg_list]: bind the positional values, then build the node. *)
Definition from_arg_list (c : variant) (positional : list value) (h : store)
  : res loc * store :=
  match from_arg_list_dict c positional with
  | Val args_dict =>
      let '(l, h') := Expression_init (name c) args_dict h in (Val l, h')
  | Exn e => (Exn e, h)
  | Dangling => (Dangling, h)
  | OutOfFuel => (OutOfFuel, h)
  end.

(** The [parent] property: resolve the weak reference; a dead reference
    gives [None]. *)
Definition parent (h : store) (e : Expression) : option loc :=
  match _parent e with
  | None => None
  | Some p => match deref h p with Some _ => Some p | None => None end
  end.

(** The [parent] setter: [self._parent = weakref.ref(new_parent)]. *)
Definition set_parent (e : Expression) (new_parent : loc) : Expression :=
  mkExpression (cls e) (args e) (Some new_parent) (arg_key e).

(** The [depth] property. *)
Fixpoint depth (fuel : nat) (h : store) (self : loc) : res nat :=
  match fuel with
  | 0 => OutOfFuel
  | S fuel' =>
      match deref h self with
      | None => Dangling
      | Some e =>
          match parent h e with
          | Some p => res_bind (depth fuel' h p) (λ d, Val (d + 1))
          | None => Val 0
          end
      end
  end.

(** ** Traversals *)

(** Modelled from the spec: [ensure_list] lives in [sqlglot/helper.py],
    which is not part of this module; it wraps a bare value as a one-element
    sequence and leaves a sequence as it is. *)
Definition ensure_list (v : slot) : list value :=
  match v with
  | Many vs => vs
  | Single x => [x]
  end.

(** What a traversal yields: the item, its parent and the key it is stored
    under. *)
Definition triple : Type := value * option loc * option string.

(** The triples appended to the queue for the node [item] with
    attributes [e]: every value of every argument, in the order of [args]. *)
Definition children_triples (item : loc) (e : Expression) : list triple :=
  flat_map (λ '(k, v), map (λ node, (node, Some item, Some k)) (ensure_list v))
           (args e).

(** [queue.pop()]: remove and return the last element. *)
Definition pop {A} (queue : list A) : option (list A * A) :=
  match reverse queue with
  | [] => None
  | x :: r => Some (reverse r, x)
  end.

(** The [while queue] loop of [bfs], producing the list of yielded triples. *)
Fixpoint bfs_loop (fuel : nat) (h : store) (queue : list triple)
  : res (list triple) :=
  match fuel with
  | 0 => OutOfFuel
  | S fuel' =>
      match pop queue with
      | None => Val []
      | Some (queue', (item, parent_, key_)) =>
          match item with
          | VNode l =>
              match deref h l with
              | None => Dangling
              | Some e =>
                  res_bind (bfs_loop fuel' h (queue' ++ children_triples l e))
                           (λ rest, Val ((item, parent_, key_) :: rest))
              end
          | _ =>
              res_bind (bfs_loop fuel' h queue')
                       (λ rest, Val ((item, parent_, key_) :: rest))
          end
      end
  end.

Definition bfs (fuel : nat) (h : store) (self : loc) : res (list triple) :=
  match deref h self with
  | None => Dangling
  | Some e => bfs_loop fuel h [(VNode self, parent h e, None)]
  end.

(** The loops of [dfs] over the values of one argument and over the
    arguments, given the traversal [rec] of a child node. *)
Fixpoint dfs_nodes (rec : loc → option string → res (list triple))
    (self : loc) (k : string) (nodes : list value) : res (list triple) :=
  match nodes with
  | [] => Val []
  | node :: nodes' =>
      res_bind (match node with
                | VNode c => rec c (Some k)
                | _ => Val [(node, Some self, Some k)]
                end)
        (λ first, res_bind (dfs_nodes rec self k nodes')
                    (λ rest, Val (first ++ rest)))
  end.

Fixpoint dfs_items (rec : loc → option string → res (list triple))
    (self : loc) (items : dict slot) : res (list triple) :=
  match items with
  | [] => Val []
  | (k, v) :: items' =>
      res_bind (dfs_nodes rec self k (ensure_list v))
        (λ first, res_bind (dfs_items rec self items')
                    (λ rest, Val (first ++ rest)))
  end.

Fixpoint dfs (fuel : nat) (h : store) (self : loc) (parent_ : option loc)
    (key_ : option string) : res (list triple) :=
  match fuel with
  | 0 => OutOfFuel
  | S fuel' =>
      match deref h self with
      | None => Dangling
      | Some e =>
          res_bind (dfs_items (λ c k, dfs fuel' h c (Some self) k) self (args e))
                   (λ rest, Val ((VNode self, parent_, key_) :: rest))
      end
  end.

(** [walk(bfs=True)] *)
Definition walk (fuel : nat) (h : store) (self : loc) (bfs_ : bool)
  : res (list triple) :=
  if bfs_ then bfs fuel h self
  else match deref h self with
       | None => Dangling
       | Some e => dfs fuel h self (parent h e) None
       end.

(** [isinstance(expression, expression_types)], the types being given by
    the set of names of the classes they cover. *)
Definition isinstance (h : store) (expression_types : string → bool)
    (v : value) : bool :=
  match v with
  | VNode l => match deref h l with
               | Some e => expression_types (cls e)
               | None => false
               end
  | _ => false
  end.

(** [find_all]: the items of [walk()], in its default order, that are
    instances of one of the types. *)
Definition find_all (fuel : nat) (h : store) (self : loc)
    (expression_types : string → bool) : res (list value) :=
  res_bind (walk fuel h self true)
    (λ ts, Val (filter (λ v, isinstance h expression_types v = true) (map (λ t, t.1.1) ts))).

(** [find]: [next(self.find_all(...), None)].  The traversal is run to its
    end here; Python stops it at the first match. *)
Definition find (fuel : nat) (h : store) (self : loc)
    (expression_types : string → bool) : res value :=
  res_bind (find_all fuel h self expression_types)
    (λ vs, Val (match vs with v :: _ => v | [] => VNone end)).

(** A breadth-first traversal in the usual sense, for comparison: the same
    loop, but the queue is served from its head. *)
Fixpoint level_order_loop (fuel : nat) (h : store) (queue : list triple)
  : res (list triple) :=
  match fuel with
  | 0 => OutOfFuel
  | S fuel' =>
      match queue with
      | [] => Val []
      | (item, parent_, key_) :: queue' =>
          match item with
          | VNode l =>
              match deref h l with
              | None => Dangling
              | Some e =>
                  res_bind (level_order_loop fuel' h (queue' ++ children_triples l e))
                           (λ rest, Val ((item, parent_, key_) :: rest))
              end
          | _ =>
              res_bind (level_order_loop fuel' h queue')
                       (λ rest, Val ((item, parent_, key_) :: rest))
          end
      end
  end.

Definition level_order (fuel : nat) (h : store) (self : loc)
  : res (list triple) :=
  match deref h self with
  | None => Dangling
  | Some e => level_order_loop fuel h [(VNode self, parent h e, None)]
  end.

(** [parent_links h l n]: resolving the parent reference [n] times from [l]
    reaches a node without resolvable parent. *)
Inductive parent_links (h : store) : loc → nat → Prop :=
| parent_links_root l e :
    deref h l = Some e → parent h e = None → parent_links h l 0
| parent_links_child l e p n :
    deref h l = Some e → parent h e = Some p → parent_links h p n →
    parent_links h l (S n).

(** A root with two children of two children each. *)
Definition walk_example : store :=
  [ Some (mkExpression "And"
            [("this", Single (VNode 1)); ("expression", Single (VNode 2))]
            None None);
    Some (mkExpression "EQ"
            [("this", Single (VNode 3)); ("expression", Single (VNode 4))]
            (Some 0) None);
    Some (mkExpression "GT"
            [("this", Single (VNode 5)); ("expression", Single (VNode 6))]
            (Some 0) None);
    Some (mkExpression "Star" [] (Some 1) None);
    Some (mkExpression "Null" [] (Some 1) None);
    Some (mkExpression "Star" [] (Some 2) None);
    Some (mkExpression "Null" [] (Some 2) None) ].

(** The items of a list of triples. *)
Definition items (ts : list triple) : list value := map (λ t, t.1.1) ts.

(** ** Equality and hashing *)

(** Truth value of an object in a condition. *)
Definition truthy (v : value) : bool :=
  match v with
  | VNone => false
  | VStr s => negb (bool_decide (s = ""))
  | VBool b => b
  | VInt z => negb (bool_decide (z = 0%Z))
  | VToken _ => true
  | VNode _ => true
  end.

(** Sequential evaluation of a list of computations, stopping at the first
    that does not return. *)
Fixpoint res_mapM {A B} (f : A → res B) (l : list A) : res (list B) :=
  match l with
  | [] => Val []
  | a :: l' =>
      res_bind (f a) (λ b, res_bind (res_mapM f l') (λ bs, Val (b :: bs)))
  end.

(** [_token_arg_text(expression, kind)], given how the attribute [text] of
    the argument is read. *)
Definition _token_arg_text (attr_text : value → res (option string))
    (expression : Expression) (kind : string) : res (option string) :=
  match dict_get kind (args expression) with
  | None => Val None                                   (* args.get(kind) is None *)
  | Some (Single arg) => if truthy arg then attr_text arg else Val None
  | Some (Many []) => Val None
  | Some (Many (_ :: _)) => Exn AttributeError         (* a list has no text *)
  end.

(** [v.text]: the text of a token, the [text] property of a [Literal]
    node; nothing else has the attribute. *)
Fixpoint attr_text (fuel : nat) (h : store) (v : value) : res (option string) :=
  match v with
  | VToken t => Val (Some (text t))
  | VNode l =>
      match fuel with
      | 0 => OutOfFuel
      | S fuel' =>
          match deref h l with
          | None => Dangling
          | Some e =>
              if decide (cls e = "Literal")
              then _token_arg_text (attr_text fuel' h) e "this"
              else Exn AttributeError
          end
      end
  | _ => Exn AttributeError
  end.

(** [Literal.text] *)
Definition Literal_text (fuel : nat) (h : store) (e : Expression) :=
  _token_arg_text (attr_text fuel h) e "this".

(** [Column.name], [Column.table], [Column.db] *)
Definition Column_name (fuel : nat) (h : store) (e : Expression) :=
  _token_arg_text (attr_text fuel h) e "this".
Definition Column_table (fuel : nat) (h : store) (e : Expression) :=
  _token_arg_text (attr_text fuel h) e "table".
Definition Column_db (fuel : nat) (h : store) (e : Expression) :=
  _token_arg_text (attr_text fuel h) e "db".

(** [Column.fields]: [[t.text for t in fields] if fields else []] *)
Definition Column_fields (fuel : nat) (h : store) (e : Expression)
  : res (list (option string)) :=
  match dict_get "fields" (args e) with
  | None => Val []
  | Some (Many fields) => res_mapM (attr_text fuel h) fields
  | Some (Single v) =>
      if truthy v then
        match v with
        | VStr _ => Exn AttributeError   (* its characters have no text *)
        | _ => Exn TypeError             (* not iterable *)
        end
      else Val []
  end.

(** [(x or "").upper()] *)
Definition or_empty_upper (x : option string) : string := upper (default "" x).

(** [[f.upper() for f in fields]] *)
Definition fields_upper (fields : list (option string)) : res (list string) :=
  res_mapM (λ f, match f with
                 | Some s => Val (upper s)
                 | None => Exn AttributeError
                 end) fields.

(** Conjunction that evaluates its right operand only when the left one
    holds. *)
Definition res_and (a : res bool) (b : res bool) : res bool :=
  res_bind a (λ x, if x then b else Val false).

(** [Column.__eq__] *)
Definition Column_eq (fuel : nat) (h : store) (self : Expression)
    (other : value) : res bool :=
  match other with
  | VNode o =>
      match deref h o with
      | None => Dangling
      | Some eo =>
          if decide (cls eo = "Column") then
            res_and
              (res_bind (Column_name fuel h self) (λ a,
               res_bind (Column_name fuel h eo) (λ b,
               Val (bool_decide (or_empty_upper a = or_empty_upper b)))))
           (res_and
              (res_bind (Column_table fuel h self) (λ a,
               res_bind (Column_table fuel h eo) (λ b,
               Val (bool_decide (or_empty_upper a = or_empty_upper b)))))
           (res_and
              (res_bind (Column_db fuel h self) (λ a,
               res_bind (Column_db fuel h eo) (λ b,
               Val (bool_decide (or_empty_upper a = or_empty_upper b)))))
              (res_bind (Column_fields fuel h self) (λ fa,
               res_bind (fields_upper fa) (λ ua,
               res_bind (Column_fields fuel h eo) (λ fb,
               res_bind (fields_upper fb) (λ ub,
               Val (bool_decide (ua = ub)))))))))
          else Val false
      end
  | _ => Val false
  end.

(** The value handed to the builtin [hash].  The builtin is a function of
    that value, so two hashes agree, whatever the hash seed, when the values
    are equal, and differ otherwise, collisions of the builtin apart. *)
Unset Elimination Schemes.
Inductive hkey :=
| HNone
| HStr (s : string)
| HInt (z : Z)
| HToken (t : Token)
| HTuple (l : list hkey).
Set Elimination Schemes.

Definition hkey_of_text (x : option string) : hkey :=
  match x with Some s => HStr s | None => HNone end.

(** [Column.__hash__] *)
Definition Column_hash (fuel : nat) (h : store) (self : Expression) : res hkey :=
  res_bind (Column_name fuel h self) (λ n,
  res_bind (Column_table fuel h self) (λ t,
  res_bind (Column_db fuel h self) (λ d,
  res_bind (Column_fields fuel h self) (λ fs,
  res_bind (fields_upper fs) (λ us,
  Val (HTuple [HStr (key self); HStr (or_empty_upper n);
               HStr (or_empty_upper t); HStr (or_empty_upper d);
               HTuple (map HStr us)])))))).

(** [x.token_type] for [x = self.token], the value of [args.get("this")]:
    a token has the attribute, a node inherits the class attribute of
    [Expression]. *)
Definition attr_token_type (h : store) (x : option slot) : res (option string) :=
  match x with
  | Some (Single (VToken t)) => Val (Some (token_type t))
  | Some (Single (VNode l)) =>
      match deref h l with
      | Some _ => Val Expression_token_type
      | None => Dangling
      end
  | _ => Exn AttributeError
  end.

(** [Literal.__eq__] *)
Definition Literal_eq (fuel : nat) (h : store) (self : Expression)
    (other : value) : res bool :=
  match other with
  | VNode o =>
      match deref h o with
      | None => Dangling
      | Some eo =>
          if decide (cls eo = "Literal") then
            res_and
              (res_bind (Literal_text fuel h self) (λ a,
               res_bind (Literal_text fuel h eo) (λ b,
               Val (bool_decide (a = b)))))
              (res_bind (attr_token_type h (dict_get "this" (args self))) (λ a,
               res_bind (attr_token_type h (dict_get "this" (args eo))) (λ b,
               Val (bool_decide (a = b)))))
          else Val false
      end
  | _ => Val false
  end.

(** [Literal.__hash__]; [self.token_type] is the class attribute. *)
Definition Literal_hash (fuel : nat) (h : store) (self : Expression) : res hkey :=
  res_bind (Literal_text fuel h self) (λ t,
  Val (HTuple [HStr (key self); hkey_of_text t; hkey_of_text Expression_token_type])).

(** Comparison of two values as the containers do it: identical objects
    are equal, otherwise [==] decides; [node_eq x v] is [x.__eq__(v)]. *)
Definition compare_values (node_eq : loc → value → res bool) (a b : value)
  : res bool :=
  match a, b with
  | VNode x, VNode y => if decide (x = y) then Val true else node_eq x b
  | VNode x, _ => node_eq x b
  | _, VNode y => node_eq y a              (* the reflected [__eq__] *)
  | VNone, VNone => Val true
  | VStr s, VStr t => Val (bool_decide (s = t))
  | VBool x, VBool y => Val (bool_decide (x = y))
  | VInt x, VInt y => Val (bool_decide (x = y))
  | VBool x, VInt y | VInt y, VBool x => Val (bool_decide (Z.b2z x = y))
  | VToken t, VToken u => Val (bool_decide (t = u))
  | _, _ => Val false
  end.

(** [list.__eq__]: lists of different length differ; otherwise the first
    pair of unequal items decides. *)
Fixpoint compare_items (cmp : value → value → res bool) (xs ys : list value)
  : res bool :=
  match xs, ys with
  | [], [] => Val true
  | x :: xs', y :: ys' => res_and (cmp x y) (compare_items cmp xs' ys')
  | _, _ => Val false
  end.

Definition compare_slots (node_eq : loc → value → res bool) (a b : slot)
  : res bool :=
  match a, b with
  | Single x, Single y => compare_values node_eq x y
  | Many xs, Many ys =>
      if decide (length xs = length ys)
      then compare_items (compare_values node_eq) xs ys
      else Val false
  | _, _ => Val false
  end.

(** [dict.__eq__]: same size, and every key of the left dictionary is in
    the right one with an equal value. *)
Fixpoint compare_entries (node_eq : loc → value → res bool)
    (a b : dict slot) : res bool :=
  match a with
  | [] => Val true
  | (k, va) :: a' =>
      match dict_get k b with
      | None => Val false
      | Some vb => res_and (compare_slots node_eq va vb)
                           (compare_entries node_eq a' b)
      end
  end.

Definition compare_dicts (node_eq : loc → value → res bool)
    (a b : dict slot) : res bool :=
  if decide (length a = length b) then compare_entries node_eq a b
  else Val false.

(** [self.__eq__(other)], by the class of [self]: [Column.__eq__],
    [Literal.__eq__], or the inherited [Expression.__eq__]. *)
Fixpoint __eq__ (fuel : nat) (h : store) (self : loc) (other : value)
  : res bool :=
  match fuel with
  | 0 => OutOfFuel
  | S fuel' =>
      match deref h self with
      | None => Dangling
      | Some e =>
          if decide (cls e = "Column") then Column_eq fuel' h e other
          else if decide (cls e = "Literal") then Literal_eq fuel' h e other
          else
            match other with
            | VNode o =>
                match deref h o with
                | None => Dangling
                | Some eo =>
                    if decide (cls e = cls eo)
                    then compare_dicts (__eq__ fuel' h) (args e) (args eo)
                    else Val false
                end
            | _ => Val false
            end
      end
  end.

(** What [hash] receives for a value stored in [args]. *)
Definition hash_value (node_hash : loc → res hkey) (v : value) : res hkey :=
  match v with
  | VNone => Val HNone
  | VStr s => Val (HStr s)
  | VBool b => Val (HInt (Z.b2z b))
  | VInt z => Val (HInt z)
  | VToken t => Val (HToken t)
  | VNode l => node_hash l
  end.

(** [(k, tuple(v) if isinstance(v, list) else v)] *)
Definition hash_item (node_hash : loc → res hkey) (kv : string * slot)
  : res hkey :=
  res_bind (match kv.2 with
            | Many vs => res_bind (res_mapM (hash_value node_hash) vs)
                           (λ hs, Val (HTuple hs))
            | Single v => hash_value node_hash v
            end)
    (λ hv, Val (HTuple [HStr kv.1; hv])).

(** [self.__hash__()], by the class of [self]. *)
Fixpoint __hash__ (fuel : nat) (h : store) (self : loc) : res hkey :=
  match fuel with
  | 0 => OutOfFuel
  | S fuel' =>
      match deref h self with
      | None => Dangling
      | Some e =>
          if decide (cls e = "Column") then Column_hash fuel' h e
          else if decide (cls e = "Literal") then Literal_hash fuel' h e
          else
            res_bind (res_mapM (hash_item (__hash__ fuel' h)) (args e))
              (λ items, Val (HTuple [HStr (key e); HTuple items]))
      end
  end.

(** ** Rewriting: [deepcopy] and [transform] *)

(** The rewrite function handed to [transform]: it receives a node and the
    store, may allocate and mutate, and returns a value.  The dictionaries
    and lists held by nodes are values of the store, so a rewrite function
    changes them by writing the node that holds them; one that raises is
    outside the model. *)
Definition callback := loc → store → store * value.

(** The state threaded through a pass: the store, and the record of the
    calls made to the rewrite function (node passed, value returned), which
    only the theorems read. *)
Record state := mkState {
  heap : store;
  calls : list (loc * value)
}.

Definition M (A : Type) : Type := state → res A * state.

Definition ret {A} (a : A) : M A := λ st, (Val a, st).

Definition bind {A B} (m : M A) (f : A → M B) : M B :=
  λ st, match m st with
        | (Val a, st') => f a st'
        | (Exn e, st') => (Exn e, st')
        | (Dangling, st') => (Dangling, st')
        | (OutOfFuel, st') => (OutOfFuel, st')
        end.

Definition raise {A} (e : exn) : M A := λ st, (Exn e, st).

Definition out_of_fuel {A} : M A := λ st, (OutOfFuel, st).

Notation "'let*' x ':=' m 'in' k" := (bind m (λ x, k))
  (at level 10, x pattern, m at level 100, k at level 200).

Definition get_node (l : loc) : M Expression :=
  λ st, match deref (heap st) l with
        | Some e => (Val e, st)
        | None => (Dangling, st)
        end.

Definition put_node (l : loc) (e : Expression) : M unit :=
  λ st, (Val tt, mkState (<[l := Some e]> (heap st)) (calls st)).

Definition alloc_node (e : Expression) : M loc :=
  λ st, let '(l, h') := alloc e (heap st) in (Val l, mkState h' (calls st)).

(** [fun(node)], recorded. *)
Definition call (fun_ : callback) (node : loc) : M value :=
  λ st, let '(h', v) := fun_ node (heap st) in
        (Val v, mkState h' (calls st ++ [(node, v)])).

(** [copy.deepcopy] of a value, of a list of values and of the dictionary
    [args], given the copy [rec] of a node under a memo table. *)
Definition deepcopy_value (rec : gmap loc loc → loc → M (loc * gmap loc loc))
    (memo : gmap loc loc) (v : value) : M (value * gmap loc loc) :=
  match v with
  | VNode c => let* r := rec memo c in ret (VNode r.1, r.2)
  | _ => ret (v, memo)
  end.

Fixpoint deepcopy_values (rec : gmap loc loc → loc → M (loc * gmap loc loc))
    (memo : gmap loc loc) (vs : list value) : M (list value * gmap loc loc) :=
  match vs with
  | [] => ret ([], memo)
  | v :: vs' =>
      let* r := deepcopy_value rec memo v in
      let* rs := deepcopy_values rec r.2 vs' in
      ret (r.1 :: rs.1, rs.2)
  end.

Fixpoint deepcopy_items (rec : gmap loc loc → loc → M (loc * gmap loc loc))
    (memo : gmap loc loc) (items : dict slot) : M (dict slot * gmap loc loc) :=
  match items with
  | [] => ret ([], memo)
  | (k, v) :: items' =>
      let* r := match v with
                | Many vs => let* r := deepcopy_values rec memo vs in
                             ret (Many r.1, r.2)
                | Single x => let* r := deepcopy_value rec memo x in
                              ret (Single r.1, r.2)
                end in
      let* rs := deepcopy_items rec r.2 items' in
      ret ((k, r.1) :: rs.1, rs.2)
  end.

(** [copy.deepcopy] of a node: an object copied before is taken from the
    memo table; otherwise an empty instance of the class is created and
    entered in the table, the attributes are copied in order, and the
    instance receives them.  Strings, numbers and tokens are kept, and so is
    the weak reference [_parent], which the copy module shares. *)
Fixpoint deepcopy (fuel : nat) (memo : gmap loc loc) (x : loc)
  : M (loc * gmap loc loc) :=
  match fuel with
  | 0 => out_of_fuel
  | S fuel' =>
      match memo !! x with
      | Some y => ret (y, memo)
      | None =>
          let* e := get_node x in
          let* y := alloc_node (mkExpression (cls e) [] None None) in
          let* r := deepcopy_items (deepcopy fuel') (<[x := y]> memo) (args e) in
          let* _ := put_node y (mkExpression (cls e) r.1 (_parent e) (arg_key e)) in
          ret (y, r.2)
      end
  end.

(** [new_child_node.parent = new_node]: a node runs the setter of the
    [parent] property; a token, an instance of a plain class, takes the
    attribute, with no effect on the store; [None] and the builtin values
    reject it. *)
Definition assign_parent (new_child_node : value) (new_node : loc) : M unit :=
  match new_child_node with
  | VNode c => let* e := get_node c in put_node c (set_parent e new_node)
  | VToken _ => ret tt
  | _ => raise AttributeError
  end.

(** The loop [for cn in child_nodes], given the transformation [rec] of a
    child node; returns [new_child_nodes]. *)
Fixpoint transform_children (rec : loc → M value) (new_node : loc)
    (child_nodes : list value) : M (list value) :=
  match child_nodes with
  | [] => ret []
  | cn :: rest =>
      let* new_child_node :=
        match cn with
        | VNode c =>
            let* r := rec c in
            let* _ := assign_parent r new_node in
            ret r
        | _ => ret cn
        end in
      let* new_child_nodes := transform_children rec new_node rest in
      ret (new_child_node :: new_child_nodes)
  end.

(** The loop [for k, v in new_node.args.items()], over the keys [ks] still
    to visit.  The dictionary is read afresh at each step, and written to
    under the same key; the iterator raises when the keys are no longer
    those it started with, [keys0] (the interpreter tests their number: a
    rewrite function that removes a key of a dictionary under iteration
    and adds another is outside the model). *)
Fixpoint transform_items (rec : loc → M value) (new_node : loc)
    (keys0 ks : list string) : M unit :=
  let* e := get_node new_node in
  if decide (dict_keys (args e) = keys0) then
    match ks with
    | [] => ret tt
    | k :: ks' =>
        match dict_get k (args e) with
        | None => raise RuntimeError
        | Some v =>
            let child_nodes := match v with Many vs => vs | Single x => [x] end in
            let* new_child_nodes := transform_children rec new_node child_nodes in
            let* e' := get_node new_node in
            let* _ :=
              match is_list_arg v, new_child_nodes with
              | true, _ =>
                  put_node new_node
                    (mkExpression (cls e') (dict_set k (Many new_child_nodes) (args e'))
                                  (_parent e') (arg_key e'))
              | false, first :: _ =>
                  put_node new_node
                    (mkExpression (cls e') (dict_set k (Single first) (args e'))
                                  (_parent e') (arg_key e'))
              | false, [] => raise IndexError
              end in
            transform_items rec new_node keys0 ks'
        end
    end
  else raise RuntimeError.

(** [Expression.transform(fun, copy)] *)
Fixpoint transform (fuel : nat) (fun_ : callback) (self : loc) (copy : bool)
  : M value :=
  match fuel with
  | 0 => out_of_fuel
  | S fuel' =>
      let* node := (if copy then let* r := deepcopy fuel' ∅ self in ret r.1
                    else ret self) in
      let* new_node := call fun_ node in
      if is_None new_node then raise ValueError
      else if negb (isinstance_Expression new_node)
              || negb (bool_decide (new_node = VNode node))
      then ret new_node
      else
        let* e := get_node node in
        let* _ := transform_items (λ cn, transform fuel' fun_ cn false) node
                    (dict_keys (args e)) (dict_keys (args e)) in
        ret new_node
  end.

(** The rewrite function that returns its argument. *)
Definition identity : callback := λ node h, (h, VNode node).

(** ** Definitions used by the statements *)

(** Every entry written by the loop is a single value other than [None]. *)
Definition bound_single (kv : string * slot) : Prop :=
  ∃ a, kv.2 = Single a ∧ a ≠ VNone.

(** No [None] is recorded by the binder, for one variant and one input:
    neither as the value of a key nor inside a list. *)
Definition none_never_bound (cls : variant) (args : list value) : Prop :=
  ∀ d, from_arg_list_dict cls args = Val d →
    (∀ k, dict_get k d ≠ Some (Single VNone))
    ∧ (∀ k vs, dict_get k d = Some (Many vs) → VNone ∉ vs).

(** A root with one child, before and after the root is destroyed. *)
Definition depth_example : store :=
  [ Some (mkExpression "Paren" [("this", Single (VNode 1))] None None);
    Some (mkExpression "Null" [] (Some 0) None) ].

(** What the loop of [bfs] appends to the queue after it removed [t]. *)
Definition pushed (h : store) (t : triple) : res (list triple) :=
  match t.1.1 with
  | VNode l => match deref h l with
               | Some e => Val (children_triples l e)
               | None => Dangling
               end
  | _ => Val []
  end.

(** [Column(this=Foo, table=T)] and [Column(this=foo, table=t)], the
    arguments being identifier tokens with these texts. *)
Definition Column_example : store :=
  [ Some (mkExpression "Column"
            [("this", Single (VToken (mkToken "VAR" "Foo")));
             ("table", Single (VToken (mkToken "VAR" "T")))] None None);
    Some (mkExpression "Column"
            [("this", Single (VToken (mkToken "VAR" "foo")));
             ("table", Single (VToken (mkToken "VAR" "t")))] None None) ].

(** [EQ(this=Star(), expression=Null())] and
    [EQ(expression=Null(), this=Star())]: the same keyword arguments, given
    in a different order. *)
Definition keyword_order_example : store :=
  [ Some (mkExpression "Star" [] None None);
    Some (mkExpression "Null" [] None None);
    Some (mkExpression "EQ"
            [("this", Single (VNode 0)); ("expression", Single (VNode 1))]
            None None);
    Some (mkExpression "EQ"
            [("expression", Single (VNode 1)); ("this", Single (VNode 0))]
            None None) ].

(** A computation keeps track of the rewrite function: the calls it
    records are calls to [fun_], and it ends with the [ValueError] of
    [transform] exactly when one of them returned [None]. *)
Definition tracks (fun_ : callback) {A} (m : M A) : Prop :=
  ∀ st, ∃ new,
    calls (m st).2 = calls st ++ new
    ∧ (∀ l v, (l, v) ∈ new → ∃ h, v = (fun_ l h).2)
    ∧ ((m st).1 = Exn ValueError ↔ ∃ l, (l, VNone) ∈ new).

(** A computation that makes no call and does not raise [ValueError]. *)
Definition silent {A} (m : M A) : Prop :=
  ∀ st, calls (m st).2 = calls st ∧ (m st).1 ≠ Exn ValueError.

(** Some call returned a node other than the one passed, and that node
    was itself passed to the rewrite function. *)
Definition replacement_visited (new : list (loc * value)) : Prop :=
  ∃ x y v, (x, VNode y) ∈ new ∧ y ≠ x ∧ (y, v) ∈ new.

(** [EQ(this=Star(), expression=Null())], and the rewrite function that
    answers the [Null] node when given the [Star] node. *)
Definition alias_example : store :=
  [ Some (mkExpression "EQ"
            [("this", Single (VNode 1)); ("expression", Single (VNode 2))]
            None None);
    Some (mkExpression "Star" [] (Some 0) None);
    Some (mkExpression "Null" [] (Some 0) None) ].

Definition alias_callback : callback :=
  λ node h, (h, if decide (node = 1) then VNode 2 else VNode node).

(** A rewrite function that replaces every [Star] node by the string
    ["*"] and returns the other nodes. *)
Definition star_callback : callback :=
  λ node h, (h, match deref h node with
                | Some e => if decide (cls e = "Star") then VStr "*"
                            else VNode node
                | None => VNode node
                end).

(** ** Trees in the store *)

(** The nodes among a list of values. *)
Definition node_locs (vs : list value) : list loc :=
  omap (λ v, match v with VNode c => Some c | _ => None end) vs.

(** The child nodes of a node, in the order of its arguments. *)
Definition child_locs (e : Expression) : list loc :=
  flat_map (λ kv, node_locs (ensure_list kv.2)) (args e).

(** [tree_at n h l fp]: the nodes reachable from [l] through the arguments
    form a tree of height below [n]; [fp] lists them, root first, each
    once; the keys of every [args] are distinct, as in a dictionary. *)
Fixpoint tree_at (n : nat) (h : store) (l : loc) (fp : list loc) : Prop :=
  match n with
  | 0 => False
  | S n' =>
      ∃ e fps,
        deref h l = Some e
        ∧ NoDup (dict_keys (args e))
        ∧ Forall2 (tree_at n' h) (child_locs e) fps
        ∧ fp = l :: concat fps
        ∧ NoDup fp
  end.

(** The structure below a value, without the identities of the nodes and
    without their parent references: for a node, its class, its [arg_key]
    and, for every argument in order, the key, whether the value is a list,
    and the structures of the values. *)
Unset Elimination Schemes.
Inductive shape :=
| SLeaf (v : value)
| SNode (c : string) (k : option string) (a : list (string * bool * list shape)).
Set Elimination Schemes.

(** The structure of one argument, given the structure [rec] of a value. *)
Definition shape_item (rec : value → option shape) (kv : string * slot)
  : option (string * bool * list shape) :=
  match mapM rec (ensure_list kv.2) with
  | Some ss => Some (kv.1, is_list_arg kv.2, ss)
  | None => None
  end.

Fixpoint shape_of (n : nat) (h : store) (v : value) : option shape :=
  match v with
  | VNode l =>
      match n with
      | 0 => None
      | S n' =>
          match deref h l with
          | None => None
          | Some e =>
              match mapM (shape_item (shape_of n' h)) (args e) with
              | Some a => Some (SNode (cls e) (arg_key e) a)
              | None => None
              end
          end
      end
  | _ => Some (SLeaf v)
  end.

(** What a node holds apart from its parent reference. *)
Definition content (e : Expression) : string * list (string * slot) * option string :=
  (cls e, args e, arg_key e).

(** Two stores hold the same thing at [x], parent reference apart. *)
Definition agree_at (h h2 : store) (x : loc) : Prop :=
  content <$> deref h2 x = content <$> deref h x.

(** Every node of [fp] other than [root] has its parent reference set to
    a node of [fp]. *)
Definition parents_within (h : store) (root : loc) (fp : list loc) : Prop :=
  ∀ x, x ∈ fp → x ≠ root →
    ∃ e p, deref h x = Some e ∧ _parent e = Some p ∧ p ∈ fp.

(** What the identity pass leaves of a tree at [l] with nodes [fp]: the
    store has the same size, is the same outside [fp], holds the same
    contents in [fp], keeps the parent reference of [l], and every other
    node of [fp] refers to its parent in [fp]. *)
Definition reattached (h h' : store) (l : loc) (fp : list loc) : Prop :=
  length h' = length h
  ∧ (∀ x, x ∉ fp → h' !! x = h !! x)
  ∧ (∀ x, x ∈ fp → agree_at h h' x)
  ∧ _parent <$> deref h' l = _parent <$> deref h l
  ∧ parents_within h' l fp.

(** [rec], the pass on a child with the identity as rewrite function,
    returns every tree of height below [n] with its parents reattached. *)
Definition visits_tree (rec : loc → M value) (n : nat) : Prop :=
  ∀ h tr c fc, tree_at n h c fc →
    ∃ h' new,
      rec c (mkState h tr) = (Val (VNode c), mkState h' (tr ++ new))
      ∧ reattached h h' c fc.

(** [rec], the copy of a node, copies every tree of height below [n] that
    the memo table does not know: the copy occupies the next free
    locations, in the order of the nodes of the tree, and has the structure
    and the parent reference of the original. *)
Definition copies_tree (rec : gmap loc loc → loc → M (loc * gmap loc loc))
    (n : nat) : Prop :=
  ∀ h tr memo c fc,
    tree_at n h c fc → (∀ x, x ∈ fc → memo !! x = None) →
    ∃ memo' added,
      rec memo c (mkState h tr) = (Val (length h, memo'), mkState (h ++ added) tr)
      ∧ length added = length fc
      ∧ (∀ x, x ∉ fc → memo' !! x = memo !! x)
      ∧ tree_at n (h ++ added) (length h) (seq (length h) (length fc))
      ∧ shape_of n (h ++ added) (VNode (length h)) = shape_of n h (VNode c)
      ∧ _parent <$> deref (h ++ added) (length h) = _parent <$> deref h c.

(** What the loops of the identity pass over the children of [l] leave of
    the trees with nodes [fp] below them: as [reattached], the roots of
    these trees now referring to [l]. *)
Definition children_reattached (h h' : store) (l : loc) (fp : list loc) : Prop :=
  length h' = length h
  ∧ (∀ x, x ∉ fp → h' !! x = h !! x)
  ∧ (∀ x, x ∈ fp → agree_at h h' x)
  ∧ (∀ x, x ∈ fp →
       ∃ e p, deref h' x = Some e ∧ _parent e = Some p ∧ p ∈ l :: fp).

(** ** The traversal in declared key order, for comparison *)

(** The triples that the loop of [bfs] would append for a node if it took
    the arguments in the order of the keys of the schema of its class. *)
Definition children_triples_declared (item : loc) (e : Expression) : list triple :=
  flat_map (λ k, match dict_get k (args e) with
                 | Some v => map (λ node, (node, Some item, Some k)) (ensure_list v)
                 | None => []
                 end)
           (dict_keys (arg_types_of (cls e))).

(** The loop of [bfs] with the children appended in declared key order. *)
Fixpoint bfs_declared_loop (fuel : nat) (h : store) (queue : list triple)
  : res (list triple) :=
  match fuel with
  | 0 => OutOfFuel
  | S fuel' =>
      match pop queue with
      | None => Val []
      | Some (queue', (item, parent_, key_)) =>
          match item with
          | VNode l =>
              match deref h l with
              | None => Dangling
              | Some e =>
                  res_bind (bfs_declared_loop fuel' h
                              (queue' ++ children_triples_declared l e))
                           (λ rest, Val ((item, parent_, key_) :: rest))
              end
          | _ =>
              res_bind (bfs_declared_loop fuel' h queue')
                       (λ rest, Val ((item, parent_, key_) :: rest))
          end
      end
  end.

Definition bfs_declared (fuel : nat) (h : store) (self : loc)
  : res (list triple) :=
  match deref h self with
  | None => Dangling
  | Some e => bfs_declared_loop fuel h [(VNode self, parent h e, None)]
  end.

(** ** Values with the same structure *)

Definition same_shape (n : nat) (h : store) (v v' : value) : Prop :=
  ∃ t, shape_of n h v = Some t ∧ shape_of n h v' = Some t.

Definition same_shape_slot (n : nat) (h : store) (s s' : slot) : Prop :=
  is_list_arg s = is_list_arg s'
  ∧ Forall2 (same_shape n h) (ensure_list s) (ensure_list s').

Definition same_shape_items (n : nat) (h : store)
    (its its' : list (string * slot)) : Prop :=
  Forall2 (λ kv kv', kv.1 = kv'.1 ∧ same_shape_slot n h kv.2 kv'.2) its its'.

(** The node at [x] is of a class that inherits [__eq__] and [__hash__]. *)
Definition plain_node (h : store) (x : loc) : Prop :=
  ∀ e, deref h x = Some e → cls e ≠ "Column" ∧ cls e ≠ "Literal".

(** ** Definitions used by the further properties *)

(** [ancestor h l a]: resolving the parent reference one or more times
    from [l] reaches [a]. *)
Inductive ancestor (h : store) : loc → loc → Prop :=
| ancestor_parent l e p :
    deref h l = Some e → parent h e = Some p → ancestor h l p
| ancestor_step l e p a :
    deref h l = Some e → parent h e = Some p → ancestor h p a →
    ancestor h l a.

(** What the lookup of the key at position [i] of the schema gives in the
    mapping built by [from_arg_list] from [args]. *)
Definition bound_at (cls : variant) (args : list value) (i : nat)
  : option slot :=
  match args !! i with
  | None => None
  | Some a =>
      if is_var_len_args cls && bool_decide (S i = length (arg_types cls))
      then Some (Many (drop i args))
      else if is_None a then None else Some (Single a)
  end.

(** A node that is its own parent. *)
Definition self_parent_example : store :=
  [ Some (mkExpression "Null" [] (Some 0) None) ].

(** The numeral [1] and the string ['1'] as [Literal] nodes. *)
Definition Literal_example : store :=
  [ Some (mkExpression "Literal"
            [("this", Single (VToken (mkToken "NUMBER" "1")))] None None);
    Some (mkExpression "Literal"
            [("this", Single (VToken (mkToken "STRING" "1")))] None None) ].

(** A node that holds itself as argument. *)
Definition self_child_example : store :=
  [ Some (mkExpression "Paren" [("this", Single (VNode 0))] None None) ].

(** [Column(this="Foo", table="T")] and [Column(this="foo", table="t")],
    the arguments being strings. *)
Definition Column_string_example : store :=
  [ Some (mkExpression "Column"
            [("this", Single (VStr "Foo")); ("table", Single (VStr "T"))]
            None None);
    Some (mkExpression "Column"
            [("this", Single (VStr "foo")); ("table", Single (VStr "t"))]
            None None) ].

(** What [dfs] yields for one triple: the traversal of the subtree of a
    node, with the parent and the key of the triple, or the triple of a
    value that is not a node. *)
Definition dfs_triple (fuel : nat) (h : store) (t : triple)
  : res (list triple) :=
  match t.1.1 with
  | VNode c => dfs fuel h c t.1.2 t.2
  | _ => Val [t]
  end.

(** The triple [t] stands for a value held by a node: its parent is a live
    node, its key is a key of the arguments of that node, and its item is
    the value, or one of the values, stored under the key. *)
Definition held_triple (h : store) (t : triple) : Prop :=
  ∃ p k e s, t.1.2 = Some p ∧ t.2 = Some k ∧ deref h p = Some e
             ∧ (k, s) ∈ args e ∧ t.1.1 ∈ ensure_list s.

(** [parented n h l]: below [l], down to [n] levels, every node held as
    an argument refers to the node that holds it as its parent. *)
Fixpoint parented (n : nat) (h : store) (l : loc) : Prop :=
  match n with
  | 0 => True
  | S n' =>
      ∃ e, deref h l = Some e
           ∧ Forall (λ c, (∃ ec, deref h c = Some ec ∧ _parent ec = Some l)
                          ∧ parented n' h c)
                    (child_locs e)
  end.

(** The calls made by a pass with the identity that visits the nodes [fp]
    in this order. *)
Definition identity_calls (fp : list loc) : list (loc * value) :=
  map (λ x, (x, VNode x)) fp.

(** [rec], the pass on a child with the identity as rewrite function,
    visits the nodes of every tree of height below [n] in the order of its
    footprint, and returns the tree with every node below its root
    referring to its holder. *)
Definition visits_in_order (rec : loc → M value) (n : nat) : Prop :=
  ∀ h tr c fc, tree_at n h c fc →
    ∃ h',
      rec c (mkState h tr) = (Val (VNode c), mkState h' (tr ++ identity_calls fc))
      ∧ reattached h h' c fc
      ∧ parented n h' c.

(** The child [c] of [l] refers to [l], and so on below [c]. *)
Definition attached (n : nat) (h : store) (l c : loc) : Prop :=
  (∃ ec, deref h c = Some ec ∧ _parent ec = Some l) ∧ parented n h c.

(** ** The names of the function classes and the registry *)

(** The base class that the statement of each class of the module names;
    [Expression] names none. *)
Definition class_bases : list (string * string) :=
  [ ("Create", "Expression"); ("CharacterSet", "Expression");
    ("CTE", "Expression"); ("Column", "Expression");
    ("ColumnDef", "Expression"); ("Drop", "Expression");
    ("FileFormat", "Expression"); ("From", "Expression");
    ("Having", "Expression"); ("Hint", "Expression");
    ("Insert", "Expression"); ("Group", "Expression");
    ("Limit", "Expression"); ("Literal", "Expression");
    ("Join", "Expression"); ("Lateral", "Expression");
    ("Order", "Expression"); ("Ordered", "Expression");
    ("Table", "Expression"); ("Tuple", "Expression");
    ("Union", "Expression"); ("Unnest", "Expression");
    ("Update", "Expression"); ("Values", "Expression");
    ("Schema", "Expression"); ("Select", "Expression");
    ("Window", "Expression"); ("WindowSpec", "Expression");
    ("Where", "Expression"); ("Star", "Expression"); ("Null", "Expression");
    ("Binary", "Expression"); ("And", "Binary"); ("BitwiseAnd", "Binary");
    ("BitwiseLeftShift", "Binary"); ("BitwiseOr", "Binary");
    ("BitwiseRightShift", "Binary"); ("BitwiseXor", "Binary");
    ("Minus", "Binary"); ("IntDiv", "Binary"); ("Dot", "Binary");
    ("DPipe", "Binary"); ("EQ", "Binary"); ("GT", "Binary");
    ("GTE", "Binary"); ("Is", "Binary"); ("Like", "Binary");
    ("LT", "Binary"); ("LTE", "Binary"); ("Mod", "Binary");
    ("NEQ", "Binary"); ("Or", "Binary"); ("Plus", "Binary");
    ("Mul", "Binary"); ("Div", "Binary"); ("Unary", "Expression");
    ("BitwiseNot", "Unary"); ("Not", "Unary"); ("Paren", "Unary");
    ("Neg", "Unary"); ("Alias", "Expression"); ("Between", "Expression");
    ("Bracket", "Expression"); ("Case", "Expression");
    ("Cast", "Expression"); ("Decimal", "Expression");
    ("Extract", "Expression"); ("In", "Expression");
    ("Interval", "Expression"); ("Func", "Expression"); ("AggFunc", "Func");
    ("Abs", "Func"); ("Anonymous", "Func"); ("ApproxDistinct", "AggFunc");
    ("Array", "Func"); ("ArrayAgg", "AggFunc"); ("ArrayContains", "Func");
    ("ArraySize", "Func"); ("Avg", "AggFunc"); ("Ceil", "Func");
    ("Coalesce", "Func"); ("Count", "AggFunc"); ("DateAdd", "Func");
    ("DateDiff", "Func"); ("DateStrToDate", "Func"); ("Day", "Func");
    ("Exp", "Func"); ("Floor", "Func"); ("Greatest", "Func"); ("If", "Func");
    ("Initcap", "Func"); ("JSONPath", "Func"); ("Least", "Func");
    ("Ln", "Func"); ("Log10", "Func"); ("Map", "Func"); ("Max", "AggFunc");
    ("Min", "AggFunc"); ("Month", "Func"); ("Pow", "Func");
    ("Quantile", "AggFunc"); ("RegexLike", "Func"); ("Round", "Func");
    ("StrPosition", "Func"); ("StrToTime", "Func"); ("StrToUnix", "Func");
    ("StructExtract", "Func"); ("Sum", "AggFunc"); ("Sqrt", "Func");
    ("Stddev", "AggFunc"); ("StddevPop", "AggFunc");
    ("StddevSamp", "AggFunc"); ("TimeToStr", "Func");
    ("TimeToTimeStr", "Func"); ("TimeToUnix", "Func");
    ("TimeStrToDate", "Func"); ("TimeStrToTime", "Func");
    ("TimeStrToUnix", "Func"); ("TsOrDsToDateStr", "Func");
    ("TsOrDsToDate", "Func"); ("UnixToStr", "Func"); ("UnixToTime", "Func");
    ("UnixToTimeStr", "Func"); ("Variance", "AggFunc");
    ("VariancePop", "AggFunc"); ("VarianceSamp", "AggFunc") ].

(** The classes of the module, in the order of their declarations. *)
Definition module_classes : list string := "Expression" :: dict_keys class_bases.

(** [cls.__mro__], without [object]: the class, then its base, and so on. *)
Fixpoint superclasses (fuel : nat) (c : string) : list string :=
  match fuel with
  | 0 => [c]
  | S fuel' =>
      c :: match dict_get c class_bases with
           | Some b => superclasses fuel' b
           | None => []
           end
  end.

Definition mro (c : string) : list string :=
  superclasses (length class_bases) c.

(** [issubclass(c, b)] *)
Definition issubclass (c b : string) : bool := bool_decide (b ∈ mro c).

(** The attribute [_sql_names] as the statements of the classes set it:
    the [__dict__] of a class maps the attribute to its value. *)
Definition declared_sql_names : gmap string (list string) :=
  list_to_map [ ("Ceil", ["CEIL"; "CEILING"]);
                ("JSONPath", ["JSON_PATH"]);
                ("Pow", ["POW"; "POWER"]) ].

(** [getattr(cls, "_sql_names")], if any: the attribute is looked up in
    the classes [cs] of the mro, in order. *)
Fixpoint lookup_sql_names (attrs : gmap string (list string))
    (cs : list string) : option (list string) :=
  match cs with
  | [] => None
  | c :: cs' =>
      match attrs !! c with
      | Some v => Some v
      | None => lookup_sql_names attrs cs'
      end
  end.

(** Outcome of the class methods about names: a value, or the exception
    they end with. *)
Inductive names_res (A : Type) :=
| Names (a : A)
| NotImplementedError      (* raised by [sql_names] on [Func] itself *)
| NamesIndexError.         (* [sql_names()[0]] on an empty list *)
Arguments Names {A} a.
Arguments NotImplementedError {A}.
Arguments NamesIndexError {A}.

(** [Func.sql_names], a class method: it reads the attribute along the
    mro of [cls] and, when there is none, sets it on [cls] itself.
    [camel_to_snake_case] lives in [sqlglot/helper.py], which is not part of
    this module; the definitions take it as a parameter. *)
Definition sql_names (camel_to_snake_case : string → string) (cls : string)
    (attrs : gmap string (list string))
  : names_res (list string) * gmap string (list string) :=
  if decide (cls = "Func") then (NotImplementedError, attrs)
  else
    match lookup_sql_names attrs (mro cls) with
    | Some v => (Names v, attrs)
    | None =>
        let v := [camel_to_snake_case cls] in
        (Names v, <[cls := v]> attrs)
    end.

(** [Func.sql_name]: [cls.sql_names()[0]] *)
Definition sql_name (camel_to_snake_case : string → string) (cls : string)
    (attrs : gmap string (list string))
  : names_res string * gmap string (list string) :=
  match sql_names camel_to_snake_case cls attrs with
  | (Names (n :: _), attrs') => (Names n, attrs')
  | (Names [], attrs') => (NamesIndexError, attrs')
  | (NotImplementedError, attrs') => (NotImplementedError, attrs')
  | (NamesIndexError, attrs') => (NamesIndexError, attrs')
  end.

(** [Func.default_parser_mappings]:
    [{name: cls.from_arg_list for name in cls.sql_names()}]; the bound
    method [cls.from_arg_list] is given by the class it is bound to. *)
Definition default_parser_mappings (camel_to_snake_case : string → string)
    (cls : string) (attrs : gmap string (list string))
  : names_res (dict string) * gmap string (list string) :=
  match sql_names camel_to_snake_case cls attrs with
  | (Names names, attrs') =>
      (Names (foldl (λ d name, dict_set name cls d) [] names), attrs')
  | (NotImplementedError, attrs') => (NotImplementedError, attrs')
  | (NamesIndexError, attrs') => (NamesIndexError, attrs')
  end.

(** The order of [inspect.getmembers]: by name, the names being compared
    character by character. *)
Definition name_le (a b : string) : Prop := String.leb a b = true.

#[global] Instance name_le_dec a b : Decision (name_le a b).
Proof. unfold name_le. apply _. Defined.

(** [_all_functions()]: the members of the module, sorted by name, that
    are classes below [Func], the classes [AggFunc], [Anonymous] and [Func]
    excepted. *)
Definition _all_functions : list string :=
  filter (λ obj, issubclass obj "Func" = true
                 ∧ obj ∉ ["AggFunc"; "Anonymous"; "Func"])
         (merge_sort name_le module_classes).

Definition ALL_FUNCTIONS : list string := _all_functions.

(** [sql_names] called on the classes [order], one after the other. *)
Fixpoint sql_names_calls (camel_to_snake_case : string → string)
    (order : list string) (attrs : gmap string (list string))
  : gmap string (list string) :=
  match order with
  | [] => attrs
  | c :: order' =>
      sql_names_calls camel_to_snake_case order'
        (sql_names camel_to_snake_case c attrs).2
  end.

(** What the attributes are after calls of [sql_names] on classes of the
    registry. *)
Definition names_kept (camel_to_snake_case : string → string)
    (attrs : gmap string (list string)) : Prop :=
  (∀ x v, attrs !! x = Some v →
     x ∈ ALL_FUNCTIONS
     ∧ v = default [camel_to_snake_case x] (declared_sql_names !! x))
  ∧ (∀ x v, declared_sql_names !! x = Some v → attrs !! x = Some v).

(** The arguments of every node of the store are in the order of the
    schema of its class, as a parser that fills them in that order and
    [from_arg_list] leave them. *)
Definition schema_ordered (h : store) : Prop :=
  ∀ x e, deref h x = Some e →
    sublist (dict_keys (args e)) (dict_keys (arg_types_of (cls e))).

(** [EQ(this=Star(), expression=Null())], built twice. *)
Definition equal_pair_example : store :=
  [ Some (mkExpression "Star" [] None None);
    Some (mkExpression "Null" [] None None);
    Some (mkExpression "EQ"
            [("this", Single (VNode 0)); ("expression", Single (VNode 1))]
            None None);
    Some (mkExpression "Star" [] None None);
    Some (mkExpression "Null" [] None None);
    Some (mkExpression "EQ"
            [("this", Single (VNode 3)); ("expression", Single (VNode 4))]
            None None) ].

(** ** The textual form of a node *)

Definition newline : string := String (ascii_of_nat 10) "".

(** [str(v)] for [None] and the builtin values. *)
Definition str (v : value) : string :=
  match v with
  | VStr s => s
  | VBool true => "True"
  | VBool false => "False"
  | VInt z => pretty z
  | _ => "None"
  end.

(** [Expression.to_s].  What a token contributes (its [to_s] if it has
    one, its [str] otherwise) is decided in [sqlglot/tokens.py], which is
    not part of this module; the definition takes it as the parameter
    [token_to_s], applied to the token and the level. *)
Fixpoint to_s (token_to_s : Token → nat → string) (fuel : nat) (h : store)
    (self : loc) (level : nat) : res string :=
  match fuel with
  | 0 => OutOfFuel
  | S fuel' =>
      match deref h self with
      | None => Dangling
      | Some e =>
          let indent :=
            (if decide (level = 0) then "" else newline)
            +:+ String.concat "" (replicate level "  ") in
          let left := "(" +:+ upper (key e) +:+ " " in
          res_bind
            (res_mapM
               (λ kvs : string * slot,
                  res_bind
                    (res_mapM
                       (λ v, match v with
                             | VNode c => to_s token_to_s fuel' h c (level + 1)
                             | VToken t => Val (token_to_s t (level + 1))
                             | _ => Val (str v)
                             end)
                       (filter (λ v, truthy v = true) (ensure_list kvs.2)))
                    (λ parts, Val (kvs.1, String.concat ", " parts)))
               (args e))
            (λ args_,
               let right :=
                 String.concat ", " (map (λ kv, kv.1 +:+ ": " +:+ kv.2) args_)
                 +:+ ")" in
               Val (indent +:+ left +:+ right))
      end
  end.

(** [Expression.__repr__] *)
Definition __repr__ (token_to_s : Token → nat → string) (fuel : nat)
    (h : store) (self : loc) : res string :=
  to_s token_to_s fuel h self 0.

(** ** Rewrite functions that do not write to the store *)

Definition pure_callback (fun_ : callback) : Prop := ∀ l h, (fun_ l h).1 = h.

(** What is left by a computation that started in the store [h] with the
    record of calls [tr] and worked on the nodes [fp] only: the store has
    the size it had, the nodes outside [fp] hold what they held, parent
    reference apart, and the rewrite function was called on nodes of [fp]
    only. *)
Definition confined {A} (fp : list loc) (h : store) (tr : list (loc * value))
    (out : res A * state) : Prop :=
  length (heap out.2) = length h
  ∧ (∀ x, x ∉ fp → agree_at h (heap out.2) x)
  ∧ ∃ new, calls out.2 = tr ++ new ∧ Forall (λ c, c.1 ∈ fp) new.

(** A rewrite function that answers a new [Null] node for every [Star]
    node, and the node itself otherwise; the new node is there already, at
    location 3 of the store below. *)
Definition null_callback : callback :=
  λ node h, (h, match deref h node with
                | Some e => if decide (cls e = "Star") then VNode 3
                            else VNode node
                | None => VNode node
                end).

Definition null_example : store :=
  [ Some (mkExpression "EQ"
            [("this", Single (VNode 1)); ("expression", Single (VNode 2))]
            None None);
    Some (mkExpression "Star" [] (Some 0) None);
    Some (mkExpression "Null" [] (Some 0) None);
    Some (mkExpression "Null" [] None None) ].

(** A rewrite function that keeps the node at location 0, answers the node
    at location 3 for the node at location 1, and [None] for every other
    node. *)
Definition half_callback : callback :=
  λ node h, (h, if decide (node = 0) then VNode 0
                else if decide (node = 1) then VNode 3 else VNone).

(** ** The layout of a node *)

(** Two slots of the same kind, a single value or a list, that hold as many
    values. *)
Definition same_slot (s s' : slot) : Prop :=
  is_list_arg s = is_list_arg s'
  ∧ length (ensure_list s) = length (ensure_list s').

(** Two nodes of the same class and [arg_key] whose arguments have the same
    keys in the same order and, key by key, slots of the same kind and
    size. *)
Definition same_layout (e e' : Expression) : Prop :=
  cls e = cls e' ∧ arg_key e = arg_key e'
  ∧ Forall2 (λ kv kv', kv.1 = kv'.1 ∧ same_slot kv.2 kv'.2) (args e) (args e').

(** Every node of [h] is a node of [h'], with the layout it had. *)
Definition layout_kept (h h' : store) : Prop :=
  ∀ x e, deref h x = Some e → ∃ e', deref h' x = Some e' ∧ same_layout e e'.

(** A computation that keeps the layout of the nodes and raises nothing but
    the [ValueError] of [transform] and the [AttributeError] of the
    assignment to [parent]. *)
Definition orderly {A} (m : M A) : Prop :=
  ∀ st, layout_kept (heap st) (heap (m st).2)
        ∧ ∀ ex, (m st).1 = Exn ex → ex = ValueError ∨ ex = AttributeError.

(** A computation that, from a store of [N] locations or more, leaves the
    first [N] as they are and raises no exception. *)
Definition appends {A} (N : nat) (m : M A) : Prop :=
  ∀ st, N ≤ length (heap st) →
        N ≤ length (heap (m st).2)
        ∧ (∀ z, z < N → heap (m st).2 !! z = heap st !! z)
        ∧ ∀ ex, (m st).1 ≠ Exn ex.

(** ** The record of a pass over a tree *)

(** A rewrite function that writes to no node of the store it is given; it
    may create nodes. *)
Definition creates_only (fun_ : callback) : Prop :=
  ∀ l h, ∃ added, (fun_ l h).1 = h ++ added.

(** [b] is what a pass with the record [new] leaves for the value [a] of
    an argument: for a node, a value that the rewrite function returned
    when it was called on that node; any other value itself. *)
Definition answers (new : list (loc * value)) (a b : value) : Prop :=
  match a with
  | VNode c => (c, b) ∈ new
  | _ => b = a
  end.

(** The arguments [d'] are the arguments [d] with the answers in place of
    the nodes: the same keys in the same order and, key by key, a slot of
    the same kind that holds the answers for the values, in their order. *)
Definition args_answered (new : list (loc * value)) (d d' : dict slot) : Prop :=
  Forall2 (λ kv kv',
             kv.1 = kv'.1
             ∧ is_list_arg kv.2 = is_list_arg kv'.2
             ∧ Forall2 (answers new) (ensure_list kv.2) (ensure_list kv'.2))
          d d'.

(** The rewrite function was called on no node below a node for which it
    returned another value than that node: below in the store [h], where
    [tree_at] lists the nodes of the subtree. *)
Definition nothing_below (h : store) (new : list (loc * value)) : Prop :=
  ∀ x v m fpx,
    (x, v) ∈ new → v ≠ VNode x → tree_at m h x fpx →
    ∀ y, y ∈ fpx → y ≠ x → y ∉ new.*1.

(** Every node that the rewrite function returned unchanged holds, in
    [h'], the arguments it had in [h] with the answers in place of the
    nodes, and has the class and the [arg_key] it had. *)
Definition kept_answered (h : store) (new : list (loc * value)) (h' : store)
  : Prop :=
  ∀ p e, (p, VNode p) ∈ new → deref h p = Some e →
    ∃ e', deref h' p = Some e' ∧ cls e' = cls e ∧ arg_key e' = arg_key e
          ∧ args_answered new (args e) (args e').

(** The subtree of every node of [F] lies in [F]. *)
Definition closed (h : store) (F : list loc) : Prop :=
  ∀ x m fpx, x ∈ F → tree_at m h x fpx → fpx ⊆ F.

(** What a stretch of a pass leaves, from the store [h] to the store [h'],
    when it worked on the trees with nodes [F] and recorded the calls
    [new]: the store did not shrink; the calls are on nodes of [F], each
    once, none below a replaced node; and a node of [h] that is neither in
    [W] nor a node returned unchanged holds what it held, parent reference
    apart. *)
Definition pass_core (W F : list loc) (h : store) (new : list (loc * value))
    (h' : store) : Prop :=
  length h ≤ length h'
  ∧ Forall (λ c, c.1 ∈ F) new
  ∧ NoDup new.*1
  ∧ nothing_below h new
  ∧ (∀ y, y < length h → y ∉ W → (y, VNode y) ∉ new → agree_at h h' y).

(** The outcome [out] of a stretch that started in the store [h] with the
    record [tr]: what [pass_core] says and, when the stretch returned a
    value, the answers in the nodes returned unchanged and the property [Q]
    of the value, of the calls and of the store. *)
Definition pass_result {A} (W F : list loc) (h : store)
    (tr : list (loc * value)) (out : res A * state)
    (Q : A → list (loc * value) → store → Prop) : Prop :=
  ∃ new,
    calls out.2 = tr ++ new
    ∧ pass_core W F h new (heap out.2)
    ∧ ∀ a, out.1 = Val a →
        kept_answered h new (heap out.2) ∧ Q a new (heap out.2).

(** [EQ(this=Star(), expression=Null())], and apart from it
    [Paren(this=Null())] at locations 3 and 4; and a rewrite function that
    writes to the store: called on the [Star] node, it puts the node at
    location 4 under [expression] in the root and answers the [Paren]
    node. *)
Definition graft_example : store :=
  [ Some (mkExpression "EQ"
            [("this", Single (VNode 1)); ("expression", Single (VNode 2))]
            None None);
    Some (mkExpression "Star" [] (Some 0) None);
    Some (mkExpression "Null" [] (Some 0) None);
    Some (mkExpression "Paren" [("this", Single (VNode 4))] None None);
    Some (mkExpression "Null" [] (Some 3) None) ].

Definition graft_callback : callback :=
  λ node h,
    if decide (node = 1)
    then (<[0 := Some (mkExpression "EQ"
                         [("this", Single (VNode 1));
                          ("expression", Single (VNode 4))]
                         None None)]> h,
          VNode 3)
    else (h, VNode node).

(** * Properties of the argument binder *)

Section dict_facts.
Context {A : Type}.
Implicit Types (d : dict A) (k : string) (v : A).

Lemma dict_set_fresh d k v :
  k ∉ dict_keys d → dict_set k v d = d ++ [(k, v)].
Proof.
  induction d as [|[k' v'] d IH]; simpl; [done|].
  intros Hk. rewrite not_elem_of_cons in Hk. destruct Hk as [Hne Hk].
  rewrite decide_False by done. by rewrite IH.
Qed.

Lemma dict_keys_set d k v :
  k ∈ dict_keys d → dict_keys (dict_set k v d) = dict_keys d.
Proof.
  induction d as [|[k' v'] d IH]; simpl; [by intros ?%elem_of_nil|].
  intros Hk. destruct (decide (k = k')) as [->|Hne]; [done|].
  simpl. f_equal. apply IH. apply elem_of_cons in Hk as [?|?]; [done|done].
Qed.

Lemma dict_get_set_eq d k v : dict_get k (dict_set k v d) = Some v.
Proof.
  induction d as [|[k' v'] d IH]; simpl.
  - by rewrite decide_True.
  - destruct (decide (k = k')) as [->|Hne]; simpl.
    + by rewrite decide_True.
    + by rewrite decide_False.
Qed.

Lemma dict_get_set_ne d k k' v :
  k ≠ k' → dict_get k' (dict_set k v d) = dict_get k' d.
Proof.
  intros Hne. induction d as [|[k0 v0] d IH]; simpl.
  - by rewrite decide_False.
  - destruct (decide (k = k0)) as [->|Hne0]; simpl.
    + by rewrite !decide_False.
    + by rewrite IH.
Qed.

Lemma dict_set_Forall (P : string * A → Prop) d k v :
  Forall P d → P (k, v) → Forall P (dict_set k v d).
Proof.
  intros Hd Hkv. induction Hd as [|[k' v'] d Hx Hd IH]; simpl.
  - by constructor.
  - case_decide; constructor; auto.
Qed.

Lemma dict_get_Forall (P : string * A → Prop) d k v :
  Forall P d → dict_get k d = Some v → P (k, v).
Proof.
  induction 1 as [|[k' v'] d Hx Hd IH]; simpl; [done|].
  case_decide; [|done]. intros [= <-]. by subst.
Qed.
End dict_facts.

Lemma bind_positional_nil_r keys : bind_positional keys [] = [].
Proof. by destruct keys. Qed.

Lemma bind_positional_cons k keys a args :
  bind_positional (k :: keys) (a :: args) =
  (if is_None a then [] else [(k, Single a)]) ++ bind_positional keys args.
Proof. unfold bind_positional. simpl. by destruct (is_None a). Qed.

Lemma bind_positional_keys keys args :
  dict_keys (bind_positional keys args) ⊆ keys.
Proof.
  revert args. induction keys as [|k keys IH]; intros [|a args];
    try (intros x Hx; by apply elem_of_nil in Hx).
  rewrite bind_positional_cons. unfold dict_keys. rewrite fmap_app.
  destruct (is_None a); simpl.
  - intros x Hx. right. by apply (IH args).
  - intros x. rewrite !elem_of_cons. intros [->|Hx]; [by left|right].
    by apply (IH args).
Qed.

Lemma bind_positional_take keys args :
  bind_positional keys (take (length keys) args) = bind_positional keys args.
Proof.
  revert args. induction keys as [|k keys IH]; intros [|a args]; try done.
  simpl. rewrite !bind_positional_cons. by rewrite IH.
Qed.

(** The loop appends to [args_dict] the binding of the keys to the values
    from position [arg_idx] on, and advances [arg_idx] past those consumed. *)
Lemma from_arg_list_loop_spec keys : ∀ args d idx,
  NoDup keys →
  (∀ k, k ∈ keys → k ∉ dict_keys d) →
  from_arg_list_loop keys args d idx =
    (d ++ bind_positional keys (drop idx args),
     idx + length keys `min` (length args - idx)).
Proof.
  induction keys as [|k keys IH]; intros args d idx Hnd Hfr;
    cbn [from_arg_list_loop length].
  - rewrite app_nil_r. f_equal. lia.
  - apply NoDup_cons in Hnd as [Hk Hnd].
    destruct (args !! idx) as [a|] eqn:Ha.
    + pose proof (lookup_lt_Some _ _ _ Ha) as Hlt.
      rewrite (drop_S _ _ _ Ha), bind_positional_cons.
      rewrite IH; [|done|].
      * destruct (is_None a); cbn [app].
        -- f_equal. lia.
        -- rewrite dict_set_fresh by (apply Hfr; left).
           rewrite <- app_assoc. cbn [app]. f_equal. lia.
      * intros k' Hk'. destruct (is_None a); [apply Hfr; by right|].
        rewrite dict_set_fresh by (apply Hfr; left).
        unfold dict_keys. rewrite fmap_app. simpl.
        rewrite elem_of_app, list_elem_of_singleton.
        intros [Hin| ->]; [|done]. by apply (Hfr k'); [right|].
    + apply lookup_ge_None in Ha.
      rewrite drop_ge by done. rewrite bind_positional_nil_r, app_nil_r.
      f_equal. lia.
Qed.

(** The position reached by the loop does not depend on the keys being
    distinct. *)
Lemma from_arg_list_loop_idx keys : ∀ args d idx,
  (from_arg_list_loop keys args d idx).2 =
    idx + length keys `min` (length args - idx).
Proof.
  induction keys as [|k keys IH]; intros args d idx;
    cbn [from_arg_list_loop length snd]; [lia|].
  destruct (args !! idx) as [a|] eqn:Ha.
  - apply lookup_lt_Some in Ha. rewrite IH. lia.
  - apply lookup_ge_None in Ha. cbn [snd]. lia.
Qed.

Lemma from_arg_list_loop_bound keys : ∀ args d idx,
  Forall bound_single d →
  Forall bound_single (from_arg_list_loop keys args d idx).1.
Proof.
  induction keys as [|k keys IH]; intros args d idx Hd; simpl; [done|].
  destruct (args !! idx) as [a|]; [|done].
  apply IH. destruct a; simpl; try done;
    apply dict_set_Forall; try done; eexists; split; simpl; eauto; done.
Qed.

Lemma from_arg_list_dict_fixed cls args :
  is_var_len_args cls = false →
  NoDup (dict_keys (arg_types cls)) →
  from_arg_list_dict cls args =
    Val (bind_positional (dict_keys (arg_types cls)) args).
Proof.
  intros Hfix Hnd. unfold from_arg_list_dict. rewrite Hfix.
  rewrite from_arg_list_loop_spec; [|done|by intros k _ ?%elem_of_nil].
  by rewrite andb_false_r.
Qed.

(** C9.  On a variant that is not variable-length, [from_arg_list] pairs the
    schema keys, in declaration order, with the positional values, and the
    values beyond the arity are dropped: the result on any input is the
    result on its first arity-many values.  With the two keys [k1 k2],
    [[a; b]] gives [{k1: a, k2: b}] and [[a; b; c]] gives the same. *)
Theorem from_arg_list_fixed_arity (cls : variant) (args : list value) :
  is_var_len_args cls = false →
  NoDup (dict_keys (arg_types cls)) →
  from_arg_list_dict cls args =
    Val (bind_positional (dict_keys (arg_types cls)) args)
  ∧ from_arg_list_dict cls args =
      from_arg_list_dict cls (take (length (arg_types cls)) args)
  ∧ ∀ k1 r1 k2 r2 a b c,
      arg_types cls = [(k1, r1); (k2, r2)] → a ≠ VNone → b ≠ VNone →
      from_arg_list_dict cls [a; b] = Val [(k1, Single a); (k2, Single b)]
      ∧ from_arg_list_dict cls [a; b; c] = Val [(k1, Single a); (k2, Single b)].
Proof.
  intros Hfix Hnd. split; [by apply from_arg_list_dict_fixed|]. split.
  - rewrite !from_arg_list_dict_fixed by done.
    rewrite <- (bind_positional_take _ args).
    unfold dict_keys. by rewrite length_fmap.
  - intros k1 r1 k2 r2 a b c Hsch Ha Hb.
    rewrite !from_arg_list_dict_fixed by done. rewrite Hsch.
    destruct a, b; done.
Qed.

Lemma from_arg_list_fixed_arity_witness :
  from_arg_list_dict UnixToStr [VStr "a"; VStr "b"; VStr "c"] =
    Val [("this", Single (VStr "a")); ("format", Single (VStr "b"))].
Proof.
  assert (Hnd : NoDup (dict_keys (arg_types UnixToStr))).
  { apply (bool_decide_unpack _). vm_compute. reflexivity. }
  exact (proj1 (from_arg_list_fixed_arity UnixToStr
                  [VStr "a"; VStr "b"; VStr "c"] eq_refl Hnd)).
Defined.

(** C3.  On a variable-length variant whose schema is the keys [fixed]
    followed by [last_key], the keys of [fixed] are bound in declaration
    order to the successive positional values, and the values that remain
    are collected, in order, in one list bound to [last_key].  With
    [fixed = ["this"]] and [last_key = "expressions"], [[a; b; c]] gives
    [{this: a, expressions: [b; c]}]. *)
Theorem from_arg_list_var_len (cls : variant) (args : list value)
    (fixed : list string) (last_key : string) :
  is_var_len_args cls = true →
  dict_keys (arg_types cls) = fixed ++ [last_key] →
  NoDup (fixed ++ [last_key]) →
  from_arg_list_dict cls args =
    Val (bind_positional fixed args ++
         if bool_decide (length fixed < length args)
         then [(last_key, Many (drop (length fixed) args))] else [])
  ∧ ∀ a b c,
      fixed = ["this"] → last_key = "expressions" → a ≠ VNone →
      args = [a; b; c] →
      from_arg_list_dict cls args =
        Val [("this", Single a); ("expressions", Many [b; c])].
Proof.
  intros Hvar Hkeys Hnd.
  assert (Hmain : from_arg_list_dict cls args =
    Val (bind_positional fixed args ++
         if bool_decide (length fixed < length args)
         then [(last_key, Many (drop (length fixed) args))] else [])).
  { apply NoDup_app in Hnd as (Hndf & Hdisj & _).
    unfold from_arg_list_dict. rewrite Hvar, Hkeys, removelast_last.
    rewrite from_arg_list_loop_spec; [|done|by intros k _ ?%elem_of_nil].
    rewrite drop_0, Nat.sub_0_r, andb_true_r. cbn [app Nat.add].
    destruct (decide (length fixed < length args)) as [Hlt|Hge].
    - rewrite !bool_decide_eq_true_2 by lia.
      rewrite last_snoc, Nat.min_l by lia.
      rewrite dict_set_fresh; [done|].
      intros Hin%bind_positional_keys. apply (Hdisj _ Hin). by left.
    - rewrite !bool_decide_eq_false_2 by lia. by rewrite app_nil_r. }
  split; [done|].
  intros a b c -> -> Ha ->. rewrite Hmain. by destruct a.
Qed.

Lemma from_arg_list_var_len_witness :
  from_arg_list_dict Anonymous [VStr "a"; VStr "b"; VStr "c"] =
    Val [("this", Single (VStr "a")); ("expressions", Many [VStr "b"; VStr "c"])].
Proof.
  assert (Hnd : NoDup (["this"] ++ ["expressions"])).
  { apply (bool_decide_unpack _). vm_compute. reflexivity. }
  exact (proj1 (from_arg_list_var_len Anonymous [VStr "a"; VStr "b"; VStr "c"]
                  ["this"] "expressions" eq_refl eq_refl Hnd)).
Defined.

(** [Anonymous.from_arg_list([a, None, b])] binds [expressions] to
    [[None, b]]: the [None] is recorded. *)
Lemma from_arg_list_none_counterexample :
  Anonymous ∈ Func_variants
  ∧ from_arg_list_dict Anonymous [VStr "a"; VNone; VStr "b"] =
      Val [("this", Single (VStr "a")); ("expressions", Many [VNone; VStr "b"])]
  ∧ ¬ none_never_bound Anonymous [VStr "a"; VNone; VStr "b"].
Proof.
  split; [|split].
  - do 3 apply list_elem_of_further. apply list_elem_of_here.
  - reflexivity.
  - intros H. destruct (H _ eq_refl) as [_ Hmany].
    apply (Hmany "expressions" [VNone; VStr "b"]); [reflexivity|].
    apply list_elem_of_here.
Qed.

(** No key of the mapping built by [from_arg_list] is bound to [None].  A
    list is bound only by a variable-length variant, to its last key, and
    it is the run of positional values after the fixed ones exactly as
    given. *)
Theorem from_arg_list_none_fixed (cls : variant) (args : list value)
    (d : dict slot) :
  from_arg_list_dict cls args = Val d →
  (∀ k, dict_get k d ≠ Some (Single VNone))
  ∧ (∀ k vs, dict_get k d = Some (Many vs) →
       is_var_len_args cls = true
       ∧ list.last (dict_keys (arg_types cls)) = Some k
       ∧ vs = drop (length (arg_types cls) - 1) args
       ∧ vs ≠ []).
Proof.
  unfold from_arg_list_dict.
  set (keys := if is_var_len_args cls then _ else _).
  pose proof (from_arg_list_loop_bound keys args [] 0 (Forall_nil_2 _)) as Hb.
  pose proof (from_arg_list_loop_idx keys args [] 0) as Hidx.
  destruct (from_arg_list_loop keys args [] 0) as [d0 idx]; simpl in Hb, Hidx.
  destruct (bool_decide (idx < length args)) eqn:Hlt;
    destruct (is_var_len_args cls) eqn:Hvar; simpl.
  2-4: intros [= <-]; split; intros k;
       [intros Hk|intros vs Hk];
       apply (dict_get_Forall _ _ _ _ Hb) in Hk as (a & Ha & Hne);
       simpl in Ha; by simplify_eq.
  destruct (list.last (dict_keys (arg_types cls))) as [kl|] eqn:Hlast; [|done].
  intros [= <-]. apply bool_decide_eq_true_1 in Hlt.
  assert (Hlen : idx = length (arg_types cls) - 1).
  { subst keys. rewrite Hidx.
    rewrite removelast_firstn_len, length_take.
    unfold dict_keys. rewrite length_fmap.
    unfold dict_keys in Hidx. rewrite removelast_firstn_len, length_take,
      length_fmap in Hidx. lia. }
  split.
  - intros k. destruct (decide (kl = k)) as [->|Hne].
    + by rewrite dict_get_set_eq.
    + rewrite dict_get_set_ne by done. intros Hk.
      apply (dict_get_Forall _ _ _ _ Hb) in Hk as (a & Ha & Hna).
      simpl in Ha. by simplify_eq.
  - intros k vs. destruct (decide (kl = k)) as [->|Hne].
    + rewrite dict_get_set_eq. intros [= <-].
      split; [done|]. split; [done|]. split; [by rewrite Hlen|].
      intros Hnil. apply (f_equal length) in Hnil.
      rewrite length_drop in Hnil. simpl in Hnil. lia.
    + rewrite dict_get_set_ne by done. intros Hk.
      apply (dict_get_Forall _ _ _ _ Hb) in Hk as (a & Ha & Hna).
      simpl in Ha. by simplify_eq.
Qed.

Lemma from_arg_list_none_fixed_witness :
  dict_get "this" [("this", Single (VStr "a"));
                   ("expressions", Many [VNone; VStr "b"])]
    ≠ Some (Single VNone)
  ∧ (is_var_len_args Anonymous = true
     ∧ list.last (dict_keys (arg_types Anonymous)) = Some "expressions"
     ∧ [VNone; VStr "b"] = drop (length (arg_types Anonymous) - 1)
                                [VStr "a"; VNone; VStr "b"]
     ∧ [VNone; VStr "b"] ≠ []).
Proof.
  pose proof (from_arg_list_none_fixed Anonymous
                [VStr "a"; VNone; VStr "b"] _ eq_refl) as [Hk Hl].
  split; [exact (Hk "this")|].
  exact (Hl "expressions" [VNone; VStr "b"] eq_refl).
Defined.

(** The schemas of the function classes are those of the class table; their
    keys are distinct, and a variable-length class has a last key. *)
Lemma Func_variants_schemas :
  Forall (λ c, arg_types_of (name c) = arg_types c
               ∧ NoDup (dict_keys (arg_types c))
               ∧ (is_var_len_args c = true →
                  is_Some (list.last (dict_keys (arg_types c)))))
         Func_variants.
Proof.
  repeat (apply Forall_cons; split;
          [split; [reflexivity|split;
             [apply (bool_decide_unpack _); vm_compute; reflexivity
             |first [discriminate|intros _; eexists; reflexivity]]]|]).
  apply Forall_nil. exact I.
Qed.

(** * Parent references and depth *)

Lemma deref_destroy_eq h l : deref (destroy l h) l = None.
Proof.
  unfold deref, destroy. destruct (decide (l < length h)) as [Hlt|Hge].
  - by rewrite list_lookup_insert_eq.
  - rewrite list_insert_ge by lia. by rewrite lookup_ge_None_2 by lia.
Qed.

Lemma deref_destroy_ne h l l' : l ≠ l' → deref (destroy l h) l' = deref h l'.
Proof. intros Hne. unfold deref, destroy. by rewrite list_lookup_insert_ne. Qed.

Lemma parent_dangling h e p :
  _parent e = Some p → deref h p = None → parent h e = None.
Proof. unfold parent. by intros -> ->. Qed.

Lemma parent_Some h e p :
  parent h e = Some p → _parent e = Some p ∧ is_Some (deref h p).
Proof.
  unfold parent. destruct (_parent e) as [q|]; [|done].
  destruct (deref h q) eqn:Hq; [|done]. intros [= ->]. eauto.
Qed.

Lemma depth_no_parent fuel h self e :
  deref h self = Some e → parent h e = None → depth (S fuel) h self = Val 0.
Proof. simpl. by intros -> ->. Qed.

Lemma depth_step fuel h self e p d :
  deref h self = Some e → parent h e = Some p →
  depth fuel h p = Val d → depth (S fuel) h self = Val (d + 1).
Proof. simpl. by intros -> -> ->. Qed.

(** More fuel does not change a depth that was computed. *)
Lemma depth_fuel_mono fuel : ∀ fuel' h self d,
  depth fuel h self = Val d → fuel ≤ fuel' → depth fuel' h self = Val d.
Proof.
  induction fuel as [|fuel IH]; intros fuel' h self d; [done|].
  destruct fuel' as [|fuel']; [lia|]. simpl.
  destruct (deref h self) as [e|]; [|done].
  destruct (parent h e) as [p|]; [|done].
  destruct (depth fuel h p) as [dp| | |] eqn:Hp; try done.
  intros Hd Hle. by rewrite (IH fuel' h p dp) by (done || lia).
Qed.

(** Along intact parent links the recursion ends: the depth is the number
    of links. *)
Lemma depth_parent_links h l n :
  parent_links h l n → ∀ fuel, n < fuel → depth fuel h l = Val n.
Proof.
  induction 1 as [l e He Hp|l e p n He Hp Hlinks IH]; intros [|fuel] Hlt;
    try lia.
  - by apply (depth_no_parent _ _ _ e).
  - rewrite (depth_step fuel h l e p n He Hp) by (apply IH; lia).
    f_equal. lia.
Qed.

(** C7.  A node without resolvable parent has depth 0; that covers the
    weak reference left dangling by the destruction of the parent, which
    resolves to no parent instead of failing.  A node with a resolvable
    parent has the depth of the parent plus one, and along intact parent
    links up to a root both depths are computed. *)
Theorem depth_spec (h : store) (self : loc) (e : Expression) :
  deref h self = Some e →
  (parent h e = None → ∀ fuel, depth (S fuel) h self = Val 0)
  ∧ (∀ p, _parent e = Some p → p ≠ self →
       ∃ e', deref (destroy p h) self = Some e'
           ∧ parent (destroy p h) e' = None
           ∧ ∀ fuel, depth (S fuel) (destroy p h) self = Val 0)
  ∧ (∀ p fuel d, parent h e = Some p → depth fuel h p = Val d →
       depth (S fuel) h self = Val (d + 1))
  ∧ (∀ p n, parent h e = Some p → parent_links h p n →
       ∀ fuel, S n < fuel →
         depth fuel h p = Val n ∧ depth fuel h self = Val (n + 1)).
Proof.
  intros He. repeat apply conj.
  - intros Hp fuel. by apply (depth_no_parent _ _ _ e).
  - intros p Hp Hne. exists e.
    assert (He' : deref (destroy p h) self = Some e)
      by (by rewrite deref_destroy_ne).
    assert (Hnone : parent (destroy p h) e = None)
      by (apply (parent_dangling _ _ p); [done|apply deref_destroy_eq]).
    split; [done|]. split; [done|].
    intros fuel. by apply (depth_no_parent _ _ _ e).
  - intros p fuel d Hp Hd. by apply (depth_step _ _ _ e p).
  - intros p n Hp Hlinks fuel Hlt.
    split; [apply depth_parent_links; [done|lia]|].
    replace (n + 1) with (S n) by lia.
    apply depth_parent_links; [|lia].
    by apply (parent_links_child _ _ e p).
Qed.

Lemma depth_spec_witness :
  depth 3 depth_example 0 = Val 0
  ∧ depth 3 depth_example 1 = Val 1
  ∧ depth 3 (destroy 0 depth_example) 1 = Val 0.
Proof.
  pose proof (depth_spec depth_example 1
                (mkExpression "Null" [] (Some 0) None) eq_refl)
    as (_ & Hdangling & _ & Hlinks).
  destruct (Hlinks 0 0 eq_refl
              (parent_links_root depth_example 0 _ eq_refl eq_refl) 3
              ltac:(lia)) as [H0 H1].
  destruct (Hdangling 0 eq_refl ltac:(lia)) as (e' & _ & _ & Hd).
  split; [exact H0|]. split; [exact H1|]. exact (Hd 2).
Defined.

(** * The order of the default traversal *)

Lemma pop_nil {A} : pop (@nil A) = None.
Proof. reflexivity. Qed.

Lemma pop_snoc {A} (q : list A) (x : A) : pop (q ++ [x]) = Some (q, x).
Proof. unfold pop. rewrite reverse_snoc. by rewrite reverse_involutive. Qed.

Lemma pop_cases {A} (q : list A) :
  (q = [] ∧ pop q = None) ∨ (∃ q' x, q = q' ++ [x] ∧ pop q = Some (q', x)).
Proof.
  destruct q as [|a q] using rev_ind; [by left|right].
  exists q, a. split; [done|apply pop_snoc].
Qed.

Lemma res_bind_Val {A B} (r : res A) (f : A → res B) (b : B) :
  res_bind r f = Val b → ∃ a, r = Val a ∧ f a = Val b.
Proof. destruct r; simpl; try done. eauto. Qed.

Lemma bfs_loop_step fuel h q t :
  bfs_loop (S fuel) h (q ++ [t]) =
  res_bind (pushed h t)
    (λ cs, res_bind (bfs_loop fuel h (q ++ cs)) (λ rest, Val (t :: rest))).
Proof.
  cbn [bfs_loop]. rewrite pop_snoc. destruct t as [[item p] k].
  unfold pushed; simpl. destruct item; simpl; rewrite ?app_nil_r; try done.
  by destruct (deref h l).
Qed.

Lemma bfs_loop_single fuel h t :
  bfs_loop (S fuel) h [t] =
  res_bind (pushed h t)
    (λ cs, res_bind (bfs_loop fuel h cs) (λ rest, Val (t :: rest))).
Proof. exact (bfs_loop_step fuel h [] t). Qed.

Lemma bfs_loop_nil fuel h : bfs_loop (S fuel) h [] = Val [].
Proof. reflexivity. Qed.

(** More fuel does not change a traversal that ended. *)
Lemma bfs_loop_fuel_mono fuel : ∀ fuel' h q T,
  bfs_loop fuel h q = Val T → fuel ≤ fuel' → bfs_loop fuel' h q = Val T.
Proof.
  induction fuel as [|fuel IH]; intros fuel' h q T; [done|].
  destruct fuel' as [|fuel']; [lia|]. intros Hrun Hle.
  destruct (pop_cases q) as [[-> _]|(q' & t & -> & _)]; [done|].
  rewrite bfs_loop_step in Hrun |- *.
  destruct (pushed h t) as [cs| | |]; try done. simpl in *.
  apply res_bind_Val in Hrun as (rest & Hrest & [= <-]).
  by rewrite (IH fuel' h _ rest) by (done || lia).
Qed.

(** The stack discipline: what lies at the tail of the queue is traversed
    completely, with everything it pushes, before what lies below it. *)
Lemma bfs_loop_app f1 : ∀ f2 h q q2 T2 Tq,
  bfs_loop f1 h q2 = Val T2 →
  bfs_loop f2 h q = Val Tq →
  bfs_loop (f1 + f2) h (q ++ q2) = Val (T2 ++ Tq).
Proof.
  induction f1 as [|f1 IH]; intros f2 h q q2 T2 Tq H2 Hq; [done|].
  destruct (pop_cases q2) as [[-> _]|(q2' & t & -> & _)].
  - injection H2 as <-. rewrite app_nil_r. cbn [app].
    apply (bfs_loop_fuel_mono f2); [done|lia].
  - rewrite bfs_loop_step in H2. rewrite app_assoc.
    change (S f1 + f2) with (S (f1 + f2)). rewrite bfs_loop_step.
    destruct (pushed h t) as [cs| | |]; try done. simpl in *.
    apply res_bind_Val in H2 as (rest & Hrest & [= <-]).
    rewrite <- app_assoc. by rewrite (IH f2 h q (q2' ++ cs) rest Tq).
Qed.

(** A queue whose entries have the traversals [Ts] is traversed from its
    tail: last entry first. *)
Lemma bfs_loop_queue h ts Ts :
  Forall2 (λ t T, ∃ fuel, bfs_loop fuel h [t] = Val T) ts Ts →
  ∃ fuel, bfs_loop fuel h ts = Val (concat (reverse Ts)).
Proof.
  induction 1 as [|t T ts Ts [f1 Ht] _ [f2 IH]].
  - by exists 1.
  - exists (f2 + f1). rewrite reverse_cons, concat_app. simpl.
    rewrite app_nil_r. by apply (bfs_loop_app f2 f1 h [t] ts).
Qed.

Lemma bfs_loop_head fuel h t T :
  bfs_loop fuel h [t] = Val T → ∃ T', T = t :: T'.
Proof.
  destruct fuel as [|fuel]; [done|].
  rewrite bfs_loop_single.
  destruct (pushed h t) as [cs| | |]; try done. simpl.
  intros (rest & _ & [= <-])%res_bind_Val. eauto.
Qed.

Lemma bfs_children fuel h self e T :
  deref h self = Some e →
  bfs_loop fuel h (children_triples self e) = Val T →
  bfs (S fuel) h self = Val ((VNode self, parent h e, None) :: T).
Proof.
  intros He HT. unfold bfs. rewrite He.
  rewrite bfs_loop_single. unfold pushed. simpl.
  rewrite He. simpl. by rewrite HT.
Qed.

(** * Equality and hashing of [Column], [Literal] and the other classes *)

Lemma upper_ascii_letter c i :
  letter_index c = Some i → upper_ascii c = ascii_of_nat (65 + i).
Proof.
  unfold letter_index, upper_ascii.
  pose proof (ascii_nat_embedding c) as Hc.
  destruct ((65 <=? nat_of_ascii c) && (nat_of_ascii c <=? 90)) eqn:Hup.
  - apply andb_true_iff in Hup as [H1%Nat.leb_le H2%Nat.leb_le].
    intros [= <-].
    replace ((97 <=? nat_of_ascii c) && (nat_of_ascii c <=? 122)) with false.
    + rewrite <- Hc at 1. f_equal. lia.
    + symmetry. apply andb_false_iff. left. apply Nat.leb_gt. lia.
  - destruct ((97 <=? nat_of_ascii c) && (nat_of_ascii c <=? 122)) eqn:Hlow;
      [|done].
    apply andb_true_iff in Hlow as [H1%Nat.leb_le H2%Nat.leb_le].
    intros [= <-]. f_equal. lia.
Qed.

Lemma same_letter_upper c1 c2 :
  same_letter c1 c2 → upper_ascii c1 = upper_ascii c2.
Proof.
  intros [->|(i & H1 & H2)]; [done|].
  by rewrite (upper_ascii_letter c1 i), (upper_ascii_letter c2 i).
Qed.

Lemma differ_in_case_upper s1 s2 :
  differ_in_case s1 s2 → upper s1 = upper s2.
Proof.
  induction 1 as [|c1 c2 s1 s2 Hc _ IH]; [done|].
  simpl. by rewrite IH, (same_letter_upper c1 c2).
Qed.

Lemma fields_upper_cons s fields :
  fields_upper (Some s :: fields) =
  res_bind (fields_upper fields) (λ us, Val (upper s :: us)).
Proof. reflexivity. Qed.

Lemma differ_in_case_fields fx fy :
  Forall2 differ_in_case fx fy →
  ∃ us, fields_upper (Some <$> fx) = Val us ∧ fields_upper (Some <$> fy) = Val us.
Proof.
  induction 1 as [|s1 s2 fx fy Hs _ (us & Hx & Hy)].
  - by exists [].
  - exists (upper s1 :: us). rewrite !fmap_cons, !fields_upper_cons, Hx, Hy.
    simpl. by rewrite (differ_in_case_upper s1 s2).
Qed.

Lemma res_and_true a b :
  res_and a b = Val true → a = Val true ∧ b = Val true.
Proof. destruct a as [[]| | |]; simpl; try done. Qed.

(** Two [Column] nodes that [Column.__eq__] finds equal have the same
    hash. *)
Lemma Column_eq_hash fuel h ex y ey :
  deref h y = Some ey → cls ex = "Column" →
  Column_eq fuel h ex (VNode y) = Val true →
  ∃ k, Column_hash fuel h ex = Val k ∧ Column_hash fuel h ey = Val k.
Proof.
  intros Hy Hx. unfold Column_eq, Column_hash. rewrite Hy.
  destruct (decide (cls ey = "Column")) as [Hcy|]; [|done].
  intros (Hn & (Ht & (Hd & Hf)%res_and_true)%res_and_true)%res_and_true.
  apply res_bind_Val in Hn as (n1 & -> & (n2 & -> & [= Hn%bool_decide_eq_true])%res_bind_Val).
  apply res_bind_Val in Ht as (t1 & -> & (t2 & -> & [= Ht%bool_decide_eq_true])%res_bind_Val).
  apply res_bind_Val in Hd as (d1 & -> & (d2 & -> & [= Hd%bool_decide_eq_true])%res_bind_Val).
  apply res_bind_Val in Hf as (f1 & Hf1 & (u1 & Hu1 & Hf)%res_bind_Val).
  apply res_bind_Val in Hf
    as (f2 & Hf2 & (u2 & Hu2 & [= Hf%bool_decide_eq_true])%res_bind_Val).
  simpl. rewrite Hf1, Hf2. simpl. rewrite Hu1, Hu2. simpl.
  unfold key. rewrite Hx, Hcy, Hn, Ht, Hd, Hf. eauto.
Qed.

(** Two [Literal] nodes that [Literal.__eq__] finds equal have the same
    hash: the hash reads the text, which the equality compares. *)
Lemma Literal_eq_hash fuel h ex y ey :
  deref h y = Some ey → cls ex = "Literal" →
  Literal_eq fuel h ex (VNode y) = Val true →
  ∃ k, Literal_hash fuel h ex = Val k ∧ Literal_hash fuel h ey = Val k.
Proof.
  intros Hy Hx. unfold Literal_eq, Literal_hash. rewrite Hy.
  destruct (decide (cls ey = "Literal")) as [Hcy|]; [|done].
  intros (Ht & _)%res_and_true.
  apply res_bind_Val in Ht as (t1 & -> & (t2 & -> & [= Ht%bool_decide_eq_true])%res_bind_Val).
  simpl. unfold key. rewrite Hx, Hcy, Ht. eauto.
Qed.

(** C5, amended.  Two [Column] nodes whose name, table and db texts and
    whose field texts are read without error, as they are when the
    arguments are tokens, and differ only in letter case are equal and have
    the same hash; so are [Column(this=Foo, table=T)] and
    [Column(this=foo, table=t)], the arguments being tokens with these
    texts. *)
Theorem Column_case_insensitive (fuel : nat) (h : store) (x y : loc)
    (ex ey : Expression) (nx ny tx ty dx dy : option string)
    (fx fy : list string) :
  deref h x = Some ex → deref h y = Some ey →
  cls ex = "Column" → cls ey = "Column" →
  Column_name fuel h ex = Val nx → Column_name fuel h ey = Val ny →
  Column_table fuel h ex = Val tx → Column_table fuel h ey = Val ty →
  Column_db fuel h ex = Val dx → Column_db fuel h ey = Val dy →
  Column_fields fuel h ex = Val (Some <$> fx) →
  Column_fields fuel h ey = Val (Some <$> fy) →
  differ_in_case (default "" nx) (default "" ny) →
  differ_in_case (default "" tx) (default "" ty) →
  differ_in_case (default "" dx) (default "" dy) →
  Forall2 differ_in_case fx fy →
  __eq__ (S fuel) h x (VNode y) = Val true
  ∧ (∃ k, __hash__ (S fuel) h x = Val k ∧ __hash__ (S fuel) h y = Val k)
  ∧ __eq__ 2 Column_example 0 (VNode 1) = Val true.
Proof.
  intros Hx Hy Hcx Hcy Hnx Hny Htx Hty Hdx Hdy Hfx Hfy Hn Ht Hd Hf.
  assert (Heq : Column_eq fuel h ex (VNode y) = Val true).
  { unfold Column_eq. rewrite Hy, decide_True by done.
    rewrite Hnx, Hny, Htx, Hty, Hdx, Hdy, Hfx, Hfy. simpl.
    unfold or_empty_upper.
    rewrite (differ_in_case_upper _ _ Hn), (differ_in_case_upper _ _ Ht),
      (differ_in_case_upper _ _ Hd).
    rewrite !bool_decide_eq_true_2 by done. simpl.
    destruct (differ_in_case_fields _ _ Hf) as (us & -> & ->). simpl.
    by rewrite bool_decide_eq_true_2. }
  split; [|split].
  - cbn [__eq__]. by rewrite Hx, decide_True.
  - cbn [__hash__]. rewrite Hx, Hy, !decide_True by done.
    by apply (Column_eq_hash fuel h ex y ey).
  - reflexivity.
Qed.

Lemma Column_case_insensitive_witness :
  __eq__ 1 Column_example 0 (VNode 1) = Val true
  ∧ ∃ k, __hash__ 1 Column_example 0 = Val k
       ∧ __hash__ 1 Column_example 1 = Val k.
Proof.
  assert (Hcase : ∀ c1 c2 i, letter_index c1 = Some i →
            letter_index c2 = Some i → same_letter c1 c2)
    by (intros c1 c2 i H1 H2; right; eauto).
  pose proof (Column_case_insensitive 0 Column_example 0 1 _ _
    (Some "Foo") (Some "foo") (Some "T") (Some "t") None None [] []
    eq_refl eq_refl eq_refl eq_refl eq_refl eq_refl eq_refl eq_refl
    eq_refl eq_refl eq_refl eq_refl) as H.
  refine (let H' := H _ _ _ _ in conj (proj1 H') (proj1 (proj2 H'))).
  - apply differ_in_case_cons; [by apply (Hcase _ _ 5)|].
    apply differ_in_case_cons; [by left|].
    apply differ_in_case_cons; [by left|]. constructor.
  - apply differ_in_case_cons; [by apply (Hcase _ _ 19)|]. constructor.
  - constructor.
  - constructor.
Defined.

(** The defect behind C10: the two nodes of [keyword_order_example] hold
    the same arguments, entered in a different order; [__eq__] compares the
    dictionaries, which ignores the order, and [__hash__] hashes the tuple
    of the items, which keeps it. *)
Theorem Expression_eq_hash_mismatch :
  __eq__ 3 keyword_order_example 2 (VNode 3) = Val true
  ∧ __hash__ 3 keyword_order_example 2 =
      Val (HTuple [HStr "eq";
                   HTuple [HTuple [HStr "this"; HTuple [HStr "star"; HTuple []]];
                           HTuple [HStr "expression"; HTuple [HStr "null"; HTuple []]]]])
  ∧ __hash__ 3 keyword_order_example 3 =
      Val (HTuple [HStr "eq";
                   HTuple [HTuple [HStr "expression"; HTuple [HStr "null"; HTuple []]];
                           HTuple [HStr "this"; HTuple [HStr "star"; HTuple []]]]])
  ∧ __hash__ 3 keyword_order_example 2 ≠ __hash__ 3 keyword_order_example 3.
Proof.
  split; [reflexivity|]. split; [reflexivity|]. split; [reflexivity|].
  vm_compute. intros [=].
Qed.

(** For the two classes that override them, [__eq__] and [__hash__] are
    consistent: equal nodes have the same hash. *)
Lemma eq_hash_overrides fuel h x y ex :
  deref h x = Some ex → cls ex = "Column" ∨ cls ex = "Literal" →
  __eq__ (S fuel) h x (VNode y) = Val true →
  ∃ k, __hash__ (S fuel) h x = Val k ∧ __hash__ (S fuel) h y = Val k.
Proof.
  intros Hx Hcls. cbn [__eq__ __hash__]. rewrite Hx.
  destruct Hcls as [Hc|Hc].
  - rewrite !decide_True by done. intros Heq.
    assert (Hy : ∃ ey, deref h y = Some ey ∧ cls ey = "Column").
    { unfold Column_eq in Heq. destruct (deref h y) as [ey|]; [|done].
      destruct (decide (cls ey = "Column")); [eauto|done]. }
    destruct Hy as (ey & Hy & Hcy). rewrite Hy, decide_True by done.
    by apply (Column_eq_hash fuel h ex y ey).
  - destruct (decide (cls ex = "Column")) as [Hbad|_];
      [by rewrite Hc in Hbad|].
    destruct (decide (cls ex = "Literal")); [|done]. intros Heq.
    assert (Hy : ∃ ey, deref h y = Some ey ∧ cls ey = "Literal").
    { unfold Literal_eq in Heq. destruct (deref h y) as [ey|]; [|done].
      destruct (decide (cls ey = "Literal")); [eauto|done]. }
    destruct Hy as (ey & Hy & Hcy). rewrite Hy.
    destruct (decide (cls ey = "Column")) as [Hbad|_];
      [by rewrite Hcy in Hbad|].
    destruct (decide (cls ey = "Literal")); [|done].
    by apply (Literal_eq_hash fuel h ex y ey).
Qed.

(** * The rewriting pass: calls to the rewrite function *)

Section tracking.
Context (fun_ : callback).

Lemma silent_tracks {A} (m : M A) : silent m → tracks fun_ m.
Proof.
  intros Hm st. destruct (Hm st) as [Hcalls Hres]. exists [].
  split; [by rewrite app_nil_r|]. split.
  - by intros l v ?%elem_of_nil.
  - split; [done|]. by intros [l ?%elem_of_nil].
Qed.

Lemma silent_ret {A} (a : A) : silent (ret a).
Proof. by intros st. Qed.

Lemma silent_raise {A} e : e ≠ ValueError → silent (@raise A e).
Proof. intros He st. split; [done|]. simpl. congruence. Qed.

Lemma silent_out_of_fuel {A} : silent (@out_of_fuel A).
Proof. by intros st. Qed.

Lemma silent_get_node l : silent (get_node l).
Proof. intros st. unfold get_node. by destruct (deref (heap st) l). Qed.

Lemma silent_put_node l e : silent (put_node l e).
Proof. by intros st. Qed.

Lemma silent_alloc_node e : silent (alloc_node e).
Proof. by intros st. Qed.

Lemma silent_bind {A B} (m : M A) (f : A → M B) :
  silent m → (∀ a, silent (f a)) → silent (bind m f).
Proof.
  intros Hm Hf st. unfold bind. destruct (Hm st) as [Hc Hr].
  destruct (m st) as [[a|e| |] st1]; simpl in *;
    try (split; [done|congruence]).
  destruct (Hf a st1) as [Hc' Hr']. split; [congruence|done].
Qed.

Lemma tracks_bind {A B} (m : M A) (f : A → M B) :
  tracks fun_ m → (∀ a, tracks fun_ (f a)) → tracks fun_ (bind m f).
Proof.
  intros Hm Hf st. unfold bind.
  destruct (Hm st) as (new1 & Hc1 & Hfun1 & Hiff1).
  destruct (m st) as [[a|e| |] st1]; simpl in *.
  2-4: exists new1; split; [done|]; split; [done|];
       rewrite <- Hiff1; split; congruence.
  destruct (Hf a st1) as (new2 & Hc2 & Hfun2 & Hiff2).
  exists (new1 ++ new2). split; [by rewrite Hc2, Hc1, app_assoc|]. split.
  - intros l v [?|?]%elem_of_app; eauto.
  - rewrite Hiff2. split.
    + intros [l Hl]. exists l. apply elem_of_app. by right.
    + intros [l [Hl|Hl]%elem_of_app]; [|by exists l].
      assert (Val a = Exn ValueError) by (apply Hiff1; by exists l). done.
Qed.

(** The call to the rewrite function, followed by the test of its result. *)
Lemma tracks_call {A} node (k : value → M A) :
  (∀ v, v ≠ VNone → tracks fun_ (k v)) →
  tracks fun_ (bind (call fun_ node)
                 (λ v, if is_None v then raise ValueError else k v)).
Proof.
  intros Hk st. unfold bind, call.
  destruct (fun_ node (heap st)) as [h' v] eqn:Hcall.
  assert (Hv : v = (fun_ node (heap st)).2) by (by rewrite Hcall).
  destruct (decide (v = VNone)) as [->|Hne]; simpl.
  - exists [(node, VNone)]. split; [done|]. split.
    + intros l v [= -> ->]%list_elem_of_singleton. eauto.
    + split; [|done]. intros _. exists node. apply list_elem_of_here.
  - replace (is_None v) with false by (by destruct v).
    destruct (Hk v Hne (mkState h' (calls st ++ [(node, v)])))
      as (new & Hc & Hfun & Hiff).
    exists ((node, v) :: new). simpl in Hc.
    split; [by rewrite Hc, <- app_assoc|]. split.
    + intros l w [[= -> ->]|?]%elem_of_cons; eauto.
    + rewrite Hiff. split.
      * intros [l Hl]. exists l. by right.
      * intros [l [[= _ Hnone]|Hl]%elem_of_cons]; [by destruct Hne|by exists l].
Qed.

Lemma silent_deepcopy_value rec memo v :
  (∀ memo c, silent (rec memo c)) → silent (deepcopy_value rec memo v).
Proof.
  intros Hrec. destruct v; try apply silent_ret.
  apply silent_bind; [apply Hrec|intros; apply silent_ret].
Qed.

Lemma silent_deepcopy_values rec vs : ∀ memo,
  (∀ memo c, silent (rec memo c)) → silent (deepcopy_values rec memo vs).
Proof.
  induction vs as [|v vs IH]; intros memo Hrec; [apply silent_ret|].
  apply silent_bind; [by apply silent_deepcopy_value|]. intros r.
  apply silent_bind; [by apply IH|intros; apply silent_ret].
Qed.

Lemma silent_deepcopy_items rec items : ∀ memo,
  (∀ memo c, silent (rec memo c)) → silent (deepcopy_items rec memo items).
Proof.
  induction items as [|[k v] items IH]; intros memo Hrec; [apply silent_ret|].
  apply silent_bind.
  - destruct v.
    + apply silent_bind; [by apply silent_deepcopy_value|].
      intros; apply silent_ret.
    + apply silent_bind; [by apply silent_deepcopy_values|].
      intros; apply silent_ret.
  - intros r. apply silent_bind; [by apply IH|intros; apply silent_ret].
Qed.

(** Copying makes no call. *)
Lemma silent_deepcopy fuel : ∀ memo x, silent (deepcopy fuel memo x).
Proof.
  induction fuel as [|fuel IH]; intros memo x; [apply silent_out_of_fuel|].
  simpl. destruct (memo !! x); [apply silent_ret|].
  apply silent_bind; [apply silent_get_node|]. intros e.
  apply silent_bind; [apply silent_alloc_node|]. intros y.
  apply silent_bind; [by apply silent_deepcopy_items|]. intros r.
  apply silent_bind; [apply silent_put_node|]. intros; apply silent_ret.
Qed.

Lemma silent_assign_parent v new_node : silent (assign_parent v new_node).
Proof.
  destruct v; try (by apply silent_raise); try apply silent_ret.
  apply silent_bind; [apply silent_get_node|]. intros; apply silent_put_node.
Qed.

Lemma tracks_transform_children rec new_node child_nodes :
  (∀ c, tracks fun_ (rec c)) →
  tracks fun_ (transform_children rec new_node child_nodes).
Proof.
  intros Hrec.
  induction child_nodes as [|cn rest IH]; [apply silent_tracks, silent_ret|].
  simpl. apply tracks_bind.
  - destruct cn; try apply silent_tracks, silent_ret.
    apply tracks_bind; [apply Hrec|]. intros r.
    apply tracks_bind; [apply silent_tracks, silent_assign_parent|].
    intros; apply silent_tracks, silent_ret.
  - intros r. apply tracks_bind; [apply IH|].
    intros; apply silent_tracks, silent_ret.
Qed.

Lemma tracks_transform_items rec new_node keys0 ks :
  (∀ c, tracks fun_ (rec c)) →
  tracks fun_ (transform_items rec new_node keys0 ks).
Proof.
  intros Hrec. induction ks as [|k ks IH]; simpl.
  - apply tracks_bind; [apply silent_tracks, silent_get_node|]. intros e.
    case_decide; apply silent_tracks; [apply silent_ret|by apply silent_raise].
  - apply tracks_bind; [apply silent_tracks, silent_get_node|]. intros e.
    case_decide; [|by apply silent_tracks, silent_raise].
    destruct (dict_get k (args e)) as [v|];
      [|by apply silent_tracks, silent_raise].
    apply tracks_bind; [by apply tracks_transform_children|].
    intros new_child_nodes.
    apply tracks_bind; [apply silent_tracks, silent_get_node|]. intros e'.
    apply tracks_bind; [|intros; apply IH].
    apply silent_tracks.
    destruct (is_list_arg v); [apply silent_put_node|].
    destruct new_child_nodes; [by apply silent_raise|apply silent_put_node].
Qed.

(** A pass keeps track of the rewrite function. *)
Lemma tracks_transform fuel : ∀ self copy,
  tracks fun_ (transform fuel fun_ self copy).
Proof.
  induction fuel as [|fuel IH]; intros self copy;
    [apply silent_tracks, silent_out_of_fuel|].
  cbn [transform]. apply tracks_bind.
  - destruct copy; [|apply silent_tracks, silent_ret].
    apply silent_tracks, silent_bind; [apply silent_deepcopy|].
    intros; apply silent_ret.
  - intros node. apply tracks_call. intros v Hv.
    destruct (negb (isinstance_Expression v) || _);
      [apply silent_tracks, silent_ret|].
    apply tracks_bind; [apply silent_tracks, silent_get_node|]. intros e.
    apply tracks_bind; [|intros; apply silent_tracks, silent_ret].
    apply tracks_transform_items. intros c. apply IH.
Qed.

End tracking.

(** C8.  [transform] ends with its [ValueError] exactly when one of the
    calls it made to the rewrite function returned [None]: in that case it
    does not return a tree, and a rewrite function that never returns [None]
    never causes the error. *)
Theorem transform_ValueError_iff_None (fuel : nat) (fun_ : callback)
    (self : loc) (copy : bool) (st : state) :
  ∃ new,
    calls (transform fuel fun_ self copy st).2 = calls st ++ new
    ∧ (∀ l v, (l, v) ∈ new → ∃ h, v = (fun_ l h).2)
    ∧ ((transform fuel fun_ self copy st).1 = Exn ValueError
       ↔ ∃ l, (l, VNone) ∈ new)
    ∧ ((∃ l, (l, VNone) ∈ new) →
       ∀ v, (transform fuel fun_ self copy st).1 ≠ Val v)
    ∧ ((∀ l h, (fun_ l h).2 ≠ VNone) →
       (transform fuel fun_ self copy st).1 ≠ Exn ValueError).
Proof.
  destruct (tracks_transform fun_ fuel self copy st) as (new & Hc & Hfun & Hiff).
  exists new. split; [done|]. split; [done|]. split; [done|]. split.
  - intros Hnone%Hiff v. by rewrite Hnone.
  - intros Hnever [l Hl]%Hiff. destruct (Hfun l VNone Hl) as [h Hh].
    by apply (Hnever l h).
Qed.

(** * The rewriting pass: replacements are terminal *)

(** C1 fails as stated: in [EQ(this=Star(), expression=Null())] the
    rewrite function answers the [Null] node for the [Star] node; the pass
    stores it under [this] and then reaches the same node under
    [expression], where the rewrite function is called on it. *)
Lemma transform_replacement_counterexample :
  (transform 3 alias_callback 0 false (mkState alias_example [])).1
    = Val (VNode 0)
  ∧ calls (transform 3 alias_callback 0 false (mkState alias_example [])).2
    = [(0, VNode 0); (1, VNode 2); (2, VNode 2)]
  ∧ replacement_visited
      (calls (transform 3 alias_callback 0 false (mkState alias_example [])).2).
Proof.
  split; [reflexivity|]. split; [reflexivity|].
  exists 1, 2, (VNode 2). split; [|split].
  - apply list_elem_of_further, list_elem_of_here.
  - lia.
  - do 2 apply list_elem_of_further. apply list_elem_of_here.
Qed.

(** One call of [transform], for any rewrite function.  When the rewrite
    function, applied to the node of the call (the receiver, or its copy),
    returns a value that is neither [None] nor that node, the call returns
    this value as it is, in the store as the rewrite function left it, and
    has made that one call to the rewrite function and no other. *)
Theorem transform_terminal_replacement (fuel : nat) (fun_ : callback)
    (self : loc) (copy : bool) (st st1 : state) (node : loc) (h' : store)
    (v : value) :
  (if copy
   then ∃ memo, deepcopy fuel ∅ self st = (Val (node, memo), st1)
   else node = self ∧ st1 = st) →
  fun_ node (heap st1) = (h', v) →
  v ≠ VNone → v ≠ VNode node →
  transform (S fuel) fun_ self copy st =
    (Val v, mkState h' (calls st ++ [(node, v)])).
Proof.
  intros Hnode Hcall Hnone Hsame.
  assert (Hcalls : calls st1 = calls st).
  { destruct copy; [|by destruct Hnode as [_ ->]].
    destruct Hnode as [memo Hcopy].
    pose proof (silent_deepcopy fuel ∅ self st) as [Hc _].
    by rewrite Hcopy in Hc. }
  assert (Htest : negb (isinstance_Expression v)
                  || negb (bool_decide (v = VNode node)) = true).
  { rewrite bool_decide_eq_false_2 by done. apply orb_true_r. }
  cbn [transform]. unfold bind at 1.
  destruct copy.
  - destruct Hnode as [memo Hcopy]. unfold bind at 1. rewrite Hcopy.
    cbn [ret fst]. unfold bind, call. rewrite Hcall.
    replace (is_None v) with false by (by destruct v).
    rewrite Htest. unfold ret. by rewrite Hcalls.
  - destruct Hnode as [-> ->]. cbn [ret]. unfold bind, call. rewrite Hcall.
    replace (is_None v) with false by (by destruct v).
    by rewrite Htest.
Qed.

Lemma transform_terminal_replacement_witness :
  transform 1 alias_callback 1 false (mkState alias_example []) =
    (Val (VNode 2), mkState alias_example [(1, VNode 2)]).
Proof.
  exact (transform_terminal_replacement 0 alias_callback 1 false
           (mkState alias_example []) (mkState alias_example []) 1
           alias_example (VNode 2) (conj eq_refl eq_refl) eq_refl
           ltac:(discriminate) ltac:(discriminate)).
Defined.

(** A replacement that is a string is returned by the call on the child,
    and the assignment of its parent then fails in the caller. *)
Lemma transform_string_replacement :
  (transform 1 star_callback 1 false (mkState alias_example [])).1
    = Val (VStr "*")
  ∧ (transform 3 star_callback 0 false (mkState alias_example [])).1
    = Exn AttributeError.
Proof. split; reflexivity. Qed.

(** * Trees in the store: footprints and frames *)

Lemma deref_Some_lt (h : store) x e : deref h x = Some e → x < length h.
Proof.
  unfold deref. destruct (h !! x) as [o|] eqn:Hx; [|done].
  intros _. by apply lookup_lt_Some in Hx.
Qed.

Lemma deref_lookup (h : store) x e : deref h x = Some e ↔ h !! x = Some (Some e).
Proof.
  unfold deref. destruct (h !! x) as [[e'|]|]; split; intros; simplify_eq; done.
Qed.

Lemma deref_app_l (h added : store) x :
  x < length h → deref (h ++ added) x = deref h x.
Proof. intros Hlt. unfold deref. by rewrite lookup_app_l. Qed.

Lemma deref_app_Some (h added : store) x e :
  deref h x = Some e → deref (h ++ added) x = Some e.
Proof.
  intros He. rewrite deref_app_l; [done|]. by apply deref_Some_lt in He.
Qed.

Lemma deref_insert_eq (h : store) x e :
  x < length h → deref (<[x := Some e]> h) x = Some e.
Proof. intros Hlt. unfold deref. by rewrite list_lookup_insert_eq. Qed.

Lemma deref_insert_ne (h : store) x y o :
  x ≠ y → deref (<[x := o]> h) y = deref h y.
Proof. intros Hne. unfold deref. by rewrite list_lookup_insert_ne. Qed.

Lemma deref_ext (h h2 : store) x : h2 !! x = h !! x → deref h2 x = deref h x.
Proof. unfold deref. by intros ->. Qed.

Lemma agree_at_refl h x : agree_at h h x.
Proof. done. Qed.

Lemma agree_at_trans h1 h2 h3 x :
  agree_at h1 h2 x → agree_at h2 h3 x → agree_at h1 h3 x.
Proof. unfold agree_at. congruence. Qed.

Lemma agree_at_ext (h h2 : store) x : h2 !! x = h !! x → agree_at h h2 x.
Proof. intros Hx. unfold agree_at. by rewrite (deref_ext h h2 x). Qed.

Lemma agree_at_Some h h2 x e :
  agree_at h h2 x → deref h x = Some e →
  ∃ e2, deref h2 x = Some e2 ∧ cls e2 = cls e ∧ args e2 = args e
        ∧ arg_key e2 = arg_key e.
Proof.
  unfold agree_at. intros Hag He. rewrite He in Hag.
  destruct (deref h2 x) as [e2|]; [|done]. injection Hag as H1 H2 H3. eauto.
Qed.

Lemma elem_of_concat_2 {A} (x : A) (l : list A) (ls : list (list A)) :
  x ∈ l → l ∈ ls → x ∈ concat ls.
Proof.
  intros Hx Hl. induction Hl as [l ls|l l' ls _ IH]; simpl;
    apply elem_of_app; [by left|right; by apply IH].
Qed.

Lemma Forall2_impl_elem {A B} (P Q : A → B → Prop) l k :
  Forall2 P l k → (∀ x y, x ∈ l → y ∈ k → P x y → Q x y) → Forall2 Q l k.
Proof.
  induction 1 as [|x y l k Hxy _ IH]; intros HPQ; constructor.
  - apply HPQ; [apply list_elem_of_here..|done].
  - apply IH. intros x' y' Hx' Hy'. apply HPQ; by apply list_elem_of_further.
Qed.

Lemma Forall2_elem_l {A B} (P : A → B → Prop) l k x :
  Forall2 P l k → x ∈ l → ∃ y, y ∈ k ∧ P x y.
Proof.
  induction 1 as [|x' y l k Hxy _ IH]; [by intros ?%elem_of_nil|].
  intros [->|Hx]%elem_of_cons.
  - exists y. split; [apply list_elem_of_here|done].
  - destruct (IH Hx) as (y' & Hy' & HP). exists y'.
    split; [by apply list_elem_of_further|done].
Qed.

Lemma tree_at_root n h l fp : tree_at n h l fp → l ∈ fp ∧ is_Some (deref h l).
Proof.
  destruct n as [|n]; [done|]. intros (e & fps & He & _ & _ & -> & _).
  split; [apply list_elem_of_here|eauto].
Qed.

Lemma tree_at_NoDup n h l fp : tree_at n h l fp → NoDup fp.
Proof. destruct n as [|n]; [done|]. by intros (e & fps & _ & _ & _ & _ & ?). Qed.

(** A tree only depends on the contents of its nodes. *)
Lemma tree_at_frame n : ∀ h h2 l fp,
  tree_at n h l fp → (∀ x, x ∈ fp → agree_at h h2 x) → tree_at n h2 l fp.
Proof.
  induction n as [|n IH]; intros h h2 l fp; [done|].
  intros (e & fps & He & Hkeys & Hch & -> & Hnd) Hag.
  destruct (agree_at_Some h h2 l e) as (e2 & He2 & Hcls & Hargs & Hkey);
    [apply Hag, list_elem_of_here|done|].
  exists e2, fps. unfold child_locs. rewrite Hargs.
  split; [done|]. split; [done|]. split; [|done].
  apply (Forall2_impl_elem _ _ _ _ Hch). intros c fc _ Hfc Hc.
  apply (IH h); [done|]. intros x Hx. apply Hag.
  apply list_elem_of_further. by apply (elem_of_concat_2 _ fc).
Qed.

Lemma tree_at_mono n : ∀ m h l fp, tree_at n h l fp → n ≤ m → tree_at m h l fp.
Proof.
  induction n as [|n IH]; intros m h l fp; [done|].
  destruct m as [|m]; [lia|].
  intros (e & fps & He & Hkeys & Hch & -> & Hnd) Hle.
  exists e, fps. repeat (split; [done|]). split; [|done].
  apply (Forall2_impl _ _ _ _ Hch). intros c fc Hc. apply (IH m); [done|lia].
Qed.

(** The nodes of a tree are allocated. *)
Lemma tree_at_allocated n : ∀ h l fp x,
  tree_at n h l fp → x ∈ fp → is_Some (deref h x).
Proof.
  induction n as [|n IH]; intros h l fp x; [done|].
  intros (e & fps & He & _ & Hch & -> & _) [->|Hx]%elem_of_cons; [eauto|].
  clear He. induction Hch as [|c fc cs fps Hc _ IHch]; simpl in Hx;
    [by apply elem_of_nil in Hx|].
  apply elem_of_app in Hx as [Hx|Hx]; [by apply (IH h c fc)|by apply IHch].
Qed.

Lemma node_locs_elem vs c : VNode c ∈ vs → c ∈ node_locs vs.
Proof.
  induction vs as [|v vs IH]; [by intros ?%elem_of_nil|].
  intros [<-|Hc]%elem_of_cons; unfold node_locs; simpl.
  - apply list_elem_of_here.
  - fold (node_locs vs). destruct v; try (by apply IH).
    apply list_elem_of_further. by apply IH.
Qed.

Lemma child_locs_elem e k s c :
  (k, s) ∈ args e → VNode c ∈ ensure_list s → c ∈ child_locs e.
Proof.
  unfold child_locs. intros Hks Hc.
  induction (args e) as [|kv its IH]; [by apply elem_of_nil in Hks|].
  simpl. apply elem_of_app. apply elem_of_cons in Hks as [<-|Hks].
  - left. by apply node_locs_elem.
  - right. by apply IH.
Qed.

(** The structure below values only depends on the contents of the nodes
    of the trees below them. *)
Lemma shape_values_frame n h h2 vs fps :
  (∀ c fc, tree_at n h c fc → (∀ x, x ∈ fc → agree_at h h2 x) →
     shape_of n h2 (VNode c) = shape_of n h (VNode c)) →
  Forall2 (tree_at n h) (node_locs vs) fps →
  (∀ x, x ∈ concat fps → agree_at h h2 x) →
  mapM (shape_of n h2) vs = mapM (shape_of n h) vs.
Proof.
  intros IH Hch Hag. apply Forall_mapM_ext, Forall_forall. intros v Hv.
  destruct v as [| | | | |c]; try (by destruct n).
  destruct (Forall2_elem_l _ _ _ _ Hch (node_locs_elem _ _ Hv))
    as (fc & Hfc & Htree).
  apply (IH c fc Htree). intros x Hx. apply Hag.
  by apply (elem_of_concat_2 _ fc).
Qed.

Lemma shape_items_frame n h h2 (its : list (string * slot)) fps :
  (∀ c fc, tree_at n h c fc → (∀ x, x ∈ fc → agree_at h h2 x) →
     shape_of n h2 (VNode c) = shape_of n h (VNode c)) →
  Forall2 (tree_at n h) (flat_map (λ kv, node_locs (ensure_list kv.2)) its) fps →
  (∀ x, x ∈ concat fps → agree_at h h2 x) →
  mapM (shape_item (shape_of n h2)) its = mapM (shape_item (shape_of n h)) its.
Proof.
  intros IH Hch Hag. apply Forall_mapM_ext, Forall_forall. intros [k s] Hks.
  unfold shape_item. simpl.
  assert (Hvals : mapM (shape_of n h2) (ensure_list s)
                  = mapM (shape_of n h) (ensure_list s)); [|by rewrite Hvals].
  apply Forall_mapM_ext, Forall_forall. intros v Hv.
  destruct v as [| | | | |c]; try (by destruct n).
  assert (Hc : c ∈ flat_map (λ kv, node_locs (ensure_list kv.2)) its).
  { clear Hch. induction its as [|kv its IHits]; [by apply elem_of_nil in Hks|].
    simpl. apply elem_of_app. apply elem_of_cons in Hks as [<-|Hks].
    - left. by apply node_locs_elem.
    - right. by apply IHits. }
  destruct (Forall2_elem_l _ _ _ _ Hch Hc) as (fc & Hfc & Htree).
  apply (IH c fc Htree). intros x Hx. apply Hag.
  by apply (elem_of_concat_2 _ fc).
Qed.

(** The structure below a node only depends on the contents of the nodes
    of its tree. *)
Lemma shape_of_frame n : ∀ h h2 l fp,
  tree_at n h l fp → (∀ x, x ∈ fp → agree_at h h2 x) →
  shape_of n h2 (VNode l) = shape_of n h (VNode l).
Proof.
  induction n as [|n IH]; intros h h2 l fp; [done|].
  intros (e & fps & He & Hkeys & Hch & -> & Hnd) Hag.
  destruct (agree_at_Some h h2 l e) as (e2 & He2 & Hcls & Hargs & Hkey);
    [apply Hag, list_elem_of_here|done|].
  cbn [shape_of]. rewrite He, He2, Hcls, Hargs, Hkey.
  rewrite (shape_items_frame n h h2 (args e) fps); [done|apply IH|done|].
  intros x Hx. apply Hag. by apply list_elem_of_further.
Qed.

(** A tree has a structure. *)
Lemma shape_of_tree n : ∀ h l fp,
  tree_at n h l fp → is_Some (shape_of n h (VNode l)).
Proof.
  induction n as [|n IH]; intros h l fp; [done|].
  intros (e & fps & He & Hkeys & Hch & -> & Hnd).
  cbn [shape_of]. rewrite He.
  assert (Hitems : is_Some (mapM (shape_item (shape_of n h)) (args e))).
  { apply mapM_is_Some, Forall_forall. intros [k s] Hks.
    unfold shape_item. simpl.
    assert (Hvals : is_Some (mapM (shape_of n h) (ensure_list s))).
    { apply mapM_is_Some, Forall_forall. intros v Hv. simpl.
      destruct v as [| | | | |c]; try (by destruct n).
      pose proof (child_locs_elem e k s c Hks Hv) as Hc.
      destruct (Forall2_elem_l _ _ _ _ Hch Hc) as (fc & Hfc & Htree).
      by apply (IH h c fc). }
    destruct Hvals as [ss ->]. eauto. }
  destruct Hitems as [a ->]. eauto.
Qed.

(** * The default traversal of a tree *)

Lemma children_triples_elem l e t :
  t ∈ children_triples l e →
  ∃ k s v, (k, s) ∈ args e ∧ v ∈ ensure_list s ∧ t = (v, Some l, Some k).
Proof.
  unfold children_triples. induction (args e) as [|[k s] its IH]; simpl.
  - by intros ?%elem_of_nil.
  - intros [Ht|Ht]%elem_of_app.
    + apply list_elem_of_fmap in Ht as (v & -> & Hv).
      exists k, s, v. split; [by left|done].
    + destruct (IH Ht) as (k' & s' & v & Hks & Hv & ->).
      exists k', s', v. split; [by right|done].
Qed.

Lemma Forall_Forall2_exists {A B} (P : A → B → Prop) (l : list A) :
  Forall (λ x, ∃ y, P x y) l → ∃ k, Forall2 P l k.
Proof.
  induction 1 as [|x l [y Hy] _ [k Hk]]; [by exists []|].
  exists (y :: k). by constructor.
Qed.

(** On a tree the traversal ends. *)
Lemma bfs_loop_tree n : ∀ h l fp parent_ key_,
  tree_at n h l fp →
  ∃ fuel T, bfs_loop fuel h [(VNode l, parent_, key_)] = Val T.
Proof.
  induction n as [|n IH]; intros h l fp parent_ key_; [done|].
  intros (e & fps & He & _ & Hch & _ & _).
  assert (Hall : Forall (λ t, ∃ T, ∃ fuel, bfs_loop fuel h [t] = Val T)
                   (children_triples l e)).
  { apply Forall_forall. intros t (k & s & v & Hks & Hv & ->)%children_triples_elem.
    destruct v as [| | | | |c];
      try (eexists; exists 2; reflexivity).
    pose proof (child_locs_elem e k s c Hks Hv) as Hc.
    destruct (Forall2_elem_l _ _ _ _ Hch Hc) as (fc & _ & Htree).
    destruct (IH h c fc (Some l) (Some k) Htree) as (fuel & T & HT). eauto. }
  apply Forall_Forall2_exists in Hall as [Ts HTs].
  destruct (bfs_loop_queue _ _ _ HTs) as [fuel Hq].
  exists (S fuel), ((VNode l, parent_, key_) :: concat (reverse Ts)).
  rewrite bfs_loop_single. unfold pushed. simpl. rewrite He. simpl.
  by rewrite Hq.
Qed.

(** C4 fails as stated on the order of the children: the loop takes the
    arguments in the order of the dictionary [args], which is the order in
    which they were given to the node, not in the order of the schema.  For
    [EQ(expression=Null(), this=Star())] the [Star] node is visited before
    the [Null] node; with the children appended in the order of the schema
    of [EQ] ([this], [expression]) it would be the other way round. *)
Lemma walk_key_order_counterexample :
  arg_types_of "EQ" = [("this", true); ("expression", true)]
  ∧ bfs 4 keyword_order_example 3 =
      Val [(VNode 3, None, None);
           (VNode 0, Some 3, Some "this");
           (VNode 1, Some 3, Some "expression")]
  ∧ bfs_declared 4 keyword_order_example 3 =
      Val [(VNode 3, None, None);
           (VNode 1, Some 3, Some "expression");
           (VNode 0, Some 3, Some "this")]
  ∧ bfs 4 keyword_order_example 3 ≠ bfs_declared 4 keyword_order_example 3.
Proof.
  split; [reflexivity|]. split; [reflexivity|]. split; [reflexivity|].
  vm_compute. intros [=].
Qed.

(** C4, amended.  The default order of [walk], which [find_all] and [find]
    filter, is that of [bfs]: a queue that starts with the root and is
    served from its tail, the children of the removed node being appended
    in the order of its dictionary of arguments.  So the children of a node
    are traversed last to first, each with its whole subtree: with two
    children, everything below the second is visited before the first.  On
    a tree the traversal ends, and on the example tree its order is not the
    level order. *)
Theorem walk_default_order (h : store) (self : loc) (e : Expression)
    (Ts : list (list triple)) :
  deref h self = Some e →
  Forall2 (λ t T, ∃ fuel, bfs_loop fuel h [t] = Val T)
          (children_triples self e) Ts →
  (∀ fuel, walk fuel h self true = bfs fuel h self)
  ∧ (∀ fuel types,
       find_all fuel h self types =
       res_bind (bfs fuel h self)
         (λ ts, Val (filter (λ v, isinstance h types v = true) (items ts))))
  ∧ (∃ fuel, bfs fuel h self =
       Val ((VNode self, parent h e, None) :: concat (reverse Ts)))
  ∧ (∀ k1 c1 k2 c2 T1 T2,
       args e = [(k1, Single (VNode c1)); (k2, Single (VNode c2))] →
       Ts = [T1; T2] →
       (∃ fuel, bfs fuel h self =
          Val ((VNode self, parent h e, None) :: T2 ++ T1))
       ∧ (∃ T1', T1 = (VNode c1, Some self, Some k1) :: T1')
       ∧ (∃ T2', T2 = (VNode c2, Some self, Some k2) :: T2'))
  ∧ (∀ n fp, tree_at n h self fp → ∃ fuel T, bfs fuel h self = Val T)
  ∧ (res_bind (bfs 8 walk_example 0) (λ ts, Val (items ts)) =
       Val [VNode 0; VNode 2; VNode 6; VNode 5; VNode 1; VNode 4; VNode 3]
     ∧ res_bind (level_order 8 walk_example 0) (λ ts, Val (items ts)) =
       Val [VNode 0; VNode 1; VNode 2; VNode 3; VNode 4; VNode 5; VNode 6]).
Proof.
  intros He HTs.
  assert (Hall : ∃ fuel, bfs fuel h self =
            Val ((VNode self, parent h e, None) :: concat (reverse Ts))).
  { destruct (bfs_loop_queue _ _ _ HTs) as [fuel Hq].
    exists (S fuel). by apply bfs_children. }
  split; [done|]. split; [done|]. split; [done|].
  split; [|split; [|by vm_compute]].
  2:{ intros n fp Htree.
      destruct (bfs_loop_tree n h self fp (parent h e) None Htree)
        as (fuel & T & HT).
      exists fuel, T. unfold bfs. by rewrite He. }
  intros k1 c1 k2 c2 T1 T2 Hargs ->.
  split; [|split].
  - destruct Hall as [fuel Hall]. exists fuel. rewrite Hall.
    rewrite !reverse_cons, reverse_nil. simpl. by rewrite app_nil_r.
  - unfold children_triples in HTs. rewrite Hargs in HTs. simpl in HTs.
    apply Forall2_cons_1 in HTs as [[f Hf] _].
    by apply bfs_loop_head in Hf.
  - unfold children_triples in HTs. rewrite Hargs in HTs. simpl in HTs.
    apply Forall2_cons_1 in HTs as [_ HTs].
    apply Forall2_cons_1 in HTs as [[f Hf] _].
    by apply bfs_loop_head in Hf.
Qed.

Lemma walk_default_order_witness :
  ∃ fuel, bfs fuel walk_example 0 =
    Val [(VNode 0, None, None);
         (VNode 2, Some 0, Some "expression");
         (VNode 6, Some 2, Some "expression");
         (VNode 5, Some 2, Some "this");
         (VNode 1, Some 0, Some "this");
         (VNode 4, Some 1, Some "expression");
         (VNode 3, Some 1, Some "this")].
Proof.
  assert (HTs : Forall2 (λ t T, ∃ fuel, bfs_loop fuel walk_example [t] = Val T)
            (children_triples 0
               (mkExpression "And"
                  [("this", Single (VNode 1)); ("expression", Single (VNode 2))]
                  None None))
            [ [(VNode 1, Some 0, Some "this");
               (VNode 4, Some 1, Some "expression");
               (VNode 3, Some 1, Some "this")];
              [(VNode 2, Some 0, Some "expression");
               (VNode 6, Some 2, Some "expression");
               (VNode 5, Some 2, Some "this")] ]).
  { repeat constructor; exists 4; reflexivity. }
  exact (proj1 (proj2 (proj2 (walk_default_order walk_example 0 _ _ eq_refl HTs)))).
Defined.

(** * The identity pass on a tree *)

Lemma bind_Val {A B} (m : M A) (f : A → M B) st a st1 :
  m st = (Val a, st1) → bind m f st = f a st1.
Proof. unfold bind. by intros ->. Qed.

Lemma get_node_Some l st e :
  deref (heap st) l = Some e → get_node l st = (Val e, st).
Proof. unfold get_node. by intros ->. Qed.

Lemma Expression_eta e :
  mkExpression (cls e) (args e) (_parent e) (arg_key e) = e.
Proof. by destruct e. Qed.

Lemma dict_set_get_id {A} (d : list (string * A)) k v :
  dict_get k d = Some v → dict_set k v d = d.
Proof.
  induction d as [|[k' v'] d IH]; simpl; [done|].
  case_decide; [by intros [= ->]; subst|]. intros Hk. by rewrite IH.
Qed.

Lemma dict_get_middle {A} (pre post : list (string * A)) k v :
  NoDup (dict_keys (pre ++ (k, v) :: post)) →
  dict_get k (pre ++ (k, v) :: post) = Some v.
Proof.
  unfold dict_keys. rewrite fmap_app, fmap_cons. simpl.
  intros (_ & Hpre & _)%NoDup_app.
  induction pre as [|[k' v'] pre IH]; simpl.
  - by rewrite decide_True.
  - rewrite decide_False.
    + apply IH. intros x Hx. apply Hpre. by right.
    + intros ->. apply (Hpre k'); [by left|by left].
Qed.

Lemma children_reattached_nil h l : children_reattached h h l [].
Proof.
  split; [done|]. split; [done|].
  split; by intros x ?%elem_of_nil.
Qed.

(** After the pass on the child [c] and the assignment of its parent. *)
Lemma children_reattached_child h h1 l c fc e1 :
  reattached h h1 c fc → c ∈ fc → deref h1 c = Some e1 →
  children_reattached h (<[c := Some (set_parent e1 l)]> h1) l fc.
Proof.
  intros (Hlen & Hout & Hin & _ & Hpar) Hc He1.
  pose proof (deref_Some_lt _ _ _ He1) as Hlt.
  split; [by rewrite length_insert|]. split; [|split].
  - intros x Hx. rewrite list_lookup_insert_ne by (by intros ->). by apply Hout.
  - intros x Hx. destruct (decide (x = c)) as [->|Hne].
    + apply (agree_at_trans _ h1); [by apply Hin|].
      unfold agree_at. by rewrite deref_insert_eq, He1.
    + apply (agree_at_trans _ h1); [by apply Hin|].
      apply agree_at_ext. by rewrite list_lookup_insert_ne.
  - intros x Hx. destruct (decide (x = c)) as [->|Hne].
    + exists (set_parent e1 l), l. rewrite deref_insert_eq by done.
      split; [done|]. split; [done|]. by left.
    + destruct (Hpar x Hx Hne) as (e & p & He & Hp & Hpin).
      exists e, p. rewrite deref_insert_ne by done.
      split; [done|]. split; [done|]. by right.
Qed.

Lemma children_reattached_app h h1 h2 l fp1 fp2 :
  children_reattached h h1 l fp1 →
  children_reattached h1 h2 l fp2 →
  (∀ x, x ∈ fp1 → x ∉ fp2) →
  children_reattached h h2 l (fp1 ++ fp2).
Proof.
  intros (Hlen1 & Hout1 & Hin1 & Hpar1) (Hlen2 & Hout2 & Hin2 & Hpar2) Hdisj.
  split; [congruence|]. split; [|split].
  - intros x [Hx1 Hx2]%not_elem_of_app. rewrite Hout2 by done. by apply Hout1.
  - intros x Hx. apply (agree_at_trans _ h1).
    + destruct (decide (x ∈ fp1)); [by apply Hin1|].
      apply agree_at_ext. by apply Hout1.
    + destruct (decide (x ∈ fp2)); [by apply Hin2|].
      apply agree_at_ext. by apply Hout2.
  - intros x Hx. destruct (decide (x ∈ fp2)) as [Hx2|Hx2].
    + destruct (Hpar2 x Hx2) as (e & p & He & Hp & Hpin). exists e, p.
      split; [done|]. split; [done|].
      apply elem_of_cons in Hpin as [->|Hpin]; [by left|right].
      apply elem_of_app. by right.
    + apply elem_of_app in Hx as [Hx1|?]; [|done].
      destruct (Hpar1 x Hx1) as (e & p & He & Hp & Hpin). exists e, p.
      split; [by rewrite (deref_ext h1 h2 x) by (by apply Hout2)|].
      split; [done|].
      apply elem_of_cons in Hpin as [->|Hpin]; [by left|right].
      apply elem_of_app. by left.
Qed.

(** The trees below values that were not visited yet are still there. *)
Lemma children_reattached_frame n h h1 l fp cs fps :
  children_reattached h h1 l fp →
  Forall2 (tree_at n h) cs fps →
  (∀ x, x ∈ concat fps → x ∉ fp) →
  Forall2 (tree_at n h1) cs fps.
Proof.
  intros (_ & Hout & _) Hch Hdisj.
  apply (Forall2_impl_elem _ _ _ _ Hch). intros c fc _ Hfc Htree.
  apply (tree_at_frame n h); [done|]. intros x Hx.
  apply agree_at_ext, Hout, Hdisj. by apply (elem_of_concat_2 _ fc).
Qed.

(** The loop over the values of one argument. *)
Lemma transform_children_tree rec n l : visits_tree rec n → ∀ vs h tr fps,
  Forall2 (tree_at n h) (node_locs vs) fps →
  NoDup (l :: concat fps) →
  ∃ h' new,
    transform_children rec l vs (mkState h tr) = (Val vs, mkState h' (tr ++ new))
    ∧ children_reattached h h' l (concat fps).
Proof.
  intros Hrec. induction vs as [|v vs IH]; intros h tr fps Hch Hnd.
  - apply Forall2_nil_inv_l in Hch as ->. exists h, [].
    split; [by rewrite app_nil_r|apply children_reattached_nil].
  - assert (Hskip : (∀ c, v ≠ VNode c) →
      ∃ h' new,
        transform_children rec l (v :: vs) (mkState h tr)
          = (Val (v :: vs), mkState h' (tr ++ new))
        ∧ children_reattached h h' l (concat fps)).
    { intros Hv.
      assert (Hlocs : node_locs (v :: vs) = node_locs vs)
        by (destruct v; try done; by destruct (Hv l0)).
      rewrite Hlocs in Hch.
      destruct (IH h tr fps Hch Hnd) as (h' & new & Hrun & Hpost).
      exists h', new. split; [|done]. cbn [transform_children].
      rewrite (bind_Val _ _ _ v (mkState h tr)) by (by destruct v; try done; destruct (Hv l0)).
      by rewrite (bind_Val _ _ _ _ _ Hrun). }
    destruct v as [| | | | |c]; try (by apply Hskip).
    clear Hskip. change (node_locs (VNode c :: vs)) with (c :: node_locs vs) in Hch.
    apply Forall2_cons_inv_l in Hch as (fc & fps' & Htree & Hch & ->).
    simpl in Hnd. apply NoDup_cons in Hnd as [Hl Hnd].
    apply not_elem_of_app in Hl as [Hlc Hlfps].
    apply NoDup_app in Hnd as (Hndc & Hdisj & Hndfps).
    destruct (Hrec h tr c fc Htree) as (h1 & new1 & Hrun1 & Hre1).
    pose proof (tree_at_root _ _ _ _ Htree) as [Hcin [e He]].
    destruct (agree_at_Some h h1 c e) as (e1 & He1 & _);
      [by apply Hre1|done|].
    pose proof (children_reattached_child h h1 l c fc e1 Hre1 Hcin He1) as Hre2.
    set (h2 := <[c := Some (set_parent e1 l)]> h1) in *.
    destruct (IH h2 (tr ++ new1) fps') as (h' & new2 & Hrun2 & Hre3).
    { apply (children_reattached_frame n h h2 l fc); [done..|].
      intros x Hx Hxc. by apply (Hdisj x). }
    { by apply NoDup_cons. }
    exists h', (new1 ++ new2). split.
    + cbn [transform_children].
      rewrite (bind_Val _ _ _ (VNode c) (mkState h2 (tr ++ new1))).
      * rewrite (bind_Val _ _ _ _ _ Hrun2). by rewrite app_assoc.
      * rewrite (bind_Val _ _ _ _ _ Hrun1).
        cbn [assign_parent].
        rewrite (bind_Val _ _ _ tt (mkState h2 (tr ++ new1))); [done|].
        by rewrite (bind_Val _ _ _ e1 (mkState h1 (tr ++ new1)))
          by (by apply get_node_Some).
    + simpl. by apply (children_reattached_app h h2 h').
Qed.

(** Writing back to [new_node] the arguments it holds changes nothing. *)
Lemma put_node_same l e h tr :
  deref h l = Some e → put_node l e (mkState h tr) = (Val tt, mkState h tr).
Proof.
  intros He%deref_lookup. unfold put_node. simpl.
  by rewrite list_insert_id.
Qed.

(** The loop over the arguments. *)
Lemma transform_items_tree rec n l e :
  visits_tree rec n → NoDup (dict_keys (args e)) →
  ∀ its pre h tr fps,
    args e = pre ++ its → deref h l = Some e →
    Forall2 (tree_at n h) (flat_map (λ kv, node_locs (ensure_list kv.2)) its) fps →
    NoDup (l :: concat fps) →
    ∃ h' new,
      transform_items rec l (dict_keys (args e)) (dict_keys its) (mkState h tr)
        = (Val tt, mkState h' (tr ++ new))
      ∧ children_reattached h h' l (concat fps).
Proof.
  intros Hrec Hkeys.
  induction its as [|[k s] its IH]; intros pre h tr fps Hargs He Hch Hnd.
  - apply Forall2_nil_inv_l in Hch as ->. exists h, [].
    split; [|apply children_reattached_nil].
    cbn [transform_items dict_keys fmap list_fmap].
    rewrite (bind_Val _ _ _ e (mkState h tr)) by (by apply get_node_Some).
    rewrite decide_True by done. by rewrite app_nil_r.
  - change (flat_map _ ((k, s) :: its))
      with (node_locs (ensure_list s)
            ++ flat_map (λ kv : string * slot, node_locs (ensure_list kv.2)) its)
      in Hch.
    apply Forall2_app_inv_l in Hch as (fps1 & fps2 & Hch1 & Hch2 & ->).
    rewrite concat_app in Hnd |- *.
    apply NoDup_cons in Hnd as [Hl Hnd].
    apply not_elem_of_app in Hl as [Hl1 Hl2].
    apply NoDup_app in Hnd as (Hnd1 & Hdisj & Hnd2).
    destruct (transform_children_tree rec n l Hrec (ensure_list s) h tr fps1)
      as (h1 & new1 & Hrun1 & Hre1); [done|by apply NoDup_cons|].
    assert (He1 : deref h1 l = Some e).
    { rewrite (deref_ext h h1 l); [done|]. by apply Hre1. }
    destruct (IH (pre ++ [(k, s)]) h1 (tr ++ new1) fps2)
      as (h' & new2 & Hrun2 & Hre2).
    { by rewrite <- app_assoc. }
    { done. }
    { apply (children_reattached_frame n h h1 l (concat fps1)); [done..|].
      intros x Hx2 Hx1. by apply (Hdisj x). }
    { by apply NoDup_cons. }
    exists h', (new1 ++ new2).
    split; [|by apply (children_reattached_app h h1 h')].
    change (dict_keys ((k, s) :: its)) with (k :: dict_keys its).
    cbn [transform_items].
    rewrite (bind_Val _ _ _ e (mkState h tr)) by (by apply get_node_Some).
    rewrite decide_True by done.
    assert (Hget : dict_get k (args e) = Some s).
    { rewrite Hargs. apply dict_get_middle. by rewrite <- Hargs. }
    rewrite Hget.
    erewrite bind_Val; [|exact Hrun1].
    rewrite (bind_Val _ _ _ e (mkState h1 (tr ++ new1)))
      by (by apply get_node_Some).
    rewrite (bind_Val _ _ _ tt (mkState h1 (tr ++ new1))).
    + rewrite Hrun2. by rewrite app_assoc.
    + destruct s as [x|vs]; simpl; rewrite (dict_set_get_id _ _ _ Hget),
        Expression_eta; by apply put_node_same.
Qed.

(** The pass with the identity returns the tree it is given, with the
    parents of its nodes reattached, whenever the fuel covers the height. *)
Lemma transform_identity_tree n : ∀ fuel,
  n ≤ fuel → visits_tree (λ c, transform fuel identity c false) n.
Proof.
  induction n as [|n IH]; intros fuel Hle h tr c fc; [done|].
  destruct fuel as [|fuel]; [lia|].
  intros (e & fps & He & Hkeys & Hch & -> & Hnd).
  destruct (transform_items_tree (λ c, transform fuel identity c false) n c e
              (IH fuel ltac:(lia)) Hkeys (args e) [] h
              (tr ++ [(c, VNode c)]) fps)
    as (h' & new & Hrun & Hlen & Hout & Hin & Hpar); [done..|].
  exists h', ((c, VNode c) :: new). split.
  - cbn [transform]. unfold bind at 1. cbn [ret].
    unfold bind at 1. unfold call at 1. cbn [identity heap calls is_None].
    cbn [isinstance_Expression negb orb].
    rewrite bool_decide_eq_true_2 by done. cbn [negb].
    rewrite (bind_Val _ _ _ e (mkState h (tr ++ [(c, VNode c)])))
      by (by apply get_node_Some).
    rewrite (bind_Val _ _ _ _ _ Hrun). unfold ret.
    by rewrite <- app_assoc.
  - assert (Hc : c ∉ concat fps) by (by apply NoDup_cons in Hnd as [? _]).
    split; [done|]. split; [|split; [|split]].
    + intros x Hx. apply Hout. intros ?. apply Hx. by right.
    + intros x [->|Hx]%elem_of_cons; [|by apply Hin].
      apply agree_at_ext. by apply Hout.
    + by rewrite (deref_ext h h' c) by (by apply Hout).
    + intros x [->|Hx]%elem_of_cons Hne; [done|]. by apply Hpar.
Qed.

(** * Deep copies of trees *)

Lemma agree_at_app (h added : store) x :
  is_Some (deref h x) → agree_at h (h ++ added) x.
Proof.
  intros [e He]. unfold agree_at. by rewrite (deref_app_Some h added x e), He.
Qed.

(** Allocation leaves the trees of the store in place. *)
Lemma tree_at_app n h added l fp :
  tree_at n h l fp → tree_at n (h ++ added) l fp.
Proof.
  intros Htree. apply (tree_at_frame n h); [done|].
  intros x Hx. apply agree_at_app. by apply (tree_at_allocated n h l fp).
Qed.

Lemma trees_at_app n h added cs fps :
  Forall2 (tree_at n h) cs fps → Forall2 (tree_at n (h ++ added)) cs fps.
Proof.
  intros Hch. apply (Forall2_impl _ _ _ _ Hch). intros c fc. apply tree_at_app.
Qed.

Lemma shape_of_app n h added l fp :
  tree_at n h l fp →
  shape_of n (h ++ added) (VNode l) = shape_of n h (VNode l).
Proof.
  intros Htree. apply (shape_of_frame n h _ l fp); [done|].
  intros x Hx. apply agree_at_app. by apply (tree_at_allocated n h l fp).
Qed.

Lemma trees_at_allocated n h cs fps x :
  Forall2 (tree_at n h) cs fps → x ∈ concat fps → is_Some (deref h x).
Proof.
  induction 1 as [|c fc cs fps Hc _ IH]; simpl; [by intros ?%elem_of_nil|].
  intros [Hx|Hx]%elem_of_app; [by apply (tree_at_allocated n h c fc)|by apply IH].
Qed.

Lemma shape_values_app n h added vs fps :
  Forall2 (tree_at n h) (node_locs vs) fps →
  mapM (shape_of n (h ++ added)) vs = mapM (shape_of n h) vs.
Proof.
  intros Hch. apply (shape_values_frame n h _ vs fps); [|done|].
  - intros c fc Htree _. by apply (shape_of_app n h added c fc).
  - intros x Hx. apply agree_at_app. eapply trees_at_allocated; eauto.
Qed.

Lemma shape_items_app n h added (its : list (string * slot)) fps :
  Forall2 (tree_at n h) (flat_map (λ kv, node_locs (ensure_list kv.2)) its) fps →
  mapM (shape_item (shape_of n (h ++ added))) its
  = mapM (shape_item (shape_of n h)) its.
Proof.
  intros Hch. apply (shape_items_frame n h _ its fps); [|done|].
  - intros c fc Htree _. by apply (shape_of_app n h added c fc).
  - intros x Hx. apply agree_at_app. eapply trees_at_allocated; eauto.
Qed.

Lemma shape_of_leaf n h v : (∀ c, v ≠ VNode c) → shape_of n h v = Some (SLeaf v).
Proof. intros Hv. destruct v; try (by destruct n). by destruct (Hv l). Qed.

(** What the copy of a list of values leaves: the copies of the trees
    below the values occupy the locations after those of the store, the
    memo table has changed on the nodes of these trees only, and the copied
    values have the structures of the originals. *)
Lemma deepcopy_values_tree rec n : copies_tree rec n → ∀ vs h tr memo fps,
  Forall2 (tree_at n h) (node_locs vs) fps →
  NoDup (concat fps) →
  (∀ x, x ∈ concat fps → memo !! x = None) →
  ∃ vs' memo' added fps',
    deepcopy_values rec memo vs (mkState h tr)
      = (Val (vs', memo'), mkState (h ++ added) tr)
    ∧ length added = length (concat fps)
    ∧ (∀ x, x ∉ concat fps → memo' !! x = memo !! x)
    ∧ Forall2 (tree_at n (h ++ added)) (node_locs vs') fps'
    ∧ concat fps' = seq (length h) (length (concat fps))
    ∧ length vs' = length vs
    ∧ mapM (shape_of n (h ++ added)) vs' = mapM (shape_of n h) vs.
Proof.
  intros Hrec. induction vs as [|v vs IH]; intros h tr memo fps Hch Hnd Hmemo.
  - apply Forall2_nil_inv_l in Hch as ->.
    exists [], memo, [], []. rewrite app_nil_r. by repeat split.
  - assert (Hcase : (∃ c, v = VNode c) ∨ (∀ c, v ≠ VNode c))
      by (destruct v; [right; intros c; discriminate..|left; eauto]).
    destruct Hcase as [[c ->]|Hleaf].
    + change (node_locs (VNode c :: vs)) with (c :: node_locs vs) in Hch.
      apply Forall2_cons_inv_l in Hch as (fc & fps2 & Htree & Hch & ->).
      simpl in Hnd, Hmemo |- *.
      apply NoDup_app in Hnd as (Hndc & Hdisj & Hnd2).
      destruct (Hrec h tr memo c fc Htree) as
        (memo1 & a1 & Hrun1 & Hlen1 & Hm1 & Htree1 & Hshape1 & _).
      { intros x Hx. apply Hmemo, elem_of_app. by left. }
      destruct (IH (h ++ a1) tr memo1 fps2) as
        (vs' & memo2 & a2 & fps2' & Hrun2 & Hlen2 & Hm2 & Hch2 & Hseq2
         & Hlenvs & Hshape2).
      { by apply trees_at_app. }
      { done. }
      { intros x Hx. rewrite Hm1 by (intros ?; by apply (Hdisj x)).
        apply Hmemo, elem_of_app. by right. }
      exists (VNode (length h) :: vs'), memo2, (a1 ++ a2),
        (seq (length h) (length fc) :: fps2').
      rewrite app_assoc. split; [|split; [|split; [|split; [|split; [|split]]]]].
      * cbn [deepcopy_values deepcopy_value].
        rewrite (bind_Val _ _ _ (VNode (length h), memo1) (mkState (h ++ a1) tr))
          by (by rewrite (bind_Val _ _ _ _ _ Hrun1)).
        by rewrite (bind_Val _ _ _ _ _ Hrun2).
      * rewrite !length_app. lia.
      * intros x [Hx1 Hx2]%not_elem_of_app. rewrite Hm2 by done. by apply Hm1.
      * change (node_locs (VNode (length h) :: vs'))
          with (length h :: node_locs vs').
        constructor; [by apply tree_at_app|done].
      * simpl. rewrite Hseq2, length_app, Hlen1, length_app. by rewrite seq_app.
      * simpl. by rewrite Hlenvs.
      * cbn [mapM]. rewrite Hshape2.
        rewrite (shape_of_app n (h ++ a1) a2 _ _ Htree1), Hshape1.
        by rewrite (shape_values_app n h a1 vs fps2).
    + assert (Hlocs : node_locs (v :: vs) = node_locs vs)
        by (destruct v; try done; by destruct (Hleaf l)).
      rewrite Hlocs in Hch.
      destruct (IH h tr memo fps Hch Hnd Hmemo) as
        (vs' & memo2 & a2 & fps2' & Hrun2 & Hlen2 & Hm2 & Hch2 & Hseq2
         & Hlenvs & Hshape2).
      exists (v :: vs'), memo2, a2, fps2'.
      split; [|split; [|split; [|split; [|split; [|split]]]]]; try done.
      * cbn [deepcopy_values].
        rewrite (bind_Val _ _ _ (v, memo) (mkState h tr))
          by (destruct v; try done; by destruct (Hleaf l)).
        by rewrite (bind_Val _ _ _ _ _ Hrun2).
      * assert (Hlocs' : node_locs (v :: vs') = node_locs vs')
          by (destruct v; try done; by destruct (Hleaf l)).
        by rewrite Hlocs'.
      * simpl. by rewrite Hlenvs.
      * cbn [mapM]. by rewrite Hshape2, !shape_of_leaf.
Qed.

(** The copy of one argument value: a list is copied item by item, a
    single value as a list of one item would be. *)
Lemma deepcopy_slot rec memo (s : slot) st vs' memo1 st1 :
  deepcopy_values rec memo (ensure_list s) st = (Val (vs', memo1), st1) →
  ∃ s',
    match s with
    | Many vs => bind (deepcopy_values rec memo vs) (λ r, ret (Many r.1, r.2))
    | Single x => bind (deepcopy_value rec memo x) (λ r, ret (Single r.1, r.2))
    end st = (Val (s', memo1), st1)
    ∧ ensure_list s' = vs'
    ∧ is_list_arg s' = is_list_arg s.
Proof.
  destruct s as [x|vs]; simpl.
  - unfold bind at 1 2. unfold bind.
    destruct (deepcopy_value rec memo x st) as [[[x' m']| | |] st'];
      simpl; intros [= <- <- <-]. by exists (Single x').
  - intros Hrun. exists (Many vs'). by rewrite (bind_Val _ _ _ _ _ Hrun).
Qed.

(** The copy of the dictionary of arguments. *)
Lemma deepcopy_items_tree rec n : copies_tree rec n → ∀ its h tr memo fps,
  Forall2 (tree_at n h) (flat_map (λ kv, node_locs (ensure_list kv.2)) its) fps →
  NoDup (concat fps) →
  (∀ x, x ∈ concat fps → memo !! x = None) →
  ∃ its' memo' added fps',
    deepcopy_items rec memo its (mkState h tr)
      = (Val (its', memo'), mkState (h ++ added) tr)
    ∧ length added = length (concat fps)
    ∧ (∀ x, x ∉ concat fps → memo' !! x = memo !! x)
    ∧ Forall2 (tree_at n (h ++ added))
        (flat_map (λ kv, node_locs (ensure_list kv.2)) its') fps'
    ∧ concat fps' = seq (length h) (length (concat fps))
    ∧ dict_keys its' = dict_keys its
    ∧ mapM (shape_item (shape_of n (h ++ added))) its'
      = mapM (shape_item (shape_of n h)) its.
Proof.
  intros Hrec.
  induction its as [|[k s] its IH]; intros h tr memo fps Hch Hnd Hmemo.
  - apply Forall2_nil_inv_l in Hch as ->.
    exists [], memo, [], []. rewrite app_nil_r. by repeat split.
  - change (flat_map _ ((k, s) :: its))
      with (node_locs (ensure_list s)
            ++ flat_map (λ kv : string * slot, node_locs (ensure_list kv.2)) its)
      in Hch.
    apply Forall2_app_inv_l in Hch as (fps1 & fps2 & Hch1 & Hch2 & ->).
    rewrite concat_app in Hnd, Hmemo |- *.
    apply NoDup_app in Hnd as (Hnd1 & Hdisj & Hnd2).
    destruct (deepcopy_values_tree rec n Hrec (ensure_list s) h tr memo fps1)
      as (vs' & memo1 & a1 & fps1' & Hrun1 & Hlen1 & Hm1 & Htrees1 & Hseq1
          & _ & Hshape1); [done|done| |].
    { intros x Hx. apply Hmemo, elem_of_app. by left. }
    destruct (deepcopy_slot rec memo s _ _ _ _ Hrun1) as (s' & Hslot & Hs' & Hlist).
    destruct (IH (h ++ a1) tr memo1 fps2) as
      (its' & memo2 & a2 & fps2' & Hrun2 & Hlen2 & Hm2 & Htrees2 & Hseq2
       & Hkeys2 & Hshape2).
    { by apply trees_at_app. }
    { done. }
    { intros x Hx. rewrite Hm1 by (intros ?; by apply (Hdisj x)).
      apply Hmemo, elem_of_app. by right. }
    exists ((k, s') :: its'), memo2, (a1 ++ a2), (fps1' ++ fps2').
    rewrite app_assoc. split; [|split; [|split; [|split; [|split; [|split]]]]].
    + cbn [deepcopy_items].
      rewrite (bind_Val _ _ _ _ _ Hslot).
      by rewrite (bind_Val _ _ _ _ _ Hrun2).
    + rewrite !length_app. lia.
    + intros x [Hx1 Hx2]%not_elem_of_app. rewrite Hm2 by done. by apply Hm1.
    + change (flat_map _ ((k, s') :: its'))
        with (node_locs (ensure_list s')
              ++ flat_map (λ kv : string * slot, node_locs (ensure_list kv.2)) its').
      apply Forall2_app; [|done]. rewrite Hs'. by apply trees_at_app.
    + rewrite concat_app, Hseq1, Hseq2, !length_app, Hlen1. by rewrite seq_app.
    + change (k :: dict_keys its' = k :: dict_keys its). by rewrite Hkeys2.
    + cbn [mapM]. rewrite Hshape2, (shape_items_app n h a1 its fps2) by done.
      assert (Hhead : shape_item (shape_of n ((h ++ a1) ++ a2)) (k, s')
                      = shape_item (shape_of n h) (k, s)); [|by rewrite Hhead].
      unfold shape_item. cbn [fst snd]. rewrite Hs', Hlist.
      by rewrite (shape_values_app n (h ++ a1) a2 vs' fps1'), Hshape1.
Qed.

(** A tree that the memo table does not know is copied node by node, the
    copy of a node being allocated before those of its children. *)
Lemma deepcopy_tree n : ∀ fuel, n ≤ fuel → copies_tree (deepcopy fuel) n.
Proof.
  induction n as [|n IH]; intros fuel Hle h tr memo c fc; [done|].
  destruct fuel as [|fuel]; [lia|].
  intros (e & fps & He & Hkeys & Hch & -> & Hnd) Hmemo.
  apply NoDup_cons in Hnd as [Hc Hnd].
  set (ph := mkExpression (cls e) [] None None).
  destruct (deepcopy_items_tree (deepcopy fuel) n (IH fuel ltac:(lia)) (args e)
              (h ++ [Some ph]) tr (<[c := length h]> memo) fps)
    as (its' & memo2 & a2 & fps' & Hrun & Hlen & Hm & Htrees & Hseq & Hk & Hshape).
  { by apply trees_at_app. }
  { done. }
  { intros x Hx. rewrite lookup_insert_ne by (by intros ->).
    apply Hmemo. by right. }
  set (copy := mkExpression (cls e) its' (_parent e) (arg_key e)).
  assert (Hstore : <[length h := Some copy]> ((h ++ [Some ph]) ++ a2)
                   = h ++ Some copy :: a2).
  { rewrite <- app_assoc. rewrite insert_app_r_alt by lia.
    by rewrite Nat.sub_diag. }
  assert (Hcopy : deref (h ++ Some copy :: a2) (length h) = Some copy).
  { apply deref_lookup. by rewrite list_lookup_middle. }
  assert (Hframe : ∀ x, x ∈ concat fps' →
            agree_at ((h ++ [Some ph]) ++ a2) (h ++ Some copy :: a2) x).
  { intros x Hx. apply agree_at_ext. rewrite <- Hstore.
    apply list_lookup_insert_ne. rewrite Hseq, length_app in Hx.
    apply elem_of_seq in Hx. simpl in Hx. lia. }
  exists memo2, (Some copy :: a2).
  split; [|split; [|split; [|split; [|split]]]].
  - cbn [deepcopy]. rewrite Hmemo by (by left).
    rewrite (bind_Val _ _ _ e (mkState h tr)) by (by apply get_node_Some).
    rewrite (bind_Val _ _ _ (length h) (mkState (h ++ [Some ph]) tr)) by done.
    rewrite (bind_Val _ _ _ _ _ Hrun).
    unfold bind, put_node, ret. cbn [heap calls fst snd]. fold copy.
    by rewrite Hstore.
  - simpl. by rewrite Hlen.
  - intros x [Hxc Hx]%not_elem_of_cons. rewrite Hm by done.
    by rewrite lookup_insert_ne.
  - exists copy, fps'. split; [done|].
    split; [unfold copy; cbn [args]; by rewrite Hk|].
    split; [|split].
    + apply (Forall2_impl_elem _ _ _ _ Htrees). intros c' fc' _ Hfc' Htree.
      apply (tree_at_frame n ((h ++ [Some ph]) ++ a2)); [done|].
      intros x Hx. apply Hframe. by apply (elem_of_concat_2 _ fc').
    + rewrite Hseq, length_app. simpl. by rewrite Nat.add_1_r.
    + apply NoDup_seq.
  - cbn [shape_of]. rewrite Hcopy, He. simpl.
    rewrite (shape_items_frame n ((h ++ [Some ph]) ++ a2) _ its' fps');
      [|intros c' fc' ??; by apply (shape_of_frame n _ _ c' fc')|done|done].
    by rewrite Hshape, (shape_items_app n h [Some ph] (args e) fps).
  - by rewrite Hcopy, He.
Qed.

(** * Nodes with the same structure are equal and hash alike *)

Lemma Forall2_common_r {A B C} (P : A → C → Prop) (Q : B → C → Prop) l l' k :
  Forall2 P l k → Forall2 Q l' k →
  Forall2 (λ x x', ∃ y, P x y ∧ Q x' y) l l'.
Proof.
  intros HP. revert l'. induction HP as [|x y l k Hxy _ IH]; intros l' HQ.
  - apply Forall2_nil_inv_r in HQ as ->. constructor.
  - apply Forall2_cons_inv_r in HQ as (x' & l'' & Hx' & HQ & ->).
    constructor; [eauto|by apply IH].
Qed.

Lemma same_shape_leaf n h v v' :
  same_shape n h v v' → (∀ c, v ≠ VNode c) → v' = v.
Proof.
  intros (t & Hv & Hv') Hleaf. rewrite shape_of_leaf in Hv by done.
  injection Hv as <-.
  destruct v' as [| | | | |b]; try (by destruct n; injection Hv' as <-).
  destruct n as [|n]; [done|]. cbn [shape_of] in Hv'.
  destruct (deref h b) as [e'|]; [|done].
  by destruct (mapM _ (args e')).
Qed.

Lemma same_shape_sym n h v v' : same_shape n h v v' → same_shape n h v' v.
Proof. intros (t & ? & ?). by exists t. Qed.

Lemma same_shape_items_of n h its its' a :
  mapM (shape_item (shape_of n h)) its = Some a →
  mapM (shape_item (shape_of n h)) its' = Some a →
  same_shape_items n h its its'.
Proof.
  intros H1%mapM_Some H2%mapM_Some.
  apply (Forall2_impl _ _ _ _ (Forall2_common_r _ _ _ _ _ H1 H2)).
  intros [k s] [k' s'] ([[k0 b] ss] & Hs & Hs'). unfold shape_item in *.
  simpl in *.
  destruct (mapM (shape_of n h) (ensure_list s)) as [ss1|] eqn:E1; [|done].
  destruct (mapM (shape_of n h) (ensure_list s')) as [ss2|] eqn:E2; [|done].
  injection Hs as <- <- <-. injection Hs' as -> Hlist ->.
  split; [done|]. split; [done|].
  apply mapM_Some in E1, E2.
  apply (Forall2_impl _ _ _ _ (Forall2_common_r _ _ _ _ _ E1 E2)).
  intros v v' (t & ? & ?). by exists t.
Qed.

(** Two nodes with the same structure have the same class, the same
    [arg_key] and arguments with the same structure. *)
Lemma same_shape_node n h a v' :
  same_shape n h (VNode a) v' →
  ∃ b n' e e',
    v' = VNode b ∧ n = S n' ∧ deref h a = Some e ∧ deref h b = Some e'
    ∧ cls e = cls e' ∧ arg_key e = arg_key e'
    ∧ same_shape_items n' h (args e) (args e').
Proof.
  intros (t & Ha & Hb). destruct n as [|n]; [done|]. cbn [shape_of] in Ha.
  destruct (deref h a) as [e|] eqn:He; [|done].
  destruct (mapM _ (args e)) as [its|] eqn:Hits; [|done]. injection Ha as <-.
  destruct v' as [| | | | |b]; try done.
  cbn [shape_of] in Hb.
  destruct (deref h b) as [e'|] eqn:He'; [|done].
  destruct (mapM _ (args e')) as [its'|] eqn:Hits'; [|done].
  injection Hb as Hcls Hkey ->.
  exists b, n, e, e'. repeat (split; [done|]).
  by apply (same_shape_items_of n h _ _ its).
Qed.

Lemma same_shape_truthy n h v v' : same_shape n h v v' → truthy v = truthy v'.
Proof.
  intros Hs. destruct v as [| | | | |a];
    try (by rewrite (same_shape_leaf n h _ v' Hs)).
  by destruct (same_shape_node n h a v' Hs) as (b & ? & ? & ? & -> & _).
Qed.

(** Under a key, arguments with the same structure hold slots with the
    same structure. *)
Lemma same_shape_dict_get n h its its' k :
  same_shape_items n h its its' →
  match dict_get k its, dict_get k its' with
  | Some s, Some s' => same_shape_slot n h s s'
  | None, None => True
  | _, _ => False
  end.
Proof.
  induction 1 as [|[k1 s1] [k2 s2] its its' [Hk Hs] _ IH]; simpl in *; [done|].
  subst k2. by destruct (decide (k = k1)).
Qed.

Lemma same_shape_dict_get_elem n h its its' k va :
  same_shape_items n h its its' → NoDup (dict_keys its) → (k, va) ∈ its →
  ∃ vb, dict_get k its' = Some vb ∧ same_shape_slot n h va vb.
Proof.
  induction 1 as [|[k1 s1] [k2 s2] its its' [Hk Hs] Hrest IH];
    [by intros _ ?%elem_of_nil|].
  simpl in *. subst k2. intros [Hk1 Hnd]%NoDup_cons Hin.
  apply elem_of_cons in Hin as [[= -> ->]|Hin].
  - exists s2. by rewrite decide_True.
  - rewrite decide_False; [by apply IH|].
    intros ->. apply Hk1. apply list_elem_of_fmap. by exists (k1, va).
Qed.

Lemma res_mapM_Forall2 {A B} (f g : A → res B) l l' :
  Forall2 (λ x x', f x = g x') l l' → res_mapM f l = res_mapM g l'.
Proof.
  induction 1 as [|x x' l l' Hx _ IH]; simpl; [done|]. by rewrite Hx, IH.
Qed.

Lemma _token_arg_text_shape n h f e e' kind :
  same_shape_items n h (args e) (args e') →
  (∀ v v', same_shape n h v v' → f v = f v') →
  _token_arg_text f e kind = _token_arg_text f e' kind.
Proof.
  intros Hits Hf. unfold _token_arg_text.
  pose proof (same_shape_dict_get n h _ _ kind Hits) as Hget.
  destruct (dict_get kind (args e)) as [s|], (dict_get kind (args e')) as [s'|];
    try done.
  destruct Hget as [Hlist Hvals].
  destruct s as [x|vs], s' as [x'|vs']; try done; simpl in Hvals.
  - apply Forall2_cons_1 in Hvals as [Hx _].
    rewrite (same_shape_truthy n h x x' Hx). by rewrite (Hf x x' Hx).
  - by destruct Hvals.
Qed.

(** The text of a value only depends on its structure. *)
Lemma attr_text_shape n : ∀ fuel h v v',
  same_shape n h v v' → attr_text fuel h v = attr_text fuel h v'.
Proof.
  induction n as [|n IH]; intros fuel h v v' Hs.
  - destruct v as [| | | | |a];
      try (by rewrite (same_shape_leaf 0 h _ v' Hs)).
    by destruct Hs as (t & Hv & _).
  - destruct v as [| | | | |a];
      try (by rewrite (same_shape_leaf (S n) h _ v' Hs)).
    destruct (same_shape_node _ h a v' Hs)
      as (b & n' & e & e' & -> & [= <-] & He & He' & Hcls & _ & Hits).
    destruct fuel as [|fuel]; [done|]. cbn [attr_text].
    rewrite He, He', <- Hcls. case_decide; [|done].
    apply (_token_arg_text_shape n h); [done|]. intros x x'. apply IH.
Qed.

Lemma Column_fields_shape n h fuel e e' :
  same_shape_items n h (args e) (args e') →
  Column_fields fuel h e = Column_fields fuel h e'.
Proof.
  intros Hits. unfold Column_fields.
  pose proof (same_shape_dict_get n h _ _ "fields" Hits) as Hget.
  destruct (dict_get "fields" (args e)) as [s|],
    (dict_get "fields" (args e')) as [s'|]; try done.
  destruct Hget as [Hlist Hvals].
  destruct s as [x|vs], s' as [x'|vs']; try done; simpl in Hvals.
  - apply Forall2_cons_1 in Hvals as [Hx _].
    rewrite (same_shape_truthy n h x x' Hx).
    destruct x as [| | | | |a];
      try (by rewrite (same_shape_leaf n h _ x' Hx)).
    by destruct (same_shape_node n h a x' Hx) as (b & ? & ? & ? & -> & _).
  - apply res_mapM_Forall2. apply (Forall2_impl _ _ _ _ Hvals).
    intros v v'. apply attr_text_shape.
Qed.

Lemma attr_token_type_shape n h e e' :
  same_shape_items n h (args e) (args e') →
  attr_token_type h (dict_get "this" (args e))
  = attr_token_type h (dict_get "this" (args e')).
Proof.
  intros Hits.
  pose proof (same_shape_dict_get n h _ _ "this" Hits) as Hget.
  destruct (dict_get "this" (args e)) as [s|],
    (dict_get "this" (args e')) as [s'|]; try done.
  destruct Hget as [Hlist Hvals].
  destruct s as [x|vs], s' as [x'|vs']; try done; simpl in Hvals.
  apply Forall2_cons_1 in Hvals as [Hx _].
  destruct x as [| | | | |a];
    try (by rewrite (same_shape_leaf n h _ x' Hx)).
  destruct (same_shape_node n h a x' Hx)
    as (b & ? & ? & ? & -> & _ & He & He' & _).
  simpl. by rewrite He, He'.
Qed.

(** The accessors of [Column] and [Literal] only depend on the structure
    of the arguments. *)
Lemma accessors_shape n h fuel e e' :
  same_shape_items n h (args e) (args e') →
  Column_name fuel h e = Column_name fuel h e'
  ∧ Column_table fuel h e = Column_table fuel h e'
  ∧ Column_db fuel h e = Column_db fuel h e'
  ∧ Literal_text fuel h e = Literal_text fuel h e'.
Proof.
  intros Hits. repeat split;
    apply (_token_arg_text_shape n h); try done;
    intros v v'; apply attr_text_shape.
Qed.

Lemma res_and_not_false a b :
  a ≠ Val false → b ≠ Val false → res_and a b ≠ Val false.
Proof. by destruct a as [[]| | |]. Qed.

Lemma compare_same_not_false {A B} `{EqDecision B} (r : res A) (g : A → B) :
  res_bind r (λ a, res_bind r (λ b, Val (bool_decide (g a = g b))))
  ≠ Val false.
Proof. destruct r; simpl; [|done..]. by rewrite bool_decide_eq_true_2. Qed.

Lemma Column_eq_shape n h fuel e b e' :
  deref h b = Some e' → cls e' = "Column" →
  same_shape_items n h (args e) (args e') →
  Column_eq fuel h e (VNode b) ≠ Val false.
Proof.
  intros He' Hcls Hits. unfold Column_eq. rewrite He', decide_True by done.
  destruct (accessors_shape n h fuel e e' Hits) as (<- & <- & <- & _).
  rewrite <- (Column_fields_shape n h fuel e e' Hits).
  repeat apply res_and_not_false;
    try apply (compare_same_not_false _ or_empty_upper).
  destruct (Column_fields fuel h e) as [fs| | |]; simpl; try done.
  destruct (fields_upper fs); simpl; try done.
  by rewrite bool_decide_eq_true_2.
Qed.

Lemma Literal_eq_shape n h fuel e b e' :
  deref h b = Some e' → cls e' = "Literal" →
  same_shape_items n h (args e) (args e') →
  Literal_eq fuel h e (VNode b) ≠ Val false.
Proof.
  intros He' Hcls Hits. unfold Literal_eq. rewrite He', decide_True by done.
  destruct (accessors_shape n h fuel e e' Hits) as (_ & _ & _ & <-).
  rewrite <- (attr_token_type_shape n h e e' Hits).
  apply res_and_not_false; apply (compare_same_not_false _ id).
Qed.

Lemma Column_hash_shape n h fuel e e' :
  cls e = cls e' → same_shape_items n h (args e) (args e') →
  Column_hash fuel h e = Column_hash fuel h e'.
Proof.
  intros Hcls Hits. unfold Column_hash, key.
  destruct (accessors_shape n h fuel e e' Hits) as (<- & <- & <- & _).
  by rewrite <- (Column_fields_shape n h fuel e e' Hits), Hcls.
Qed.

Lemma Literal_hash_shape n h fuel e e' :
  cls e = cls e' → same_shape_items n h (args e) (args e') →
  Literal_hash fuel h e = Literal_hash fuel h e'.
Proof.
  intros Hcls Hits. unfold Literal_hash, key.
  destruct (accessors_shape n h fuel e e' Hits) as (_ & _ & _ & <-).
  by rewrite Hcls.
Qed.

(** Nodes with the same structure have the same hash. *)
Lemma hash_shape fuel : ∀ n h a b,
  same_shape n h (VNode a) (VNode b) → __hash__ fuel h a = __hash__ fuel h b.
Proof.
  induction fuel as [|fuel IH]; intros n h a b Hs; [done|].
  destruct (same_shape_node n h a _ Hs)
    as (b' & n' & e & e' & [= <-] & -> & He & He' & Hcls & _ & Hits).
  cbn [__hash__]. rewrite He, He', <- Hcls.
  case_decide; [by apply (Column_hash_shape n')|].
  case_decide; [by apply (Literal_hash_shape n')|].
  unfold key. rewrite <- Hcls.
  assert (Hitems : res_mapM (hash_item (__hash__ fuel h)) (args e)
                   = res_mapM (hash_item (__hash__ fuel h)) (args e'));
    [|by rewrite Hitems].
  apply res_mapM_Forall2. apply (Forall2_impl _ _ _ _ Hits).
  intros [k s] [k' s'] [Hk [Hlist Hvals]]. simpl in *. subst k'.
  assert (Hval : ∀ v v', same_shape n' h v v' →
            hash_value (__hash__ fuel h) v = hash_value (__hash__ fuel h) v').
  { intros v v' Hv. destruct v as [| | | | |c];
      try (by rewrite (same_shape_leaf n' h _ v' Hv)).
    destruct (same_shape_node n' h c v' Hv) as (c' & ? & ? & ? & -> & _).
    simpl. by apply (IH n'). }
  unfold hash_item. simpl.
  destruct s as [x|vs], s' as [x'|vs']; try done; simpl in Hvals.
  - apply Forall2_cons_1 in Hvals as [Hx _]. by rewrite (Hval x x' Hx).
  - assert (Hvs : res_mapM (hash_value (__hash__ fuel h)) vs
                  = res_mapM (hash_value (__hash__ fuel h)) vs');
      [|by rewrite Hvs].
    apply res_mapM_Forall2. by apply (Forall2_impl _ _ _ _ Hvals).
Qed.

Lemma dict_get_elem {A} (d : list (string * A)) k v :
  dict_get k d = Some v → (k, v) ∈ d.
Proof.
  induction d as [|[k' v'] d IH]; simpl; [done|].
  case_decide; [intros [= ->]; subst; by left|]. intros ?. right. by apply IH.
Qed.

Lemma same_shape_items_keys n h its its' :
  same_shape_items n h its its' → dict_keys its = dict_keys its'.
Proof.
  induction 1 as [|[k s] [k' s'] its its' [Hk _] _ IH]; [done|].
  simpl in Hk. subst k'. change (k :: dict_keys its = k :: dict_keys its').
  by rewrite IH.
Qed.

(** The comparisons of the containers, for a property [good] of outcomes
    that holds of [True] and is kept by conjunction: not being [False], or
    being [True]. *)
Section comparison.
Context (good : res bool → Prop).
Context (good_true : good (Val true)).
Context (good_and : ∀ a b, good a → good b → good (res_and a b)).

Lemma compare_values_shape n h node_eq x y :
  same_shape n h x y →
  (∀ c c', x = VNode c → y = VNode c' →
     same_shape n h (VNode c) (VNode c') → good (node_eq c (VNode c'))) →
  good (compare_values node_eq x y).
Proof.
  intros Hs Hnode. destruct x as [| |b|z| |c].
  1-5: rewrite (same_shape_leaf n h _ y Hs) by done; simpl;
       rewrite ?bool_decide_eq_true_2; done.
  destruct (same_shape_node n h c y Hs) as (c' & ? & ? & ? & -> & _).
  simpl. case_decide; [done|]. by apply Hnode.
Qed.

Lemma compare_items_shape n h node_eq xs ys :
  Forall2 (same_shape n h) xs ys →
  (∀ c c', VNode c ∈ xs → VNode c' ∈ ys →
     same_shape n h (VNode c) (VNode c') → good (node_eq c (VNode c'))) →
  good (compare_items (compare_values node_eq) xs ys).
Proof.
  induction 1 as [|x y xs ys Hxy _ IH]; intros Hnode; simpl; [done|].
  apply good_and.
  - apply (compare_values_shape n h); [done|].
    intros c c' -> -> Hc. apply Hnode; [by left|by left|done].
  - apply IH. intros c c' Hc Hc'. apply Hnode; by right.
Qed.

Lemma compare_slots_shape n h node_eq va vb :
  same_shape_slot n h va vb →
  (∀ c c', VNode c ∈ ensure_list va → VNode c' ∈ ensure_list vb →
     same_shape n h (VNode c) (VNode c') → good (node_eq c (VNode c'))) →
  good (compare_slots node_eq va vb).
Proof.
  intros [Hlist Hvals] Hnode.
  destruct va as [x|xs], vb as [y|ys]; try done; simpl in *.
  - apply Forall2_cons_1 in Hvals as [Hxy _].
    apply (compare_values_shape n h); [done|].
    intros c c' -> -> Hc. apply Hnode; [by left|by left|done].
  - rewrite decide_True by (by apply Forall2_length in Hvals).
    by apply (compare_items_shape n h).
Qed.

Lemma compare_entries_shape n h node_eq (e e' : Expression) :
  NoDup (dict_keys (args e)) →
  same_shape_items n h (args e) (args e') →
  (∀ c c', c ∈ child_locs e → c' ∈ child_locs e' →
     same_shape n h (VNode c) (VNode c') → good (node_eq c (VNode c'))) →
  ∀ its, its ⊆ args e → good (compare_entries node_eq its (args e')).
Proof.
  intros Hkeys Hits Hnode. induction its as [|[k va] its IH]; intros Hsub;
    simpl; [done|].
  assert (Hin : (k, va) ∈ args e) by (apply Hsub; by left).
  destruct (same_shape_dict_get_elem n h _ _ k va Hits Hkeys Hin)
    as (vb & Hget & Hslot).
  rewrite Hget. apply dict_get_elem in Hget.
  apply good_and.
  - apply (compare_slots_shape n h); [done|].
    intros c c' Hc Hc'.
    apply Hnode; [by apply (child_locs_elem e k va)
                 |by apply (child_locs_elem e' k vb)].
  - apply IH. intros kv Hkv. apply Hsub. by right.
Qed.

End comparison.

(** A node of a tree and a node with the same structure are not found
    different by [__eq__]. *)
Lemma eq_shape n : ∀ fuel h a b fp,
  tree_at n h a fp → same_shape n h (VNode a) (VNode b) →
  __eq__ fuel h a (VNode b) ≠ Val false.
Proof.
  induction n as [|n IH]; intros fuel h a b fp; [done|].
  intros (e & fps & He & Hkeys & Hch & _ & _) Hs.
  destruct (same_shape_node _ h a _ Hs)
    as (b' & n' & e0 & e' & [= <-] & [= <-] & He0 & He' & Hcls & _ & Hits).
  assert (e0 = e) as -> by congruence.
  destruct fuel as [|fuel]; [done|]. cbn [__eq__]. rewrite He.
  case_decide;
    [apply (Column_eq_shape n h fuel e b e'); [done|congruence|done]|].
  case_decide;
    [apply (Literal_eq_shape n h fuel e b e'); [done|congruence|done]|].
  rewrite He', decide_True by done. unfold compare_dicts.
  rewrite decide_True by (by apply Forall2_length in Hits).
  apply (compare_entries_shape (λ r, r ≠ Val false) ltac:(done)
           res_and_not_false n h _ e e'); [done..| |done].
  intros c c' Hc _ Hcc'.
  destruct (Forall2_elem_l _ _ _ _ Hch Hc) as (fc & _ & Htree).
  by apply (IH fuel h c c' fc).
Qed.

Lemma res_and_true_intro a b :
  a = Val true → b = Val true → res_and a b = Val true.
Proof. by intros -> ->. Qed.

(** When no node of the tree on the right is a [Column] or a [Literal],
    so that the inherited [__eq__] is the one that runs, and the fuel covers
    the height, the two nodes are found equal. *)
Lemma eq_shape_plain n : ∀ fuel h a b fp,
  tree_at n h b fp → n ≤ fuel →
  (∀ x, x ∈ fp → plain_node h x) →
  same_shape n h (VNode a) (VNode b) →
  __eq__ fuel h a (VNode b) = Val true.
Proof.
  induction n as [|n IH]; intros fuel h a b fp; [done|].
  intros (e' & fps & He' & Hkeys & Hch & -> & _) Hle Hplain Hs.
  destruct (same_shape_node _ h a _ Hs)
    as (b' & n' & e & e0 & [= <-] & [= <-] & He & He0 & Hcls & _ & Hits).
  assert (e0 = e') as -> by congruence.
  destruct fuel as [|fuel]; [lia|]. cbn [__eq__]. rewrite He.
  destruct (Hplain b (list_elem_of_here _ _) e' He') as [Hcol Hlit].
  rewrite !decide_False by congruence.
  rewrite He', decide_True by done. unfold compare_dicts.
  rewrite decide_True by (by apply Forall2_length in Hits).
  apply (compare_entries_shape (λ r, r = Val true) eq_refl
           res_and_true_intro n h _ e e'); [|done| |done].
  { by rewrite (same_shape_items_keys n h _ _ Hits). }
  intros c c' _ Hc' Hcc'.
  destruct (Forall2_elem_l _ _ _ _ Hch Hc') as (fc & Hfc & Htree).
  apply (IH fuel h c c' fc); [done|lia| |done].
  intros x Hx. apply Hplain. right. by apply (elem_of_concat_2 _ fc).
Qed.

(** * The identity pass on a copy *)

Lemma transform_copy_unfold fuel fun_ self st node memo st1 :
  deepcopy fuel ∅ self st = (Val (node, memo), st1) →
  transform (S fuel) fun_ self true st = transform (S fuel) fun_ node false st1.
Proof.
  intros Hcopy. cbn [transform].
  rewrite (bind_Val _ _ _ node st1) by (by rewrite (bind_Val _ _ _ _ _ Hcopy)).
  by rewrite (bind_Val (ret node) _ st1 node st1).
Qed.

(** C6.  On a tree, [transform] with the identity and [copy=True] returns,
    whenever the fuel covers the height, a tree with the structure of the
    original whose nodes are all new: they occupy the locations after those
    of the store, so none of them is a node of the original.  [__eq__] never
    finds the result different from the original, finds them equal when the
    inherited [__eq__] is the one that runs, and their hashes agree.  The
    store as it was is unchanged, every node of the result other than its
    root refers to its parent inside the result, and the root keeps the
    parent reference of the original.  Writing afterwards to a node of the
    result leaves the nodes of the original as they were, and writing to a
    node of the original leaves the nodes of the result as they are. *)
Theorem transform_identity_copy (n : nat) (h : store) (self : loc)
    (fp : list loc) (tr : list (loc * value)) (fuel : nat) :
  tree_at n h self fp → n < fuel →
  ∃ h' new t,
    transform fuel identity self true (mkState h tr)
      = (Val (VNode (length h)), mkState h' (tr ++ new))
    ∧ tree_at n h' (length h) (seq (length h) (length fp))
    ∧ (shape_of n h' (VNode (length h)) = Some t
       ∧ shape_of n h (VNode self) = Some t)
    ∧ (∀ fuel', __eq__ fuel' h' (length h) (VNode self) ≠ Val false
                ∧ __hash__ fuel' h' (length h) = __hash__ fuel' h' self)
    ∧ ((∀ x, x ∈ fp → plain_node h x) →
       ∀ fuel', n ≤ fuel' →
         __eq__ fuel' h' (length h) (VNode self) = Val true)
    ∧ (∀ x, x ∈ seq (length h) (length fp) → x ∉ fp)
    ∧ (∀ x, x < length h → h' !! x = h !! x)
    ∧ parents_within h' (length h) (seq (length h) (length fp))
    ∧ _parent <$> deref h' (length h) = _parent <$> deref h self
    ∧ (∀ x y o, x ∈ seq (length h) (length fp) → y ∈ fp →
         (<[x := o]> h') !! y = h !! y)
    ∧ (∀ x y o, x ∈ seq (length h) (length fp) → y ∈ fp →
         (<[y := o]> h') !! x = h' !! x).
Proof.
  intros Htree Hfuel. destruct fuel as [|fuel]; [lia|].
  destruct (deepcopy_tree n fuel ltac:(lia) h tr ∅ self fp Htree)
    as (memo & added & Hcopy & Hlen & _ & Htree1 & Hshape1 & Hpar1);
    [by intros x _; apply lookup_empty|].
  destruct (transform_identity_tree n (S fuel) ltac:(lia) (h ++ added) tr
              (length h) _ Htree1)
    as (h' & new & Hrun & Hlen' & Hout & Hin & Hroot & Hpar).
  destruct (shape_of_tree n h self fp Htree) as [t Ht].
  assert (Hold : ∀ y, y ∈ fp → y < length h).
  { intros y Hy. destruct (tree_at_allocated n h self fp y Htree Hy) as [e He].
    by apply deref_Some_lt in He. }
  assert (Hnew : ∀ x, x ∈ seq (length h) (length fp) → length h ≤ x).
  { intros x Hx%elem_of_seq. lia. }
  assert (Hkept : ∀ x, x < length h → h' !! x = h !! x).
  { intros x Hx. rewrite Hout by (intros ?%Hnew; lia). by apply lookup_app_l. }
  assert (Htree' : tree_at n h' (length h) (seq (length h) (length fp)))
    by (by apply (tree_at_frame n (h ++ added))).
  assert (Hself : tree_at n h' self fp).
  { apply (tree_at_frame n h); [done|].
    intros x Hx%Hold. by apply agree_at_ext, Hkept. }
  assert (Hshape' : shape_of n h' (VNode (length h)) = Some t).
  { rewrite (shape_of_frame n (h ++ added) h' _ _ Htree1 Hin). congruence. }
  assert (Hsame : same_shape n h' (VNode (length h)) (VNode self)).
  { exists t. split; [done|].
    rewrite (shape_of_frame n h h' self fp Htree); [done|].
    intros x Hx%Hold. by apply agree_at_ext, Hkept. }
  exists h', new, t.
  split; [by rewrite (transform_copy_unfold fuel identity self _ _ _ _ Hcopy)|].
  split; [done|]. split; [done|]. split.
  { intros fuel'. split; [by apply (eq_shape n fuel' h' _ _ _ Htree')|].
    by apply (hash_shape fuel' n). }
  split.
  { intros Hplain fuel' Hle.
    apply (eq_shape_plain n fuel' h' _ self fp); [done..| |done].
    intros x Hx e He. apply (Hplain x Hx).
    rewrite <- He. symmetry. apply deref_ext, Hkept. by apply Hold. }
  split; [intros x Hx%Hnew Hy%Hold; lia|].
  split; [done|]. split; [done|]. split; [congruence|]. split.
  - intros x y o Hx%Hnew Hy%Hold.
    rewrite list_lookup_insert_ne by lia. apply Hkept. lia.
  - intros x y o Hx%Hnew Hy%Hold. apply list_lookup_insert_ne. lia.
Qed.

Lemma transform_identity_copy_witness :
  ∃ h' new,
    transform 3 identity 0 true (mkState depth_example [])
      = (Val (VNode 2), mkState h' ([] ++ new))
    ∧ tree_at 2 h' 2 [2; 3]
    ∧ __eq__ 2 h' 2 (VNode 0) = Val true
    ∧ (∀ x, x < 2 → h' !! x = depth_example !! x).
Proof.
  assert (Htree : tree_at 2 depth_example 0 [0; 1]).
  { exists (mkExpression "Paren" [("this", Single (VNode 1))] None None), [[1]].
    split; [reflexivity|].
    split; [apply (bool_decide_unpack _); vm_compute; reflexivity|].
    split; [|split; [reflexivity|apply (bool_decide_unpack _); vm_compute; reflexivity]].
    constructor; [|constructor].
    exists (mkExpression "Null" [] (Some 0) None), [].
    split; [reflexivity|]. split; [constructor|].
    split; [constructor|].
    split; [reflexivity|apply (bool_decide_unpack _); vm_compute; reflexivity]. }
  assert (Hplain : ∀ x, x ∈ [0; 1] → plain_node depth_example x).
  { intros x Hx e He.
    apply elem_of_cons in Hx as [->|Hx];
      [|apply list_elem_of_singleton in Hx as ->];
      injection He as <-; split; discriminate. }
  destruct (transform_identity_copy 2 depth_example 0 [0; 1] [] 3 Htree ltac:(lia))
    as (h' & new & t & Hrun & Htree' & _ & _ & Heq & _ & Hkept & _).
  exists h', new. split; [exact Hrun|]. split; [exact Htree'|].
  split; [exact (Heq Hplain 2 ltac:(lia))|exact Hkept].
Defined.

(** On the example tree, the copy returned by the identity pass also
    compares equal to the original with [__eq__], in both directions, and
    has the same hash. *)
Lemma transform_identity_copy_example :
  (transform 4 identity 0 true (mkState walk_example [])).1 = Val (VNode 7)
  ∧ __eq__ 4 (heap (transform 4 identity 0 true (mkState walk_example [])).2)
      7 (VNode 0) = Val true
  ∧ __eq__ 4 (heap (transform 4 identity 0 true (mkState walk_example [])).2)
      0 (VNode 7) = Val true
  ∧ __hash__ 4 (heap (transform 4 identity 0 true (mkState walk_example [])).2) 7
    = __hash__ 4 (heap (transform 4 identity 0 true (mkState walk_example [])).2) 0.
Proof. repeat split; vm_compute; reflexivity. Qed.

(** * Further properties of the argument binder *)

Lemma bind_positional_lookup keys : ∀ args i k,
  NoDup keys → keys !! i = Some k →
  dict_get k (bind_positional keys args) =
    match args !! i with
    | Some a => if is_None a then None else Some (Single a)
    | None => None
    end.
Proof.
  induction keys as [|k0 keys IH]; intros args i k Hnd Hi; [done|].
  apply NoDup_cons in Hnd as [Hk0 Hnd].
  destruct args as [|a args].
  { rewrite bind_positional_nil_r. by destruct i. }
  rewrite bind_positional_cons.
  destruct i as [|i]; simpl in Hi |- *.
  - injection Hi as ->.
    destruct (is_None a) eqn:Ha; simpl.
    + destruct (dict_get k (bind_positional keys args)) as [s|] eqn:Hget; [|done].
      apply dict_get_elem in Hget. destruct Hk0.
      apply (bind_positional_keys keys args). apply list_elem_of_fmap.
      by exists (k, s).
    + by rewrite decide_True.
  - assert (k ≠ k0).
    { intros ->. apply Hk0. by apply list_elem_of_lookup_2 in Hi. }
    destruct (is_None a); simpl; [|rewrite decide_False by done]; by apply IH.
Qed.

Lemma bind_positional_sublist keys : ∀ args,
  sublist (dict_keys (bind_positional keys args)) keys.
Proof.
  induction keys as [|k keys IH]; intros [|a args];
    rewrite ?bind_positional_nil_r; try apply sublist_nil_l.
  rewrite bind_positional_cons.
  destruct (is_None a); simpl.
  - apply sublist_cons, IH.
  - apply sublist_skip, IH.
Qed.

Lemma dict_get_app_fresh {A} (d d' : list (string * A)) k :
  k ∉ dict_keys d → dict_get k (d ++ d') = dict_get k d'.
Proof.
  induction d as [|[k0 v0] d IH]; simpl; [done|].
  intros [Hne Hk]%not_elem_of_cons. rewrite decide_False by done. by apply IH.
Qed.

Lemma dict_get_app_l {A} (d d' : list (string * A)) k v :
  dict_get k d = Some v → dict_get k (d ++ d') = Some v.
Proof.
  induction d as [|[k0 v0] d IH]; simpl; [done|]. by case_decide.
Qed.

Lemma dict_get_None {A} (d : list (string * A)) k :
  dict_get k d = None ↔ k ∉ dict_keys d.
Proof.
  induction d as [|[k0 v0] d IH]; simpl.
  - split; [intros _ ?%elem_of_nil; done|done].
  - rewrite not_elem_of_cons. case_decide.
    + split; [done|]. by intros [? _].
    + rewrite IH. split; [done|]. by intros [_ ?].
Qed.

(** The mapping built on a variable-length class whose schema is [fixed]
    followed by [last_key]. *)
Lemma from_arg_list_dict_var_len cls args fixed last_key :
  is_var_len_args cls = true →
  dict_keys (arg_types cls) = fixed ++ [last_key] →
  NoDup (fixed ++ [last_key]) →
  from_arg_list_dict cls args =
    Val (bind_positional fixed args ++
         if bool_decide (length fixed < length args)
         then [(last_key, Many (drop (length fixed) args))] else []).
Proof.
  intros Hvar Hkeys Hnd.
  apply NoDup_app in Hnd as (Hndf & Hdisj & _).
  unfold from_arg_list_dict. rewrite Hvar, Hkeys, removelast_last.
  rewrite from_arg_list_loop_spec; [|done|by intros k _ ?%elem_of_nil].
  rewrite drop_0, Nat.sub_0_r, andb_true_r. cbn [app Nat.add].
  destruct (decide (length fixed < length args)) as [Hlt|Hge].
  - rewrite !bool_decide_eq_true_2 by lia.
    rewrite last_snoc, Nat.min_l by lia.
    rewrite dict_set_fresh; [done|].
    intros Hin%bind_positional_keys. apply (Hdisj _ Hin). by left.
  - rewrite !bool_decide_eq_false_2 by lia. by rewrite app_nil_r.
Qed.

(** X1.  [from_arg_list] binds nothing but declared keys, each at most
    once and in the order of the schema, and the value found under the key
    at position [i] of the schema is decided by the positional value at
    [i]: when the input has no value there, the key is unbound (an input
    that is exhausted leaves the remaining keys unbound); the last key of a
    variable-length class holds the list of the values from [i] on; any
    other key holds the value itself, unless that is [None]. *)
Theorem from_arg_list_lookup (cls : variant) (args : list value)
    (d : dict slot) :
  NoDup (dict_keys (arg_types cls)) →
  from_arg_list_dict cls args = Val d →
  sublist (dict_keys d) (dict_keys (arg_types cls))
  ∧ (∀ i k, dict_keys (arg_types cls) !! i = Some k →
       dict_get k d = bound_at cls args i)
  ∧ (∀ i k, dict_keys (arg_types cls) !! i = Some k →
       length args ≤ i → dict_get k d = None).
Proof.
  intros Hnd Hd.
  assert (Hmain : sublist (dict_keys d) (dict_keys (arg_types cls))
    ∧ (∀ i k, dict_keys (arg_types cls) !! i = Some k →
         dict_get k d = bound_at cls args i)).
  { assert (Hlen : length (arg_types cls) = length (dict_keys (arg_types cls)))
      by (unfold dict_keys; by rewrite length_fmap).
    destruct (is_var_len_args cls) eqn:Hvar.
    - destruct (dict_keys (arg_types cls)) as [|k0 ks] eqn:Hkeys using rev_ind.
      + split; [|by intros i k ?].
        unfold from_arg_list_dict in Hd. rewrite Hvar, Hkeys in Hd.
        simpl in Hd. destruct (bool_decide (0 < length args)); [done|].
        injection Hd as <-. apply sublist_nil_l.
      + clear IHks. rename ks into fixed, k0 into last_key.
        rewrite (from_arg_list_dict_var_len cls args fixed last_key) in Hd
          by done.
        injection Hd as <-.
        pose proof Hnd as (Hndf & Hdisj & _)%NoDup_app.
        rewrite length_app in Hlen. simpl in Hlen.
        split.
        * unfold dict_keys. rewrite fmap_app. apply sublist_app.
          -- apply bind_positional_sublist.
          -- case_bool_decide; [done|apply sublist_nil_l].
        * intros i k Hi. unfold bound_at. rewrite Hvar. cbn [andb].
          destruct (decide (i < length fixed)) as [Hlt|Hge].
          -- rewrite lookup_app_l in Hi by done.
             rewrite (bool_decide_eq_false_2 (S i = _)) by lia.
             assert (Hk : k ∈ fixed) by (by apply list_elem_of_lookup_2 in Hi).
             destruct (dict_get k (bind_positional fixed args)) as [s|] eqn:Hget.
             ++ rewrite (dict_get_app_l _ _ _ _ Hget). rewrite <- Hget.
                by apply bind_positional_lookup.
             ++ pose proof Hget as Hfresh%dict_get_None.
                rewrite dict_get_app_fresh by done.
                rewrite (bind_positional_lookup fixed args i k) in Hget by done.
                assert (dict_get k
                  (if bool_decide (length fixed < length args)
                   then [(last_key, Many (drop (length fixed) args))] else [])
                  = None) as ->.
                { case_bool_decide; [|done]. simpl.
                  rewrite decide_False; [done|]. intros ->.
                  apply (Hdisj _ Hk). by left. }
                by destruct (args !! i).
          -- assert (i = length fixed ∧ k = last_key) as [-> ->].
             { pose proof (lookup_lt_Some _ _ _ Hi) as Hb.
               rewrite length_app in Hb. simpl in Hb.
               assert (i = length fixed) as -> by lia.
               rewrite list_lookup_middle in Hi by done. by injection Hi. }
             rewrite (bool_decide_eq_true_2 (S _ = _)) by lia.
             rewrite dict_get_app_fresh.
             2:{ intros Hin%bind_positional_keys. apply (Hdisj _ Hin). by left. }
             destruct (args !! length fixed) as [a|] eqn:Ha.
             ++ apply lookup_lt_Some in Ha.
                rewrite bool_decide_eq_true_2 by done. simpl.
                by rewrite decide_True.
             ++ apply lookup_ge_None in Ha.
                by rewrite bool_decide_eq_false_2 by lia.
    - rewrite from_arg_list_dict_fixed in Hd by done. injection Hd as <-.
      split; [apply bind_positional_sublist|].
      intros i k Hi. unfold bound_at. rewrite Hvar. cbn [andb].
      by apply bind_positional_lookup. }
  destruct Hmain as [Hsub Hlook]. split; [done|]. split; [done|].
  intros i k Hi Hle. rewrite (Hlook i k Hi). unfold bound_at.
  by rewrite lookup_ge_None_2.
Qed.

Lemma from_arg_list_lookup_witness :
  dict_get "this" [("this", Single (VStr "a"))] =
    bound_at Coalesce [VStr "a"] 0
  ∧ dict_get "expressions" [("this", Single (VStr "a"))] = None.
Proof.
  assert (Hnd : NoDup (dict_keys (arg_types Coalesce))).
  { apply (bool_decide_unpack _). vm_compute. reflexivity. }
  pose proof (from_arg_list_lookup Coalesce [VStr "a"] _ Hnd eq_refl)
    as (_ & Hlook & Hrest).
  split; [exact (Hlook 0 "this" eq_refl)|].
  apply (Hrest 1 "expressions" eq_refl). simpl. lia.
Defined.

(** When the binder fails. *)
Lemma from_arg_list_dict_cases cls args :
  (∃ d, from_arg_list_dict cls args = Val d
        ∧ ¬ (is_var_len_args cls = true ∧ arg_types cls = [] ∧ args ≠ []))
  ∨ (from_arg_list_dict cls args = Exn IndexError
     ∧ is_var_len_args cls = true ∧ arg_types cls = [] ∧ args ≠ []).
Proof.
  unfold from_arg_list_dict.
  set (keys := if is_var_len_args cls then _ else _).
  pose proof (from_arg_list_loop_idx keys args [] 0) as Hidx.
  destruct (from_arg_list_loop keys args [] 0) as [d0 idx]; simpl in Hidx.
  destruct (is_var_len_args cls) eqn:Hvar; simpl.
  2:{ left. rewrite andb_false_r. eexists. split; [done|]. by intros [? _]. }
  rewrite andb_true_r.
  destruct (arg_types cls) as [|[k0 b0] ats] eqn:Hat.
  - simpl in *. subst keys. simpl in Hidx. subst idx.
    destruct args as [|a args]; simpl.
    + left. eexists. split; [done|]. by intros (_ & _ & ?).
    + by right.
  - left.
    destruct (list.last (dict_keys ((k0, b0) :: ats))) as [kl|] eqn:Hlast.
    + case_bool_decide; eexists; (split; [done|]); by intros (_ & ? & _).
    + apply last_None in Hlast. done.
Qed.

(** X2.  [from_arg_list] fails in one situation only: the class is
    variable-length, its schema is empty and at least one value is given;
    the failure is then the [IndexError] of [all_arg_keys[-1]].  In every
    other situation it returns a mapping. *)
Theorem from_arg_list_IndexError (cls : variant) (args : list value) :
  (from_arg_list_dict cls args = Exn IndexError
   ↔ is_var_len_args cls = true ∧ arg_types cls = [] ∧ args ≠ [])
  ∧ ((∃ d, from_arg_list_dict cls args = Val d)
     ↔ ¬ (is_var_len_args cls = true ∧ arg_types cls = [] ∧ args ≠ []))
  ∧ from_arg_list_dict (mkVariant "F" [] true) [VStr "a"] = Exn IndexError.
Proof.
  split; [|split; [|reflexivity]].
  - destruct (from_arg_list_dict_cases cls args) as [(d & Hd & Hn)|(He & H)].
    + rewrite Hd. split; [done|]. intros H. by destruct Hn.
    + by rewrite He.
  - destruct (from_arg_list_dict_cases cls args) as [(d & Hd & Hn)|(He & H)].
    + split; [done|eauto].
    + rewrite He. split; [by intros [d ?]|]. intros Hn. by destruct Hn.
Qed.

(** X3.  No class of the module below [Func] is in that situation: for
    each of them and for every input, [from_arg_list] returns a node.  The
    node is new, of the class, without parent and without [arg_key]; the
    store is otherwise as before, so that the nodes bound as arguments do
    not get the new node as parent. *)
Theorem from_arg_list_total (cls : variant) (args : list value) (h : store) :
  cls ∈ Func_variants →
  ∃ d, from_arg_list_dict cls args = Val d
       ∧ from_arg_list cls args h =
           (Val (length h), h ++ [Some (mkExpression (name cls) d None None)])
       ∧ deref (h ++ [Some (mkExpression (name cls) d None None)]) (length h)
           = Some (mkExpression (name cls) d None None)
       ∧ (∀ x e, deref h x = Some e →
            deref (h ++ [Some (mkExpression (name cls) d None None)]) x
              = Some e).
Proof.
  intros Hin.
  assert (Hne : arg_types cls ≠ []).
  { pose proof Func_variants_schemas as Hall.
    rewrite Forall_forall in Hall. destruct (Hall cls Hin) as (Htab & _ & _).
    clear Hall. revert Htab.
    assert (Hok : Forall (λ c, arg_types c ≠ []) Func_variants)
      by (repeat (apply Forall_cons; split; [discriminate|]); apply Forall_nil; exact I).
    rewrite Forall_forall in Hok. intros _. by apply Hok. }
  destruct (from_arg_list_dict_cases cls args) as [(d & Hd & _)|(_ & _ & ? & _)];
    [|done].
  exists d. split; [done|]. split; [|split].
  - unfold from_arg_list. by rewrite Hd.
  - apply deref_lookup. by rewrite list_lookup_middle.
  - intros x e He. by apply deref_app_Some.
Qed.

Lemma from_arg_list_total_witness :
  ∃ d, from_arg_list_dict Greatest [VNode 0; VNode 1] = Val d
       ∧ from_arg_list Greatest [VNode 0; VNode 1] depth_example =
           (Val 2, depth_example ++ [Some (mkExpression "Greatest" d None None)])
       ∧ deref (depth_example ++ [Some (mkExpression "Greatest" d None None)]) 1
           = Some (mkExpression "Null" [] (Some 0) None).
Proof.
  assert (Hin : Greatest ∈ Func_variants)
    by (do 19 apply list_elem_of_further; apply list_elem_of_here).
  destruct (from_arg_list_total Greatest [VNode 0; VNode 1] depth_example Hin)
    as (d & Hd & Hrun & _ & Hkept).
  exists d. split; [exact Hd|]. split; [exact Hrun|].
  exact (Hkept 1 _ eq_refl).
Defined.

(** * Further properties of parent references and depth *)

(** A depth that is computed counts the parent links up to a root. *)
Lemma depth_Val_links fuel : ∀ h l d,
  depth fuel h l = Val d → parent_links h l d.
Proof.
  induction fuel as [|fuel IH]; intros h l d; [done|]. simpl.
  destruct (deref h l) as [e|] eqn:He; [|done].
  destruct (parent h e) as [p|] eqn:Hp.
  - intros (dp & Hdp & [= <-])%res_bind_Val.
    rewrite Nat.add_1_r. apply (parent_links_child h l e p); [done..|].
    by apply IH.
  - intros [= <-]. by apply (parent_links_root h l e).
Qed.

(** On a live node, [depth] does not fail; it returns or goes on. *)
Lemma depth_live fuel : ∀ h l,
  is_Some (deref h l) →
  (∃ d, depth fuel h l = Val d) ∨ depth fuel h l = OutOfFuel.
Proof.
  induction fuel as [|fuel IH]; intros h l [e He]; [by right|]. simpl.
  rewrite He. destruct (parent h e) as [p|] eqn:Hp; [|left; eauto].
  destruct (parent_Some h e p Hp) as [_ Hlive].
  destruct (IH h p Hlive) as [[d ->]| ->]; [left; simpl; eauto|by right].
Qed.

Lemma parent_links_functional h l n :
  parent_links h l n → ∀ m, parent_links h l m → n = m.
Proof.
  induction 1 as [l e He Hp|l e p n He Hp _ IH]; intros m Hm;
    inversion Hm; simplify_eq; [done|].
  f_equal. by apply IH.
Qed.

Lemma parent_links_ancestor h l a :
  ancestor h l a → ∀ n, parent_links h l n → ∃ m, m < n ∧ parent_links h a m.
Proof.
  induction 1 as [l e p He Hp|l e p a He Hp _ IH]; intros n Hn;
    inversion Hn; simplify_eq.
  - eexists. split; [|done]. lia.
  - destruct (IH _ ltac:(done)) as (m & Hlt & Hm). exists m. split; [lia|done].
Qed.

(** A node that is its own ancestor has no depth. *)
Lemma depth_cycle h l fuel :
  ancestor h l l → depth fuel h l = OutOfFuel.
Proof.
  intros Hcyc.
  assert (Hlive : is_Some (deref h l)) by (inversion Hcyc; eauto).
  destruct (depth_live fuel h l Hlive) as [[d Hd]|]; [|done].
  apply depth_Val_links in Hd.
  destruct (parent_links_ancestor h l l Hcyc d Hd) as (m & Hlt & Hm).
  pose proof (parent_links_functional h l d Hd m Hm). lia.
Qed.

(** X4.  The depth of a live node is never an error: [depth] returns [d]
    exactly when [d] parent links lead from the node to a node without
    resolvable parent, and it does not return at all (the recursion has no
    end) when the parent links lead from the node back to itself. *)
Theorem depth_parent_chain (h : store) (l : loc) (e : Expression) :
  deref h l = Some e →
  (∀ d, (∃ fuel, depth fuel h l = Val d) ↔ parent_links h l d)
  ∧ (∀ fuel, (∃ d, depth fuel h l = Val d) ∨ depth fuel h l = OutOfFuel)
  ∧ (ancestor h l l → ∀ fuel, depth fuel h l = OutOfFuel).
Proof.
  intros He. split; [|split].
  - intros d. split.
    + intros [fuel Hd]. by apply (depth_Val_links fuel).
    + intros Hl. exists (S d). apply depth_parent_links; [done|lia].
  - intros fuel. apply depth_live. eauto.
  - intros Hcyc fuel. by apply depth_cycle.
Qed.

Lemma depth_parent_chain_witness :
  (∀ fuel, (∃ d, depth fuel self_parent_example 0 = Val d)
           ∨ depth fuel self_parent_example 0 = OutOfFuel)
  ∧ ∀ fuel, depth fuel self_parent_example 0 = OutOfFuel.
Proof.
  pose proof (depth_parent_chain self_parent_example 0 _ eq_refl)
    as (_ & Hlive & Hcyc).
  split; [exact Hlive|].
  apply Hcyc.
  exact (ancestor_parent self_parent_example 0
           (mkExpression "Null" [] (Some 0) None) 0 eq_refl eq_refl).
Defined.

(** Writing a node does not change which references resolve. *)
Lemma parent_insert_live (h : store) c e' e :
  is_Some (deref h c) → parent (<[c := Some e']> h) e = parent h e.
Proof.
  intros [ec Hc]. unfold parent. destruct (_parent e) as [p|]; [|done].
  destruct (decide (p = c)) as [->|Hne].
  - rewrite deref_insert_eq by (by apply deref_Some_lt in Hc). by rewrite Hc.
  - by rewrite deref_insert_ne.
Qed.

Lemma parent_links_insert h c e' p n :
  is_Some (deref h c) →
  parent_links h p n → c ≠ p → ¬ ancestor h p c →
  parent_links (<[c := Some e']> h) p n.
Proof.
  intros Hc. induction 1 as [p e He Hp|p e q n He Hp Hq IH]; intros Hne Hanc.
  - apply (parent_links_root _ p e).
    + by rewrite deref_insert_ne.
    + by rewrite parent_insert_live.
  - apply (parent_links_child _ p e q).
    + by rewrite deref_insert_ne.
    + by rewrite parent_insert_live.
    + apply IH.
      * intros ->. apply Hanc. by apply (ancestor_parent h p e).
      * intros Hqc. apply Hanc. by apply (ancestor_step h p e q).
Qed.

Lemma ancestor_insert h c e' x :
  ancestor h x c → x ≠ c → ancestor (<[c := Some e']> h) x c.
Proof.
  intros Hanc.
  assert (Hc : is_Some (deref h c)).
  { clear e'. induction Hanc as [l e p He Hp|]; [|done].
    by apply parent_Some in Hp as [_ ?]. }
  remember c as a eqn:Ha in Hanc.
  induction Hanc as [l e p He Hp|l e p a He Hp Hanc IH]; intros Hne; subst.
  - apply (ancestor_parent _ l e).
    + by rewrite deref_insert_ne.
    + by rewrite parent_insert_live.
  - destruct (decide (p = c)) as [->|Hpc].
    + apply (ancestor_parent _ l e).
      * by rewrite deref_insert_ne.
      * by rewrite parent_insert_live.
    + apply (ancestor_step _ l e p).
      * by rewrite deref_insert_ne.
      * by rewrite parent_insert_live.
      * by apply IH.
Qed.

(** X5.  After [c.parent = p], with [p] a live node that has a depth:
    when [c] is neither [p] nor one of the nodes that the parent links of
    [p] go through, the depth of [p] is as before and the depth of [c] is
    one more; otherwise the parent links of [c] now lead back to [c], and
    [depth] does not return on it. *)
Theorem depth_after_set_parent (h : store) (c p : loc) (e : Expression)
    (n : nat) :
  deref h c = Some e → parent_links h p n →
  (c ≠ p → ¬ ancestor h p c →
     ∀ fuel, S n < fuel →
       depth fuel (<[c := Some (set_parent e p)]> h) p = Val n
       ∧ depth fuel (<[c := Some (set_parent e p)]> h) c = Val (S n))
  ∧ (c = p ∨ ancestor h p c →
     ∀ fuel, depth fuel (<[c := Some (set_parent e p)]> h) c = OutOfFuel).
Proof.
  intros He Hlinks.
  assert (Hc : is_Some (deref h c)) by eauto.
  assert (Hlt : c < length h) by (by apply deref_Some_lt in He).
  assert (Hp : is_Some (deref h p)) by (inversion Hlinks; eauto).
  set (h' := <[c := Some (set_parent e p)]> h).
  assert (Hc' : deref h' c = Some (set_parent e p))
    by (by apply deref_insert_eq).
  assert (Hp' : is_Some (deref h' p)).
  { destruct (decide (c = p)) as [<-|Hne]; [by rewrite Hc'|].
    unfold h'. by rewrite deref_insert_ne. }
  assert (Hpar : parent h' (set_parent e p) = Some p).
  { unfold parent. simpl. by destruct Hp' as [ep ->]. }
  split.
  - intros Hne Hanc fuel Hfuel.
    pose proof (parent_links_insert h c (set_parent e p) p n Hc Hlinks Hne Hanc)
      as Hlinks'.
    split; [apply depth_parent_links; [done|lia]|].
    apply depth_parent_links; [|lia].
    by apply (parent_links_child h' c (set_parent e p) p).
  - intros Hon fuel. apply depth_cycle.
    destruct Hon as [->|Hanc].
    + by apply (ancestor_parent h' p (set_parent e p)).
    + destruct (decide (p = c)) as [->|Hne].
      * by apply (ancestor_parent h' c (set_parent e c)).
      * apply (ancestor_step h' c (set_parent e p) p); [done..|].
        by apply ancestor_insert.
Qed.

Lemma depth_after_set_parent_witness :
  (depth 3 (<[1 := Some (set_parent (mkExpression "Null" [] (Some 0) None) 0)]>
              depth_example) 0 = Val 0
   ∧ depth 3 (<[1 := Some (set_parent (mkExpression "Null" [] (Some 0) None) 0)]>
                depth_example) 1 = Val 1)
  ∧ ∀ fuel,
      depth fuel
        (<[0 := Some (set_parent
                        (mkExpression "Paren" [("this", Single (VNode 1))]
                           None None) 1)]> depth_example) 0 = OutOfFuel.
Proof.
  pose proof (depth_after_set_parent depth_example 1 0
                (mkExpression "Null" [] (Some 0) None) 0 eq_refl
                (parent_links_root depth_example 0 _ eq_refl eq_refl))
    as [Hpos _].
  pose proof (depth_after_set_parent depth_example 0 1
                (mkExpression "Paren" [("this", Single (VNode 1))] None None)
                1 eq_refl
                (parent_links_child depth_example 1 _ 0 0 eq_refl eq_refl
                   (parent_links_root depth_example 0 _ eq_refl eq_refl)))
    as [_ Hneg].
  split.
  - apply Hpos; [lia| |lia].
    intros Hanc.
    inversion Hanc as [? e0 ? H1 H2|? e0 ? ? H1 H2 _];
      vm_compute in H1; injection H1 as <-; discriminate H2.
  - apply Hneg. right.
    exact (ancestor_parent depth_example 1
             (mkExpression "Null" [] (Some 0) None) 0 eq_refl eq_refl).
Defined.

(** * Further properties of equality and hashing *)

Lemma attr_text_token fuel h t : attr_text fuel h (VToken t) = Val (Some (text t)).
Proof. by destruct fuel. Qed.

(** X6.  Two [Literal] nodes that hold tokens are equal exactly when the
    tokens have the same text and the same kind, while the hash is made of
    the text alone: literals with the same text have the same hash whatever
    their kinds. *)
Theorem Literal_token_kind (fuel : nat) (h : store) (x y : loc)
    (ex ey : Expression) (t u : Token) :
  deref h x = Some ex → deref h y = Some ey →
  cls ex = "Literal" → cls ey = "Literal" →
  dict_get "this" (args ex) = Some (Single (VToken t)) →
  dict_get "this" (args ey) = Some (Single (VToken u)) →
  __eq__ (S fuel) h x (VNode y) =
    Val (bool_decide (text t = text u)
         && bool_decide (token_type t = token_type u))
  ∧ __hash__ (S fuel) h x = Val (HTuple [HStr "literal"; HStr (text t); HNone])
  ∧ (text t = text u → __hash__ (S fuel) h x = __hash__ (S fuel) h y).
Proof.
  intros Hx Hy Hcx Hcy Htx Hty.
  assert (Hhash : ∀ z ez v, deref h z = Some ez → cls ez = "Literal" →
            dict_get "this" (args ez) = Some (Single (VToken v)) →
            __hash__ (S fuel) h z =
              Val (HTuple [HStr "literal"; HStr (text v); HNone])).
  { intros z ez v Hz Hcz Htz. cbn [__hash__]. rewrite Hz.
    rewrite decide_False by (by rewrite Hcz).
    rewrite decide_True by done.
    unfold Literal_hash, Literal_text, _token_arg_text, key.
    rewrite Htz, Hcz. cbn [truthy]. by rewrite attr_text_token. }
  split; [|split].
  - cbn [__eq__]. rewrite Hx.
    rewrite decide_False by (by rewrite Hcx).
    rewrite decide_True by done.
    unfold Literal_eq, Literal_text, _token_arg_text.
    rewrite Hy, decide_True by done. rewrite Htx, Hty. cbn [truthy].
    rewrite !attr_text_token. simpl.
    rewrite (bool_decide_ext (Some (text t) = Some (text u))
               (text t = text u)) by (split; congruence).
    rewrite (bool_decide_ext (Some (token_type t) = Some (token_type u))
               (token_type t = token_type u)) by (split; congruence).
    by destruct (bool_decide (text t = text u)).
  - by apply (Hhash x ex t).
  - intros Ht. rewrite (Hhash x ex t), (Hhash y ey u) by done. by rewrite Ht.
Qed.

Lemma Literal_token_kind_witness :
  __eq__ 1 Literal_example 0 (VNode 1) = Val false
  ∧ __hash__ 1 Literal_example 0 = __hash__ 1 Literal_example 1.
Proof.
  pose proof (Literal_token_kind 0 Literal_example 0 1 _ _
                (mkToken "NUMBER" "1") (mkToken "STRING" "1")
                eq_refl eq_refl eq_refl eq_refl eq_refl eq_refl)
    as (Heq & _ & Hhash).
  split; [exact Heq|exact (Hhash eq_refl)].
Defined.

Lemma dict_get_elem_NoDup {A} (d : list (string * A)) k v :
  NoDup (dict_keys d) → (k, v) ∈ d → dict_get k d = Some v.
Proof.
  induction d as [|[k0 v0] d IH]; [by intros _ ?%elem_of_nil|].
  simpl. intros [Hk0 Hnd]%NoDup_cons [[= -> ->]|Hin]%elem_of_cons.
  - by rewrite decide_True.
  - rewrite decide_False; [by apply IH|].
    intros ->. apply Hk0. apply list_elem_of_fmap. by exists (k0, v).
Qed.

Lemma compare_values_same node_eq v : compare_values node_eq v v = Val true.
Proof.
  destruct v; simpl; rewrite ?bool_decide_eq_true_2; try done.
  by rewrite decide_True.
Qed.

Lemma compare_items_same node_eq vs :
  compare_items (compare_values node_eq) vs vs = Val true.
Proof.
  induction vs as [|v vs IH]; simpl; [done|].
  by rewrite compare_values_same, IH.
Qed.

Lemma compare_slots_same node_eq s : compare_slots node_eq s s = Val true.
Proof.
  destruct s as [v|vs]; simpl; [apply compare_values_same|].
  rewrite decide_True by done. apply compare_items_same.
Qed.

Lemma compare_entries_same node_eq (d : list (string * slot)) :
  NoDup (dict_keys d) →
  ∀ its, its ⊆ d → compare_entries node_eq its d = Val true.
Proof.
  intros Hnd. induction its as [|[k s] its IH]; intros Hsub; simpl; [done|].
  rewrite (dict_get_elem_NoDup d k s Hnd) by (apply Hsub; by left).
  rewrite compare_slots_same. simpl. apply IH.
  intros kv Hkv. apply Hsub. by right.
Qed.

(** X7.  A node of a class that inherits [__eq__] is equal to itself,
    whatever it holds: the dictionaries and lists compare the values they
    hold by identity first, so that the comparison does not descend into
    the children; it returns even on a node that is its own child. *)
Theorem Expression_eq_reflexive (fuel : nat) (h : store) (x : loc)
    (e : Expression) :
  deref h x = Some e → cls e ≠ "Column" → cls e ≠ "Literal" →
  NoDup (dict_keys (args e)) →
  __eq__ (S fuel) h x (VNode x) = Val true.
Proof.
  intros He Hcol Hlit Hnd. cbn [__eq__]. rewrite He.
  rewrite !decide_False by done. rewrite decide_True by done.
  unfold compare_dicts. rewrite decide_True by done.
  by apply compare_entries_same.
Qed.

Lemma Expression_eq_reflexive_witness :
  __eq__ 1 self_child_example 0 (VNode 0) = Val true.
Proof.
  apply (Expression_eq_reflexive 0 self_child_example 0
           (mkExpression "Paren" [("this", Single (VNode 0))] None None)
           eq_refl); [discriminate|discriminate|].
  apply (bool_decide_unpack _). vm_compute. reflexivity.
Defined.

Lemma res_and_sym (a a' r r' : res bool) b :
  (∀ v, a = Val v → a' = Val v) → (∀ v, r = Val v → r' = Val v) →
  res_and a r = Val b → res_and a' r' = Val b.
Proof.
  intros Ha Hr. destruct a as [[]| | |]; simpl; try done.
  - intros Hb. rewrite (Ha true) by done. simpl. by apply Hr.
  - intros [= <-]. by rewrite (Ha false).
Qed.

Lemma compare_swap {A B} `{EqDecision B} (r1 r2 : res A) (g : A → B) v :
  res_bind r1 (λ a, res_bind r2 (λ b, Val (bool_decide (g a = g b)))) = Val v →
  res_bind r2 (λ a, res_bind r1 (λ b, Val (bool_decide (g a = g b)))) = Val v.
Proof.
  destruct r1 as [a| | |], r2 as [b| | |]; simpl; try done.
  intros [= <-]. f_equal. apply bool_decide_ext. split; congruence.
Qed.

Lemma Column_eq_sym fuel h x y ex ey b :
  deref h x = Some ex → deref h y = Some ey →
  cls ex = "Column" → cls ey = "Column" →
  Column_eq fuel h ex (VNode y) = Val b → Column_eq fuel h ey (VNode x) = Val b.
Proof.
  intros Hx Hy Hcx Hcy. unfold Column_eq. rewrite Hx, Hy, !decide_True by done.
  apply res_and_sym; [intros v; apply (compare_swap _ _ or_empty_upper)|].
  intros v.
  apply res_and_sym; [intros v'; apply (compare_swap _ _ or_empty_upper)|].
  intros v'.
  apply res_and_sym; [intros v''; apply (compare_swap _ _ or_empty_upper)|].
  intros v''.
  destruct (Column_fields fuel h ex) as [fa| | |]; simpl; try done.
  destruct (fields_upper fa) as [ua| | |]; simpl; try done.
  destruct (Column_fields fuel h ey) as [fb| | |]; simpl; try done.
  destruct (fields_upper fb) as [ub| | |]; simpl; try done.
  intros [= <-]. f_equal. apply bool_decide_ext. split; congruence.
Qed.

Lemma Literal_eq_sym fuel h x y ex ey b :
  deref h x = Some ex → deref h y = Some ey →
  cls ex = "Literal" → cls ey = "Literal" →
  Literal_eq fuel h ex (VNode y) = Val b →
  Literal_eq fuel h ey (VNode x) = Val b.
Proof.
  intros Hx Hy Hcx Hcy. unfold Literal_eq. rewrite Hx, Hy, !decide_True by done.
  apply res_and_sym; intros v; apply (compare_swap _ _ id).
Qed.

(** X8.  The equality of [Column] and of [Literal] is symmetric: when
    [x.__eq__(y)] returns for a node [x] of one of these classes and a node
    [y] of any class, [y.__eq__(x)] returns the same. *)
Theorem override_eq_symmetric (fuel : nat) (h : store) (x y : loc)
    (ex : Expression) (b : bool) :
  deref h x = Some ex → cls ex = "Column" ∨ cls ex = "Literal" →
  __eq__ (S fuel) h x (VNode y) = Val b →
  __eq__ (S fuel) h y (VNode x) = Val b.
Proof.
  intros Hx Hcls. cbn [__eq__]. rewrite Hx.
  destruct (deref h y) as [ey|] eqn:Hy.
  2:{ destruct Hcls as [Hc|Hc].
      - rewrite decide_True by done. unfold Column_eq. by rewrite Hy.
      - rewrite decide_False by (by rewrite Hc). rewrite decide_True by done.
        unfold Literal_eq. by rewrite Hy. }
  destruct Hcls as [Hc|Hc].
  - rewrite decide_True by done.
    destruct (decide (cls ey = "Column")) as [Hcy|Hcy].
    + by apply (Column_eq_sym fuel h x y).
    + unfold Column_eq at 1. rewrite Hy, decide_False by done. intros [= <-].
      destruct (decide (cls ey = "Literal")).
      * unfold Literal_eq. rewrite Hx, decide_False; [done|by rewrite Hc].
      * rewrite decide_False; [done|congruence].
  - rewrite (decide_False (P := cls ex = "Column")) by (by rewrite Hc).
    rewrite decide_True by done.
    destruct (decide (cls ey = "Literal")) as [Hly|Hly].
    + rewrite decide_False by (by rewrite Hly).
      by apply (Literal_eq_sym fuel h x y).
    + unfold Literal_eq at 1. rewrite Hy, decide_False by done. intros [= <-].
      destruct (decide (cls ey = "Column")).
      * unfold Column_eq. rewrite Hx, decide_False; [done|by rewrite Hc].
      * rewrite decide_False; [done|congruence].
Qed.

Lemma override_eq_symmetric_witness :
  __eq__ 1 Column_example 1 (VNode 0) = Val true
  ∧ __eq__ 1 Literal_example 1 (VNode 0) = Val false.
Proof.
  split.
  - exact (override_eq_symmetric 0 Column_example 0 1 _ true eq_refl
             (or_introl eq_refl) eq_refl).
  - exact (override_eq_symmetric 0 Literal_example 0 1 _ false eq_refl
             (or_intror eq_refl) eq_refl).
Defined.

Lemma attr_text_str fuel h s : attr_text fuel h (VStr s) = Exn AttributeError.
Proof. by destruct fuel. Qed.

(** X21.  The name of a [Column] is read from the attribute [text] of
    its argument [this].  When the argument is a string that is not empty,
    which has no such attribute, hashing the node ends with an
    [AttributeError], and so does comparing it with a [Column] node; the
    comparison with a node of another class is [False]. *)
Theorem Column_string_argument (fuel : nat) (h : store) (x : loc)
    (ex : Expression) (s : string) :
  deref h x = Some ex → cls ex = "Column" →
  dict_get "this" (args ex) = Some (Single (VStr s)) → s ≠ "" →
  __hash__ (S fuel) h x = Exn AttributeError
  ∧ (∀ y ey, deref h y = Some ey → cls ey = "Column" →
       __eq__ (S fuel) h x (VNode y) = Exn AttributeError)
  ∧ (∀ y ey, deref h y = Some ey → cls ey ≠ "Column" →
       __eq__ (S fuel) h x (VNode y) = Val false).
Proof.
  intros Hx Hcls Hthis Hs.
  assert (Hname : Column_name fuel h ex = Exn AttributeError).
  { unfold Column_name, _token_arg_text. rewrite Hthis. cbn [truthy].
    rewrite bool_decide_eq_false_2 by done. cbn [negb].
    apply attr_text_str. }
  split; [|split].
  - cbn [__hash__]. rewrite Hx, decide_True by done.
    unfold Column_hash. by rewrite Hname.
  - intros y ey Hy Hcy. cbn [__eq__]. rewrite Hx, decide_True by done.
    unfold Column_eq. rewrite Hy, decide_True by done. by rewrite Hname.
  - intros y ey Hy Hcy. cbn [__eq__]. rewrite Hx, decide_True by done.
    unfold Column_eq. by rewrite Hy, decide_False.
Qed.

Lemma Column_string_argument_witness :
  __hash__ 1 Column_string_example 0 = Exn AttributeError
  ∧ __eq__ 1 Column_string_example 0 (VNode 1) = Exn AttributeError.
Proof.
  pose proof (Column_string_argument 0 Column_string_example 0 _ "Foo"
                eq_refl eq_refl eq_refl ltac:(discriminate))
    as (Hhash & Heq & _).
  split; [exact Hhash|]. exact (Heq 1 _ eq_refl eq_refl).
Defined.

(** * The two orders of [walk] *)

Lemma res_mapM_Val {A B} (f : A → res B) l bs :
  res_mapM f l = Val bs ↔ Forall2 (λ a b, f a = Val b) l bs.
Proof.
  revert bs. induction l as [|a l IH]; intros bs; simpl.
  - split; [intros [= <-]; constructor|by intros ->%Forall2_nil_inv_l].
  - split.
    + intros (b & Hb & (bs' & Hbs & [= <-])%res_bind_Val)%res_bind_Val.
      constructor; [done|by apply IH].
    + intros (b & bs' & Hb & Hbs & ->)%Forall2_cons_inv_l.
      rewrite Hb. simpl. apply IH in Hbs. by rewrite Hbs.
Qed.

Lemma res_mapM_app {A B} (f : A → res B) l1 l2 :
  res_mapM f (l1 ++ l2) =
  res_bind (res_mapM f l1) (λ b1,
    res_bind (res_mapM f l2) (λ b2, Val (b1 ++ b2))).
Proof.
  induction l1 as [|a l1 IH]; simpl.
  - by destruct (res_mapM f l2).
  - destruct (f a); simpl; try done. rewrite IH.
    destruct (res_mapM f l1); simpl; try done.
    by destruct (res_mapM f l2).
Qed.

(** The loops of [dfs] yield, one after the other, what [dfs] yields for
    the triples that [bfs] appends to its queue for the same node. *)
Lemma dfs_nodes_triples rec self k nodes :
  dfs_nodes rec self k nodes =
  res_bind (res_mapM (λ node, match node with
                              | VNode c => rec c (Some k)
                              | _ => Val [(node, Some self, Some k)]
                              end) nodes)
    (λ Ds, Val (concat Ds)).
Proof.
  induction nodes as [|node nodes IH]; simpl; [done|].
  rewrite IH.
  destruct node as [| | | | |c]; simpl; try (by destruct (res_mapM _ nodes)).
  destruct (rec c (Some k)); simpl; try done. by destruct (res_mapM _ nodes).
Qed.

Lemma dfs_items_triples fuel h l (its : list (string * slot)) :
  dfs_items (λ c k, dfs fuel h c (Some l) k) l its =
  res_bind (res_mapM (dfs_triple fuel h)
              (flat_map (λ '(k, v),
                 map (λ node, (node, Some l, Some k)) (ensure_list v)) its))
    (λ Ds, Val (concat Ds)).
Proof.
  induction its as [|[k v] its IH]; simpl; [done|].
  rewrite res_mapM_app, dfs_nodes_triples, IH.
  assert (Hvals : ∀ nodes,
    res_mapM (λ node, match node with
                      | VNode c => dfs fuel h c (Some l) (Some k)
                      | _ => Val [(node, Some l, Some k)]
                      end) nodes
    = res_mapM (dfs_triple fuel h)
        (map (λ node, (node, Some l, Some k)) nodes)).
  { induction nodes as [|node nodes IHn]; simpl; [done|].
    rewrite IHn. by destruct node. }
  rewrite Hvals.
  destruct (res_mapM (dfs_triple fuel h)
              (map (λ node, (node, Some l, Some k)) (ensure_list v)))
    as [D1| | |]; simpl; try done.
  match goal with
  | |- context [res_mapM ?f (flat_map ?g its)] =>
      destruct (res_mapM f (flat_map g its)) as [D2| | |]
  end; simpl; try done.
  by rewrite concat_app.
Qed.

Lemma dfs_unfold fuel h c e p k :
  deref h c = Some e →
  dfs (S fuel) h c p k =
  res_bind (res_mapM (dfs_triple fuel h) (children_triples c e))
    (λ Ds, Val ((VNode c, p, k) :: concat Ds)).
Proof.
  intros He. cbn [dfs]. rewrite He, dfs_items_triples.
  unfold children_triples.
  by destruct (res_mapM (dfs_triple fuel h) _).
Qed.

(** More fuel does not change a traversal that ended. *)
Lemma dfs_fuel_mono fuel : ∀ fuel' h c p k D,
  dfs fuel h c p k = Val D → fuel ≤ fuel' → dfs fuel' h c p k = Val D.
Proof.
  induction fuel as [|fuel IH]; intros fuel' h c p k D; [done|].
  destruct fuel' as [|fuel']; [lia|]. intros Hrun Hle.
  destruct (deref h c) as [e|] eqn:He;
    [|cbn [dfs] in Hrun; by rewrite He in Hrun].
  rewrite (dfs_unfold fuel _ _ e) in Hrun by done.
  rewrite (dfs_unfold fuel' _ _ e) by done.
  apply res_bind_Val in Hrun as (Ds & HDs & [= <-]).
  assert (HDs' : res_mapM (dfs_triple fuel' h) (children_triples c e) = Val Ds);
    [|by rewrite HDs'].
  apply res_mapM_Val. apply res_mapM_Val in HDs.
  apply (Forall2_impl _ _ _ _ HDs). intros [[v q] kk] D. unfold dfs_triple.
  simpl. destruct v; try done. intros Hv. apply (IH fuel'); [done|lia].
Qed.

Lemma dfs_triple_fuel_mono fuel fuel' h t D :
  dfs_triple fuel h t = Val D → fuel ≤ fuel' → dfs_triple fuel' h t = Val D.
Proof.
  unfold dfs_triple. destruct (t.1.1); try done. apply dfs_fuel_mono.
Qed.

Lemma pushed_Val h t cs :
  pushed h t = Val cs →
  (∃ c e, t.1.1 = VNode c ∧ deref h c = Some e ∧ cs = children_triples c e)
  ∨ ((∀ c, t.1.1 ≠ VNode c) ∧ cs = []).
Proof.
  unfold pushed. destruct (t.1.1) as [| | | | |c] eqn:Ht;
    try (intros [= <-]; by right).
  destruct (deref h c) as [e|] eqn:He; [|done]. intros [= <-]. left. eauto.
Qed.

Lemma concat_reverse_Permutation {A} (ls : list (list A)) :
  concat (reverse ls) ≡ₚ concat ls.
Proof.
  induction ls as [|l ls IH]; [done|].
  rewrite reverse_cons, concat_app. simpl. rewrite app_nil_r, IH.
  apply Permutation_app_comm.
Qed.

Lemma concat_Permutation {A} (ls ks : list (list A)) :
  Forall2 (≡ₚ) ls ks → concat ls ≡ₚ concat ks.
Proof. induction 1 as [|l k ls ks Hlk _ IH]; simpl; [done|]. by rewrite Hlk, IH. Qed.

Lemma bfs_loop_leaf h v p k :
  (∀ c, v ≠ VNode c) → bfs_loop 2 h [(v, p, k)] = Val [(v, p, k)].
Proof. intros Hv. destruct v; try done. by destruct (Hv l). Qed.

(** What [dfs] yields for a triple, the loop of [bfs] yields too, in some
    order, when it starts from the triple. *)
Lemma dfs_triple_bfs fuel : ∀ h t D,
  dfs_triple fuel h t = Val D →
  ∃ fuel' T, bfs_loop fuel' h [t] = Val T ∧ T ≡ₚ D.
Proof.
  induction fuel as [|fuel IH]; intros h [[v p] k] D; unfold dfs_triple;
    cbn [fst snd].
  - destruct v; try done; intros [= <-]; eexists 2, _;
      (split; [by apply bfs_loop_leaf|done]).
  - destruct v as [| | | | |c];
      try (intros [= <-]; eexists 2, _;
           (split; [by apply bfs_loop_leaf|done])).
    destruct (deref h c) as [e|] eqn:He; [|cbn [dfs]; by rewrite He].
    rewrite (dfs_unfold _ _ _ e) by done.
    intros (Ds & HDs%res_mapM_Val & [= <-])%res_bind_Val.
    assert (HTs : ∃ Ts, Forall2 (λ t T, ∃ f, bfs_loop f h [t] = Val T)
                          (children_triples c e) Ts ∧ Forall2 (≡ₚ) Ts Ds).
    { induction HDs as [|t D ts Ds Ht _ (Ts & HTs & Hperm)]; [by exists []|].
      destruct (IH h t D Ht) as (f & T & HT & HTD).
      exists (T :: Ts). split; constructor; eauto. }
    destruct HTs as (Ts & HTs & Hperm).
    destruct (bfs_loop_queue _ _ _ HTs) as [f Hq].
    exists (S f), ((VNode c, p, k) :: concat (reverse Ts)). split.
    + rewrite bfs_loop_single. unfold pushed. simpl. rewrite He. simpl.
      by rewrite Hq.
    + constructor. rewrite concat_reverse_Permutation.
      by apply concat_Permutation.
Qed.

(** What the loop of [bfs] yields from a queue, [dfs] yields too, in some
    order, for the triples of the queue. *)
Lemma bfs_loop_dfs fuel : ∀ h q T,
  bfs_loop fuel h q = Val T →
  ∃ Ds, Forall2 (λ t D, dfs_triple fuel h t = Val D) q Ds ∧ T ≡ₚ concat Ds.
Proof.
  induction fuel as [|fuel IH]; intros h q T; [done|].
  destruct (pop_cases q) as [[-> _]|(q' & t & -> & _)].
  { intros [= <-]. exists []. by split. }
  rewrite bfs_loop_step.
  intros (cs & Hcs & (rest & Hrest & [= <-])%res_bind_Val)%res_bind_Val.
  destruct (IH h _ rest Hrest) as (Ds & HDs & Hperm).
  apply Forall2_app_inv_l in HDs as (Dq & Dcs & HDq & HDcs & ->).
  assert (Ht : dfs_triple (S fuel) h t = Val (t :: concat Dcs)).
  { destruct t as [[v p] k]. unfold dfs_triple.
    destruct (pushed_Val h _ cs Hcs) as [(c & e & Hv & He & ->)|[Hv ->]];
      cbn [fst snd] in Hv |- *.
    - subst v. rewrite (dfs_unfold _ _ _ e) by done.
      apply res_mapM_Val in HDcs. by rewrite HDcs.
    - apply Forall2_nil_inv_l in HDcs as ->.
      destruct v; try done. by destruct (Hv l). }
  exists (Dq ++ [t :: concat Dcs]). split.
  - apply Forall2_app; [|by repeat constructor].
    apply (Forall2_impl _ _ _ _ HDq). intros t' D' HD'.
    apply (dfs_triple_fuel_mono fuel); [done|lia].
  - rewrite Hperm, !concat_app. simpl. rewrite app_nil_r.
    by rewrite <- Permutation_middle.
Qed.

Lemma walk_dfs_triple fuel h self e :
  deref h self = Some e →
  walk fuel h self false = dfs_triple fuel h (VNode self, parent h e, None).
Proof. intros He. unfold walk, dfs_triple. by rewrite He. Qed.

Lemma walk_live fuel h self b T :
  walk fuel h self b = Val T → ∃ e, deref h self = Some e.
Proof.
  unfold walk, bfs. destruct b; destruct (deref h self); try done; eauto.
Qed.

(** X9.  The two orders of [walk] yield the same triples: when the
    depth-first traversal returns, the default traversal returns a
    rearrangement of its result, and the other way round; both begin with
    the triple of the receiver. *)
Theorem walk_orders_agree (h : store) (self : loc) :
  (∀ fuel D, walk fuel h self false = Val D →
     ∃ fuel' B, walk fuel' h self true = Val B ∧ B ≡ₚ D)
  ∧ (∀ fuel B, walk fuel h self true = Val B →
       ∃ fuel' D, walk fuel' h self false = Val D ∧ D ≡ₚ B)
  ∧ (∀ fuel b T, walk fuel h self b = Val T →
       ∃ e T', deref h self = Some e
               ∧ T = (VNode self, parent h e, None) :: T').
Proof.
  split; [|split].
  - intros fuel D HD. destruct (walk_live _ _ _ _ _ HD) as [e He].
    rewrite (walk_dfs_triple _ _ _ e He) in HD.
    destruct (dfs_triple_bfs fuel h _ D HD) as (fuel' & B & HB & Hperm).
    exists fuel', B. split; [|done]. unfold walk, bfs. by rewrite He.
  - intros fuel B HB. destruct (walk_live _ _ _ _ _ HB) as [e He].
    unfold walk, bfs in HB. rewrite He in HB.
    destruct (bfs_loop_dfs fuel h _ B HB) as (Ds & HDs & Hperm).
    apply Forall2_cons_inv_l in HDs as (D & Ds' & HD & ->%Forall2_nil_inv_l & ->).
    simpl in Hperm. rewrite app_nil_r in Hperm.
    exists fuel, D. by rewrite (walk_dfs_triple _ _ _ e He).
  - intros fuel b T HT. destruct (walk_live _ _ _ _ _ HT) as [e He].
    exists e. unfold walk, bfs in HT. rewrite He in HT. destruct b.
    + apply bfs_loop_head in HT as [T' ->]. eauto.
    + destruct fuel as [|fuel]; [done|].
      rewrite (dfs_unfold _ _ _ e _ _ He) in HT.
      apply res_bind_Val in HT as (Ds & _ & [= <-]). eauto.
Qed.

Lemma bfs_loop_elems fuel : ∀ h q T,
  bfs_loop fuel h q = Val T →
  ∀ t, t ∈ T →
    t ∈ q ∨ (held_triple h t ∧ ∃ p, t.1.2 = Some p ∧ VNode p ∈ items T).
Proof.
  induction fuel as [|fuel IH]; intros h q T; [done|].
  destruct (pop_cases q) as [[-> _]|(q' & t0 & -> & _)].
  { by intros [= <-] t ?%elem_of_nil. }
  rewrite bfs_loop_step.
  intros (cs & Hcs & (rest & Hrest & [= <-])%res_bind_Val)%res_bind_Val.
  intros t [->|Ht]%elem_of_cons.
  { left. apply elem_of_app. right. by left. }
  destruct (IH h _ rest Hrest t Ht) as [[Hq|Hc]%elem_of_app|[Hheld (p & Hp & Hin)]].
  - left. apply elem_of_app. by left.
  - right.
    destruct (pushed_Val h _ cs Hcs) as [(c & e & Hv & He & ->)|[_ ->]];
      [|by apply elem_of_nil in Hc].
    apply children_triples_elem in Hc as (k & s & v & Hks & Hv' & ->).
    split; [by exists c, k, e, s|].
    exists c. split; [done|]. unfold items. simpl. rewrite Hv. by left.
  - right. split; [done|]. exists p. split; [done|].
    unfold items in *. simpl. by right.
Qed.

(** X10.  In either order, every triple that [walk] yields after the first
    stands for a value held by a node: its parent is a live node that the
    traversal also yields as an item, its key is a key of the arguments of
    that node, and its item is stored under that key. *)
Theorem walk_triples_held (fuel : nat) (h : store) (self : loc) (b : bool)
    (T : list triple) :
  walk fuel h self b = Val T →
  ∃ e T',
    deref h self = Some e
    ∧ T = (VNode self, parent h e, None) :: T'
    ∧ Forall (held_triple h) T'
    ∧ ∀ t, t ∈ T' → ∃ p, t.1.2 = Some p ∧ VNode p ∈ items T.
Proof.
  intros HT.
  assert (Hbfs : ∀ f B e, deref h self = Some e →
            bfs_loop f h [(VNode self, parent h e, None)] = Val B →
            ∀ T', B ≡ₚ (VNode self, parent h e, None) :: T' →
            Forall (held_triple h) T'
            ∧ ∀ t, t ∈ T' → ∃ p, t.1.2 = Some p ∧ VNode p ∈ items B).
  { intros f B e He HB T' Hperm.
    pose proof HB as [B' ->]%bfs_loop_head.
    apply Permutation_cons_inv in Hperm.
    assert (Hall : ∀ t, t ∈ B' →
              held_triple h t ∧ ∃ p, t.1.2 = Some p
                ∧ VNode p ∈ items ((VNode self, parent h e, None) :: B')).
    { intros t Ht.
      destruct f as [|f]; [done|]. rewrite bfs_loop_single in HB.
      apply res_bind_Val in HB as (cs & Hcs & (rest & Hrest & [= <-])%res_bind_Val).
      destruct (bfs_loop_elems f h cs rest Hrest t Ht)
        as [Hc|[Hheld (p & Hp & Hin)]].
      - destruct (pushed_Val h _ cs Hcs) as [(c & e' & [= <-] & He' & ->)|[Hv _]];
          [|by destruct (Hv self)].
        apply children_triples_elem in Hc as (k & s & v & Hks & Hv' & ->).
        split; [by exists self, k, e', s|].
        exists self. split; [done|]. by left.
      - split; [done|]. exists p. split; [done|]. unfold items in *.
        simpl. by right. }
    split.
    - apply Forall_forall. intros t Ht. apply Hall. by rewrite Hperm.
    - intros t Ht. apply Hall. by rewrite Hperm. }
  destruct (walk_live _ _ _ _ _ HT) as [e He]. exists e.
  destruct b.
  - unfold walk, bfs in HT. rewrite He in HT.
    pose proof HT as [T' ->]%bfs_loop_head. exists T'.
    split; [done|]. split; [done|]. by apply (Hbfs fuel _ e He HT T').
  - rewrite (walk_dfs_triple _ _ _ e He) in HT.
    assert (HT' : ∃ T', T = (VNode self, parent h e, None) :: T').
    { destruct fuel as [|fuel]; [done|]. unfold dfs_triple in HT.
      cbn [fst snd dfs] in HT. rewrite He in HT.
      apply res_bind_Val in HT as (Ds & _ & [= <-]). eauto. }
    destruct HT' as [T' ->]. exists T'. split; [done|]. split; [done|].
    destruct (dfs_triple_bfs fuel h _ _ HT) as (f & B & HB & Hperm).
    destruct (Hbfs f B e He HB T' Hperm) as [Hheld Hpar].
    split; [done|]. intros t Ht. destruct (Hpar t Ht) as (p & Hp & Hin).
    exists p. split; [done|]. unfold items in *. by rewrite <- Hperm.
Qed.

Lemma walk_triples_held_witness :
  ∃ e T',
    deref walk_example 0 = Some e
    ∧ [(VNode 0, None, None);
       (VNode 1, Some 0, Some "this");
       (VNode 3, Some 1, Some "this");
       (VNode 4, Some 1, Some "expression");
       (VNode 2, Some 0, Some "expression");
       (VNode 5, Some 2, Some "this");
       (VNode 6, Some 2, Some "expression")]
      = (VNode 0, parent walk_example e, None) :: T'
    ∧ Forall (held_triple walk_example) T'.
Proof.
  destruct (walk_triples_held 4 walk_example 0 false _ eq_refl)
    as (e & T' & He & HT & Hheld & _).
  exists e, T'. split; [exact He|]. split; [exact HT|exact Hheld].
Defined.

(** * [find_all] and [find] on a tree *)

Lemma node_locs_app vs ws : node_locs (vs ++ ws) = node_locs vs ++ node_locs ws.
Proof. unfold node_locs. apply omap_app. Qed.

Lemma items_app ts us : items (ts ++ us) = items ts ++ items us.
Proof. unfold items. apply map_app. Qed.

Lemma items_children l e :
  node_locs (items (children_triples l e)) = child_locs e.
Proof.
  unfold children_triples, child_locs.
  induction (args e) as [|[k s] its IH]; simpl; [done|].
  rewrite items_app, node_locs_app, IH. f_equal.
  unfold items. rewrite map_map. simpl. by rewrite map_id.
Qed.

(** On a tree the depth-first traversal ends, with fuel from the height
    on, and yields the nodes of the tree in the order of its footprint. *)
Lemma dfs_tree n : ∀ h l fp p k,
  tree_at n h l fp →
  ∃ D, dfs n h l p k = Val D ∧ node_locs (items D) = fp.
Proof.
  induction n as [|n IH]; intros h l fp p k; [done|].
  intros (e & fps & He & _ & Hch & -> & _).
  rewrite (dfs_unfold _ _ _ e) by done.
  rewrite <- items_children with (l := l) in Hch.
  assert (HDs : ∃ Ds, res_mapM (dfs_triple n h) (children_triples l e) = Val Ds
                      ∧ node_locs (items (concat Ds)) = concat fps).
  { revert fps Hch.
    induction (children_triples l e) as [|[[v q] kk] ts IHts]; intros fps Hch.
    - apply Forall2_nil_inv_l in Hch as ->. by exists [].
    - destruct v as [| | | | |c].
      1-5: destruct (IHts fps Hch) as (Ds & HDs & Hlocs);
           eexists (_ :: Ds); cbn [res_mapM]; unfold dfs_triple at 1;
           cbn [fst snd]; rewrite HDs; cbn [res_bind]; (split; [done|]);
           cbn [concat]; by rewrite items_app, node_locs_app, Hlocs.
      change (node_locs (items ((VNode c, q, kk) :: ts)))
        with (c :: node_locs (items ts)) in Hch.
      apply Forall2_cons_inv_l in Hch as (fc & fps' & Htree & Hch & ->).
      destruct (IH h c fc q kk Htree) as (D & HD & HlocsD).
      destruct (IHts fps' Hch) as (Ds & HDs & Hlocs).
      exists (D :: Ds). cbn [res_mapM]. unfold dfs_triple at 1. cbn [fst snd].
      rewrite HD, HDs. cbn [res_bind]. split; [done|].
      cbn [concat]. by rewrite items_app, node_locs_app, HlocsD, Hlocs. }
  destruct HDs as (Ds & -> & Hlocs). simpl. eexists. split; [done|].
  change (node_locs (items ((VNode l, p, k) :: concat Ds)))
    with (l :: node_locs (items (concat Ds))).
  by rewrite Hlocs.
Qed.

Lemma node_locs_Permutation vs ws : vs ≡ₚ ws → node_locs vs ≡ₚ node_locs ws.
Proof. intros Hp. unfold node_locs. by rewrite Hp. Qed.

Lemma items_Permutation ts us : ts ≡ₚ us → items ts ≡ₚ items us.
Proof. intros Hp. unfold items. by rewrite Hp. Qed.

(** On a tree the default traversal yields every node once. *)
Lemma bfs_tree n h self fp :
  tree_at n h self fp →
  ∃ fuel B, (∀ fuel', fuel ≤ fuel' → bfs fuel' h self = Val B)
            ∧ node_locs (items B) ≡ₚ fp
            ∧ ∃ B', B = (VNode self, None, None) :: B'
                    ∨ ∃ p, B = (VNode self, Some p, None) :: B'.
Proof.
  intros Htree.
  destruct (tree_at_root _ _ _ _ Htree) as [_ [e He]].
  destruct (dfs_tree n h self fp (parent h e) None Htree) as (D & HD & Hlocs).
  destruct (dfs_triple_bfs n h (VNode self, parent h e, None) D HD)
    as (fuel & B & HB & Hperm).
  exists fuel, B. split; [|split].
  - intros fuel' Hle. unfold bfs. rewrite He.
    by apply (bfs_loop_fuel_mono fuel).
  - rewrite <- Hlocs. by apply node_locs_Permutation, items_Permutation.
  - apply bfs_loop_head in HB as [B' ->]. exists B'.
    destruct (parent h e); eauto.
Qed.

(** The nodes that [find_all] keeps. *)
Lemma filter_isinstance h types vs :
  filter (λ v, isinstance h types v = true) vs =
  VNode <$> filter (λ x, isinstance h types (VNode x) = true) (node_locs vs).
Proof.
  induction vs as [|v vs IH]; [done|].
  destruct v as [| | | | |c];
    try (rewrite filter_cons_False by done; exact IH).
  change (node_locs (VNode c :: vs)) with (c :: node_locs vs).
  rewrite !filter_cons. destruct (decide (isinstance h types (VNode c) = true));
    rewrite IH; done.
Qed.

(** X11.  On a tree, [find_all] returns, for every fuel from some point
    on, the nodes of the tree whose class is one of the given types, each
    of them once, and nothing else. *)
Theorem find_all_tree (n : nat) (h : store) (self : loc) (fp : list loc)
    (types : string → bool) :
  tree_at n h self fp →
  ∃ fuel vs,
    (∀ fuel', fuel ≤ fuel' → find_all fuel' h self types = Val vs)
    ∧ NoDup vs
    ∧ ∀ v, v ∈ vs ↔ ∃ x e, v = VNode x ∧ x ∈ fp ∧ deref h x = Some e
                           ∧ types (cls e) = true.
Proof.
  intros Htree.
  destruct (bfs_tree n h self fp Htree) as (fuel & B & HB & Hperm & _).
  exists fuel, (filter (λ v, isinstance h types v = true) (items B)).
  split; [|split].
  - intros fuel' Hle. unfold find_all, walk. by rewrite (HB fuel' Hle).
  - rewrite filter_isinstance. apply NoDup_fmap_2; [by intros ?? [=]|].
    apply NoDup_filter. rewrite Hperm. by apply (tree_at_NoDup n h self).
  - intros v. rewrite filter_isinstance, list_elem_of_fmap. split.
    + intros (x & -> & [Hx Hin]%list_elem_of_filter).
      rewrite Hperm in Hin. simpl in Hx.
      destruct (deref h x) as [e|] eqn:He; [|done].
      exists x, e. done.
    + intros (x & e & -> & Hin & He & Hty). exists x. split; [done|].
      apply list_elem_of_filter. split; [by simpl; rewrite He|].
      by rewrite Hperm.
Qed.

Lemma find_all_tree_witness :
  ∃ fuel vs,
    (∀ fuel', fuel ≤ fuel' →
       find_all fuel' depth_example 0 (λ c, bool_decide (c = "Null")) = Val vs)
    ∧ NoDup vs
    ∧ ∀ v, v ∈ vs ↔ ∃ x e, v = VNode x ∧ x ∈ [0; 1]
                           ∧ deref depth_example x = Some e
                           ∧ bool_decide (cls e = "Null") = true.
Proof.
  assert (Htree : tree_at 2 depth_example 0 [0; 1]).
  { exists (mkExpression "Paren" [("this", Single (VNode 1))] None None), [[1]].
    split; [reflexivity|].
    split; [apply (bool_decide_unpack _); vm_compute; reflexivity|].
    split; [|split; [reflexivity|apply (bool_decide_unpack _); vm_compute; reflexivity]].
    constructor; [|constructor].
    exists (mkExpression "Null" [] (Some 0) None), [].
    split; [reflexivity|]. split; [constructor|].
    split; [constructor|].
    split; [reflexivity|apply (bool_decide_unpack _); vm_compute; reflexivity]. }
  exact (find_all_tree 2 depth_example 0 [0; 1]
           (λ c, bool_decide (c = "Null")) Htree).
Defined.

(** X12.  On a tree, [find] returns [None] exactly when no node of the
    tree is of one of the given types; otherwise it returns a node of the
    tree that is, and the receiver itself when the receiver is. *)
Theorem find_tree (n : nat) (h : store) (self : loc) (fp : list loc)
    (types : string → bool) :
  tree_at n h self fp →
  ∃ fuel r,
    (∀ fuel', fuel ≤ fuel' → find fuel' h self types = Val r)
    ∧ (r = VNone ↔ ∀ x, x ∈ fp → isinstance h types (VNode x) = false)
    ∧ (r ≠ VNone → ∃ x, r = VNode x ∧ x ∈ fp
                        ∧ isinstance h types (VNode x) = true)
    ∧ (isinstance h types (VNode self) = true → r = VNode self).
Proof.
  intros Htree.
  destruct (bfs_tree n h self fp Htree) as (fuel & B & HB & Hperm & B' & HB').
  set (vs := filter (λ v, isinstance h types v = true) (items B)).
  assert (Hvs : ∀ v, v ∈ vs ↔
            ∃ x, v = VNode x ∧ x ∈ fp ∧ isinstance h types (VNode x) = true).
  { intros v. unfold vs. rewrite filter_isinstance, list_elem_of_fmap. split.
    - intros (x & -> & [Hx Hin]%list_elem_of_filter). rewrite Hperm in Hin. eauto.
    - intros (x & -> & Hin & Hx). exists x. split; [done|].
      apply list_elem_of_filter. by rewrite Hperm. }
  exists fuel, (match vs with v :: _ => v | [] => VNone end).
  split; [|split; [|split]].
  - intros fuel' Hle. unfold find, find_all, walk. by rewrite (HB fuel' Hle).
  - destruct vs as [|v vs'] eqn:Hvs'.
    + split; [|done]. intros _ x Hx.
      destruct (isinstance h types (VNode x)) eqn:Hi; [|done].
      assert (Hin : VNode x ∈ @nil value) by (apply Hvs; eauto).
      by apply elem_of_nil in Hin.
    + assert (Hv : v ∈ v :: vs') by (by left).
      apply Hvs in Hv as (x & -> & Hin & Hx). split; [done|].
      intros Hnone. by rewrite (Hnone x Hin) in Hx.
  - destruct vs as [|v vs'] eqn:Hvs'; [done|]. intros _.
    assert (Hv : v ∈ v :: vs') by (by left).
    by apply Hvs in Hv.
  - intros Hself. unfold vs.
    assert (Hitems : ∃ I, items B = VNode self :: I).
    { destruct HB' as [->|[p ->]]; eauto. }
    destruct Hitems as [I ->]. by rewrite filter_cons_True.
Qed.

Lemma find_tree_witness :
  ∃ fuel r,
    (∀ fuel', fuel ≤ fuel' →
       find fuel' depth_example 0 (λ c, bool_decide (c = "Paren")) = Val r)
    ∧ (isinstance depth_example (λ c, bool_decide (c = "Paren")) (VNode 0) = true
       → r = VNode 0).
Proof.
  assert (Htree : tree_at 2 depth_example 0 [0; 1]).
  { exists (mkExpression "Paren" [("this", Single (VNode 1))] None None), [[1]].
    split; [reflexivity|].
    split; [apply (bool_decide_unpack _); vm_compute; reflexivity|].
    split; [|split; [reflexivity|apply (bool_decide_unpack _); vm_compute; reflexivity]].
    constructor; [|constructor].
    exists (mkExpression "Null" [] (Some 0) None), [].
    split; [reflexivity|]. split; [constructor|].
    split; [constructor|].
    split; [reflexivity|apply (bool_decide_unpack _); vm_compute; reflexivity]. }
  destruct (find_tree 2 depth_example 0 [0; 1]
              (λ c, bool_decide (c = "Paren")) Htree)
    as (fuel & r & Hrun & _ & _ & Hself).
  exists fuel, r. split; [exact Hrun|exact Hself].
Defined.

(** X24.  On a tree, [walk] returns in either order, for every fuel from
    some point on, and yields every node of the tree exactly once; the
    depth-first order yields them in the order of the footprint: a node
    before the nodes below it, the arguments in their order. *)
Theorem walk_tree (n : nat) (h : store) (self : loc) (fp : list loc)
    (b : bool) :
  tree_at n h self fp →
  ∃ fuel T,
    (∀ fuel', fuel ≤ fuel' → walk fuel' h self b = Val T)
    ∧ node_locs (items T) ≡ₚ fp
    ∧ NoDup (node_locs (items T))
    ∧ (b = false → node_locs (items T) = fp).
Proof.
  intros Htree. pose proof (tree_at_NoDup _ _ _ _ Htree) as Hnd.
  destruct b.
  - destruct (bfs_tree n h self fp Htree) as (fuel & B & HB & Hperm & _).
    exists fuel, B. split; [done|]. split; [done|]. split; [by rewrite Hperm|done].
  - destruct (tree_at_root _ _ _ _ Htree) as [_ [e He]].
    destruct (dfs_tree n h self fp (parent h e) None Htree) as (D & HD & Hlocs).
    exists n, D. split; [|by rewrite Hlocs].
    intros fuel' Hle. unfold walk. rewrite He.
    by apply (dfs_fuel_mono n).
Qed.

Lemma walk_tree_witness :
  ∃ fuel T,
    (∀ fuel', fuel ≤ fuel' → walk fuel' depth_example 0 false = Val T)
    ∧ node_locs (items T) ≡ₚ [0; 1]
    ∧ NoDup (node_locs (items T))
    ∧ (false = false → node_locs (items T) = [0; 1]).
Proof.
  assert (Htree : tree_at 2 depth_example 0 [0; 1]).
  { exists (mkExpression "Paren" [("this", Single (VNode 1))] None None), [[1]].
    split; [reflexivity|].
    split; [apply (bool_decide_unpack _); vm_compute; reflexivity|].
    split; [|split; [reflexivity|apply (bool_decide_unpack _); vm_compute; reflexivity]].
    constructor; [|constructor].
    exists (mkExpression "Null" [] (Some 0) None), [].
    split; [reflexivity|]. split; [constructor|].
    split; [constructor|].
    split; [reflexivity|apply (bool_decide_unpack _); vm_compute; reflexivity]. }
  exact (walk_tree 2 depth_example 0 [0; 1] false Htree).
Defined.

(** * Further properties of the rewriting pass *)

(** The loop over the values of an argument that holds no node returns
    them as they are. *)
Lemma transform_children_leaves rec l vs st :
  node_locs vs = [] → transform_children rec l vs st = (Val vs, st).
Proof.
  induction vs as [|v vs IH]; [done|]. intros Hvs.
  destruct v as [| | | | |c]; try done;
    cbn [transform_children]; unfold bind at 1; cbn [ret];
    rewrite (bind_Val _ _ _ _ _ (IH Hvs)); done.
Qed.

(** The loop over values of which the first node is [c] fails when [rec]
    returns for [c] a value that takes no attribute. *)
Lemma transform_children_fails rec l c r st st' vs :
  head (node_locs vs) = Some c →
  rec c st = (Val r, st') →
  assign_parent r l st' = (Exn AttributeError, st') →
  transform_children rec l vs st = (Exn AttributeError, st').
Proof.
  intros Hc Hrec Hassign. induction vs as [|v vs IH]; [done|].
  destruct v as [| | | | |c'];
    try (cbn [transform_children]; unfold bind at 1; cbn [ret];
         unfold bind at 1; by rewrite (IH Hc)).
  injection Hc as ->. cbn [transform_children].
  unfold bind at 1. unfold bind at 1. rewrite Hrec.
  unfold bind at 1. by rewrite Hassign.
Qed.

Lemma transform_items_fails rec l c r e :
  NoDup (dict_keys (args e)) →
  ∀ its pre st st',
    args e = pre ++ its → deref (heap st) l = Some e →
    head (flat_map (λ kv, node_locs (ensure_list kv.2)) its) = Some c →
    rec c st = (Val r, st') →
    assign_parent r l st' = (Exn AttributeError, st') →
    transform_items rec l (dict_keys (args e)) (dict_keys its) st
      = (Exn AttributeError, st').
Proof.
  intros Hkeys.
  induction its as [|[k s] its IH]; intros pre st st' Hargs He Hc Hrec Hassign;
    [done|].
  change (dict_keys ((k, s) :: its)) with (k :: dict_keys its).
  cbn [transform_items].
  rewrite (bind_Val _ _ _ e st) by (by apply get_node_Some).
  rewrite decide_True by done.
  assert (Hget : dict_get k (args e) = Some s).
  { rewrite Hargs. apply dict_get_middle. by rewrite <- Hargs. }
  rewrite Hget.
  change (match s with Many vs => vs | Single x => [x] end)
    with (ensure_list s).
  destruct (node_locs (ensure_list s)) as [|c0 cs] eqn:Hs.
  - rewrite (bind_Val _ _ _ _ _ (transform_children_leaves rec l _ st Hs)).
    rewrite (bind_Val _ _ _ e st) by (by apply get_node_Some).
    rewrite (bind_Val _ _ _ tt st).
    + apply (IH (pre ++ [(k, s)])); try done.
      * by rewrite <- app_assoc.
      * simpl in Hc. by rewrite Hs in Hc.
    + destruct st as [h tr]. simpl in He.
      destruct s as [x|vs]; simpl; rewrite (dict_set_get_id _ _ _ Hget),
        Expression_eta; by apply put_node_same.
  - assert (c0 = c) as ->.
    { simpl in Hc. rewrite Hs in Hc. by injection Hc. }
    unfold bind at 1.
    rewrite (transform_children_fails rec l c r st st'); try done.
    by rewrite Hs.
Qed.

(** X13.  When the rewrite function returns the receiver, and returns a
    string, a number or a truth value for the first node among the
    arguments of the receiver, the pass ends with the [AttributeError] of
    the assignment of a parent to that value, after these two calls to the
    rewrite function. *)
Theorem transform_child_replacement_fails (fuel : nat) (fun_ : callback)
    (self c : loc) (st : state) (h1 h2 : store) (e : Expression) (r : value) :
  fun_ self (heap st) = (h1, VNode self) →
  deref h1 self = Some e →
  NoDup (dict_keys (args e)) →
  head (child_locs e) = Some c →
  fun_ c h1 = (h2, r) →
  (∃ s, r = VStr s) ∨ (∃ b, r = VBool b) ∨ (∃ z, r = VInt z) →
  transform (S (S fuel)) fun_ self false st =
    (Exn AttributeError,
     mkState h2 (calls st ++ [(self, VNode self); (c, r)])).
Proof.
  intros Hself He Hkeys Hc Hcall Hr.
  set (st1 := mkState h1 (calls st ++ [(self, VNode self)])).
  set (st2 := mkState h2 (calls st ++ [(self, VNode self); (c, r)])).
  assert (Hrec : transform (S fuel) fun_ c false st1 = (Val r, st2)).
  { cbn [transform]. unfold bind at 1. cbn [ret]. unfold bind, call.
    cbn [heap calls st1]. rewrite Hcall. unfold st2.
    rewrite <- app_assoc. cbn [app].
    by destruct Hr as [[s ->]|[[b ->]|[z ->]]]. }
  assert (Hassign : assign_parent r self st2 = (Exn AttributeError, st2))
    by (by destruct Hr as [[s ->]|[[b ->]|[z ->]]]).
  cbn [transform]. unfold bind at 1. cbn [ret].
  unfold bind at 1. unfold call at 1. rewrite Hself. fold st1.
  cbn [is_None isinstance_Expression negb orb].
  rewrite bool_decide_eq_true_2 by done. cbn [negb].
  rewrite (bind_Val _ _ _ e st1) by (by apply get_node_Some).
  unfold bind at 1.
  by rewrite (transform_items_fails _ self c r e Hkeys (args e) [] st1 st2).
Qed.

Lemma transform_child_replacement_fails_witness :
  transform 2 star_callback 0 false (mkState alias_example []) =
    (Exn AttributeError,
     mkState alias_example [(0, VNode 0); (1, VStr "*")]).
Proof.
  apply (transform_child_replacement_fails 0 star_callback 0 1
           (mkState alias_example []) alias_example alias_example
           (mkExpression "EQ"
              [("this", Single (VNode 1)); ("expression", Single (VNode 2))]
              None None)
           (VStr "*") eq_refl eq_refl).
  - apply (bool_decide_unpack _). vm_compute. reflexivity.
  - reflexivity.
  - reflexivity.
  - left. by exists "*".
Defined.

(** * The identity pass in place *)

Lemma identity_calls_app fp1 fp2 :
  identity_calls (fp1 ++ fp2) = identity_calls fp1 ++ identity_calls fp2.
Proof. apply map_app. Qed.

(** Whether the nodes below [l] refer to their holders only depends on the
    nodes of the tree other than [l], and on the arguments of [l]. *)
Lemma parented_frame n : ∀ h h2 l fp,
  tree_at n h l fp → parented n h l →
  agree_at h h2 l → (∀ x, x ∈ fp → x ≠ l → h2 !! x = h !! x) →
  parented n h2 l.
Proof.
  induction n as [|n IH]; intros h h2 l fp; [done|].
  intros (e & fps & He & _ & Hch & -> & Hnd) (e' & He' & Hall) Hag Hsame.
  assert (e' = e) as -> by congruence.
  destruct (agree_at_Some h h2 l e Hag He) as (e2 & He2 & _ & Hargs & _).
  exists e2. split; [done|]. unfold child_locs in *. rewrite Hargs.
  apply NoDup_cons in Hnd as [Hl Hnd].
  rewrite Forall_forall in Hall. apply Forall_forall. intros c Hc.
  destruct (Hall c Hc) as [(ec & Hec & Hpar) Hsub].
  destruct (Forall2_elem_l _ _ _ _ Hch Hc) as (fc & Hfc & Htree).
  assert (Hin : ∀ x, x ∈ fc → x ∈ concat fps)
    by (intros x Hx; by apply (elem_of_concat_2 _ fc)).
  assert (Hne : ∀ x, x ∈ fc → x ≠ l) by (intros x Hx%Hin ->; done).
  pose proof (tree_at_root _ _ _ _ Htree) as [Hcfc _].
  split.
  - exists ec. split; [|done]. rewrite <- Hec. apply deref_ext.
    apply Hsame; [right; by apply Hin|by apply Hne].
  - apply (IH h h2 c fc); [done..| |].
    + apply agree_at_ext. apply Hsame; [right; by apply Hin|by apply Hne].
    + intros x Hx _. apply Hsame; [right; by apply Hin|by apply Hne].
Qed.

Lemma attached_frame n h h2 l c fc :
  tree_at n h c fc → attached n h l c →
  (∀ x, x ∈ fc → h2 !! x = h !! x) → attached n h2 l c.
Proof.
  intros Htree [(ec & Hec & Hpar) Hsub] Hsame.
  pose proof (tree_at_root _ _ _ _ Htree) as [Hcfc _].
  split.
  - exists ec. split; [|done]. rewrite <- Hec. by apply deref_ext, Hsame.
  - apply (parented_frame n h h2 c fc); [done..| |].
    + by apply agree_at_ext, Hsame.
    + intros x Hx _. by apply Hsame.
Qed.

(** The loop over the values of one argument. *)
Lemma transform_children_in_order rec n l :
  visits_in_order rec n → ∀ vs h tr fps,
  Forall2 (tree_at n h) (node_locs vs) fps →
  NoDup (l :: concat fps) →
  ∃ h',
    transform_children rec l vs (mkState h tr)
      = (Val vs, mkState h' (tr ++ identity_calls (concat fps)))
    ∧ children_reattached h h' l (concat fps)
    ∧ Forall (attached n h' l) (node_locs vs).
Proof.
  intros Hrec. induction vs as [|v vs IH]; intros h tr fps Hch Hnd.
  - apply Forall2_nil_inv_l in Hch as ->. exists h.
    split; [by rewrite app_nil_r|]. split; [apply children_reattached_nil|done].
  - assert (Hskip : (∀ c, v ≠ VNode c) →
      ∃ h',
        transform_children rec l (v :: vs) (mkState h tr)
          = (Val (v :: vs), mkState h' (tr ++ identity_calls (concat fps)))
        ∧ children_reattached h h' l (concat fps)
        ∧ Forall (attached n h' l) (node_locs (v :: vs))).
    { intros Hv.
      assert (Hlocs : node_locs (v :: vs) = node_locs vs)
        by (destruct v; try done; by destruct (Hv l0)).
      rewrite Hlocs in Hch |- *.
      destruct (IH h tr fps Hch Hnd) as (h' & Hrun & Hpost).
      exists h'. split; [|done]. cbn [transform_children].
      rewrite (bind_Val _ _ _ v (mkState h tr))
        by (by destruct v; try done; destruct (Hv l0)).
      by rewrite (bind_Val _ _ _ _ _ Hrun). }
    destruct v as [| | | | |c]; try (by apply Hskip).
    clear Hskip. change (node_locs (VNode c :: vs)) with (c :: node_locs vs) in *.
    apply Forall2_cons_inv_l in Hch as (fc & fps' & Htree & Hch & ->).
    simpl in Hnd. apply NoDup_cons in Hnd as [Hl Hnd].
    apply not_elem_of_app in Hl as [Hlc Hlfps].
    apply NoDup_app in Hnd as (Hndc & Hdisj & Hndfps).
    destruct (Hrec h tr c fc Htree) as (h1 & Hrun1 & Hre1 & Hpar1).
    pose proof (tree_at_root _ _ _ _ Htree) as [Hcin [e He]].
    destruct (agree_at_Some h h1 c e) as (e1 & He1 & _);
      [by apply Hre1|done|].
    pose proof (children_reattached_child h h1 l c fc e1 Hre1 Hcin He1) as Hre2.
    set (h2 := <[c := Some (set_parent e1 l)]> h1) in *.
    assert (Htree1 : tree_at n h1 c fc).
    { apply (tree_at_frame n h); [done|]. by apply Hre1. }
    assert (Hatt2 : attached n h2 l c).
    { split.
      - exists (set_parent e1 l). split; [|done].
        apply deref_insert_eq. by apply deref_Some_lt in He1.
      - apply (parented_frame n h1 h2 c fc); [done..| |].
        + unfold agree_at, h2.
          rewrite deref_insert_eq by (by apply deref_Some_lt in He1).
          by rewrite He1.
        + intros x _ Hne. unfold h2. by rewrite list_lookup_insert_ne. }
    assert (Htree2 : tree_at n h2 c fc).
    { apply (tree_at_frame n h); [done|]. by apply Hre2. }
    destruct (IH h2 (tr ++ identity_calls fc) fps') as (h' & Hrun2 & Hre3 & Hatt3).
    { apply (children_reattached_frame n h h2 l fc); [done..|].
      intros x Hx Hxc. by apply (Hdisj x). }
    { by apply NoDup_cons. }
    exists h'. split; [|split].
    + cbn [transform_children].
      rewrite (bind_Val _ _ _ (VNode c) (mkState h2 (tr ++ identity_calls fc))).
      * rewrite (bind_Val _ _ _ _ _ Hrun2). cbn [concat].
        by rewrite identity_calls_app, app_assoc.
      * rewrite (bind_Val _ _ _ _ _ Hrun1).
        cbn [assign_parent].
        rewrite (bind_Val _ _ _ tt (mkState h2 (tr ++ identity_calls fc)));
          [done|].
        by rewrite (bind_Val _ _ _ e1 (mkState h1 (tr ++ identity_calls fc)))
          by (by apply get_node_Some).
    + simpl. by apply (children_reattached_app h h2 h').
    + constructor; [|done].
      apply (attached_frame n h2 h' l c fc); [done..|].
      intros x Hx. apply Hre3. intros Hx'. by apply (Hdisj x).
Qed.

(** The loop over the arguments. *)
Lemma transform_items_in_order rec n l e :
  visits_in_order rec n → NoDup (dict_keys (args e)) →
  ∀ its pre h tr fps,
    args e = pre ++ its → deref h l = Some e →
    Forall2 (tree_at n h) (flat_map (λ kv, node_locs (ensure_list kv.2)) its) fps →
    NoDup (l :: concat fps) →
    ∃ h',
      transform_items rec l (dict_keys (args e)) (dict_keys its) (mkState h tr)
        = (Val tt, mkState h' (tr ++ identity_calls (concat fps)))
      ∧ children_reattached h h' l (concat fps)
      ∧ Forall (attached n h' l)
               (flat_map (λ kv, node_locs (ensure_list kv.2)) its).
Proof.
  intros Hrec Hkeys.
  induction its as [|[k s] its IH]; intros pre h tr fps Hargs He Hch Hnd.
  - apply Forall2_nil_inv_l in Hch as ->. exists h.
    split; [|split; [apply children_reattached_nil|done]].
    cbn [transform_items dict_keys fmap list_fmap].
    rewrite (bind_Val _ _ _ e (mkState h tr)) by (by apply get_node_Some).
    rewrite decide_True by done. by rewrite app_nil_r.
  - change (flat_map _ ((k, s) :: its))
      with (node_locs (ensure_list s)
            ++ flat_map (λ kv : string * slot, node_locs (ensure_list kv.2)) its)
      in *.
    apply Forall2_app_inv_l in Hch as (fps1 & fps2 & Hch1 & Hch2 & ->).
    rewrite concat_app in Hnd |- *.
    apply NoDup_cons in Hnd as [Hl Hnd].
    apply not_elem_of_app in Hl as [Hl1 Hl2].
    apply NoDup_app in Hnd as (Hnd1 & Hdisj & Hnd2).
    destruct (transform_children_in_order rec n l Hrec (ensure_list s) h tr fps1)
      as (h1 & Hrun1 & Hre1 & Hatt1); [done|by apply NoDup_cons|].
    assert (He1 : deref h1 l = Some e).
    { rewrite (deref_ext h h1 l); [done|]. by apply Hre1. }
    assert (Hch1' : Forall2 (tree_at n h1) (node_locs (ensure_list s)) fps1).
    { apply (Forall2_impl_elem _ _ _ _ Hch1). intros c fc _ Hfc Htree.
      apply (tree_at_frame n h); [done|]. intros x Hx.
      apply Hre1. by apply (elem_of_concat_2 _ fc). }
    destruct (IH (pre ++ [(k, s)]) h1 (tr ++ identity_calls (concat fps1)) fps2)
      as (h' & Hrun2 & Hre2 & Hatt2).
    { by rewrite <- app_assoc. }
    { done. }
    { apply (children_reattached_frame n h h1 l (concat fps1)); [done..|].
      intros x Hx2 Hx1. by apply (Hdisj x). }
    { by apply NoDup_cons. }
    exists h'.
    split; [|split; [by apply (children_reattached_app h h1 h')|]].
    + change (dict_keys ((k, s) :: its)) with (k :: dict_keys its).
      cbn [transform_items].
      rewrite (bind_Val _ _ _ e (mkState h tr)) by (by apply get_node_Some).
      rewrite decide_True by done.
      assert (Hget : dict_get k (args e) = Some s).
      { rewrite Hargs. apply dict_get_middle. by rewrite <- Hargs. }
      rewrite Hget.
      erewrite bind_Val; [|exact Hrun1].
      rewrite (bind_Val _ _ _ e (mkState h1 (tr ++ identity_calls (concat fps1))))
        by (by apply get_node_Some).
      rewrite (bind_Val _ _ _ tt (mkState h1 (tr ++ identity_calls (concat fps1)))).
      * rewrite Hrun2. by rewrite identity_calls_app, app_assoc.
      * destruct s as [x|vs]; simpl; rewrite (dict_set_get_id _ _ _ Hget),
          Expression_eta; by apply put_node_same.
    + apply Forall_app. split; [|done].
      rewrite Forall_forall in Hatt1. apply Forall_forall. intros c Hc.
      destruct (Forall2_elem_l _ _ _ _ Hch1' Hc) as (fc & Hfc & Htree).
      apply (attached_frame n h1 h' l c fc); [done|by apply Hatt1|].
      intros x Hx. apply Hre2. intros Hx2.
      apply (Hdisj x); [by apply (elem_of_concat_2 _ fc)|done].
Qed.

(** The pass with the identity visits a tree in the order of its
    footprint and leaves every node below the root referring to its
    holder. *)
Lemma transform_identity_in_order n : ∀ fuel,
  n ≤ fuel → visits_in_order (λ c, transform fuel identity c false) n.
Proof.
  induction n as [|n IH]; intros fuel Hle h tr c fc; [done|].
  destruct fuel as [|fuel]; [lia|].
  intros (e & fps & He & Hkeys & Hch & -> & Hnd).
  destruct (transform_items_in_order (λ c, transform fuel identity c false) n c e
              (IH fuel ltac:(lia)) Hkeys (args e) [] h
              (tr ++ [(c, VNode c)]) fps)
    as (h' & Hrun & (Hlen & Hout & Hin & Hpar) & Hatt); [done..|].
  assert (Hc : c ∉ concat fps) by (by apply NoDup_cons in Hnd as [? _]).
  exists h'. split; [|split].
  - cbn [transform]. unfold bind at 1. cbn [ret].
    unfold bind at 1. unfold call at 1. cbn [identity heap calls is_None].
    cbn [isinstance_Expression negb orb].
    rewrite bool_decide_eq_true_2 by done. cbn [negb].
    rewrite (bind_Val _ _ _ e (mkState h (tr ++ [(c, VNode c)])))
      by (by apply get_node_Some).
    rewrite (bind_Val _ _ _ _ _ Hrun). unfold ret.
    by rewrite <- app_assoc.
  - split; [done|]. split; [|split; [|split]].
    + intros x Hx. apply Hout. intros ?. apply Hx. by right.
    + intros x [->|Hx]%elem_of_cons; [|by apply Hin].
      apply agree_at_ext. by apply Hout.
    + by rewrite (deref_ext h h' c) by (by apply Hout).
    + intros x [->|Hx]%elem_of_cons Hne; [done|]. by apply Hpar.
  - exists e. split; [|done].
    rewrite (deref_ext h h' c); [done|]. by apply Hout.
Qed.

(** X14.  On a tree, [transform] with the identity and [copy=False]
    applies the rewrite function once to every node, a node before the
    nodes below it and the arguments in their order, and returns the
    receiver.  The nodes keep their class, arguments and [arg_key], the
    receiver keeps its parent reference, nothing else in the store changes,
    and every node held as an argument in the tree now refers to the node
    that holds it as its parent. *)
Theorem transform_identity_in_place (n : nat) (h : store) (self : loc)
    (fp : list loc) (tr : list (loc * value)) (fuel : nat) :
  tree_at n h self fp → n ≤ fuel →
  ∃ h',
    transform fuel identity self false (mkState h tr)
      = (Val (VNode self), mkState h' (tr ++ map (λ x, (x, VNode x)) fp))
    ∧ length h' = length h
    ∧ (∀ x, x ∉ fp → h' !! x = h !! x)
    ∧ (∀ x, x ∈ fp → agree_at h h' x)
    ∧ _parent <$> deref h' self = _parent <$> deref h self
    ∧ parented n h' self.
Proof.
  intros Htree Hle.
  destruct (transform_identity_in_order n fuel Hle h tr self fp Htree)
    as (h' & Hrun & (Hlen & Hout & Hin & Hroot & _) & Hpar).
  exists h'. done.
Qed.

Lemma transform_identity_in_place_witness :
  ∃ h',
    transform 2 identity 0 false (mkState alias_example [])
      = (Val (VNode 0), mkState h' ([] ++ [(0, VNode 0); (1, VNode 1); (2, VNode 2)]))
    ∧ parented 2 h' 0.
Proof.
  assert (Htree : tree_at 2 alias_example 0 [0; 1; 2]).
  { exists (mkExpression "EQ"
              [("this", Single (VNode 1)); ("expression", Single (VNode 2))]
              None None), [[1]; [2]].
    split; [reflexivity|].
    split; [apply (bool_decide_unpack _); vm_compute; reflexivity|].
    split; [|split; [reflexivity|apply (bool_decide_unpack _); vm_compute; reflexivity]].
    constructor; [|constructor; [|constructor]].
    - exists (mkExpression "Star" [] (Some 0) None), [].
      split; [reflexivity|]. split; [constructor|].
      split; [constructor|].
      split; [reflexivity|apply (bool_decide_unpack _); vm_compute; reflexivity].
    - exists (mkExpression "Null" [] (Some 0) None), [].
      split; [reflexivity|]. split; [constructor|].
      split; [constructor|].
      split; [reflexivity|apply (bool_decide_unpack _); vm_compute; reflexivity]. }
  destruct (transform_identity_in_place 2 alias_example 0 [0; 1; 2] [] 2 Htree
              ltac:(lia))
    as (h' & Hrun & _ & _ & _ & _ & Hpar).
  exists h'. split; [exact Hrun|exact Hpar].
Defined.

(** In a tree whose nodes refer to their holders, so does every node. *)
Lemma parented_elem n : ∀ h l fp x,
  tree_at n h l fp → parented n h l → x ∈ fp →
  ∃ ex, deref h x = Some ex
        ∧ Forall (λ c, ∃ ec, deref h c = Some ec ∧ _parent ec = Some x)
                 (child_locs ex).
Proof.
  induction n as [|n IH]; intros h l fp x; [done|].
  intros (e & fps & He & _ & Hch & -> & _) (e' & He' & Hall).
  assert (e' = e) as -> by congruence.
  intros [->|Hx]%elem_of_cons.
  - exists e. split; [done|]. apply (Forall_impl _ _ _ Hall). by intros c [? _].
  - clear He He'. rewrite Forall_forall in Hall.
    induction Hch as [|c fc cs fps' Hc _ IHch]; simpl in Hx;
      [by apply elem_of_nil in Hx|].
    apply elem_of_app in Hx as [Hx|Hx].
    + apply (IH h c fc x); [done| |done]. apply Hall. by left.
    + apply IHch; [|done]. intros c' Hc'. apply Hall. by right.
Qed.

(** X15.  After [transform] with the identity and [copy=False] on a
    tree, the depths are those of the tree: the receiver keeps its parent
    reference, and every node held as an argument by a node of the tree has
    the depth of that node plus one, whatever its parent reference was
    before. *)
Theorem depth_after_identity_pass (n : nat) (h : store) (self : loc)
    (fp : list loc) (tr : list (loc * value)) (fuel : nat) :
  tree_at n h self fp → n ≤ fuel →
  ∃ h' tr',
    transform fuel identity self false (mkState h tr)
      = (Val (VNode self), mkState h' tr')
    ∧ _parent <$> deref h' self = _parent <$> deref h self
    ∧ ∀ x e c f d,
        x ∈ fp → deref h x = Some e → c ∈ child_locs e →
        depth f h' x = Val d → depth (S f) h' c = Val (d + 1).
Proof.
  intros Htree Hle.
  destruct (transform_identity_in_order n fuel Hle h tr self fp Htree)
    as (h' & Hrun & (_ & _ & Hin & Hroot & _) & Hpar).
  exists h', (tr ++ identity_calls fp). split; [done|]. split; [done|].
  intros x e c f d Hx He Hc Hd.
  assert (Htree' : tree_at n h' self fp) by (by apply (tree_at_frame n h)).
  destruct (parented_elem n h' self fp x Htree' Hpar Hx) as (ex & Hex & Hall).
  destruct (agree_at_Some h h' x e (Hin x Hx) He) as (ex' & Hex' & _ & Hargs & _).
  assert (ex' = ex) as -> by congruence.
  unfold child_locs in Hall, Hc. rewrite Hargs in Hall.
  rewrite Forall_forall in Hall. destruct (Hall c Hc) as (ec & Hec & Hp).
  apply (depth_step f h' c ec x d); [done| |done].
  unfold parent. by rewrite Hp, Hex.
Qed.

Lemma depth_after_identity_pass_witness :
  depth 2 keyword_order_example 0 = Val 0
  ∧ ∃ h' tr',
      transform 2 identity 2 false (mkState keyword_order_example [])
        = (Val (VNode 2), mkState h' tr')
      ∧ depth 2 h' 0 = Val 1
      ∧ depth 2 h' 1 = Val 1.
Proof.
  split; [reflexivity|].
  assert (Htree : tree_at 2 keyword_order_example 2 [2; 0; 1]).
  { exists (mkExpression "EQ"
              [("this", Single (VNode 0)); ("expression", Single (VNode 1))]
              None None), [[0]; [1]].
    split; [reflexivity|].
    split; [apply (bool_decide_unpack _); vm_compute; reflexivity|].
    split; [|split; [reflexivity|apply (bool_decide_unpack _); vm_compute; reflexivity]].
    constructor; [|constructor; [|constructor]].
    - exists (mkExpression "Star" [] None None), [].
      split; [reflexivity|]. split; [constructor|].
      split; [constructor|].
      split; [reflexivity|apply (bool_decide_unpack _); vm_compute; reflexivity].
    - exists (mkExpression "Null" [] None None), [].
      split; [reflexivity|]. split; [constructor|].
      split; [constructor|].
      split; [reflexivity|apply (bool_decide_unpack _); vm_compute; reflexivity]. }
  destruct (depth_after_identity_pass 2 keyword_order_example 2 [2; 0; 1] [] 2
              Htree ltac:(lia))
    as (h' & tr' & Hrun & Hroot & Hdepth).
  exists h', tr'. split; [exact Hrun|].
  assert (Hd : depth 1 h' 2 = Val 0).
  { simpl in Hroot. destruct (deref h' 2) as [e2|] eqn:He2; [|done].
    injection Hroot as Hp. apply (depth_no_parent 0 h' 2 e2 He2).
    unfold parent. by rewrite Hp. }
  assert (H2 : 2 ∈ [2; 0; 1]) by (by left).
  split.
  - refine (Hdepth 2 _ 0 1 0 H2 eq_refl _ Hd). by left.
  - refine (Hdepth 2 _ 1 1 0 H2 eq_refl _ Hd). right. by left.
Defined.

(** * The names of the function classes and the registry *)

Lemma mro_head c : ∃ rest, mro c = c :: rest.
Proof. unfold mro. destruct (length class_bases); simpl; eauto. Qed.

Lemma lookup_sql_names_None attrs cs :
  lookup_sql_names attrs cs = None ↔ Forall (λ c, attrs !! c = None) cs.
Proof.
  induction cs as [|c cs IH]; simpl; [by split|].
  destruct (attrs !! c) as [v|] eqn:Hc.
  - split; [done|]. intros [? _]%Forall_cons. congruence.
  - rewrite IH. split; [by constructor|by intros [_ ?]%Forall_cons].
Qed.

(** X16.  [sql_names] keeps the default name on the class it is called
    on, and a class inherits what its base keeps: for a class [c] with base
    [b], none of which has names yet, [c.sql_names()] is the name made of
    [c], also on the later calls; but once [b.sql_names()] has been called,
    [c.sql_names()] is the name made of [b]. *)
Theorem sql_names_inherited (camel_to_snake_case : string → string)
    (c b : string) (attrs : gmap string (list string)) :
  c ≠ "Func" → b ≠ "Func" → c ≠ b →
  mro c = c :: mro b →
  lookup_sql_names attrs (mro c) = None →
  sql_names camel_to_snake_case c attrs =
    (Names [camel_to_snake_case c], <[c := [camel_to_snake_case c]]> attrs)
  ∧ sql_names camel_to_snake_case c
      (sql_names camel_to_snake_case c attrs).2 =
    (Names [camel_to_snake_case c], (sql_names camel_to_snake_case c attrs).2)
  ∧ sql_names camel_to_snake_case c
      (sql_names camel_to_snake_case b attrs).2 =
    (Names [camel_to_snake_case b], (sql_names camel_to_snake_case b attrs).2).
Proof.
  intros Hc Hb Hcb Hmro Hnone.
  destruct (mro_head b) as [rest Hrest].
  pose proof Hnone as Hall. rewrite Hmro in Hall.
  apply lookup_sql_names_None in Hall. apply Forall_cons in Hall as [Hac Hall].
  assert (Hnb : lookup_sql_names attrs (mro b) = None)
    by (by apply lookup_sql_names_None).
  assert (Hfirst : sql_names camel_to_snake_case c attrs =
            (Names [camel_to_snake_case c],
             <[c := [camel_to_snake_case c]]> attrs)).
  { unfold sql_names. rewrite decide_False by done. by rewrite Hnone. }
  split; [done|]. split.
  - rewrite Hfirst. cbn [snd]. unfold sql_names.
    rewrite decide_False by done. rewrite Hmro. cbn [lookup_sql_names].
    by rewrite lookup_insert_eq.
  - unfold sql_names at 2 3. rewrite decide_False by done. rewrite Hnb.
    cbn [snd]. unfold sql_names. rewrite decide_False by done.
    rewrite Hmro, Hrest. cbn [lookup_sql_names].
    rewrite lookup_insert_ne by done. rewrite Hac.
    by rewrite lookup_insert_eq.
Qed.

Lemma sql_names_inherited_witness :
  sql_names upper "Avg" declared_sql_names =
    (Names [upper "Avg"], <["Avg" := [upper "Avg"]]> declared_sql_names)
  ∧ sql_names upper "Avg" (sql_names upper "AggFunc" declared_sql_names).2 =
    (Names [upper "AggFunc"], (sql_names upper "AggFunc" declared_sql_names).2).
Proof.
  assert (Hmro : mro "Avg" = "Avg" :: mro "AggFunc")
    by (vm_compute; reflexivity).
  assert (Hnone : lookup_sql_names declared_sql_names (mro "Avg") = None)
    by (vm_compute; reflexivity).
  pose proof (sql_names_inherited upper "Avg" "AggFunc" declared_sql_names
                ltac:(discriminate) ltac:(discriminate) ltac:(discriminate)
                Hmro Hnone) as (H1 & _ & H3).
  split; [exact H1|exact H3].
Defined.

(** The classes of the registry: none is [Func], and none has another
    class of the registry above it. *)
Lemma ALL_FUNCTIONS_mro :
  Forall (λ c, c ≠ "Func"
               ∧ head (mro c) = Some c
               ∧ Forall (λ b, b ∉ ALL_FUNCTIONS) (tail (mro c)))
         ALL_FUNCTIONS.
Proof. apply (bool_decide_unpack _). vm_compute. reflexivity. Qed.

Lemma declared_sql_names_Some x v :
  declared_sql_names !! x = Some v → x ∈ ALL_FUNCTIONS ∧ v ≠ [].
Proof.
  unfold declared_sql_names. intros Hx%elem_of_list_to_map_2.
  repeat (apply elem_of_cons in Hx as [[= -> ->]|Hx];
          [split; [apply (bool_decide_unpack _); vm_compute; reflexivity
                  |discriminate]|]).
  by apply elem_of_nil in Hx.
Qed.

Lemma names_kept_declared camel_to_snake_case :
  names_kept camel_to_snake_case declared_sql_names.
Proof.
  split; [|done]. intros x v Hx.
  split; [by apply declared_sql_names_Some in Hx as [? _]|by rewrite Hx].
Qed.

Lemma names_kept_step camel_to_snake_case c attrs :
  names_kept camel_to_snake_case attrs → c ∈ ALL_FUNCTIONS →
  (sql_names camel_to_snake_case c attrs).1 =
    Names (default [camel_to_snake_case c] (declared_sql_names !! c))
  ∧ names_kept camel_to_snake_case (sql_names camel_to_snake_case c attrs).2.
Proof.
  intros [H1 H2] Hc.
  pose proof ALL_FUNCTIONS_mro as Hall. rewrite Forall_forall in Hall.
  destruct (Hall c Hc) as (Hne & Hhead & Htail).
  destruct (mro c) as [|c' rest] eqn:Hmro; [done|].
  injection Hhead as ->. simpl in Htail.
  assert (Hrest : lookup_sql_names attrs rest = None).
  { apply lookup_sql_names_None. apply (Forall_impl _ _ _ Htail).
    intros b Hb. destruct (attrs !! b) as [v|] eqn:Hv; [|done].
    by apply H1 in Hv as [? _]. }
  unfold sql_names. rewrite decide_False by done. rewrite Hmro.
  cbn [lookup_sql_names]. rewrite Hrest.
  destruct (attrs !! c) as [v|] eqn:Hv; cbn [fst snd].
  - split; [|done]. by apply H1 in Hv as [_ ->].
  - assert (Hd : declared_sql_names !! c = None).
    { destruct (declared_sql_names !! c) as [v|] eqn:Hd; [|done].
      apply H2 in Hd. congruence. }
    rewrite Hd. split; [done|]. split.
    + intros x v. destruct (decide (c = x)) as [<-|Hx].
      * rewrite lookup_insert_eq. intros [= <-]. by rewrite Hd.
      * rewrite lookup_insert_ne by done. apply H1.
    + intros x v Hx. rewrite lookup_insert_ne; [by apply H2|].
      intros <-. congruence.
Qed.

Lemma names_kept_calls camel_to_snake_case order : ∀ attrs,
  names_kept camel_to_snake_case attrs →
  Forall (λ x, x ∈ ALL_FUNCTIONS) order →
  names_kept camel_to_snake_case
    (sql_names_calls camel_to_snake_case order attrs).
Proof.
  induction order as [|c order IH]; intros attrs Hk Hall; [done|].
  apply Forall_cons in Hall as [Hc Hall]. simpl.
  apply IH; [|done]. by apply names_kept_step.
Qed.

Lemma foldl_dict_set names : ∀ (c : string) (d : list (string * string)) name,
  dict_get name (foldl (λ d name, dict_set name c d) d names) =
    if decide (name ∈ names) then Some c else dict_get name d.
Proof.
  induction names as [|n names IH]; intros c d name; cbn [foldl].
  - by rewrite decide_False by (by intros ?%elem_of_nil).
  - rewrite IH. destruct (decide (name ∈ names)) as [Hin|Hin].
    + rewrite decide_True; [done|by right].
    + destruct (decide (n = name)) as [->|Hne].
      * rewrite decide_True by (by left). apply dict_get_set_eq.
      * rewrite decide_False by (by intros [?|?]%elem_of_cons).
        by apply dict_get_set_ne.
Qed.

(** X17.  Whatever calls of [sql_names] on classes of the registry came
    before, and in whatever order, a class of the registry answers with its
    own names: those its statement declares or, when it declares none, the
    one made of its own name.  It has a first name, and
    [default_parser_mappings] maps exactly these names, each of them to the
    binder of the class. *)
Theorem ALL_FUNCTIONS_names (camel_to_snake_case : string → string)
    (order : list string) (c : string) :
  Forall (λ x, x ∈ ALL_FUNCTIONS) order → c ∈ ALL_FUNCTIONS →
  ∃ names attrs',
    names = default [camel_to_snake_case c] (declared_sql_names !! c)
    ∧ sql_names camel_to_snake_case c
        (sql_names_calls camel_to_snake_case order declared_sql_names)
      = (Names names, attrs')
    ∧ (∃ n, sql_name camel_to_snake_case c
              (sql_names_calls camel_to_snake_case order declared_sql_names)
            = (Names n, attrs') ∧ head names = Some n)
    ∧ ∃ d, default_parser_mappings camel_to_snake_case c
             (sql_names_calls camel_to_snake_case order declared_sql_names)
           = (Names d, attrs')
           ∧ ∀ name, dict_get name d =
                     if decide (name ∈ names) then Some c else None.
Proof.
  intros Horder Hc.
  set (attrs := sql_names_calls camel_to_snake_case order declared_sql_names).
  assert (Hk : names_kept camel_to_snake_case attrs)
    by (apply names_kept_calls; [apply names_kept_declared|done]).
  destruct (names_kept_step camel_to_snake_case c attrs Hk Hc) as [Hres _].
  destruct (sql_names camel_to_snake_case c attrs) as [r attrs'] eqn:Hrun.
  simpl in Hres. subst r.
  exists (default [camel_to_snake_case c] (declared_sql_names !! c)), attrs'.
  split; [done|]. split; [done|].
  assert (Hne : default [camel_to_snake_case c] (declared_sql_names !! c) ≠ []).
  { destruct (declared_sql_names !! c) as [v|] eqn:Hd; [|done].
    by apply declared_sql_names_Some in Hd as [_ ?]. }
  split.
  - unfold sql_name. rewrite Hrun.
    destruct (default _ _) as [|n ns]; [done|]. by exists n.
  - unfold default_parser_mappings. rewrite Hrun. eexists. split; [done|].
    intros name. by rewrite foldl_dict_set.
Qed.

Lemma ALL_FUNCTIONS_names_witness :
  ∃ attrs',
    sql_names upper "Ceil"
      (sql_names_calls upper ["Avg"; "Ceil"; "Abs"] declared_sql_names)
    = (Names (default [upper "Ceil"] (declared_sql_names !! "Ceil")), attrs')
    ∧ ∃ d, default_parser_mappings upper "Ceil"
             (sql_names_calls upper ["Avg"; "Ceil"; "Abs"] declared_sql_names)
           = (Names d, attrs')
           ∧ dict_get "CEILING" d = Some "Ceil".
Proof.
  assert (Hin : ∀ c, bool_decide (c ∈ ALL_FUNCTIONS) = true → c ∈ ALL_FUNCTIONS)
    by (intros c; apply bool_decide_eq_true_1).
  assert (Horder : Forall (λ x, x ∈ ALL_FUNCTIONS) ["Avg"; "Ceil"; "Abs"])
    by (repeat constructor; apply Hin; vm_compute; reflexivity).
  assert (Hc : "Ceil" ∈ ALL_FUNCTIONS) by (apply Hin; vm_compute; reflexivity).
  assert (Hn : default [upper "Ceil"] (declared_sql_names !! "Ceil")
               = ["CEIL"; "CEILING"]) by (vm_compute; reflexivity).
  destruct (ALL_FUNCTIONS_names upper ["Avg"; "Ceil"; "Abs"] "Ceil" Horder Hc)
    as (names & attrs' & -> & Hrun & _ & d & Hd & Hget).
  exists attrs'. split; [exact Hrun|]. exists d. split; [exact Hd|].
  rewrite (Hget "CEILING"), Hn. apply decide_True. right. by left.
Defined.

Lemma name_le_total : Total name_le.
Proof. intros a b. apply String.leb_total. Qed.

(** X18.  The registry [ALL_FUNCTIONS] holds, sorted by name and each
    once, the classes of the module below [Func] other than [AggFunc],
    [Anonymous] and [Func]: the 54 classes for which the binder is
    declared. *)
Theorem ALL_FUNCTIONS_registry :
  (∀ c, c ∈ ALL_FUNCTIONS ↔
        c ∈ module_classes ∧ "Func" ∈ mro c
        ∧ c ∉ ["AggFunc"; "Anonymous"; "Func"])
  ∧ (∀ c, c ∈ ALL_FUNCTIONS ↔
          (∃ v, v ∈ Func_variants ∧ name v = c)
          ∧ c ∉ ["AggFunc"; "Anonymous"; "Func"])
  ∧ NoDup ALL_FUNCTIONS
  ∧ Sorted name_le ALL_FUNCTIONS
  ∧ length ALL_FUNCTIONS = 54.
Proof.
  assert (Hfilter : ∀ c, c ∈ ALL_FUNCTIONS ↔
            c ∈ module_classes ∧ "Func" ∈ mro c
            ∧ c ∉ ["AggFunc"; "Anonymous"; "Func"]).
  { intros c. unfold ALL_FUNCTIONS, _all_functions.
    rewrite list_elem_of_filter, merge_sort_Permutation. unfold issubclass.
    rewrite bool_decide_eq_true. tauto. }
  split; [done|]. split; [|split; [|split]].
  - intros c. rewrite Hfilter.
    assert (Hnames : ∀ x, x ∈ module_classes ∧ "Func" ∈ mro x
              ↔ x ∈ name <$> Func_variants).
    { assert (Hl : Forall (λ x, "Func" ∈ mro x ↔ x ∈ name <$> Func_variants)
                     module_classes)
        by (apply (bool_decide_unpack _); vm_compute; reflexivity).
      assert (Hr : Forall (λ x, x ∈ module_classes) (name <$> Func_variants))
        by (apply (bool_decide_unpack _); vm_compute; reflexivity).
      rewrite Forall_forall in Hl, Hr. intros x. split.
      - intros [Hx Hf]. by apply (Hl x Hx).
      - intros Hx. split; [by apply Hr|]. apply (Hl x); [by apply Hr|done]. }
    split.
    + intros (Hm & Hf & Hn). split; [|done].
      assert (Hin : c ∈ name <$> Func_variants) by (by apply Hnames).
      apply list_elem_of_fmap in Hin as (v & -> & Hv). eauto.
    + intros [(v & Hv & <-) Hn].
      assert (Hin : name v ∈ name <$> Func_variants)
        by (apply list_elem_of_fmap; eauto).
      apply Hnames in Hin as [? ?]. done.
  - apply (bool_decide_unpack _). vm_compute. reflexivity.
  - unfold ALL_FUNCTIONS, _all_functions.
    apply (bool_decide_unpack _). vm_compute. reflexivity.
  - vm_compute. reflexivity.
Qed.

(** * Equal nodes have the same hash when the arguments follow the schema *)

Lemma res_mapM_mono {A B} (f g : A → res B) l bs :
  (∀ a b, f a = Val b → g a = Val b) →
  res_mapM f l = Val bs → res_mapM g l = Val bs.
Proof.
  intros Hfg. rewrite !res_mapM_Val. intros Hl.
  apply (Forall2_impl _ _ _ _ Hl). intros a b. apply Hfg.
Qed.

Lemma _token_arg_text_mono f g e kind r :
  (∀ v r, f v = Val r → g v = Val r) →
  _token_arg_text f e kind = Val r → _token_arg_text g e kind = Val r.
Proof.
  intros Hfg. unfold _token_arg_text.
  destruct (dict_get kind (args e)) as [[v|[|]]|]; try done.
  destruct (truthy v); [apply Hfg|done].
Qed.

(** More fuel does not change a text that was read. *)
Lemma attr_text_mono fuel : ∀ fuel' h v r,
  attr_text fuel h v = Val r → fuel ≤ fuel' → attr_text fuel' h v = Val r.
Proof.
  induction fuel as [|fuel IH]; intros fuel' h v r.
  - destruct v; try done. rewrite !attr_text_token. by intros -> _.
  - destruct v as [| | | |t|l]; try done.
    + rewrite !attr_text_token. by intros -> _.
    + destruct fuel' as [|fuel']; [lia|]. cbn [attr_text].
      destruct (deref h l) as [e|]; [|done]. case_decide; [|done].
      intros Hr Hle. apply (_token_arg_text_mono (attr_text fuel h)); [|done].
      intros v' r' Hv'. apply (IH fuel'); [done|lia].
Qed.

Lemma Column_fields_mono fuel fuel' h e r :
  Column_fields fuel h e = Val r → fuel ≤ fuel' →
  Column_fields fuel' h e = Val r.
Proof.
  unfold Column_fields. intros Hr Hle.
  destruct (dict_get "fields" (args e)) as [[v|vs]|]; try done.
  apply (res_mapM_mono (attr_text fuel h)); [|done].
  intros a b Ha. by apply (attr_text_mono fuel).
Qed.

Lemma Column_hash_mono fuel fuel' h e k :
  Column_hash fuel h e = Val k → fuel ≤ fuel' → Column_hash fuel' h e = Val k.
Proof.
  unfold Column_hash, Column_name, Column_table, Column_db. intros Hk Hle.
  assert (Htext : ∀ kind r, _token_arg_text (attr_text fuel h) e kind = Val r →
            _token_arg_text (attr_text fuel' h) e kind = Val r).
  { intros kind r. apply _token_arg_text_mono. intros v r' Hv.
    by apply (attr_text_mono fuel). }
  apply res_bind_Val in Hk as (n & Hn & Hk). rewrite (Htext _ _ Hn). simpl.
  apply res_bind_Val in Hk as (t & Ht & Hk). rewrite (Htext _ _ Ht). simpl.
  apply res_bind_Val in Hk as (d & Hd & Hk). rewrite (Htext _ _ Hd). simpl.
  apply res_bind_Val in Hk as (fs & Hfs & Hk).
  by rewrite (Column_fields_mono fuel fuel' h e fs Hfs Hle).
Qed.

Lemma Literal_hash_mono fuel fuel' h e k :
  Literal_hash fuel h e = Val k → fuel ≤ fuel' → Literal_hash fuel' h e = Val k.
Proof.
  unfold Literal_hash, Literal_text. intros Hk Hle.
  apply res_bind_Val in Hk as (t & Ht & Hk).
  rewrite (_token_arg_text_mono (attr_text fuel h) (attr_text fuel' h) e _ t);
    [done| |done].
  intros v r Hv. by apply (attr_text_mono fuel).
Qed.

(** [__eq__] only finds a node equal to a node. *)
Lemma eq_true_node fuel h x v :
  __eq__ fuel h x v = Val true → ∃ y, v = VNode y.
Proof.
  destruct fuel as [|fuel]; [done|]. cbn [__eq__].
  destruct (deref h x) as [e|]; [|done].
  unfold Column_eq, Literal_eq. destruct v; try (by repeat case_decide). eauto.
Qed.

Lemma arg_types_of_NoDup c : NoDup (dict_keys (arg_types_of c)).
Proof.
  assert (Hall : Forall (λ ct, NoDup (dict_keys ct.2)) class_arg_types)
    by (apply (bool_decide_unpack _); vm_compute; reflexivity).
  unfold arg_types_of. destruct (dict_get c class_arg_types) as [ct|] eqn:Hc.
  - apply dict_get_elem in Hc. rewrite Forall_forall in Hall.
    exact (Hall _ Hc).
  - simpl. apply (bool_decide_unpack _). vm_compute. reflexivity.
Qed.

(** Two selections from a list without repetition that hold the same
    elements are the same list. *)
Lemma sublist_same_elements {A} (l : list A) : ∀ l1 l2,
  NoDup l → sublist l1 l → sublist l2 l → (∀ x, x ∈ l1 ↔ x ∈ l2) → l1 = l2.
Proof.
  induction l as [|a l IH]; intros l1 l2 Hnd H1 H2 Hsame.
  - apply sublist_nil_r in H1, H2. by subst.
  - apply NoDup_cons in Hnd as [Ha Hnd].
    apply sublist_cons_r in H1 as [H1|(l1' & -> & H1)];
      apply sublist_cons_r in H2 as [H2|(l2' & -> & H2)].
    + by apply IH.
    + destruct Ha. apply (elem_of_sublist l1); [|done]. apply Hsame. by left.
    + destruct Ha. apply (elem_of_sublist l2); [|done]. apply Hsame. by left.
    + f_equal. apply IH; try done. intros x. split; intros Hx.
      * assert (Hx' : x ∈ a :: l2') by (apply Hsame; by right).
        apply elem_of_cons in Hx' as [->|?]; [|done].
        destruct Ha. by apply (elem_of_sublist l1').
      * assert (Hx' : x ∈ a :: l1') by (apply Hsame; by right).
        apply elem_of_cons in Hx' as [->|?]; [|done].
        destruct Ha. by apply (elem_of_sublist l2').
Qed.

Lemma compare_entries_true node_eq (a b : list (string * slot)) :
  compare_entries node_eq a b = Val true →
  Forall (λ kv, ∃ vb, dict_get kv.1 b = Some vb
                      ∧ compare_slots node_eq kv.2 vb = Val true) a.
Proof.
  induction a as [|[k va] a IH]; simpl; [done|].
  destruct (dict_get k b) as [vb|] eqn:Hk; [|done].
  intros [Hs Hrest]%res_and_true. constructor; [eauto|by apply IH].
Qed.

(** Dictionaries found equal whose keys are in the same order hold equal
    values at the same positions. *)
Lemma compare_dicts_aligned node_eq (a b : list (string * slot)) :
  NoDup (dict_keys a) → dict_keys a = dict_keys b →
  compare_dicts node_eq a b = Val true →
  Forall2 (λ kv kv', kv.1 = kv'.1
                     ∧ compare_slots node_eq kv.2 kv'.2 = Val true) a b.
Proof.
  unfold compare_dicts. case_decide; [|done]. intros Hnd Hkeys Hcmp.
  apply compare_entries_true in Hcmp. clear H.
  revert b Hkeys Hcmp. induction a as [|[k va] a IH]; intros b Hkeys Hall.
  - destruct b; [constructor|done].
  - destruct b as [|[k' vb] b]; [done|]. injection Hkeys as <- Hkeys.
    apply NoDup_cons in Hnd as [Hk Hnd].
    apply Forall_cons in Hall as [(vb' & Hget & Hs) Hall].
    simpl in Hget. rewrite decide_True in Hget by done. injection Hget as <-.
    constructor; [done|]. apply IH; [done..|].
    rewrite Forall_forall in Hall. apply Forall_forall.
    intros [k1 v1] Hin. destruct (Hall _ Hin) as (vb1 & Hget1 & Hs1).
    simpl in Hget1. rewrite decide_False in Hget1; [eauto|].
    intros ->. apply Hk. apply list_elem_of_fmap. by exists (k, v1).
Qed.

(** The keys of dictionaries found equal are the same, up to their
    order. *)
Lemma compare_dicts_keys node_eq (a b : list (string * slot)) :
  NoDup (dict_keys a) → NoDup (dict_keys b) →
  compare_dicts node_eq a b = Val true →
  ∀ k, k ∈ dict_keys a ↔ k ∈ dict_keys b.
Proof.
  unfold compare_dicts. case_decide as Hlen; [|done]. intros Hna Hnb Hcmp.
  apply compare_entries_true in Hcmp.
  assert (Hsub : ∀ k, k ∈ dict_keys a → k ∈ dict_keys b).
  { intros k ([k' v] & -> & Hin)%list_elem_of_fmap.
    rewrite Forall_forall in Hcmp. destruct (Hcmp _ Hin) as (vb & Hget & _).
    apply dict_get_elem in Hget. apply list_elem_of_fmap. by exists (k', vb). }
  assert (Hperm : dict_keys a ≡ₚ dict_keys b).
  { apply submseteq_length_Permutation; [by apply NoDup_submseteq|].
    unfold dict_keys. rewrite !length_fmap. lia. }
  intros k. by rewrite Hperm.
Qed.

Section hashing.
Context (node_eq : loc → value → res bool) (node_hash : loc → res hkey).
Context (Hnode : ∀ c v, node_eq c v = Val true →
                   ∃ c', v = VNode c' ∧ node_hash c = node_hash c').

Lemma compare_values_hash x y :
  compare_values node_eq x y = Val true →
  hash_value node_hash x = hash_value node_hash y.
Proof using Hnode.
  destruct x as [| |b|z| |c], y as [| |b'|z'| |c']; simpl; try done;
    try (by intros [= ->%bool_decide_eq_true]);
    try (by intros (c0 & [=] & _)%Hnode).
  case_decide; [by subst|]. by intros (c0 & [= <-] & ?)%Hnode.
Qed.

Lemma compare_items_hash xs : ∀ ys,
  compare_items (compare_values node_eq) xs ys = Val true →
  Forall2 (λ x y, hash_value node_hash x = hash_value node_hash y) xs ys.
Proof using Hnode.
  induction xs as [|x xs IH]; intros [|y ys]; simpl; try done.
  intros [Hxy Hrest]%res_and_true.
  constructor; [by apply compare_values_hash|by apply IH].
Qed.

Lemma compare_slots_hash k va vb :
  compare_slots node_eq va vb = Val true →
  hash_item node_hash (k, va) = hash_item node_hash (k, vb).
Proof using Hnode.
  unfold hash_item. destruct va as [x|xs], vb as [y|ys]; simpl; try done.
  - intros Hxy. by rewrite (compare_values_hash x y).
  - case_decide; [|done]. intros Hxy%compare_items_hash.
    by rewrite (res_mapM_Forall2 _ _ _ _ Hxy).
Qed.

End hashing.

(** X19.  When the arguments of every node are in the order of the schema
    of its class, nodes that [__eq__] finds equal have the same hash,
    whatever their classes: with at least the fuel of the comparison,
    [__hash__] has the same outcome on both. *)
Theorem eq_hash_schema_ordered (h : store) (fuel : nat) (x y : loc) :
  schema_ordered h →
  __eq__ fuel h x (VNode y) = Val true →
  ∀ fuel', fuel ≤ fuel' → __hash__ fuel' h x = __hash__ fuel' h y.
Proof.
  intros Hord. revert x y.
  induction fuel as [|fuel IH]; intros x y; [done|].
  intros Heq fuel' Hle. destruct fuel' as [|fuel']; [lia|].
  cbn [__eq__] in Heq. cbn [__hash__].
  destruct (deref h x) as [e|] eqn:He; [|done].
  destruct (decide (cls e = "Column")) as [Hcol|Hcol].
  { assert (Hy : ∃ ey, deref h y = Some ey ∧ cls ey = "Column").
    { unfold Column_eq in Heq. destruct (deref h y) as [ey|]; [|done].
      destruct (decide (cls ey = "Column")); [eauto|done]. }
    destruct Hy as (ey & Hy & Hcy). rewrite Hy, decide_True by done.
    destruct (Column_eq_hash fuel h e y ey Hy Hcol Heq) as (k & Hk1 & Hk2).
    rewrite (Column_hash_mono fuel fuel' h e k) by (done || lia).
    by rewrite (Column_hash_mono fuel fuel' h ey k) by (done || lia). }
  destruct (decide (cls e = "Literal")) as [Hlit|Hlit].
  { assert (Hy : ∃ ey, deref h y = Some ey ∧ cls ey = "Literal").
    { unfold Literal_eq in Heq. destruct (deref h y) as [ey|]; [|done].
      destruct (decide (cls ey = "Literal")); [eauto|done]. }
    destruct Hy as (ey & Hy & Hcy). rewrite Hy.
    rewrite decide_False by (by rewrite Hcy). rewrite decide_True by done.
    destruct (Literal_eq_hash fuel h e y ey Hy Hlit Heq) as (k & Hk1 & Hk2).
    rewrite (Literal_hash_mono fuel fuel' h e k) by (done || lia).
    by rewrite (Literal_hash_mono fuel fuel' h ey k) by (done || lia). }
  destruct (deref h y) as [ey|] eqn:Hy; [|done].
  destruct (decide (cls e = cls ey)) as [Hcls|]; [|done].
  rewrite !decide_False by congruence.
  pose proof (arg_types_of_NoDup (cls e)) as Hschema.
  pose proof (Hord x e He) as Hsx. pose proof (Hord y ey Hy) as Hsy.
  rewrite <- Hcls in Hsy.
  assert (Hnx : NoDup (dict_keys (args e)))
    by (eapply sublist_NoDup; [exact Hschema|exact Hsx]).
  assert (Hny : NoDup (dict_keys (args ey)))
    by (eapply sublist_NoDup; [exact Hschema|exact Hsy]).
  assert (Hkeys : dict_keys (args e) = dict_keys (args ey)).
  { apply (sublist_same_elements _ _ _ Hschema Hsx Hsy).
    by apply (compare_dicts_keys (__eq__ fuel h)). }
  pose proof (compare_dicts_aligned _ _ _ Hnx Hkeys Heq) as Hall.
  assert (Hitems : res_mapM (hash_item (__hash__ fuel' h)) (args e)
                   = res_mapM (hash_item (__hash__ fuel' h)) (args ey)).
  { apply res_mapM_Forall2. apply (Forall2_impl _ _ _ _ Hall).
    intros [k va] [k' vb] [Hk Hs]. simpl in Hk, Hs. subst k'.
    apply (compare_slots_hash (__eq__ fuel h)); [|done].
    intros c v Hcv. destruct (eq_true_node _ _ _ _ Hcv) as [c' ->].
    exists c'. split; [done|]. apply (IH c c' Hcv). lia. }
  unfold key. by rewrite Hitems, Hcls.
Qed.

Lemma eq_hash_schema_ordered_witness :
  __hash__ 3 equal_pair_example 2 = __hash__ 3 equal_pair_example 5.
Proof.
  assert (Hord : schema_ordered equal_pair_example).
  { intros x e He.
    do 6 (destruct x as [|x];
          [injection He as <-; vm_compute;
           repeat first [apply sublist_nil_l | apply sublist_skip]|]).
    done. }
  apply (eq_hash_schema_ordered equal_pair_example 3 2 5 Hord);
    [vm_compute; reflexivity|lia].
Defined.

(** * The textual form of a node *)

Lemma res_mapM_total {A B} (f : A → res B) l :
  Forall (λ a, ∃ b, f a = Val b) l → ∃ bs, res_mapM f l = Val bs.
Proof.
  induction 1 as [|a l [b Hb] _ [bs Hbs]]; [by exists []|].
  exists (b :: bs). simpl. by rewrite Hb, Hbs.
Qed.

Lemma filter_truthy_shape n h vs vs' :
  Forall2 (same_shape n h) vs vs' →
  Forall2 (same_shape n h) (filter (λ v, truthy v = true) vs)
                           (filter (λ v, truthy v = true) vs').
Proof.
  induction 1 as [|v v' vs vs' Hv _ IH]; [constructor|].
  rewrite !filter_cons. rewrite <- (same_shape_truthy n h v v' Hv).
  destruct (decide (truthy v = true)); [by constructor|done].
Qed.

(** The textual form only depends on the structure. *)
Lemma to_s_shape token_to_s fuel : ∀ n h a b level,
  same_shape n h (VNode a) (VNode b) →
  to_s token_to_s fuel h a level = to_s token_to_s fuel h b level.
Proof.
  induction fuel as [|fuel IH]; intros n h a b level Hs; [done|].
  destruct (same_shape_node n h a _ Hs)
    as (b' & n' & e & e' & [= <-] & -> & He & He' & Hcls & _ & Hits).
  cbn [to_s]. rewrite He, He'. unfold key. rewrite <- Hcls.
  match goal with
  | |- res_bind (res_mapM ?f (args e)) ?k = res_bind (res_mapM ?f (args e')) ?k =>
      assert (Hitems : res_mapM f (args e) = res_mapM f (args e'));
      [|by rewrite Hitems]
  end.
  apply res_mapM_Forall2. apply (Forall2_impl _ _ _ _ Hits).
  intros [k s] [k' s'] [Hk [_ Hvals]]. simpl in *. subst k'.
  match goal with
  | |- res_bind (res_mapM ?f ?l) ?k = res_bind (res_mapM ?f ?l') ?k =>
      assert (Hvs : res_mapM f l = res_mapM f l'); [|by rewrite Hvs]
  end.
  apply res_mapM_Forall2.
  apply (Forall2_impl _ _ _ _ (filter_truthy_shape n' h _ _ Hvals)).
  intros v v' Hv. destruct v as [| | | | |c];
    try (by rewrite (same_shape_leaf n' h _ v' Hv)).
  destruct (same_shape_node n' h c v' Hv) as (c' & ? & ? & ? & -> & _).
  by apply (IH n').
Qed.

(** On a tree the textual form is computed. *)
Lemma to_s_tree token_to_s n : ∀ h l fp level,
  tree_at n h l fp → ∃ s, to_s token_to_s n h l level = Val s.
Proof.
  induction n as [|n IH]; intros h l fp level; [done|].
  intros (e & fps & He & _ & Hch & _ & _). cbn [to_s]. rewrite He.
  match goal with
  | |- ∃ s, res_bind (res_mapM ?f (args e)) ?k = Val s =>
      destruct (res_mapM_total f (args e)) as [args_ Hargs];
      [|rewrite Hargs; simpl; eauto]
  end.
  apply Forall_forall. intros [k s] Hks. cbn [fst snd].
  match goal with
  | |- ∃ b, res_bind (res_mapM ?f ?l) ?k = Val b =>
      destruct (res_mapM_total f l) as [parts Hparts];
      [|rewrite Hparts; simpl; eauto]
  end.
  apply Forall_forall. intros v [_ Hv]%list_elem_of_filter.
  destruct v as [| | | | |c]; eauto.
  pose proof (child_locs_elem e k s c Hks Hv) as Hc.
  destruct (Forall2_elem_l _ _ _ _ Hch Hc) as (fc & _ & Htree).
  by apply (IH h c fc).
Qed.

(** X20.  On a tree, [to_s] and [__repr__] return a text, and the text
    only depends on the structure: a node with the same structure as the
    tree, such as a copy of it, has the same text, whatever the identities
    and the parent references of its nodes. *)
Theorem to_s_structural (token_to_s : Token → nat → string) (n : nat)
    (h : store) (a b : loc) (fp : list loc) :
  tree_at n h a fp → same_shape n h (VNode a) (VNode b) →
  (∀ level, ∃ s, to_s token_to_s n h a level = Val s
                 ∧ to_s token_to_s n h b level = Val s)
  ∧ (∃ s, __repr__ token_to_s n h a = Val s ∧ __repr__ token_to_s n h b = Val s)
  ∧ ∀ fuel level, to_s token_to_s fuel h a level = to_s token_to_s fuel h b level.
Proof.
  intros Htree Hs.
  assert (Hall : ∀ level, ∃ s, to_s token_to_s n h a level = Val s
                               ∧ to_s token_to_s n h b level = Val s).
  { intros level. destruct (to_s_tree token_to_s n h a fp level Htree) as [s Ha].
    exists s. split; [done|]. by rewrite <- (to_s_shape token_to_s n n h a b). }
  split; [done|]. split; [apply (Hall 0)|].
  intros fuel level. by apply (to_s_shape token_to_s fuel n).
Qed.

Lemma to_s_structural_witness :
  to_s (λ t _, text t) 2 equal_pair_example 2 0 =
    Val ("(EQ this: " +:+ newline +:+ "  (STAR ), expression: "
         +:+ newline +:+ "  (NULL ))")
  ∧ ∃ s, __repr__ (λ t _, text t) 2 equal_pair_example 2 = Val s
         ∧ __repr__ (λ t _, text t) 2 equal_pair_example 5 = Val s.
Proof.
  split; [vm_compute; reflexivity|].
  assert (Htree : tree_at 2 equal_pair_example 2 [2; 0; 1]).
  { exists (mkExpression "EQ"
              [("this", Single (VNode 0)); ("expression", Single (VNode 1))]
              None None), [[0]; [1]].
    split; [reflexivity|].
    split; [apply (bool_decide_unpack _); vm_compute; reflexivity|].
    split; [|split; [reflexivity|apply (bool_decide_unpack _); vm_compute; reflexivity]].
    constructor; [|constructor; [|constructor]].
    - exists (mkExpression "Star" [] None None), [].
      split; [reflexivity|]. split; [constructor|].
      split; [constructor|].
      split; [reflexivity|apply (bool_decide_unpack _); vm_compute; reflexivity].
    - exists (mkExpression "Null" [] None None), [].
      split; [reflexivity|]. split; [constructor|].
      split; [constructor|].
      split; [reflexivity|apply (bool_decide_unpack _); vm_compute; reflexivity]. }
  assert (Hs : same_shape 2 equal_pair_example (VNode 2) (VNode 5))
    by (eexists; split; vm_compute; reflexivity).
  exact (proj1 (proj2 (to_s_structural (λ t _, text t) 2 equal_pair_example
                         2 5 [2; 0; 1] Htree Hs))).
Defined.

(** * The pass with a rewrite function that does not write to the store *)

Lemma confined_same {A} (h : store) tr (out : res A * state) :
  out.2 = mkState h tr → confined [] h tr out.
Proof.
  intros Hout. unfold confined. rewrite Hout. cbn [heap calls].
  split; [done|]. split; [done|]. exists [].
  split; [by rewrite app_nil_r|constructor].
Qed.

Lemma confined_mono {A} fp fp' h tr (out : res A * state) :
  fp ⊆ fp' → confined fp h tr out → confined fp' h tr out.
Proof.
  intros Hsub (Hlen & Hag & new & Hcalls & Hnew).
  split; [done|]. split.
  - intros x Hx. apply Hag. intros ?. apply Hx. by apply Hsub.
  - exists new. split; [done|]. apply (Forall_impl _ _ _ Hnew).
    intros c. apply Hsub.
Qed.

Lemma confined_trans {A B} fp h tr (out1 : res A * state) (out2 : res B * state) :
  confined fp h tr out1 →
  confined fp (heap out1.2) (calls out1.2) out2 →
  confined fp h tr out2.
Proof.
  intros (Hlen1 & Hag1 & new1 & Hc1 & Hn1) (Hlen2 & Hag2 & new2 & Hc2 & Hn2).
  split; [congruence|]. split.
  - intros x Hx. apply (agree_at_trans _ (heap out1.2)); auto.
  - exists (new1 ++ new2). split; [by rewrite Hc2, Hc1, app_assoc|].
    by apply Forall_app.
Qed.

Lemma confined_bind {A B} fp h tr (m : M A) (f : A → M B) :
  confined fp h tr (m (mkState h tr)) →
  (∀ a st1, m (mkState h tr) = (Val a, st1) →
     confined fp (heap st1) (calls st1) (f a st1)) →
  confined fp h tr (bind m f (mkState h tr)).
Proof.
  intros Hm Hf. unfold bind.
  destruct (m (mkState h tr)) as [[a|e| |] st1] eqn:Hrun; try done.
  apply (confined_trans fp h tr (Val a, st1)); [done|]. by apply Hf.
Qed.

Lemma confined_ret {A} fp h tr (a : A) : confined fp h tr (ret a (mkState h tr)).
Proof.
  apply (confined_mono []); [by intros ? ?%elem_of_nil|]. by apply confined_same.
Qed.

(** The assignment of a parent changes no class, arguments or
    [arg_key]. *)
Lemma confined_assign_parent r c h tr :
  confined [] h tr (assign_parent r c (mkState h tr)).
Proof.
  destruct r as [| | | | |x]; try (by apply confined_same).
  cbn [assign_parent]. unfold bind, get_node. cbn [heap].
  destruct (deref h x) as [e|] eqn:He; [|by apply confined_same].
  unfold put_node. cbn [heap calls].
  pose proof (deref_Some_lt _ _ _ He) as Hlt.
  split; [cbn [snd heap]; by rewrite length_insert|]. split.
  - intros y _. cbn [snd heap]. destruct (decide (y = x)) as [->|Hne].
    + unfold agree_at. by rewrite deref_insert_eq, He.
    + apply agree_at_ext. by rewrite list_lookup_insert_ne.
  - exists []. split; [by rewrite app_nil_r|constructor].
Qed.

Section confined_pass.
Context (rec : loc → M value) (n : nat).
Context (Hrec : ∀ h tr ch fc, tree_at n h ch fc →
                  confined fc h tr (rec ch (mkState h tr))).

(** The pass on a child node, followed by the assignment of its parent. *)
Lemma transform_child_confined c ch fc h tr :
  tree_at n h ch fc →
  confined fc h tr
    ((let* r := rec ch in let* _ := assign_parent r c in ret r) (mkState h tr)).
Proof using Hrec.
  intros Htree. apply confined_bind; [by apply Hrec|].
  intros r [h1 tr1] _. cbn [heap calls]. apply confined_bind.
  - apply (confined_mono []); [by intros ? ?%elem_of_nil|].
    apply confined_assign_parent.
  - intros [] [h2 tr2] _. apply confined_ret.
Qed.

(** The loop over the values of one argument. *)
Lemma transform_children_confined c : ∀ vs h tr fps,
  Forall2 (tree_at n h) (node_locs vs) fps →
  NoDup (concat fps) →
  confined (concat fps) h tr (transform_children rec c vs (mkState h tr)).
Proof using Hrec.
  induction vs as [|v vs IH]; intros h tr fps Hch Hnd.
  - apply confined_ret.
  - assert (Hskip : (∀ x, v ≠ VNode x) →
      confined (concat fps) h tr
        (transform_children rec c (v :: vs) (mkState h tr))).
    { intros Hv.
      assert (Hlocs : node_locs (v :: vs) = node_locs vs)
        by (destruct v; try done; by destruct (Hv l)).
      rewrite Hlocs in Hch. cbn [transform_children].
      rewrite (bind_Val _ _ _ v (mkState h tr))
        by (by destruct v; try done; destruct (Hv l)).
      apply confined_bind; [by apply IH|].
      intros a [h1 tr1] _. apply confined_ret. }
    destruct v as [| | | | |ch]; try (by apply Hskip). clear Hskip.
    change (node_locs (VNode ch :: vs)) with (ch :: node_locs vs) in Hch.
    apply Forall2_cons_inv_l in Hch as (fc & fps' & Htree & Hch & ->).
    cbn [concat] in Hnd |- *.
    apply NoDup_app in Hnd as (Hndc & Hdisj & Hndfps).
    cbn [transform_children].
    pose proof (transform_child_confined c ch fc h tr Htree) as Hchild.
    apply confined_bind.
    + apply (confined_mono fc); [|done].
      intros x Hx. apply elem_of_app. by left.
    + intros r [h1 tr1] Hrun. rewrite Hrun in Hchild.
      destruct Hchild as (Hlen1 & Hag1 & _). cbn [snd heap calls] in *.
      apply confined_bind.
      * apply (confined_mono (concat fps')).
        { intros x Hx. apply elem_of_app. by right. }
        apply IH; [|done].
        apply (Forall2_impl_elem _ _ _ _ Hch). intros c' fc' _ Hfc' Htree'.
        apply (tree_at_frame n h); [done|]. intros x Hx. apply Hag1.
        intros Hxc. apply (Hdisj x Hxc). by apply (elem_of_concat_2 _ fc').
      * intros rs [h2 tr2] _. apply confined_ret.
Qed.

(** The loop over the arguments. *)
Lemma transform_items_confined c keys0 : ∀ its h tr fps e,
  deref h c = Some e →
  (∀ k s, (k, s) ∈ its → dict_get k (args e) = Some s) →
  NoDup (dict_keys its) →
  Forall2 (tree_at n h) (flat_map (λ kv, node_locs (ensure_list kv.2)) its) fps →
  NoDup (c :: concat fps) →
  confined (c :: concat fps) h tr
    (transform_items rec c keys0 (dict_keys its) (mkState h tr)).
Proof using Hrec.
  induction its as [|[k s] its IH]; intros h tr fps e He Hget Hkeys Hch Hnd.
  - apply (confined_mono []); [by intros ? ?%elem_of_nil|]. apply confined_same.
    cbn [transform_items dict_keys fmap list_fmap]. unfold bind, get_node.
    cbn [heap]. rewrite He. by case_decide.
  - change (dict_keys ((k, s) :: its)) with (k :: dict_keys its) in *.
    apply NoDup_cons in Hkeys as [Hk Hkeys].
    change (flat_map _ ((k, s) :: its))
      with (node_locs (ensure_list s)
            ++ flat_map (λ kv : string * slot, node_locs (ensure_list kv.2)) its)
      in Hch.
    apply Forall2_app_inv_l in Hch as (fps1 & fps2 & Hch1 & Hch2 & ->).
    rewrite concat_app in Hnd |- *.
    apply NoDup_cons in Hnd as [Hc Hnd].
    apply not_elem_of_app in Hc as [Hc1 Hc2].
    apply NoDup_app in Hnd as (Hnd1 & Hdisj & Hnd2).
    cbn [transform_items].
    rewrite (bind_Val _ _ _ e (mkState h tr)) by (by apply get_node_Some).
    case_decide; [|apply (confined_mono []); [by intros ? ?%elem_of_nil|];
                   by apply confined_same].
    rewrite (Hget k s) by (by left).
    change (match s with Many vs => vs | Single x => [x] end)
      with (ensure_list s).
    pose proof (transform_children_confined c (ensure_list s) h tr fps1 Hch1 Hnd1)
      as Hchildren.
    apply confined_bind.
    { apply (confined_mono (concat fps1)); [|done].
      intros x Hx. right. apply elem_of_app. by left. }
    intros ncs [h1 tr1] Hrun. rewrite Hrun in Hchildren.
    destruct Hchildren as (Hlen1 & Hag1 & _). cbn [snd heap calls] in *.
    destruct (agree_at_Some h h1 c e (Hag1 c Hc1) He)
      as (e1 & He1 & Hcls1 & Hargs1 & Hkey1).
    set (st1 := mkState h1 tr1).
    rewrite (bind_Val _ _ _ e1 st1) by (by apply get_node_Some).
    set (v' := if is_list_arg s then Many ncs
               else Single (default VNone (head ncs))).
    set (e2 := mkExpression (cls e1) (dict_set k v' (args e1))
                            (_parent e1) (arg_key e1)).
    pose proof (deref_Some_lt _ _ _ He1) as Hlt1.
    assert (Hwrite :
      (match is_list_arg s, ncs with
       | true, _ =>
           put_node c (mkExpression (cls e1) (dict_set k (Many ncs) (args e1))
                                    (_parent e1) (arg_key e1))
       | false, first :: _ =>
           put_node c (mkExpression (cls e1) (dict_set k (Single first) (args e1))
                                    (_parent e1) (arg_key e1))
       | false, [] => raise IndexError
       end) st1
      = (Val tt, mkState (<[c := Some e2]> h1) tr1)
      ∨ (match is_list_arg s, ncs with
         | true, _ =>
             put_node c (mkExpression (cls e1) (dict_set k (Many ncs) (args e1))
                                      (_parent e1) (arg_key e1))
         | false, first :: _ =>
             put_node c (mkExpression (cls e1) (dict_set k (Single first) (args e1))
                                      (_parent e1) (arg_key e1))
         | false, [] => raise IndexError
         end) st1 = (Exn IndexError, st1)).
    { unfold e2, v'. destruct (is_list_arg s); [by left|].
      destruct ncs; [by right|by left]. }
    destruct Hwrite as [Hwrite|Hwrite].
    2:{ unfold bind at 1. rewrite Hwrite.
        apply (confined_mono []); [by intros ? ?%elem_of_nil|].
        by apply confined_same. }
    rewrite (bind_Val _ _ _ _ _ Hwrite).
    set (h2 := <[c := Some e2]> h1).
    assert (Hstep : confined (c :: concat fps1 ++ concat fps2) h1 tr1
                      (Val tt, mkState h2 tr1)).
    { split; [by unfold h2; cbn; rewrite length_insert|]. split.
      - intros x Hx. apply agree_at_ext. cbn. unfold h2.
        apply list_lookup_insert_ne. intros ->. apply Hx. by left.
      - exists []. split; [by cbn; rewrite app_nil_r|constructor]. }
    apply (confined_trans _ _ _ _ _ Hstep). cbn [snd heap calls].
    apply (confined_mono (c :: concat fps2)).
    { intros x [->|Hx]%elem_of_cons; [by left|].
      right. apply elem_of_app. by right. }
    apply (IH h2 tr1 fps2 e2).
    + unfold h2. by apply deref_insert_eq.
    + intros k' s' Hin. unfold e2. cbn [args].
      rewrite dict_get_set_ne.
      * rewrite Hargs1. apply Hget. by right.
      * intros ->. apply Hk. apply list_elem_of_fmap. by exists (k', s').
    + done.
    + apply (Forall2_impl_elem _ _ _ _ Hch2). intros c' fc' _ Hfc' Htree'.
      apply (tree_at_frame n h); [done|]. intros x Hx.
      assert (Hx2 : x ∈ concat fps2) by (by apply (elem_of_concat_2 _ fc')).
      apply (agree_at_trans _ h1).
      * apply Hag1. intros Hx1. by apply (Hdisj x).
      * apply agree_at_ext. unfold h2. apply list_lookup_insert_ne.
        intros ->. done.
    + by apply NoDup_cons.
Qed.

End confined_pass.

(** The pass in place on a tree works on the nodes of the tree only. *)
Lemma transform_confined_tree fun_ fuel :
  pure_callback fun_ → ∀ n h tr c fc,
  tree_at n h c fc →
  confined fc h tr (transform fuel fun_ c false (mkState h tr)).
Proof.
  intros Hpure. induction fuel as [|fuel IH]; intros n h tr c fc Htree.
  { apply (confined_mono []); [by intros ? ?%elem_of_nil|]. by apply confined_same. }
  destruct n as [|n]; [done|].
  destruct Htree as (e & fps & He & Hkeys & Hch & -> & Hnd).
  cbn [transform]. rewrite (bind_Val _ _ _ c (mkState h tr)) by done.
  unfold bind at 1. unfold call at 1. cbn [heap calls].
  pose proof (Hpure c h) as Hh.
  destruct (fun_ c h) as [h1 v]. simpl in Hh. subst h1.
  assert (Hcall : confined (c :: concat fps) h tr
                    (Val v, mkState h (tr ++ [(c, v)]))).
  { split; [done|]. split; [done|]. exists [(c, v)].
    split; [done|]. repeat constructor. }
  destruct (is_None v); [exact Hcall|].
  destruct (negb (isinstance_Expression v) || negb (bool_decide (v = VNode c)));
    [exact Hcall|].
  apply (confined_trans _ _ _ _ _ Hcall). cbn [snd heap calls].
  rewrite (bind_Val _ _ _ e (mkState h (tr ++ [(c, v)])))
    by (by apply get_node_Some).
  apply confined_bind.
  - apply (transform_items_confined _ n (IH n) c (dict_keys (args e)) (args e)
             h (tr ++ [(c, v)]) fps e); try done.
    intros k s Hks. by apply dict_get_elem_NoDup.
  - intros [] [h1 tr1] _. apply (confined_mono []); [by intros ? ?%elem_of_nil|].
    by apply confined_same.
Qed.

(** X22.  For a rewrite function that does not write to the store,
    whatever it returns and however the pass ends: [transform] in place on
    a tree calls the function on nodes of the tree only and changes no
    class, arguments or [arg_key] outside the tree; [transform] with
    [copy=True] calls it on new nodes only and changes no class, arguments
    or [arg_key] of any node that was in the store. *)
Theorem transform_confined (fun_ : callback) (n : nat) (h : store)
    (self : loc) (fp : list loc) (tr : list (loc * value)) (fuel : nat) :
  pure_callback fun_ → tree_at n h self fp →
  (length (heap (transform fuel fun_ self false (mkState h tr)).2) = length h
   ∧ (∀ x, x ∉ fp →
        agree_at h (heap (transform fuel fun_ self false (mkState h tr)).2) x)
   ∧ ∃ new,
       calls (transform fuel fun_ self false (mkState h tr)).2 = tr ++ new
       ∧ Forall (λ c, c.1 ∈ fp) new)
  ∧ (n < fuel →
     (∀ x, x < length h →
        agree_at h (heap (transform fuel fun_ self true (mkState h tr)).2) x)
     ∧ ∃ new,
         calls (transform fuel fun_ self true (mkState h tr)).2 = tr ++ new
         ∧ Forall (λ c, length h ≤ c.1) new).
Proof.
  intros Hpure Htree. split.
  { exact (transform_confined_tree fun_ fuel Hpure n h tr self fp Htree). }
  intros Hfuel. destruct fuel as [|fuel]; [lia|].
  destruct (deepcopy_tree n fuel ltac:(lia) h tr ∅ self fp Htree)
    as (memo & added & Hcopy & Hlen & _ & Htree1 & _);
    [by intros x _; apply lookup_empty|].
  rewrite (transform_copy_unfold fuel fun_ self _ _ _ _ Hcopy).
  destruct (transform_confined_tree fun_ (S fuel) Hpure n (h ++ added) tr
              (length h) _ Htree1) as (_ & Hag & new & Hcalls & Hnew).
  split.
  - intros x Hx. apply (agree_at_trans _ (h ++ added)).
    + unfold agree_at. by rewrite deref_app_l.
    + apply Hag. intros Hin%elem_of_seq. lia.
  - exists new. split; [done|]. apply (Forall_impl _ _ _ Hnew).
    intros c Hin%elem_of_seq. lia.
Qed.

Lemma transform_confined_witness :
  (∀ x, x < 4 →
     agree_at null_example
       (heap (transform 3 null_callback 0 true (mkState null_example [])).2) x)
  ∧ ∃ new,
      calls (transform 3 null_callback 0 true (mkState null_example [])).2
        = [] ++ new
      ∧ Forall (λ c, 4 ≤ c.1) new.
Proof.
  assert (Hpure : pure_callback null_callback) by (by intros l h).
  assert (Htree : tree_at 2 null_example 0 [0; 1; 2]).
  { exists (mkExpression "EQ"
              [("this", Single (VNode 1)); ("expression", Single (VNode 2))]
              None None), [[1]; [2]].
    split; [reflexivity|].
    split; [apply (bool_decide_unpack _); vm_compute; reflexivity|].
    split; [|split; [reflexivity|apply (bool_decide_unpack _); vm_compute; reflexivity]].
    constructor; [|constructor; [|constructor]].
    - exists (mkExpression "Star" [] (Some 0) None), [].
      split; [reflexivity|]. split; [constructor|].
      split; [constructor|].
      split; [reflexivity|apply (bool_decide_unpack _); vm_compute; reflexivity].
    - exists (mkExpression "Null" [] (Some 0) None), [].
      split; [reflexivity|]. split; [constructor|].
      split; [constructor|].
      split; [reflexivity|apply (bool_decide_unpack _); vm_compute; reflexivity]. }
  exact (proj2 (transform_confined null_callback 2 null_example 0 [0; 1; 2] []
                  3 Hpure Htree) ltac:(lia)).
Defined.

(** * The layout of the nodes under [transform] *)

Lemma same_slot_refl s : same_slot s s.
Proof. done. Qed.

Lemma same_slot_trans s1 s2 s3 :
  same_slot s1 s2 → same_slot s2 s3 → same_slot s1 s3.
Proof. intros [? ?] [? ?]. split; congruence. Qed.

Lemma same_layout_refl e : same_layout e e.
Proof.
  repeat split. apply Forall2_same_length_lookup_2; [done|].
  intros i x y Hx Hy. rewrite Hx in Hy. injection Hy as <-. done.
Qed.

Lemma same_layout_trans e1 e2 e3 :
  same_layout e1 e2 → same_layout e2 e3 → same_layout e1 e3.
Proof.
  intros (Hc & Hk & Ha) (Hc' & Hk' & Ha').
  split; [congruence|]. split; [congruence|].
  clear Hc Hk Hc' Hk'. revert Ha'.
  generalize (args e3). induction Ha as [|x y l l' [Hxy Hs] _ IH];
    intros l3 Ha'; inversion Ha' as [|y' z l2 l3' [Hyz Hs'] Hrest]; subst;
    constructor.
  - split; [congruence|by eapply same_slot_trans].
  - by apply IH.
Qed.

Lemma same_layout_keys e e' :
  same_layout e e' → dict_keys (args e) = dict_keys (args e').
Proof.
  intros (_ & _ & Ha). unfold dict_keys.
  induction Ha as [|x y l l' [Hxy _] _ IH]; [done|].
  rewrite !fmap_cons. by f_equal.
Qed.

Lemma same_layout_get e e' k s :
  same_layout e e' → dict_get k (args e) = Some s →
  ∃ s', dict_get k (args e') = Some s' ∧ same_slot s s'.
Proof.
  intros (_ & _ & Ha). induction Ha as [|[k1 s1] [k2 s2] l l' [Hk Hs] _ IH];
    [done|].
  simpl in Hk, Hs. subst k2. simpl. case_decide.
  - intros [= ->]. by exists s2.
  - exact IH.
Qed.

Lemma dict_set_layout (d : dict slot) k s s' :
  dict_get k d = Some s → same_slot s s' →
  Forall2 (λ kv kv', kv.1 = kv'.1 ∧ same_slot kv.2 kv'.2) d (dict_set k s' d).
Proof.
  intros Hget Hs. induction d as [|[k1 s1] d IH]; [done|].
  simpl in Hget |- *. case_decide.
  - injection Hget as ->. subst k1. constructor; [done|].
    apply (same_layout_refl (mkExpression "" d None None)).
  - constructor; [done|]. by apply IH.
Qed.

Lemma layout_kept_refl h : layout_kept h h.
Proof. intros x e He. exists e. split; [done|apply same_layout_refl]. Qed.

Lemma layout_kept_trans h1 h2 h3 :
  layout_kept h1 h2 → layout_kept h2 h3 → layout_kept h1 h3.
Proof.
  intros H12 H23 x e He.
  destruct (H12 x e He) as (e2 & He2 & Hl2).
  destruct (H23 x e2 He2) as (e3 & He3 & Hl3).
  exists e3. split; [done|by eapply same_layout_trans].
Qed.

Lemma layout_kept_put h x e e' :
  deref h x = Some e → same_layout e e' →
  layout_kept h (<[x := Some e']> h).
Proof.
  intros He Hl y ey Hy. unfold deref in *.
  destruct (decide (y = x)) as [->|Hne].
  - exists e'. rewrite list_lookup_insert_eq.
    + split; [done|]. rewrite He in Hy. by injection Hy as <-.
    + apply lookup_lt_is_Some. destruct (h !! x); [by eexists|done].
  - exists ey. rewrite list_lookup_insert_ne by done.
    split; [done|apply same_layout_refl].
Qed.

Lemma layout_kept_prefix h h' :
  (∀ z, z < length h → h' !! z = h !! z) → layout_kept h h'.
Proof.
  intros Hpre x e He. exists e. split; [|apply same_layout_refl].
  unfold deref in *. rewrite Hpre; [done|].
  apply lookup_lt_is_Some. destruct (h !! x); [by eexists|done].
Qed.

(** ** Computations that keep the layout *)

Lemma orderly_ret {A} (a : A) : orderly (ret a).
Proof. intros st. split; [apply layout_kept_refl|done]. Qed.

Lemma orderly_raise {A} ex :
  ex = ValueError ∨ ex = AttributeError → orderly (@raise A ex).
Proof.
  intros Hex st. split; [apply layout_kept_refl|].
  by intros ex' [= <-].
Qed.

Lemma orderly_out_of_fuel {A} : orderly (@out_of_fuel A).
Proof. intros st. split; [apply layout_kept_refl|done]. Qed.

Lemma orderly_bind {A B} (m : M A) (f : A → M B) :
  orderly m → (∀ a, orderly (f a)) → orderly (bind m f).
Proof.
  intros Hm Hf st. destruct (Hm st) as [Hl Hex]. unfold bind.
  destruct (m st) as [[a|ex| |] st1]; cbn [fst snd] in *;
    try (split; [exact Hl|first [done|intros ex0 [= <-]; by apply Hex]]).
  destruct (Hf a st1) as [Hl' Hex'].
  split; [by eapply layout_kept_trans|exact Hex'].
Qed.

Lemma orderly_call fun_ node : pure_callback fun_ → orderly (call fun_ node).
Proof.
  intros Hpure st. unfold call. pose proof (Hpure node (heap st)) as Hh.
  destruct (fun_ node (heap st)) as [h' v]. cbn [fst snd heap] in *. subst h'.
  split; [apply layout_kept_refl|done].
Qed.

Lemma orderly_assign_parent v new_node : orderly (assign_parent v new_node).
Proof.
  destruct v; try (apply orderly_raise; by right); try apply orderly_ret.
  intros st. cbn [assign_parent]. unfold bind, get_node, put_node.
  destruct (deref (heap st) _) as [e|] eqn:He; cbn [fst snd heap].
  - split; [|done]. eapply layout_kept_put; [exact He|].
    apply (same_layout_refl e).
  - split; [apply layout_kept_refl|done].
Qed.

Lemma appends_ret {A} N (a : A) : appends N (ret a).
Proof. intros st HN. by repeat split. Qed.

Lemma appends_bind {A B} N (m : M A) (f : A → M B) :
  appends N m → (∀ a, appends N (f a)) → appends N (bind m f).
Proof.
  intros Hm Hf st HN. destruct (Hm st HN) as (Hlen & Hpre & Hex). unfold bind.
  destruct (m st) as [[a|ex| |] st1]; cbn [fst snd] in *;
    try (split; [done|split; [done|by intros ?]]).
  - destruct (Hf a st1 Hlen) as (Hlen' & Hpre' & Hex').
    split; [done|]. split; [|done].
    intros z Hz. by rewrite Hpre', Hpre.
  - by destruct (Hex ex).
Qed.

Lemma appends_deepcopy_value rec N memo v :
  (∀ memo c, appends N (rec memo c)) → appends N (deepcopy_value rec memo v).
Proof.
  intros Hrec. destruct v; try apply appends_ret.
  apply appends_bind; [apply Hrec|]. intros r. apply appends_ret.
Qed.

Lemma appends_deepcopy_values rec N vs : ∀ memo,
  (∀ memo c, appends N (rec memo c)) → appends N (deepcopy_values rec memo vs).
Proof.
  induction vs as [|v vs IH]; intros memo Hrec; [apply appends_ret|].
  cbn [deepcopy_values].
  apply appends_bind; [by apply appends_deepcopy_value|]. intros r.
  apply appends_bind; [by apply IH|]. intros rs. apply appends_ret.
Qed.

Lemma appends_deepcopy_items rec N items : ∀ memo,
  (∀ memo c, appends N (rec memo c)) → appends N (deepcopy_items rec memo items).
Proof.
  induction items as [|[k v] items IH]; intros memo Hrec; [apply appends_ret|].
  cbn [deepcopy_items]. apply appends_bind.
  - destruct v.
    + apply appends_bind; [by apply appends_deepcopy_value|].
      intros r. apply appends_ret.
    + apply appends_bind; [by apply appends_deepcopy_values|].
      intros r. apply appends_ret.
  - intros r. apply appends_bind; [by apply IH|]. intros rs. apply appends_ret.
Qed.

Lemma appends_get_node N l : appends N (get_node l).
Proof.
  intros st HN. unfold get_node.
  destruct (deref (heap st) l); cbn [fst snd]; split; try done;
    split; try done; by intros ?.
Qed.

Lemma appends_deepcopy N fuel : ∀ memo x, appends N (deepcopy fuel memo x).
Proof.
  induction fuel as [|fuel IH]; intros memo x.
  { intros st HN. cbn [deepcopy]. unfold out_of_fuel. cbn [fst snd].
    split; [done|]. split; [done|]. by intros ?. }
  cbn [deepcopy]. destruct (memo !! x); [apply appends_ret|].
  apply appends_bind; [apply appends_get_node|]. intros e st HN.
  match goal with |- _ ≤ length (heap (?t).2) ∧ _ =>
    remember t as out eqn:Hout end.
  unfold bind at 1, alloc_node, alloc in Hout. cbn beta iota in Hout.
  set (st0 := mkState (heap st ++ _) (calls st)) in Hout.
  assert (HN0 : N ≤ length (heap st0)).
  { cbn [heap st0]. rewrite length_app. lia. }
  assert (Hpre0 : ∀ z, z < N → heap st0 !! z = heap st !! z).
  { intros z Hz. cbn [heap st0]. by rewrite lookup_app_l by lia. }
  destruct (appends_deepcopy_items (deepcopy fuel) N (args e)
              (<[x := length (heap st)]> memo) IH st0 HN0)
    as (Hlen & Hpre & Hex).
  unfold bind at 1 in Hout.
  destruct (deepcopy_items _ _ _ st0) as [[r|ex| |] st1]; cbn [fst snd] in *;
    subst out.
  - unfold bind, put_node, ret. cbn [fst snd heap].
    rewrite length_insert. split; [done|]. split; [|by intros ?].
    intros z Hz. rewrite list_lookup_insert_ne by lia.
    rewrite Hpre by done. by apply Hpre0.
  - by destruct (Hex ex).
  - cbn [fst snd]. split; [done|]. split; [|by intros ?].
    intros z Hz. rewrite Hpre by done. by apply Hpre0.
  - cbn [fst snd]. split; [done|]. split; [|by intros ?].
    intros z Hz. rewrite Hpre by done. by apply Hpre0.
Qed.

Lemma orderly_deepcopy fuel memo x : orderly (deepcopy fuel memo x).
Proof.
  intros st.
  destruct (appends_deepcopy (length (heap st)) fuel memo x st (le_n _))
    as (_ & Hpre & Hex).
  split; [by apply layout_kept_prefix|].
  intros ex Heq. by destruct (Hex ex).
Qed.

(** ** The pass *)

Lemma transform_children_length rec new_node : ∀ vs st ncs st1,
  transform_children rec new_node vs st = (Val ncs, st1) →
  length ncs = length vs.
Proof.
  induction vs as [|v vs IH]; intros st ncs st1.
  - by intros [= <- _].
  - cbn [transform_children]. unfold bind at 1.
    match goal with |- context [match ?t with (_, _) => _ end] =>
      destruct t as [[r|ex| |] st0] end; try done.
    unfold bind at 1.
    destruct (transform_children rec new_node vs st0) as [[rs|ex| |] st2] eqn:Hrs;
      try done.
    intros [= <- _]. simpl. f_equal. by eapply IH.
Qed.

Section layout.
Variable rec : loc → M value.
Hypothesis Hrec : ∀ c, orderly (rec c).

Lemma orderly_transform_children new_node vs :
  orderly (transform_children rec new_node vs).
Proof using Hrec.
  induction vs as [|v vs IH]; [apply orderly_ret|].
  cbn [transform_children]. apply orderly_bind.
  - destruct v; try apply orderly_ret.
    apply orderly_bind; [apply Hrec|]. intros r.
    apply orderly_bind; [apply orderly_assign_parent|]. intros _.
    apply orderly_ret.
  - intros r. apply orderly_bind; [exact IH|]. intros rs. apply orderly_ret.
Qed.

Lemma orderly_transform_items new_node keys0 : ∀ ks st,
  ks ⊆ keys0 →
  (∀ e, deref (heap st) new_node = Some e → dict_keys (args e) = keys0) →
  layout_kept (heap st) (heap (transform_items rec new_node keys0 ks st).2)
  ∧ ∀ ex, (transform_items rec new_node keys0 ks st).1 = Exn ex →
          ex = ValueError ∨ ex = AttributeError.
Proof using Hrec.
  induction ks as [|k ks IH]; intros st Hsub Hkeys;
    match goal with |- layout_kept _ (heap (?t).2) ∧ _ =>
      remember t as out eqn:Hout end;
    cbn [transform_items] in Hout; unfold bind at 1, get_node in Hout;
    (destruct (deref (heap st) new_node) as [e|] eqn:He;
      [|subst out; split; [apply layout_kept_refl|done]]);
    rewrite decide_True in Hout by exact (Hkeys e eq_refl).
  - subst out. split; [apply layout_kept_refl|done].
  - destruct (dict_get k (args e)) as [v|] eqn:Hv.
    2:{ apply dict_get_None in Hv. destruct Hv.
        rewrite (Hkeys e eq_refl). apply Hsub. left. }
    destruct (orderly_transform_children new_node
                (match v with Many vs => vs | Single x => [x] end) st)
      as [Hl1 Hex1].
    unfold bind at 1 in Hout.
    destruct (transform_children rec new_node _ st) as [[ncs|ex| |] st1] eqn:Hch;
      cbn [fst snd] in *;
      try (subst out; split;
           [exact Hl1|first [done|intros ex0 [= <-]; by apply Hex1]]).
    apply transform_children_length in Hch.
    destruct (Hl1 new_node e He) as (e1 & He1 & Hlay1).
    destruct (same_layout_get e e1 k v Hlay1 Hv) as (s1 & Hs1 & [Hkind Hsize]).
    unfold bind at 1, get_node in Hout. rewrite He1 in Hout.
    assert (Hstep : ∀ v',
      same_slot s1 v' →
      let st2 := mkState (<[new_node := Some (mkExpression (cls e1)
                   (dict_set k v' (args e1)) (_parent e1) (arg_key e1))]> (heap st1))
                   (calls st1) in
      layout_kept (heap st) (heap (transform_items rec new_node keys0 ks st2).2)
      ∧ ∀ ex, (transform_items rec new_node keys0 ks st2).1 = Exn ex →
              ex = ValueError ∨ ex = AttributeError).
    { intros v' Hv' st2.
      assert (Hlay2 : same_layout e1 (mkExpression (cls e1)
                        (dict_set k v' (args e1)) (_parent e1) (arg_key e1))).
      { split; [done|]. split; [done|]. by eapply dict_set_layout. }
      assert (Hl2 : layout_kept (heap st1) (heap st2)).
      { eapply layout_kept_put; [exact He1|exact Hlay2]. }
      destruct (IH st2) as [Hl3 Hex3].
      - intros y Hy. apply Hsub. by right.
      - intros e2 He2. cbn [heap st2] in He2. unfold deref in He2.
        rewrite list_lookup_insert_eq in He2.
        + injection He2 as <-. cbn [args].
          rewrite <- (Hkeys e eq_refl). symmetry.
          rewrite (same_layout_keys e e1 Hlay1).
          exact (same_layout_keys _ _ Hlay2).
        + apply lookup_lt_is_Some. unfold deref in He1.
          destruct (heap st1 !! new_node); [by eexists|done].
      - split; [|exact Hex3].
        eapply layout_kept_trans; [exact Hl1|].
        eapply layout_kept_trans; [exact Hl2|exact Hl3]. }
    destruct v as [x|vs]; cbn [is_list_arg ensure_list length] in *.
    + destruct ncs as [|first rest]; [done|].
      unfold bind at 1, put_node in Hout. cbn [fst snd] in Hout. subst out.
      apply Hstep. split; [by rewrite <- Hkind|].
      by rewrite <- Hsize.
    + unfold bind at 1, put_node in Hout. cbn [fst snd] in Hout. subst out.
      apply Hstep. split; [by rewrite <- Hkind|].
      by rewrite <- Hsize.
Qed.

End layout.

Lemma orderly_transform fun_ :
  pure_callback fun_ → ∀ fuel self copy, orderly (transform fuel fun_ self copy).
Proof.
  intros Hpure. induction fuel as [|fuel IH]; intros self copy;
    [apply orderly_out_of_fuel|].
  cbn [transform]. apply orderly_bind.
  { destruct copy; [|apply orderly_ret].
    apply orderly_bind; [apply orderly_deepcopy|]. intros r. apply orderly_ret. }
  intros node. apply orderly_bind; [by apply orderly_call|]. intros new_node.
  destruct (is_None new_node); [apply orderly_raise; by left|].
  destruct (negb _ || negb _); [apply orderly_ret|].
  intros st.
  match goal with |- layout_kept _ (heap (?t).2) ∧ _ =>
    remember t as out eqn:Hout end.
  unfold bind at 1, get_node in Hout.
  destruct (deref (heap st) node) as [e|] eqn:He;
    [|subst out; split; [apply layout_kept_refl|done]].
  destruct (orderly_transform_items (λ cn, transform fuel fun_ cn false)
              (λ c, IH c false) node (dict_keys (args e)) (dict_keys (args e)) st)
    as [Hl Hex]; [done| |].
  { intros e0 He0. rewrite He in He0. by injection He0 as <-. }
  unfold bind in Hout.
  destruct (transform_items _ _ _ _ st) as [[u|ex| |] st1]; cbn [fst snd] in *;
    subst out; (split; [exact Hl|first [done|intros ex0 [= <-]; by apply Hex]]).
Qed.

(** X23.  For a rewrite function that does not write to the store, on any
    store, in either mode of [copy] and however the pass ends: every node
    that was in the store is still there with its class, its [arg_key], the
    keys of its arguments in their order and, key by key, a slot of the same
    kind (a single value or a list) holding as many values as before; and
    the pass raises nothing but its own [ValueError] and the
    [AttributeError] of the assignment to [parent]: never [IndexError], nor
    the [RuntimeError] of a dictionary changed under iteration. *)
Theorem transform_keeps_layout (fun_ : callback) (fuel : nat) (self : loc)
    (copy : bool) (st : state) :
  pure_callback fun_ →
  layout_kept (heap st) (heap (transform fuel fun_ self copy st).2)
  ∧ ∀ ex, (transform fuel fun_ self copy st).1 = Exn ex →
          ex = ValueError ∨ ex = AttributeError.
Proof. intros Hpure. by apply orderly_transform. Qed.

Lemma transform_keeps_layout_witness :
  pure_callback null_callback
  ∧ layout_kept null_example
      (heap (transform 3 null_callback 0 false (mkState null_example [])).2)
  ∧ ∀ ex, (transform 3 null_callback 0 false (mkState null_example [])).1 = Exn ex →
          ex = ValueError ∨ ex = AttributeError.
Proof.
  assert (Hpure : pure_callback null_callback) by (by intros l h).
  split; [exact Hpure|].
  exact (transform_keeps_layout null_callback 3 0 false
           (mkState null_example []) Hpure).
Defined.

(** * A pass that fails half way *)

Lemma call_pure fun_ node h tr v :
  pure_callback fun_ → (fun_ node h).2 = v →
  call fun_ node (mkState h tr) = (Val v, mkState h (tr ++ [(node, v)])).
Proof.
  intros Hpure Hv. unfold call. cbn [heap calls].
  pose proof (Hpure node h) as Hh.
  destruct (fun_ node h) as [h' v']. cbn [fst snd heap calls] in *.
  by subst.
Qed.

Lemma transform_in_place_unfold fun_ fuel self :
  transform (S fuel) fun_ self false
  = (let* new_node := call fun_ self in
     if is_None new_node then raise ValueError
     else if negb (isinstance_Expression new_node)
             || negb (bool_decide (new_node = VNode self))
     then ret new_node
     else
       let* e := get_node self in
       let* _ := transform_items (λ cn, transform fuel fun_ cn false) self
                   (dict_keys (args e)) (dict_keys (args e)) in
       ret new_node).
Proof. reflexivity. Qed.

Lemma transform_replaced fun_ fuel c r h tr :
  pure_callback fun_ → (fun_ c h).2 = VNode r → r ≠ c →
  transform (S fuel) fun_ c false (mkState h tr)
  = (Val (VNode r), mkState h (tr ++ [(c, VNode r)])).
Proof.
  intros Hpure Hv Hne. rewrite transform_in_place_unfold. unfold bind.
  rewrite (call_pure fun_ c h tr (VNode r) Hpure Hv).
  cbn [is_None isinstance_Expression negb orb].
  rewrite bool_decide_eq_false_2 by congruence. done.
Qed.

Lemma transform_None fun_ fuel c h tr :
  pure_callback fun_ → (fun_ c h).2 = VNone →
  transform (S fuel) fun_ c false (mkState h tr)
  = (Exn ValueError, mkState h (tr ++ [(c, VNone)])).
Proof.
  intros Hpure Hv. rewrite transform_in_place_unfold. unfold bind.
  by rewrite (call_pure fun_ c h tr VNone Hpure Hv).
Qed.

(** X25.  A pass in place that fails leaves what it wrote before: when the
    rewrite function keeps a node with two arguments, replaces the child
    under the first key by another node and returns [None] for the child
    under the second, [transform] with [copy=False] ends with its
    [ValueError], and the receiver then holds the replacement under the
    first key, the replacement having the receiver as parent. *)
Theorem transform_failure_keeps_writes (fun_ : callback) (fuel : nat)
    (h : store) (tr : list (loc * value)) (root c1 c2 r : loc)
    (k1 k2 : string) (e er : Expression) :
  pure_callback fun_ →
  deref h root = Some e →
  args e = [(k1, Single (VNode c1)); (k2, Single (VNode c2))] →
  k1 ≠ k2 →
  deref h r = Some er → r ≠ root → r ≠ c1 →
  (∀ h', (fun_ root h').2 = VNode root) →
  (∀ h', (fun_ c1 h').2 = VNode r) →
  (∀ h', (fun_ c2 h').2 = VNone) →
  (transform (S (S fuel)) fun_ root false (mkState h tr)).1 = Exn ValueError
  ∧ deref (heap (transform (S (S fuel)) fun_ root false (mkState h tr)).2) root
    = Some (mkExpression (cls e)
              [(k1, Single (VNode r)); (k2, Single (VNode c2))]
              (_parent e) (arg_key e))
  ∧ deref (heap (transform (S (S fuel)) fun_ root false (mkState h tr)).2) r
    = Some (set_parent er root).
Proof.
  intros Hpure He Hargs Hk Her Hr Hrc Hroot Hc1 Hc2.
  remember (transform (S (S fuel)) fun_ root false (mkState h tr)) as out eqn:Hout.
  rewrite transform_in_place_unfold in Hout. unfold bind at 1 in Hout.
  rewrite (call_pure fun_ root h tr (VNode root) Hpure (Hroot h)) in Hout.
  cbn [is_None isinstance_Expression negb orb] in Hout.
  rewrite bool_decide_eq_true_2 in Hout by done.
  cbn [negb] in Hout.
  unfold bind at 1, get_node in Hout. cbn [heap] in Hout. rewrite He in Hout.
  rewrite Hargs in Hout. cbn [dict_keys fmap list_fmap fst] in Hout.
  set (e2 := mkExpression (cls e)
               [(k1, Single (VNode r)); (k2, Single (VNode c2))]
               (_parent e) (arg_key e)).
  set (h1 := <[r := Some (set_parent er root)]> h).
  set (h2 := <[root := Some e2]> h1).
  assert (Hroot_lt : root < length h).
  { apply lookup_lt_is_Some. unfold deref in He.
    destruct (h !! root); [by eexists|done]. }
  assert (Hr_lt : r < length h).
  { apply lookup_lt_is_Some. unfold deref in Her.
    destruct (h !! r); [by eexists|done]. }
  assert (He1 : deref h1 root = Some e).
  { unfold deref, h1. by rewrite list_lookup_insert_ne. }
  assert (He2 : deref h2 root = Some e2).
  { unfold deref, h2. rewrite list_lookup_insert_eq; [done|].
    unfold h1. by rewrite length_insert. }
  assert (Her2 : deref h2 r = Some (set_parent er root)).
  { unfold deref, h2. rewrite list_lookup_insert_ne by done.
    unfold h1. by rewrite list_lookup_insert_eq. }
  assert (Hitems : ∃ tr2,
    transform_items (λ cn, transform (S fuel) fun_ cn false) root
      [k1; k2] [k1; k2] (mkState h (tr ++ [(root, VNode root)]))
    = (Exn ValueError, mkState h2 tr2)).
  { eexists. cbn [transform_items]. unfold bind at 1.
    rewrite (get_node_Some root _ e) by done. cbn beta iota.
    rewrite Hargs. cbn [dict_keys fmap list_fmap fst dict_get].
    rewrite !decide_True by done.
    cbn [transform_children is_list_arg]. unfold bind at 1. unfold bind at 1.
    unfold bind at 1.
    rewrite (transform_replaced fun_ fuel c1 r h _ Hpure (Hc1 h) Hrc).
    cbn beta iota. unfold bind at 1. cbn [assign_parent]. unfold bind at 1.
    rewrite (get_node_Some r _ er) by done. cbn beta iota.
    unfold put_node at 1. cbn [heap calls]. fold h1.
    unfold ret at 1. cbn beta iota. unfold bind at 1. unfold ret at 1.
    cbn beta iota. unfold ret at 1. cbn beta iota.
    unfold bind at 1. rewrite (get_node_Some root _ e) by done.
    cbn beta iota. unfold bind at 1. unfold put_node at 1.
    cbn [heap calls]. rewrite Hargs. cbn [dict_set].
    rewrite decide_True by done. fold e2. fold h2.
    unfold bind at 1. rewrite (get_node_Some root _ e2) by done.
    cbn beta iota. cbn [e2 args dict_keys fmap list_fmap fst dict_get].
    rewrite decide_True by done. rewrite decide_False by done.
    rewrite decide_True by done.
    cbn [transform_children]. unfold bind at 1. unfold bind at 1.
    unfold bind at 1.
    rewrite (transform_None fun_ fuel c2 h2 _ Hpure (Hc2 h2)).
    cbn beta iota. reflexivity. }
  destruct Hitems as [tr2 Hitems].
  unfold bind in Hout. rewrite Hitems in Hout. subst out.
  cbn [fst snd heap]. done.
Qed.

Lemma transform_failure_keeps_writes_witness :
  (transform 2 half_callback 0 false (mkState null_example [])).1
  = Exn ValueError
  ∧ deref (heap (transform 2 half_callback 0 false (mkState null_example [])).2) 0
    = Some (mkExpression "EQ"
              [("this", Single (VNode 3)); ("expression", Single (VNode 2))]
              None None)
  ∧ deref (heap (transform 2 half_callback 0 false (mkState null_example [])).2) 3
    = Some (mkExpression "Null" [] (Some 0) None).
Proof.
  apply (transform_failure_keeps_writes half_callback 0 null_example []
           0 1 2 3 "this" "expression"
           (mkExpression "EQ"
              [("this", Single (VNode 1)); ("expression", Single (VNode 2))]
              None None)
           (mkExpression "Null" [] None None));
    first [reflexivity | discriminate | lia | by intros ? | by intros ? ?].
Defined.

(** * [None] among the positional values *)

(** C2.  The test [args[arg_idx] is not None] of [from_arg_list] guards
    the fixed keys only.  On a variable-length class, a [None] at a
    position after the fixed keys is recorded: it is in the list bound to
    the last key, which is the slice [args[arg_idx:]] as given; and a
    [None] at the position of a fixed key leaves that key unbound.  So
    [Coalesce.from_arg_list([None, None])] skips the first [None] and binds
    [expressions] to [[None]]. *)
Theorem from_arg_list_none_tail (cls : variant) (args : list value)
    (fixed : list string) (last_key : string) (j : nat) :
  is_var_len_args cls = true →
  dict_keys (arg_types cls) = fixed ++ [last_key] →
  NoDup (fixed ++ [last_key]) →
  length fixed ≤ j → args !! j = Some VNone →
  (∃ d,
     from_arg_list_dict cls args = Val d
     ∧ dict_get last_key d = Some (Many (drop (length fixed) args))
     ∧ VNone ∈ drop (length fixed) args
     ∧ (∀ i k, fixed !! i = Some k → args !! i = Some VNone →
          dict_get k d = None))
  ∧ ¬ none_never_bound cls args
  ∧ from_arg_list_dict Coalesce [VNone; VNone]
    = Val [("expressions", Many [VNone])].
Proof.
  intros Hvar Hkeys Hnd Hj Hnone.
  pose proof (lookup_lt_Some _ _ _ Hnone) as Hlt.
  pose proof (from_arg_list_dict_var_len cls args fixed last_key Hvar Hkeys Hnd)
    as Hd.
  rewrite bool_decide_eq_true_2 in Hd by lia.
  apply NoDup_app in Hnd as (Hndf & Hdisj & _).
  assert (Hlast : last_key ∉ dict_keys (bind_positional fixed args)).
  { intros Hin. apply (Hdisj last_key); [|apply list_elem_of_here].
    eapply elem_of_sublist; [exact Hin|apply bind_positional_sublist]. }
  assert (Hget : dict_get last_key
                   (bind_positional fixed args
                    ++ [(last_key, Many (drop (length fixed) args))])
                 = Some (Many (drop (length fixed) args))).
  { rewrite dict_get_app_fresh by done. simpl. by rewrite decide_True. }
  assert (Hin : VNone ∈ drop (length fixed) args).
  { apply list_elem_of_lookup. exists (j - length fixed).
    rewrite lookup_drop. by replace (length fixed + (j - length fixed)) with j by lia. }
  split; [|split; [|reflexivity]].
  - eexists. split; [exact Hd|]. split; [exact Hget|]. split; [exact Hin|].
    intros i k Hi Hai.
    assert (Hk : dict_get k (bind_positional fixed args) = None).
    { rewrite (bind_positional_lookup fixed args i k Hndf Hi), Hai. done. }
    rewrite dict_get_app_fresh by (by apply dict_get_None).
    simpl. rewrite decide_False; [done|].
    intros ->. apply (Hdisj last_key); [|apply list_elem_of_here].
    by apply (list_elem_of_lookup_2 _ i).
  - intros Hnever. destruct (Hnever _ Hd) as [_ Hmany].
    by apply (Hmany last_key _ Hget).
Qed.

Lemma from_arg_list_none_tail_witness :
  (∃ d,
     from_arg_list_dict Coalesce [VNone; VNone] = Val d
     ∧ dict_get "expressions" d = Some (Many (drop 1 [VNone; VNone]))
     ∧ VNone ∈ drop 1 [VNone; VNone]
     ∧ (∀ i k, ["this"] !! i = Some k → [VNone; VNone] !! i = Some VNone →
          dict_get k d = None))
  ∧ ¬ none_never_bound Coalesce [VNone; VNone].
Proof.
  assert (Hnd : NoDup (["this"] ++ ["expressions"])).
  { apply (bool_decide_unpack _). vm_compute. reflexivity. }
  pose proof (from_arg_list_none_tail Coalesce [VNone; VNone] ["this"]
                "expressions" 1 eq_refl eq_refl Hnd (le_n 1) eq_refl)
    as (H1 & H2 & _).
  exact (conj H1 H2).
Defined.

(** * [Column] nodes whose arguments are strings *)

(** C5 fails as stated on its own instance: with the strings ["Foo"] and
    ["T"] for arguments, as in [Column(this="Foo", table="T")], the name
    is read from the attribute [text] of a string; the comparison with
    [Column(this="foo", table="t")] and the hash end with an
    [AttributeError], whatever the fuel for which they end. *)
Lemma Column_string_counterexample :
  __eq__ 1 Column_string_example 0 (VNode 1) = Exn AttributeError
  ∧ __hash__ 1 Column_string_example 0 = Exn AttributeError
  ∧ __hash__ 1 Column_string_example 1 = Exn AttributeError
  ∧ (∀ fuel, __eq__ fuel Column_string_example 0 (VNode 1) ≠ Val true).
Proof.
  split; [reflexivity|]. split; [reflexivity|]. split; [reflexivity|].
  intros [|fuel]; [done|]. cbn [__eq__].
  change (deref Column_string_example 0)
    with (Some (mkExpression "Column"
            [("this", Single (VStr "Foo")); ("table", Single (VStr "T"))]
            None None)).
  cbn beta iota. rewrite decide_True by done.
  unfold Column_eq.
  change (deref Column_string_example 1)
    with (Some (mkExpression "Column"
            [("this", Single (VStr "foo")); ("table", Single (VStr "t"))]
            None None)).
  cbn beta iota. rewrite decide_True by done.
  assert (Hname : Column_name fuel Column_string_example
            (mkExpression "Column"
               [("this", Single (VStr "Foo")); ("table", Single (VStr "T"))]
               None None) = Exn AttributeError).
  { unfold Column_name, _token_arg_text. cbn [args dict_get].
    rewrite decide_True by done. cbn [truthy].
    rewrite bool_decide_eq_false_2 by done. cbn [negb].
    apply attr_text_str. }
  by rewrite Hname.
Qed.

(** * Subtrees *)

(** The nodes of the tree at a location are determined by the store. *)
Lemma tree_at_fun n : ∀ m h l fp fp',
  tree_at n h l fp → tree_at m h l fp' → fp = fp'.
Proof.
  induction n as [|n IH]; intros m h l fp fp'; [done|].
  destruct m as [|m]; [done|].
  intros (e & fps & He & _ & Hch & -> & _) (e' & fps' & He' & _ & Hch' & -> & _).
  rewrite He in He'. injection He' as <-. f_equal. f_equal.
  revert fps' Hch'. induction Hch as [|c fc cs fps Hc _ IHch]; intros fps' Hch'.
  - by apply Forall2_nil_inv_l in Hch'.
  - apply Forall2_cons_inv_l in Hch' as (fc' & fps2 & Hc' & Hch' & ->).
    f_equal; [by apply (IH m h c)|by apply IHch].
Qed.

Lemma forest_closed n h : ∀ roots fps,
  (∀ c fc, tree_at n h c fc → closed h fc) →
  Forall2 (tree_at n h) roots fps → closed h (concat fps).
Proof.
  intros roots fps Hn Hch. induction Hch as [|c fc cs fps Hc _ IHch].
  - intros x m fpx Hx. by apply elem_of_nil in Hx.
  - intros x m fpx Hx Htx. cbn [concat] in Hx |- *.
    apply elem_of_app in Hx as [Hx|Hx].
    + intros y Hy. apply elem_of_app. left. by apply (Hn c fc Hc x m fpx).
    + intros y Hy. apply elem_of_app. right. by apply (IHch x m fpx).
Qed.

Lemma tree_closed n : ∀ h l fp, tree_at n h l fp → closed h fp.
Proof.
  induction n as [|n IH]; intros h l fp; [done|].
  intros Htree x m fpx Hx Htx.
  pose proof Htree as (e & fps & He & _ & Hch & -> & _).
  apply elem_of_cons in Hx as [->|Hx].
  - by rewrite (tree_at_fun _ _ _ _ _ _ Htx Htree).
  - intros y Hy. apply list_elem_of_further.
    by apply (forest_closed n h _ _ (IH h) Hch x m fpx).
Qed.

Lemma closed_app h F1 F2 : closed h F1 → closed h F2 → closed h (F1 ++ F2).
Proof.
  intros H1 H2 x m fpx [Hx|Hx]%elem_of_app Htx y Hy; apply elem_of_app.
  - left. by apply (H1 x m fpx).
  - right. by apply (H2 x m fpx).
Qed.

Lemma closed_nil h : closed h [].
Proof. intros x m fpx Hx. by apply elem_of_nil in Hx. Qed.

Lemma forest_allocated n h : ∀ roots fps,
  Forall2 (tree_at n h) roots fps → ∀ x, x ∈ concat fps → x < length h.
Proof.
  intros roots fps Hch. induction Hch as [|c fc cs fps Hc _ IHch]; intros x Hx.
  - by apply elem_of_nil in Hx.
  - cbn [concat] in Hx. apply elem_of_app in Hx as [Hx|Hx]; [|by apply IHch].
    destruct (tree_at_allocated n h c fc x Hc Hx) as [e He].
    by apply deref_Some_lt in He.
Qed.

(** * Stretches of a pass *)

Lemma answers_mono new new' a b :
  new ⊆ new' → answers new a b → answers new' a b.
Proof. intros Hsub. destruct a; try done. apply Hsub. Qed.

Lemma args_answered_mono new new' d d' :
  new ⊆ new' → args_answered new d d' → args_answered new' d d'.
Proof.
  intros Hsub Hd. apply (Forall2_impl _ _ _ _ Hd).
  intros kv kv' (Hk & Hl & Hvs). split; [done|]. split; [done|].
  apply (Forall2_impl _ _ _ _ Hvs). intros a b. by apply answers_mono.
Qed.

Lemma args_answered_app new d1 d1' d2 d2' :
  args_answered new d1 d1' → args_answered new d2 d2' →
  args_answered new (d1 ++ d2) (d1' ++ d2').
Proof. apply Forall2_app. Qed.

Lemma args_answered_keys new d d' :
  args_answered new d d' → dict_keys d' = dict_keys d.
Proof.
  intros Hd. unfold dict_keys.
  induction Hd as [|kv kv' d d' (Hk & _) _ IH]; [done|].
  rewrite !fmap_cons. by f_equal.
Qed.

Lemma elem_of_record_fst (new : list (loc * value)) x v :
  (x, v) ∈ new → x ∈ new.*1.
Proof. intros Hin. apply list_elem_of_fmap. by exists (x, v). Qed.

Lemma record_within (F : list loc) (new : list (loc * value)) x :
  Forall (λ c, c.1 ∈ F) new → x ∈ new.*1 → x ∈ F.
Proof.
  intros Hall (c & -> & Hc)%list_elem_of_fmap.
  by apply (proj1 (Forall_forall _ _) Hall).
Qed.

(** A stretch that makes no call. *)
Lemma pass_core_silent W h h' :
  length h ≤ length h' →
  (∀ y, y < length h → y ∉ W → agree_at h h' y) →
  pass_core W [] h [] h'.
Proof.
  intros Hlen Hag. split; [done|]. split; [constructor|].
  split; [constructor|]. split.
  - intros x v m fpx Hx. by apply elem_of_nil in Hx.
  - intros y Hy HW _. by apply Hag.
Qed.

Lemma pass_core_mono W W' F F' h new h' :
  W ⊆ W' → F ⊆ F' → pass_core W F h new h' → pass_core W' F' h new h'.
Proof.
  intros HW HF (Hlen & Hall & Hnd & Hnb & Hag).
  split; [done|]. split.
  { apply (Forall_impl _ _ _ Hall). intros c. apply HF. }
  split; [done|]. split; [done|].
  intros y Hy HyW. apply Hag; [done|]. intros ?. apply HyW. by apply HW.
Qed.

(** Two stretches in a row, on trees that share no node. *)
Lemma pass_core_app W F1 F2 h h1 h2 new1 new2 :
  pass_core W F1 h new1 h1 →
  pass_core W F2 h1 new2 h2 →
  (∀ y, y ∈ F1 → y ∉ F2) →
  closed h F1 → closed h F2 →
  (∀ y, y ∈ F2 → y < length h) →
  (∀ y, y ∈ W → y ∉ F2) →
  pass_core W (F1 ++ F2) h (new1 ++ new2) h2.
Proof.
  intros (Hlen1 & Hall1 & Hnd1 & Hnb1 & Hag1) (Hlen2 & Hall2 & Hnd2 & Hnb2 & Hag2)
    Hdisj Hcl1 Hcl2 Hlt2 HW.
  assert (Hkeep : ∀ y, y ∈ F2 → agree_at h h1 y).
  { intros y Hy. apply Hag1; [by apply Hlt2| |].
    - intros HyW. by apply (HW y).
    - intros Hin%elem_of_record_fst. apply (record_within F1) in Hin; [|done].
      by apply (Hdisj y). }
  split; [lia|]. split.
  { apply Forall_app. split.
    - apply (Forall_impl _ _ _ Hall1). intros c Hc. apply elem_of_app. by left.
    - apply (Forall_impl _ _ _ Hall2). intros c Hc. apply elem_of_app. by right. }
  split.
  { rewrite fmap_app. apply NoDup_app. split; [done|]. split; [|done].
    intros y Hy1 Hy2. apply (Hdisj y); by eapply record_within. }
  split.
  - intros x v m fpx [Hx|Hx]%elem_of_app Hv Htx y Hy Hne;
      rewrite fmap_app; apply not_elem_of_app.
    + assert (HxF : x ∈ F1) by (eapply record_within; [done|];
                                 by eapply elem_of_record_fst).
      split; [by apply (Hnb1 x v m fpx)|].
      intros Hy2. apply (Hdisj y); [by apply (Hcl1 x m fpx)|].
      by eapply record_within.
    + assert (HxF : x ∈ F2) by (eapply record_within; [done|];
                                 by eapply elem_of_record_fst).
      assert (Htx1 : tree_at m h1 x fpx).
      { apply (tree_at_frame m h); [done|]. intros z Hz. apply Hkeep.
        by apply (Hcl2 x m fpx). }
      split; [|by apply (Hnb2 x v m fpx)].
      intros Hy1. apply (Hdisj y); [by eapply record_within|].
      by apply (Hcl2 x m fpx).
  - intros y Hy HyW Hnew. apply not_elem_of_app in Hnew as [Hn1 Hn2].
    apply (agree_at_trans _ h1); [by apply Hag1|].
    apply Hag2; [lia|done|done].
Qed.

Lemma kept_answered_app W F1 F2 h h1 h2 new1 new2 :
  pass_core W F1 h new1 h1 →
  pass_core W F2 h1 new2 h2 →
  (∀ y, y ∈ F1 → y ∉ F2) →
  (∀ y, y ∈ W → (y ∉ F1) ∧ (y ∉ F2)) →
  kept_answered h new1 h1 → kept_answered h1 new2 h2 →
  kept_answered h (new1 ++ new2) h2.
Proof.
  intros (Hlen1 & Hall1 & Hnd1 & Hnb1 & Hag1) (Hlen2 & Hall2 & Hnd2 & Hnb2 & Hag2)
    Hdisj HW Hk1 Hk2 p e [Hp|Hp]%elem_of_app He.
  - assert (HpF : p ∈ F1) by (eapply record_within; [done|];
                               by eapply elem_of_record_fst).
    destruct (Hk1 p e Hp He) as (e1 & He1 & Hcls & Hkey & Hargs).
    assert (Hag : agree_at h1 h2 p).
    { apply Hag2; [by apply deref_Some_lt in He1| |].
      - intros HpW. by destruct (HW p HpW).
      - intros Hin%elem_of_record_fst. apply (record_within F2) in Hin; [|done].
        by apply (Hdisj p). }
    destruct (agree_at_Some h1 h2 p e1 Hag He1) as (e2 & He2 & Hc2 & Ha2 & Hk2').
    exists e2. split; [done|]. split; [congruence|]. split; [congruence|].
    rewrite Ha2. apply (args_answered_mono new1); [|done].
    intros c Hc. apply elem_of_app. by left.
  - assert (HpF : p ∈ F2) by (eapply record_within; [done|];
                               by eapply elem_of_record_fst).
    assert (Hag : agree_at h h1 p).
    { apply Hag1; [by apply deref_Some_lt in He| |].
      - intros HpW. by destruct (HW p HpW).
      - intros Hin%elem_of_record_fst. apply (record_within F1) in Hin; [|done].
        by apply (Hdisj p). }
    destruct (agree_at_Some h h1 p e Hag He) as (e1 & He1 & Hc1 & Ha1 & Hk1').
    destruct (Hk2 p e1 Hp He1) as (e2 & He2 & Hcls & Hkey & Hargs).
    exists e2. split; [done|]. split; [congruence|]. split; [congruence|].
    rewrite <- Ha1. apply (args_answered_mono new2); [|done].
    intros c Hc. apply elem_of_app. by right.
Qed.

Lemma kept_answered_nil h h' : kept_answered h [] h'.
Proof. intros p e Hp. by apply elem_of_nil in Hp. Qed.

(** * The levels of the pass *)

(** Two stretches in a row. *)
Lemma pass_result_bind {A B} W1 W F1 F2 h tr (m : M A) (f : A → M B)
    (Q1 : A → list (loc * value) → store → Prop)
    (Q2 : A → list (loc * value) → B → list (loc * value) → store → Prop)
    (Q : B → list (loc * value) → store → Prop) :
  pass_result W1 F1 h tr (m (mkState h tr)) Q1 →
  W1 ⊆ W →
  (∀ y, y ∈ F1 → y ∉ F2) →
  closed h F1 → closed h F2 →
  (∀ y, y ∈ F2 → y < length h) →
  (∀ y, y ∈ W → (y ∉ F1) ∧ (y ∉ F2)) →
  (∀ a st1 new1,
     m (mkState h tr) = (Val a, st1) → calls st1 = tr ++ new1 →
     pass_core W1 F1 h new1 (heap st1) → Q1 a new1 (heap st1) →
     pass_result W F2 (heap st1) (calls st1) (f a st1) (Q2 a new1)) →
  (∀ a new1 h1 b new2 h2,
     Q1 a new1 h1 → Q2 a new1 b new2 h2 → Q b (new1 ++ new2) h2) →
  pass_result W (F1 ++ F2) h tr (bind m f (mkState h tr)) Q.
Proof.
  intros (new1 & Hc1 & Hcore1 & Hok1) HW1 Hdisj Hcl1 Hcl2 Hlt2 HW Hf HQ.
  assert (Hcore1' : pass_core W F1 h new1 (heap (m (mkState h tr)).2))
    by (by apply (pass_core_mono W1 W F1 F1)).
  unfold bind.
  destruct (m (mkState h tr)) as [[a|ex| |] st1] eqn:Hrun; cbn [fst snd] in *.
  - destruct (Hok1 a eq_refl) as [Hk1 HQ1].
    destruct (Hf a st1 new1 eq_refl Hc1 Hcore1 HQ1) as (new2 & Hc2 & Hcore2 & Hok2).
    exists (new1 ++ new2). split; [by rewrite Hc2, Hc1, app_assoc|]. split.
    + apply (pass_core_app W F1 F2 h (heap st1)); try done.
      intros y Hy. by destruct (HW y Hy).
    + intros b Hb. destruct (Hok2 b Hb) as [Hk2 HQ2]. split.
      * by apply (kept_answered_app W F1 F2 h (heap st1)).
      * by apply (HQ a new1 (heap st1) b new2).
  - exists new1. split; [done|]. split; [|done].
    apply (pass_core_mono W W F1); [done| |done].
    intros y Hy. apply elem_of_app. by left.
  - exists new1. split; [done|]. split; [|done].
    apply (pass_core_mono W W F1); [done| |done].
    intros y Hy. apply elem_of_app. by left.
  - exists new1. split; [done|]. split; [|done].
    apply (pass_core_mono W W F1); [done| |done].
    intros y Hy. apply elem_of_app. by left.
Qed.

(** A stretch that makes no call. *)
Lemma pass_result_step {B} W (m : M B) st
    (Q : B → list (loc * value) → store → Prop) :
  calls (m st).2 = calls st →
  length (heap st) ≤ length (heap (m st).2) →
  (∀ y, y < length (heap st) → y ∉ W → agree_at (heap st) (heap (m st).2) y) →
  (∀ b, (m st).1 = Val b → Q b [] (heap (m st).2)) →
  pass_result W [] (heap st) (calls st) (m st) Q.
Proof.
  intros Hc Hlen Hag HQ. exists []. split; [by rewrite app_nil_r|].
  split; [by apply pass_core_silent|].
  intros b Hb. split; [apply kept_answered_nil|by apply HQ].
Qed.

Lemma pass_result_mono {A} W W' F F' h tr (out : res A * state)
    (Q Q' : A → list (loc * value) → store → Prop) :
  W ⊆ W' → F ⊆ F' →
  (∀ a new h', Q a new h' → Q' a new h') →
  pass_result W F h tr out Q → pass_result W' F' h tr out Q'.
Proof.
  intros HW HF HQ (new & Hc & Hcore & Hok). exists new.
  split; [done|]. split; [by apply (pass_core_mono W W' F F')|].
  intros a Ha. destruct (Hok a Ha). split; [done|by apply HQ].
Qed.

Lemma dict_set_middle {A} (pre post : list (string * A)) k v v' :
  k ∉ dict_keys pre →
  dict_set k v' (pre ++ (k, v) :: post) = pre ++ (k, v') :: post.
Proof.
  induction pre as [|[k0 v0] pre IH]; simpl.
  - intros _. by rewrite decide_True.
  - intros [Hne Hk]%not_elem_of_cons. rewrite decide_False by done.
    f_equal. by apply IH.
Qed.

(** The assignment of a parent writes no class, arguments or [arg_key]
    and makes no call. *)
Lemma assign_parent_keeps r x st :
  calls (assign_parent r x st).2 = calls st
  ∧ length (heap (assign_parent r x st).2) = length (heap st)
  ∧ ∀ y, agree_at (heap st) (heap (assign_parent r x st).2) y.
Proof.
  destruct r as [| | | | |c]; try done.
  cbn [assign_parent]. unfold bind, get_node.
  destruct (deref (heap st) c) as [e|] eqn:He; [|done].
  unfold put_node. cbn [fst snd heap calls].
  split; [done|]. split; [by rewrite length_insert|].
  intros y. destruct (decide (y = c)) as [->|Hne].
  - unfold agree_at.
    rewrite deref_insert_eq by (by apply deref_Some_lt in He). by rewrite He.
  - apply agree_at_ext. by rewrite list_lookup_insert_ne.
Qed.

Section pass_levels.
Context (rec : loc → M value) (n : nat).
Context (Hrec : ∀ h tr c fc, tree_at n h c fc →
           pass_result [] fc h tr (rec c (mkState h tr))
             (λ v new _, head new = Some (c, v))).

(** The pass on a child node, followed by the assignment of its parent. *)
Lemma transform_child_pass x c fc h tr :
  tree_at n h c fc →
  pass_result [] fc h tr
    ((let* r := rec c in let* _ := assign_parent r x in ret r) (mkState h tr))
    (λ v new _, head new = Some (c, v)).
Proof using Hrec.
  intros Htree.
  rewrite <- (app_nil_r fc).
  apply (pass_result_bind [] [] fc [] h tr (rec c) _
           (λ v new _, head new = Some (c, v))
           (λ v new1 v' new2 _, v' = v ∧ new2 = [])).
  - by apply Hrec.
  - done.
  - intros y _ Hy. by apply elem_of_nil in Hy.
  - by apply (tree_closed n h c).
  - apply closed_nil.
  - intros y Hy. by apply elem_of_nil in Hy.
  - intros y Hy. by apply elem_of_nil in Hy.
  - intros r st1 new1 Hrun Hc1 Hcore1 Hhead.
    destruct (assign_parent_keeps r x st1) as (Hc & Hlen & Hag).
    apply pass_result_step.
    + unfold bind. destruct (assign_parent r x st1) as [[[]|ex| |] st2]; done.
    + unfold bind. destruct (assign_parent r x st1) as [[[]|ex| |] st2];
        simpl in *; lia.
    + intros y Hy _. unfold bind.
      destruct (assign_parent r x st1) as [[[]|ex| |] st2]; by apply Hag.
    + intros b. unfold bind.
      destruct (assign_parent r x st1) as [[[]|ex| |] st2]; try done.
      by intros [= <-].
  - intros a new1 h1 b new2 h2 Hhead [-> ->]. by rewrite app_nil_r.
Qed.

(** The loop over the values of one argument. *)
Lemma transform_children_pass x : ∀ vs h tr fps,
  Forall2 (tree_at n h) (node_locs vs) fps →
  NoDup (concat fps) →
  pass_result [] (concat fps) h tr
    (transform_children rec x vs (mkState h tr))
    (λ ncs new _, Forall2 (answers new) vs ncs).
Proof using Hrec.
  induction vs as [|v vs IH]; intros h tr fps Hch Hnd.
  - apply Forall2_nil_inv_l in Hch as ->.
    apply (pass_result_step [] (ret []) (mkState h tr)); try done.
    intros b [= <-]. constructor.
  - assert (Hskip : (∀ c, v ≠ VNode c) →
      pass_result [] (concat fps) h tr
        (transform_children rec x (v :: vs) (mkState h tr))
        (λ ncs new _, Forall2 (answers new) (v :: vs) ncs)).
    { intros Hv.
      assert (Hlocs : node_locs (v :: vs) = node_locs vs)
        by (destruct v; try done; by destruct (Hv l)).
      rewrite Hlocs in Hch. cbn [transform_children].
      rewrite (bind_Val _ _ _ v (mkState h tr))
        by (by destruct v; try done; destruct (Hv l)).
      destruct (IH h tr fps Hch Hnd) as (new & Hc & Hcore & Hok).
      exists new. unfold bind.
      destruct (transform_children rec x vs (mkState h tr))
        as [[ncs|ex| |] st1]; cbn [fst snd ret] in *;
        (split; [done|]; split; [done|]); [|done..].
      intros a [= <-]. destruct (Hok ncs eq_refl) as [Hk HQ].
      split; [done|]. constructor; [|done].
      by destruct v; try done; destruct (Hv l). }
    destruct v as [| | | | |c]; try (by apply Hskip). clear Hskip.
    change (node_locs (VNode c :: vs)) with (c :: node_locs vs) in Hch.
    apply Forall2_cons_inv_l in Hch as (fc & fps' & Htree & Hch & ->).
    cbn [concat] in Hnd |- *.
    apply NoDup_app in Hnd as (Hndc & Hdisj & Hndfps).
    cbn [transform_children].
    apply (pass_result_bind [] [] fc (concat fps') h tr _ _
             (λ v new _, head new = Some (c, v))
             (λ v new1 ncs new2 _,
                ∃ rest, ncs = v :: rest ∧ Forall2 (answers new2) vs rest)).
    + by apply transform_child_pass.
    + done.
    + done.
    + by apply (tree_closed n h c).
    + apply (forest_closed n h _ _ (tree_closed n h) Hch).
    + by apply (forest_allocated n h _ _ Hch).
    + intros y Hy. by apply elem_of_nil in Hy.
    + intros r [h1 tr1] new1 Hrun Hc1 Hcore1 Hhead. cbn [heap calls] in *.
      assert (Hch1 : Forall2 (tree_at n h1) (node_locs vs) fps').
      { destruct Hcore1 as (_ & Hall1 & _ & _ & Hag1).
        apply (Forall2_impl_elem _ _ _ _ Hch). intros c' fc' _ Hfc' Htree'.
        apply (tree_at_frame n h); [done|]. intros y Hy.
        assert (Hy' : y ∈ concat fps') by (by apply (elem_of_concat_2 _ fc')).
        apply Hag1; [by apply (forest_allocated n h _ _ Hch)
                    |by intros ?%elem_of_nil|].
        intros Hin%elem_of_record_fst. apply (record_within fc) in Hin; [|done].
        by apply (Hdisj y). }
      destruct (IH h1 tr1 fps' Hch1 Hndfps) as (new2 & Hc2 & Hcore2 & Hok2).
      exists new2. unfold bind.
      destruct (transform_children rec x vs (mkState h1 tr1))
        as [[ncs|ex| |] st2]; cbn [fst snd ret] in *;
        (split; [done|]; split; [done|]); [|done..].
      intros a [= <-]. destruct (Hok2 ncs eq_refl) as [Hk HQ].
      split; [done|]. by exists ncs.
    + intros r new1 h1 ncs new2 h2 Hhead (rest & -> & Hrest).
      constructor.
      * cbn [answers]. apply elem_of_app. left.
        destruct new1 as [|c0 new1]; [done|]. injection Hhead as ->.
        apply list_elem_of_here.
      * apply (Forall2_impl _ _ _ _ Hrest). intros a b.
        apply answers_mono. intros y Hy. apply elem_of_app. by right.
Qed.

(** The loop over the arguments. *)
Lemma transform_items_pass x keys0 : ∀ its h tr fps e pre,
  deref h x = Some e →
  args e = pre ++ its →
  NoDup (dict_keys (args e)) →
  dict_keys (args e) = keys0 →
  Forall2 (tree_at n h) (flat_map (λ kv, node_locs (ensure_list kv.2)) its) fps →
  NoDup (x :: concat fps) →
  pass_result [x] (concat fps) h tr
    (transform_items rec x keys0 (dict_keys its) (mkState h tr))
    (λ _ new h',
       ∃ e' its',
         deref h' x = Some e' ∧ cls e' = cls e ∧ arg_key e' = arg_key e
         ∧ args e' = pre ++ its' ∧ args_answered new its its').
Proof using Hrec.
  induction its as [|[k s] its IH]; intros h tr fps e pre He Hargs Hkeys Hk0 Hch Hnd.
  - apply Forall2_nil_inv_l in Hch as ->.
    cbn [transform_items dict_keys fmap list_fmap].
    rewrite (bind_Val _ _ _ e (mkState h tr)) by (by apply get_node_Some).
    rewrite decide_True by done.
    apply (pass_result_step [x] (ret tt) (mkState h tr)); try done.
    intros [] _. exists e, []. repeat split; try done. constructor.
  - change (dict_keys ((k, s) :: its)) with (k :: dict_keys its).
    change (flat_map _ ((k, s) :: its))
      with (node_locs (ensure_list s)
            ++ flat_map (λ kv : string * slot, node_locs (ensure_list kv.2)) its)
      in Hch.
    apply Forall2_app_inv_l in Hch as (fps1 & fps2 & Hch1 & Hch2 & ->).
    rewrite concat_app in Hnd |- *.
    apply NoDup_cons in Hnd as [Hx Hnd].
    apply not_elem_of_app in Hx as [Hx1 Hx2].
    apply NoDup_app in Hnd as (Hnd1 & Hdisj & Hnd2).
    assert (Hkpre : k ∉ dict_keys pre).
    { rewrite Hargs in Hkeys. unfold dict_keys in Hkeys |- *.
      rewrite fmap_app, fmap_cons in Hkeys.
      apply NoDup_app in Hkeys as (_ & Hkeys & _).
      intros Hin. apply (Hkeys k Hin). apply list_elem_of_here. }
    assert (Hget : dict_get k (args e) = Some s).
    { rewrite Hargs. apply dict_get_middle. by rewrite <- Hargs. }
    cbn [transform_items].
    rewrite (bind_Val _ _ _ e (mkState h tr)) by (by apply get_node_Some).
    rewrite decide_True by done. rewrite Hget.
    change (match s with Many vs => vs | Single a => [a] end)
      with (ensure_list s).
    set (slot_of := λ ncs : list value,
           if is_list_arg s then Many ncs
           else Single (default VNone (head ncs))).
    apply (pass_result_bind [] [x] (concat fps1) (concat fps2) h tr _ _
             (λ ncs new _, Forall2 (answers new) (ensure_list s) ncs)
             (λ ncs new1 _ new2 h',
                ∃ e' its',
                  deref h' x = Some e' ∧ cls e' = cls e ∧ arg_key e' = arg_key e
                  ∧ args e' = (pre ++ [(k, slot_of ncs)]) ++ its'
                  ∧ args_answered new2 its its')).
    + by apply transform_children_pass.
    + by intros y ?%elem_of_nil.
    + done.
    + apply (forest_closed n h _ _ (tree_closed n h) Hch1).
    + apply (forest_closed n h _ _ (tree_closed n h) Hch2).
    + by apply (forest_allocated n h _ _ Hch2).
    + intros y ->%list_elem_of_singleton. done.
    + intros ncs [h1 tr1] new1 Hrun Hc1 Hcore1 HQ1. cbn [heap calls] in *.
      pose proof Hcore1 as (Hlen1 & Hall1 & _ & _ & Hag1).
      assert (Hagx : agree_at h h1 x).
      { apply Hag1; [by apply deref_Some_lt in He|by intros ?%elem_of_nil|].
        intros Hin%elem_of_record_fst. by apply (record_within (concat fps1)) in Hin. }
      destruct (agree_at_Some h h1 x e Hagx He) as (e1 & He1 & Hcls1 & Hargs1 & Hkey1).
      assert (Hch2' : Forall2 (tree_at n h1)
                (flat_map (λ kv : string * slot, node_locs (ensure_list kv.2)) its) fps2).
      { apply (Forall2_impl_elem _ _ _ _ Hch2). intros c' fc' _ Hfc' Htree'.
        apply (tree_at_frame n h); [done|]. intros y Hy.
        assert (Hy' : y ∈ concat fps2) by (by apply (elem_of_concat_2 _ fc')).
        apply Hag1; [by apply (forest_allocated n h _ _ Hch2)
                    |by intros ?%elem_of_nil|].
        intros Hin%elem_of_record_fst.
        apply (record_within (concat fps1)) in Hin; [|done].
        by apply (Hdisj y). }
      rewrite (bind_Val _ _ _ e1 (mkState h1 tr1)) by (by apply get_node_Some).
      set (e2 := mkExpression (cls e1) (dict_set k (slot_of ncs) (args e1))
                              (_parent e1) (arg_key e1)).
      assert (Hwrite :
        (match is_list_arg s, ncs with
         | true, _ =>
             put_node x (mkExpression (cls e1) (dict_set k (Many ncs) (args e1))
                                      (_parent e1) (arg_key e1))
         | false, first :: _ =>
             put_node x (mkExpression (cls e1) (dict_set k (Single first) (args e1))
                                      (_parent e1) (arg_key e1))
         | false, [] => raise IndexError
         end) = put_node x e2).
      { unfold e2, slot_of. destruct s as [a|vs]; cbn [is_list_arg]; [|done].
        cbn [ensure_list] in HQ1.
        apply Forall2_cons_inv_l in HQ1 as (b & rest & _ & _ & ->). done. }
      rewrite Hwrite. clear Hwrite.
      pose proof (deref_Some_lt _ _ _ He1) as Hlt1.
      set (h2 := <[x := Some e2]> h1).
      assert (Hargs2 : args e2 = (pre ++ [(k, slot_of ncs)]) ++ its).
      { unfold e2. cbn [args]. rewrite Hargs1, Hargs.
        rewrite <- app_assoc. cbn [app]. by apply dict_set_middle. }
      assert (Hkeys2 : dict_keys (args e2) = dict_keys (args e)).
      { rewrite Hargs2, Hargs. unfold dict_keys.
        by rewrite <- app_assoc, !fmap_app, !fmap_cons. }
      change (concat fps2) with ([] ++ concat fps2).
      apply (pass_result_bind [x] [x] [] (concat fps2) h1 tr1 _ _
               (λ _ new _, new = [])
               (λ _ _ _ new2 h',
                  ∃ e' its',
                    deref h' x = Some e' ∧ cls e' = cls e ∧ arg_key e' = arg_key e
                    ∧ args e' = (pre ++ [(k, slot_of ncs)]) ++ its'
                    ∧ args_answered new2 its its')).
      * apply (pass_result_step [x] (put_node x e2) (mkState h1 tr1)).
        -- done.
        -- unfold put_node. cbn [snd heap]. by rewrite length_insert.
        -- intros y Hy Hyx. unfold put_node. cbn [snd heap].
           apply agree_at_ext. apply list_lookup_insert_ne.
           intros ->. apply Hyx. apply list_elem_of_here.
        -- done.
      * done.
      * by intros y ?%elem_of_nil.
      * apply closed_nil.
      * apply (forest_closed n h1 _ _ (tree_closed n h1) Hch2').
      * by apply (forest_allocated n h1 _ _ Hch2').
      * intros y ->%list_elem_of_singleton.
        split; [by intros ?%elem_of_nil|done].
      * intros [] st2 new0 Hput _ _ _.
        unfold put_node in Hput. cbn [heap calls] in Hput.
        injection Hput as <-. cbn [heap calls]. fold h2.
        apply (pass_result_mono [x] [x] (concat fps2) (concat fps2) h2 tr1 _
                 (λ _ new h',
                    ∃ e' its',
                      deref h' x = Some e' ∧ cls e' = cls e2
                      ∧ arg_key e' = arg_key e2
                      ∧ args e' = (pre ++ [(k, slot_of ncs)]) ++ its'
                      ∧ args_answered new its its')); [done|done| |].
        { intros [] new h' (e' & its' & He' & Hcls' & Hkey' & Hargs' & Hans).
          exists e', its'. split; [done|]. split; [by rewrite Hcls'|].
          split; [by rewrite Hkey'|]. done. }
        apply (IH h2 tr1 fps2 e2 (pre ++ [(k, slot_of ncs)])).
        -- by apply deref_insert_eq.
        -- done.
        -- by rewrite Hkeys2.
        -- by rewrite Hkeys2.
        -- apply (Forall2_impl_elem _ _ _ _ Hch2'). intros c' fc' _ Hfc' Htree'.
           apply (tree_at_frame n h1); [done|]. intros y Hy.
           apply agree_at_ext. apply list_lookup_insert_ne. intros ->.
           apply Hx2. by apply (elem_of_concat_2 _ fc').
        -- by apply NoDup_cons.
      * intros [] new0 h1' [] new2 h2' -> HQ2. done.
    + intros ncs new1 h1 [] new2 h2 HQ1 (e' & its' & He' & Hcls' & Hkey' & Hargs' & Hans).
      exists e', ((k, slot_of ncs) :: its').
      split; [done|]. split; [done|]. split; [done|].
      split; [by rewrite Hargs', <- app_assoc|].
      constructor.
      * split; [done|]. split; [unfold slot_of; by destruct s|].
        assert (Hslot : ensure_list (slot_of ncs) = ncs).
        { unfold slot_of. destruct s as [a|vs]; cbn [is_list_arg ensure_list]; [|done].
          cbn [ensure_list] in HQ1.
          apply Forall2_cons_inv_l in HQ1 as (b & rest & _ & Hrest & ->).
          by apply Forall2_nil_inv_l in Hrest as ->. }
        cbn [snd]. rewrite Hslot.
        apply (Forall2_impl _ _ _ _ HQ1). intros a b.
        apply answers_mono. intros y Hy. apply elem_of_app. by left.
      * apply (args_answered_mono new2); [|done].
        intros y Hy. apply elem_of_app. by right.
Qed.

End pass_levels.

(** * The calls of a pass over a tree *)

(** The call on the node [x], after which the store has grown. *)
Lemma pass_core_call (h added : store) x v fp :
  x ∈ fp → pass_core [] fp h [(x, v)] (h ++ added).
Proof.
  intros Hx. split; [rewrite length_app; lia|]. split; [by constructor|].
  split; [apply NoDup_singleton|]. split.
  - intros x' v' m fpx [= -> ->]%list_elem_of_singleton Hv Htx y Hy Hne.
    cbn. by intros ?%list_elem_of_singleton.
  - intros y Hy _ _. unfold agree_at. by rewrite deref_app_l.
Qed.

(** The record of the pass over the arguments of [x], completed by the
    call on [x] that came first. *)
Lemma pass_core_node (h added hout : store) x F new :
  pass_core [x] F (h ++ added) new hout →
  x ∉ F → closed h F →
  pass_core [] (x :: F) h ((x, VNode x) :: new) hout.
Proof.
  intros (Hlen & Hall & Hnd & Hnb & Hag) Hx Hcl.
  rewrite length_app in Hlen.
  split; [lia|]. split.
  { constructor; [apply list_elem_of_here|].
    apply (Forall_impl _ _ _ Hall). intros c Hc. by apply list_elem_of_further. }
  split.
  { rewrite fmap_cons. apply NoDup_cons. split; [|done].
    intros Hin. by apply (record_within F) in Hin. }
  split.
  - intros x' v m fpx [[= -> ->]|Hin]%elem_of_cons Hv Htx y Hy Hne; [done|].
    assert (Hx' : x' ∈ F)
      by (eapply record_within; [done|]; by eapply elem_of_record_fst).
    rewrite fmap_cons. apply not_elem_of_cons. split.
    + intros ->. apply Hx. by apply (Hcl x' m fpx).
    + apply (Hnb x' v m fpx); try done. by apply tree_at_app.
  - intros y Hy _ Hnew. apply not_elem_of_cons in Hnew as [Hne Hnew].
    apply (agree_at_trans _ (h ++ added)).
    + unfold agree_at. by rewrite deref_app_l.
    + apply Hag; [rewrite length_app; lia| |done].
      intros ->%list_elem_of_singleton. done.
Qed.

Lemma kept_answered_node (h added hout : store) x e e' new :
  kept_answered (h ++ added) new hout →
  deref h x = Some e → deref hout x = Some e' →
  cls e' = cls e → arg_key e' = arg_key e →
  args_answered new (args e) (args e') →
  kept_answered h ((x, VNode x) :: new) hout.
Proof.
  intros Hk He He' Hcls Hkey Hargs p ep [[= ->]|Hin]%elem_of_cons Hp.
  - rewrite He in Hp. injection Hp as <-. exists e'.
    split; [done|]. split; [done|]. split; [done|].
    apply (args_answered_mono new); [|done].
    intros c Hc. by apply list_elem_of_further.
  - destruct (Hk p ep Hin (deref_app_Some h added p ep Hp))
      as (e1 & He1 & Hc1 & Hk1 & Ha1).
    exists e1. split; [done|]. split; [done|]. split; [done|].
    apply (args_answered_mono new); [|done].
    intros c Hc. by apply list_elem_of_further.
Qed.

(** The pass in place on a tree. *)
Lemma transform_node_pass fun_ :
  creates_only fun_ → ∀ fuel n h tr x fp,
  tree_at n h x fp →
  pass_result [] fp h tr (transform fuel fun_ x false (mkState h tr))
    (λ v new _, head new = Some (x, v)).
Proof.
  intros Hco. induction fuel as [|fuel IH]; intros n h tr x fp Htree.
  { apply (pass_result_mono [] [] [] fp h tr _ (λ _ _ _, False)); try done.
    - by intros y ?%elem_of_nil.
    - by apply (pass_result_step [] out_of_fuel (mkState h tr)). }
  pose proof (tree_closed n h x fp Htree) as Hclosed.
  destruct n as [|n]; [done|].
  destruct Htree as (e & fps & He & Hkeys & Hch & -> & Hnd).
  cbn [transform]. rewrite (bind_Val _ _ _ x (mkState h tr)) by done.
  unfold bind at 1. unfold call at 1. cbn [heap calls].
  destruct (Hco x h) as [added Hadd].
  destruct (fun_ x h) as [h0 v]. cbn [fst] in Hadd. subst h0.
  assert (Hcall : pass_core [] (x :: concat fps) h [(x, v)] (h ++ added))
    by (apply pass_core_call, list_elem_of_here).
  assert (Hstop : v ≠ VNode x →
    ∀ r : res value,
      (∀ a, r = Val a → a = v) →
      pass_result [] (x :: concat fps) h tr
        (r, mkState (h ++ added) (tr ++ [(x, v)]))
        (λ v new _, head new = Some (x, v))).
  { intros Hv r Hr. exists [(x, v)]. split; [done|]. split; [done|].
    intros a ->%Hr. split; [|done].
    intros p ep Hin%list_elem_of_singleton. injection Hin as -> Hin.
    by destruct Hv. }
  destruct (is_None v) eqn:Hnone.
  { apply Hstop; [by destruct v|]. intros a. done. }
  destruct (negb (isinstance_Expression v)
            || negb (bool_decide (v = VNode x))) eqn:Htest.
  { apply Hstop; [|by intros a [= <-]].
    intros ->. cbn in Htest. by rewrite bool_decide_eq_true_2 in Htest. }
  assert (v = VNode x) as ->.
  { apply orb_false_iff in Htest as [_ Htest].
    apply negb_false_iff in Htest. by apply bool_decide_eq_true in Htest. }
  clear Hstop Hnone Htest.
  apply NoDup_cons in Hnd as [Hx Hndf].
  assert (Hcl : closed h (concat fps))
    by (apply (forest_closed n h _ _ (tree_closed n h) Hch)).
  set (tr0 := tr ++ [(x, VNode x)]).
  rewrite (bind_Val _ _ _ e (mkState (h ++ added) tr0))
    by (apply get_node_Some; by apply deref_app_Some).
  destruct (transform_items_pass (λ cn, transform fuel fun_ cn false) n (IH n)
              x (dict_keys (args e)) (args e) (h ++ added) tr0 fps e [])
    as (new & Hc & Hcore & Hok); try done.
  { by apply deref_app_Some. }
  { apply (Forall2_impl _ _ _ _ Hch). intros c fc. apply tree_at_app. }
  { by apply NoDup_cons. }
  exists ((x, VNode x) :: new). unfold bind.
  destruct (transform_items _ _ _ _ (mkState (h ++ added) tr0))
    as [[[]|ex| |] st1]; cbn [fst snd ret] in *.
  - split; [by rewrite Hc; unfold tr0; rewrite <- app_assoc|].
    split; [by apply (pass_core_node h added)|].
    intros a [= <-]. split; [|done].
    destruct (Hok tt eq_refl) as (Hk & e' & its' & He' & Hcls & Hkey & Hargs & Hans).
    apply (kept_answered_node h added _ x e e'); try done.
    by rewrite Hargs.
  - split; [by rewrite Hc; unfold tr0; rewrite <- app_assoc|].
    split; [by apply (pass_core_node h added)|done].
  - split; [by rewrite Hc; unfold tr0; rewrite <- app_assoc|].
    split; [by apply (pass_core_node h added)|done].
  - split; [by rewrite Hc; unfold tr0; rewrite <- app_assoc|].
    split; [by apply (pass_core_node h added)|done].
Qed.

(** C1, amended.  The pass over a tree, with a rewrite function that
    writes to no node of the store it is given (it may create nodes), in
    place or on the copy that [copy=True] makes first, the structure of the
    original at the next free locations.  However the pass ends, the
    rewrite function is called on nodes of that tree only, on each at most
    once, and on no node below a node for which it returned another value
    than the node itself; and every node of the store that it did not
    return unchanged holds what it held, parent reference apart.  So
    nothing of a replacement is visited or written, unless it is a node of
    the tree that the pass reaches through its own slot.  When the pass
    returns a value, it is the value that the rewrite function returned for
    the root, as it is; and every node returned unchanged holds, under each
    key and in a slot of the same kind, what the rewrite function returned
    for each child node, as it is, and the other values as they were. *)
Theorem transform_pass (fun_ : callback) (n : nat) (h : store) (self : loc)
    (fp : list loc) (tr : list (loc * value)) (fuel : nat) (copy : bool) :
  creates_only fun_ → tree_at n h self fp → (copy = true → n < fuel) →
  ∃ h0 node fp0 new,
    (if copy
     then (∃ added, h0 = h ++ added)
          ∧ node = length h ∧ fp0 = seq (length h) (length fp)
          ∧ shape_of n h0 (VNode node) = shape_of n h (VNode self)
     else h0 = h ∧ node = self ∧ fp0 = fp)
    ∧ tree_at n h0 node fp0
    ∧ calls (transform fuel fun_ self copy (mkState h tr)).2 = tr ++ new
    ∧ Forall (λ c, c.1 ∈ fp0) new
    ∧ NoDup new.*1
    ∧ nothing_below h0 new
    ∧ (∀ y, y < length h0 → (y, VNode y) ∉ new →
         agree_at h0 (heap (transform fuel fun_ self copy (mkState h tr)).2) y)
    ∧ (∀ v, (transform fuel fun_ self copy (mkState h tr)).1 = Val v →
         head new = Some (node, v)
         ∧ kept_answered h0 new
             (heap (transform fuel fun_ self copy (mkState h tr)).2)).
Proof.
  intros Hco Htree Hfuel. destruct copy.
  - destruct fuel as [|fuel]; [specialize (Hfuel eq_refl); lia|].
    destruct (deepcopy_tree n fuel ltac:(specialize (Hfuel eq_refl); lia)
                h tr ∅ self fp Htree)
      as (memo & added & Hcopy & Hlen & _ & Htree1 & Hshape & _);
      [by intros x _; apply lookup_empty|].
    rewrite (transform_copy_unfold fuel fun_ self _ _ _ _ Hcopy).
    destruct (transform_node_pass fun_ Hco (S fuel) n (h ++ added) tr
                (length h) _ Htree1)
      as (new & Hc & (_ & Hall & Hnd & Hnb & Hag) & Hok).
    exists (h ++ added), (length h), (seq (length h) (length fp)), new.
    split; [split; [by exists added|done]|]. split; [done|].
    split; [done|]. split; [done|]. split; [done|]. split; [done|].
    split.
    + intros y Hy Hnew. apply Hag; [done|by intros ?%elem_of_nil|done].
    + intros v Hv. destruct (Hok v Hv). done.
  - destruct (transform_node_pass fun_ Hco fuel n h tr self fp Htree)
      as (new & Hc & (_ & Hall & Hnd & Hnb & Hag) & Hok).
    exists h, self, fp, new.
    split; [done|]. split; [done|].
    split; [done|]. split; [done|]. split; [done|]. split; [done|].
    split.
    + intros y Hy Hnew. apply Hag; [done|by intros ?%elem_of_nil|done].
    + intros v Hv. destruct (Hok v Hv). done.
Qed.

Lemma transform_pass_witness :
  ∃ h0 node fp0 new,
    (h0 = alias_example ∧ node = 0 ∧ fp0 = [0; 1; 2])
    ∧ tree_at 2 h0 node fp0
    ∧ calls (transform 3 alias_callback 0 false (mkState alias_example [])).2
      = [] ++ new
    ∧ Forall (λ c, c.1 ∈ fp0) new
    ∧ NoDup new.*1
    ∧ nothing_below h0 new
    ∧ (∀ y, y < length h0 → (y, VNode y) ∉ new →
         agree_at h0
           (heap (transform 3 alias_callback 0 false (mkState alias_example [])).2) y)
    ∧ (∀ v, (transform 3 alias_callback 0 false (mkState alias_example [])).1
            = Val v →
         head new = Some (node, v)
         ∧ kept_answered h0 new
             (heap (transform 3 alias_callback 0 false (mkState alias_example [])).2)).
Proof.
  assert (Hco : creates_only alias_callback).
  { intros l h. exists []. cbn [alias_callback fst]. by rewrite app_nil_r. }
  assert (Htree : tree_at 2 alias_example 0 [0; 1; 2]).
  { exists (mkExpression "EQ"
              [("this", Single (VNode 1)); ("expression", Single (VNode 2))]
              None None), [[1]; [2]].
    split; [reflexivity|].
    split; [apply (bool_decide_unpack _); vm_compute; reflexivity|].
    split; [|split; [reflexivity|apply (bool_decide_unpack _); vm_compute; reflexivity]].
    constructor; [|constructor; [|constructor]].
    - exists (mkExpression "Star" [] (Some 0) None), [].
      split; [reflexivity|]. split; [constructor|].
      split; [constructor|].
      split; [reflexivity|apply (bool_decide_unpack _); vm_compute; reflexivity].
    - exists (mkExpression "Null" [] (Some 0) None), [].
      split; [reflexivity|]. split; [constructor|].
      split; [constructor|].
      split; [reflexivity|apply (bool_decide_unpack _); vm_compute; reflexivity]. }
  exact (transform_pass alias_callback 2 alias_example 0 [0; 1; 2] [] 3 false
           Hco Htree (λ H, False_ind _ (Bool.diff_false_true H))).
Defined.

(** A rewrite function that writes to the tree is not covered: called on
    the [Star] node of [graft_example], [graft_callback] answers the
    [Paren] node and puts the child of that node under [expression] in the
    root; the pass then calls the rewrite function on this child of the
    replacement. *)
Lemma transform_writing_callback :
  ¬ creates_only graft_callback
  ∧ (transform 3 graft_callback 0 false (mkState graft_example [])).1
    = Val (VNode 0)
  ∧ calls (transform 3 graft_callback 0 false (mkState graft_example [])).2
    = [(0, VNode 0); (1, VNode 3); (4, VNode 4)]
  ∧ child_locs (mkExpression "Paren" [("this", Single (VNode 4))] None None)
    = [4].
Proof.
  split; [|split; [reflexivity|split; reflexivity]].
  intros Hco. destruct (Hco 1 graft_example) as [added Hadd].
  apply (f_equal (λ l : store, l !! 0)) in Hadd. by destruct added.
Qed.
